(** * gsinks: counting one-sink extensions of small digraphs

    A shallow embedding of [gsinks.c] and the verification of its
    specification.  The C program keeps its working data in file-scope
    arrays and scalars; the embedding threads them explicitly:

    - [tarjan_state] holds the globals of the SCC decomposer
      ([sccinfos], [currentSCC], [isFirstSCC], [vinfos], [vertex_index],
      [stack], [stack_top]);
    - [vcolg_state] holds the globals of the colouring search taken over
      from vcolg.c ([col], [first], [lastreject], [lastrejok], [groupsize],
      [newgroupsize], [fail_level]) together with [totalCount] and what was
      written to stdout.

    C arrays indexed by [int] are total maps [Z -> _]; [int] and [long]
    values are [Z].  Every quantity except one is reset for each digraph
    or each file and bounded by MAXN, by the number of colourings of one
    digraph, or by the number of digraphs of a file; the exception is the
    discovery counter [vertex_index], which only ever grows, and whose
    increment is therefore written with the wrap-around of a 32-bit
    [int].  With MAXN = WORDSIZE = 32 nauty fixes MAXM = 1, so a [set] and
    a graph row are one [setword]. *)

From Stdlib Require Import ZArith List Lia Bool FinFun Sorted.
From Stdlib Require String Ascii DecimalString DecimalPos.
Import ListNotations.
Local Open Scope Z_scope.

(** ** Option monad for partial steps

    [None] stands for a step the C program cannot take in a defined way
    (a pop from the empty stack, a push beyond the array) or for a loop
    counter of the model running out. *)

Definition obind {A B : Type} (m : option A) (f : A -> option B) : option B :=
  match m with
  | Some a => f a
  | None => None
  end.

Notation "x <- m ;; k" := (obind m (fun x => k))
  (at level 61, m at next level, right associativity).

Definition upd {A : Type} (a : Z -> A) (i : Z) (x : A) : Z -> A :=
  fun j => if j =? i then x else a j.

(** [range n] is the index sequence of [for (i = 0; i < n; ++i)]. *)
Definition range (n : Z) : list Z := map Z.of_nat (seq 0 (Z.to_nat n)).

(** ** nauty's one-word sets *)

Definition MAXN : Z := 32.
Definition WORDSIZE : Z := 32.
Definition UNDEFINED : Z := -1.

Definition INT_MAX : Z := 2147483647.

(** The value of a 32-bit two's-complement [int] after an arithmetic
    result [x] is stored in it. *)
Definition wrap_int (x : Z) : Z := (x + 2 ^ 31) mod 2 ^ 32 - 2 ^ 31.

Definition setword := Z.
Definition graph := Z -> setword.

(** nauty numbers the elements of a setword from its most significant
    bit: [bit[x]] is [0x80000000 >> x]. *)
Definition BITT (x : Z) : setword := Z.shiftl 1 (WORDSIZE - 1 - x).

Definition ISELEMENT (s : setword) (x : Z) : bool := Z.testbit s (WORDSIZE - 1 - x).
Definition ADDELEMENT (s : setword) (x : Z) : setword := Z.lor s (BITT x).
Definition DELELEMENT (s : setword) (x : Z) : setword := Z.ldiff s (BITT x).
Definition FLIPELEMENT (s : setword) (x : Z) : setword := Z.lxor s (BITT x).
Definition UNION (x y : setword) : setword := Z.lor x y.
Definition SETDIFF (x y : setword) : setword := Z.ldiff x y.

(** [within n s]: [s] is a set of vertices below [n] (and has no bit
    outside the 32-bit word). *)
Definition within (n : Z) (s : setword) : Prop :=
  forall i, Z.testbit s i = true -> WORDSIZE - n <= i < WORDSIZE.

(** The elements [>= x] of [s] among the next [cnt] positions, ascending. *)
Fixpoint elems_from (cnt : nat) (s : setword) (x : Z) : list Z :=
  match cnt with
  | O => []
  | S c => if ISELEMENT s x then x :: elems_from c s (x + 1)
           else elems_from c s (x + 1)
  end.

(** [nextelement(set,1,pos)]: the least element above [pos], or -1. *)
Definition nextelement (s : setword) (pos : Z) : Z :=
  if pos <? 0 then hd (-1) (elems_from (Z.to_nat WORDSIZE) s 0)
  else hd (-1) (elems_from (Z.to_nat (WORDSIZE - 1 - pos)) s (pos + 1)).

Definition setlist (s : setword) : list Z := elems_from (Z.to_nat WORDSIZE) s 0.

(** [for (; w > UNDEFINED; w = nextelement(gp,m,w)) body] *)
Fixpoint foreach_from {A : Type} (cnt : nat) (gp : setword) (w : Z)
    (body : Z -> A -> option A) (a : A) : option A :=
  if w >? UNDEFINED then
    match cnt with
    | O => None
    | S c => a' <- body w a ;; foreach_from c gp (nextelement gp w) body a'
    end
  else Some a.

Fixpoint ofold {A : Type} (body : Z -> A -> option A) (l : list Z) (a : A) : option A :=
  match l with
  | [] => Some a
  | w :: l' => a' <- body w a ;; ofold body l' a'
  end.

(** ** The SCC decomposer *)

Record vinfo := mkvinfo {
  index : Z;
  lowlink : Z;
  onstack : bool;
  descendents : setword }.

Record sccinfo := mksccinfo {
  sccVertices : setword;
  isLeaf : bool;
  sccSize : Z }.

Record tarjan_state := mkts {
  sccinfos : Z -> sccinfo;
  currentSCC : Z;
  isFirstSCC : bool;
  vinfos : Z -> vinfo;
  vertex_index : Z;
  stack : Z -> Z;
  stack_top : Z }.

Definition set_vinfo (v : Z) (x : vinfo) (s : tarjan_state) : tarjan_state :=
  mkts (sccinfos s) (currentSCC s) (isFirstSCC s) (upd (vinfos s) v x)
       (vertex_index s) (stack s) (stack_top s).

Definition set_sccinfo (i : Z) (x : sccinfo) (s : tarjan_state) : tarjan_state :=
  mkts (upd (sccinfos s) i x) (currentSCC s) (isFirstSCC s) (vinfos s)
       (vertex_index s) (stack s) (stack_top s).

Definition set_index (v x : Z) (s : tarjan_state) : tarjan_state :=
  let i := vinfos s v in
  set_vinfo v (mkvinfo x (lowlink i) (onstack i) (descendents i)) s.

Definition set_lowlink (v x : Z) (s : tarjan_state) : tarjan_state :=
  let i := vinfos s v in
  set_vinfo v (mkvinfo (index i) x (onstack i) (descendents i)) s.

Definition set_onstack (v : Z) (b : bool) (s : tarjan_state) : tarjan_state :=
  let i := vinfos s v in
  set_vinfo v (mkvinfo (index i) (lowlink i) b (descendents i)) s.

Definition set_descendents (v : Z) (d : setword) (s : tarjan_state) : tarjan_state :=
  let i := vinfos s v in
  set_vinfo v (mkvinfo (index i) (lowlink i) (onstack i) d) s.

Definition set_vertex_index (x : Z) (s : tarjan_state) : tarjan_state :=
  mkts (sccinfos s) (currentSCC s) (isFirstSCC s) (vinfos s) x (stack s) (stack_top s).

Definition set_currentSCC (x : Z) (s : tarjan_state) : tarjan_state :=
  mkts (sccinfos s) x (isFirstSCC s) (vinfos s) (vertex_index s) (stack s) (stack_top s).

Definition set_isFirstSCC (b : bool) (s : tarjan_state) : tarjan_state :=
  mkts (sccinfos s) (currentSCC s) b (vinfos s) (vertex_index s) (stack s) (stack_top s).

Definition set_stack_top (x : Z) (s : tarjan_state) : tarjan_state :=
  mkts (sccinfos s) (currentSCC s) (isFirstSCC s) (vinfos s) (vertex_index s) (stack s) x.

(** [pop] reads [stack[stack_top]]; below the array there is nothing to
    read. *)
Definition pop (s : tarjan_state) : option (Z * tarjan_state) :=
  if stack_top s <? 0 then None
  else Some (stack s (stack_top s), set_stack_top (stack_top s - 1) s).

(** [push] writes [stack[stack_top + 1]]; the array has MAXN cells. *)
Definition push (data : Z) (s : tarjan_state) : option tarjan_state :=
  let top := stack_top s + 1 in
  if top >=? MAXN then None
  else Some (mkts (sccinfos s) (currentSCC s) (isFirstSCC s) (vinfos s)
                  (vertex_index s) (upd (stack s) top data) top).

(** The [do ... while (w != v)] loop that closes a component. *)
Fixpoint pop_scc (cnt : nat) (v : Z) (s : tarjan_state) (desc : setword) (size : Z)
    : option (tarjan_state * setword * Z) :=
  match cnt with
  | O => None
  | S c =>
      r <- pop s ;;
      let '(w, s) := r in
      let s := set_onstack w false s in
      let size := size + 1 in
      let cur := sccinfos s (currentSCC s) in
      let s := set_sccinfo (currentSCC s)
                 (mksccinfo (ADDELEMENT (sccVertices cur) w) (isLeaf cur) (sccSize cur)) s in
      let desc := ADDELEMENT desc w in
      let desc := UNION desc (descendents (vinfos s w)) in
      if w =? v then Some (s, desc, size) else pop_scc c v s desc size
  end.

Definition set_isLeaf (i : Z) (b : bool) (s : tarjan_state) : tarjan_state :=
  let cur := sccinfos s i in
  set_sccinfo i (mksccinfo (sccVertices cur) b (sccSize cur)) s.

Definition set_sccSize (i : Z) (x : Z) (s : tarjan_state) : tarjan_state :=
  let cur := sccinfos s i in
  set_sccinfo i (mksccinfo (sccVertices cur) (isLeaf cur) x) s.

(** Lines 494-522: close the component rooted at [v] when its lowlink
    equals its index. *)
Definition close_scc (v : Z) (s : tarjan_state) : option tarjan_state :=
  if lowlink (vinfos s v) =? index (vinfos s v) then
    r <- pop_scc (Z.to_nat (stack_top s + 1)) v s 0 0 ;;
    let '(s, desc, size) := r in
    let s := set_sccSize (currentSCC s) size s in
    let s :=
      if isFirstSCC s then
        set_isFirstSCC false (set_isLeaf (currentSCC s) true s)
      else if SETDIFF desc (sccVertices (sccinfos s (currentSCC s))) =? 0 then
        set_isLeaf (currentSCC s) true s
      else s in
    Some (set_currentSCC (currentSCC s + 1) s)
  else Some s.

(** Lines 465-469. *)
Definition enter (v : Z) (s : tarjan_state) : option tarjan_state :=
  let s := set_index v (vertex_index s) s in
  let s := set_lowlink v (vertex_index s) s in
  let s := set_vertex_index (wrap_int (vertex_index s + 1)) s in
  s <- push v s ;;
  Some (set_onstack v true s).

(** The body of the neighbour loop, lines 476-492; [call] is the
    recursive call. *)
Definition visit_edge (call : Z -> tarjan_state -> option tarjan_state)
    (v w : Z) (s : tarjan_state) : option tarjan_state :=
  let s := set_descendents v (ADDELEMENT (descendents (vinfos s v)) w) s in
  if index (vinfos s w) =? UNDEFINED then
    s <- call w s ;;
    Some (if lowlink (vinfos s v) >? lowlink (vinfos s w)
          then set_lowlink v (lowlink (vinfos s w)) s else s)
  else if onstack (vinfos s w) then
    Some (if lowlink (vinfos s v) >? index (vinfos s w)
          then set_lowlink v (index (vinfos s w)) s else s)
  else Some s.

Fixpoint strongconnect (fuel : nat) (g : graph) (v : Z) (s : tarjan_state)
    : option tarjan_state :=
  match fuel with
  | O => None
  | S fuel' =>
      s <- enter v s ;;
      let gp := g v in
      s <- foreach_from (Z.to_nat WORDSIZE) gp (nextelement gp UNDEFINED)
             (visit_edge (strongconnect fuel' g) v) s ;;
      close_scc v s
  end.

Definition fresh_vinfo : vinfo := mkvinfo UNDEFINED UNDEFINED false 0.
Definition fresh_sccinfo : sccinfo := mksccinfo 0 false 0.

(** Lines 422-435. *)
Definition tarjan_reset (n : Z) (s : tarjan_state) : tarjan_state :=
  let s := set_stack_top (-1) s in
  let s := set_currentSCC 0 s in
  let s := set_isFirstSCC true s in
  fold_left (fun s i => set_sccinfo i fresh_sccinfo (set_vinfo i fresh_vinfo s))
            (range n) s.

(** [tarjan(g,m,n)].  The closing loop of the C function (lines 444-454)
    only walks the recorded sets and changes nothing. *)
Definition tarjan (g : graph) (n : Z) (s : tarjan_state) : option tarjan_state :=
  ofold (fun v s => if index (vinfos s v) =? UNDEFINED
                    then strongconnect (S (Z.to_nat n)) g v s
                    else Some s)
        (range n) (tarjan_reset n s).

(** The state of a freshly started process: static storage is zeroed,
    [stack_top] is -1 and [vertex_index] is 0. *)
Definition initial_tarjan_state : tarjan_state :=
  mkts (fun _ => mksccinfo 0 false 0) 0 false (fun _ => mkvinfo 0 0 false 0) 0
       (fun _ => 0) (-1).


(** ** The colouring search (from vcolg.c) and the admissibility filter *)

Definition perm := Z -> Z.

(** Globals of the search, [totalCount], and what the program wrote to
    stdout ([written]: the graphs handed to [writed6] as row lists with
    their vertex count).  [calls] is instrumentation with no counterpart
    in the C state: the colourings with which [filter_and_output] was
    called, in order. *)
Record vcolg_state := mkvs {
  col : Z -> Z;
  first : bool;
  lastreject : Z -> Z;
  lastrejok : bool;
  groupsize : Z;
  newgroupsize : Z;
  fail_level : Z;
  totalCount : Z;
  written : list (list setword * Z);
  calls : list (list Z) }.

Definition set_col (x : Z -> Z) (s : vcolg_state) : vcolg_state :=
  mkvs x (first s) (lastreject s) (lastrejok s) (groupsize s) (newgroupsize s)
       (fail_level s) (totalCount s) (written s) (calls s).
Definition set_first (x : bool) (s : vcolg_state) : vcolg_state :=
  mkvs (col s) x (lastreject s) (lastrejok s) (groupsize s) (newgroupsize s)
       (fail_level s) (totalCount s) (written s) (calls s).
Definition set_lastreject (x : Z -> Z) (s : vcolg_state) : vcolg_state :=
  mkvs (col s) (first s) x (lastrejok s) (groupsize s) (newgroupsize s)
       (fail_level s) (totalCount s) (written s) (calls s).
Definition set_lastrejok (x : bool) (s : vcolg_state) : vcolg_state :=
  mkvs (col s) (first s) (lastreject s) x (groupsize s) (newgroupsize s)
       (fail_level s) (totalCount s) (written s) (calls s).
Definition set_groupsize (x : Z) (s : vcolg_state) : vcolg_state :=
  mkvs (col s) (first s) (lastreject s) (lastrejok s) x (newgroupsize s)
       (fail_level s) (totalCount s) (written s) (calls s).
Definition set_newgroupsize (x : Z) (s : vcolg_state) : vcolg_state :=
  mkvs (col s) (first s) (lastreject s) (lastrejok s) (groupsize s) x
       (fail_level s) (totalCount s) (written s) (calls s).
Definition set_fail_level (x : Z) (s : vcolg_state) : vcolg_state :=
  mkvs (col s) (first s) (lastreject s) (lastrejok s) (groupsize s) (newgroupsize s)
       x (totalCount s) (written s) (calls s).
Definition set_totalCount (x : Z) (s : vcolg_state) : vcolg_state :=
  mkvs (col s) (first s) (lastreject s) (lastrejok s) (groupsize s) (newgroupsize s)
       (fail_level s) x (written s) (calls s).
Definition set_written (x : list (list setword * Z)) (s : vcolg_state) : vcolg_state :=
  mkvs (col s) (first s) (lastreject s) (lastrejok s) (groupsize s) (newgroupsize s)
       (fail_level s) (totalCount s) x (calls s).
Definition set_calls (x : list (list Z)) (s : vcolg_state) : vcolg_state :=
  mkvs (col s) (first s) (lastreject s) (lastrejok s) (groupsize s) (newgroupsize s)
       (fail_level s) (totalCount s) (written s) x.

(** The colouring [col[0..n-1]] as a list. *)
Definition coloring (c : Z -> Z) (n : Z) : list Z := map c (range n).

(** Lines 116-124: the [do ... while (j != UNDEFINED)] walk over the
    members of one component, starting at [j]. *)
Fixpoint leaf_scan (cnt : nat) (S : setword) (c : Z -> Z) (j : Z) : bool :=
  if negb (c j =? 0) then true
  else
    let j' := nextelement S j in
    if j' =? UNDEFINED then false
    else match cnt with
         | O => false
         | S cnt' => leaf_scan cnt' S c j'
         end.

Definition leafcoloured (S : setword) (c : Z -> Z) : bool :=
  leaf_scan (Z.to_nat WORDSIZE) S c (nextelement S UNDEFINED).

(** Lines 111-126: no leaf component is left without a vertex coloured 1. *)
Definition admissible (t : tarjan_state) (c : Z -> Z) : bool :=
  forallb (fun i => negb (isLeaf (sccinfos t i))
                    || leafcoloured (sccVertices (sccinfos t i)) c)
          (range (currentSCC t)).

(** Lines 131-141: the digraph on [n+1] vertices with the rows of [g]
    and an edge to the new vertex [n] from every coloured vertex. *)
Definition extend (g : graph) (c : Z -> Z) (n : Z) : graph :=
  fun j => if (0 <=? j) && (j <? n)
           then (if negb (c j =? 0) then ADDELEMENT (g j) n else g j)
           else 0.

Definition filter_and_output (t : tarjan_state) (dswitch : bool) (g : graph) (n : Z)
    (s : vcolg_state) : vcolg_state :=
  let s := set_calls (calls s ++ [coloring (col s) n]) s in
  if admissible t (col s) then
    let s := if dswitch
             then set_written (written s ++
                    [(map (extend g (col s) n) (range (n + 1)), n + 1)]) s
             else s in
    set_totalCount (totalCount s + 1) s
  else s.

(** [ismax(p,n)]: test if col^p <= col; the loop from position [i] with
    the running maximum [fail]. *)
Fixpoint ismax_from (cnt : nat) (p : perm) (i fail : Z) (s : vcolg_state)
    : bool * vcolg_state :=
  match cnt with
  | O => (true, set_newgroupsize (newgroupsize s + 1) s)
  | S cnt' =>
      let k := p i in
      let fail := if k >? fail then k else fail in
      if col s k >? col s i then (false, set_fail_level fail s)
      else if col s k <? col s i then (true, s)
      else ismax_from cnt' p (i + 1) fail s
  end.

Definition ismax (p : perm) (n : Z) (s : vcolg_state) : bool * vcolg_state :=
  ismax_from (Z.to_nat n) p 0 0 s.

(** [testmax(p,n,&abort)]; the boolean is the value stored in [abort]. *)
Definition testmax (p : perm) (n : Z) (s : vcolg_state) : bool * vcolg_state :=
  if first s then (false, set_first false s)
  else
    let '(ok, s) := ismax p n s in
    if ok then (false, s)
    else (true,
          set_lastrejok true
            (set_lastreject
               (fun i => if (0 <=? i) && (i <? n) then p i else lastreject s i) s)).

Fixpoint allgroup2_from (elts : list perm) (n : Z) (s : vcolg_state)
    : bool * vcolg_state :=
  match elts with
  | [] => (false, s)
  | p :: rest =>
      let '(abort, s) := testmax p n s in
      if abort then (true, s) else allgroup2_from rest n s
  end.

Definition identity_perm : perm := fun i => i.

(** Modelled from the spec: nauty's [allgroup2(group,testmax)], which is
    not part of this repository.  It calls the action for every element
    of the group, the identity first, stops as soon as the action sets
    [abort], and returns that flag.  A [grouprec] is represented by the
    non-identity elements in the order [allgroup2] produces them. *)
Definition allgroup2 (group : list perm) (n : Z) (s : vcolg_state)
    : bool * vcolg_state :=
  allgroup2_from (identity_perm :: group) n s.

(** Lines 209-226 of [trythisone]: the decision. *)
Definition accept_test (group : option (list perm)) (n : Z) (s : vcolg_state)
    : bool * vcolg_state :=
  let full (s : vcolg_state) (grp : list perm) :=
    let s := set_first true (set_newgroupsize 1 s) in
    let '(abort, s) := allgroup2 grp n s in
    (negb abort, s) in
  match group with
  | None => (true, s)
  | Some grp =>
      if groupsize s =? 1 then (true, s)
      else if lastrejok s then
        let '(ok, s) := ismax (lastreject s) n s in
        if negb ok then (false, s)
        else if groupsize s =? 2 then (true, s)
        else full s grp
      else full s grp
  end.

(** [trythisone]: try one solution, accept if maximal; the value is the
    level to return to. *)
Definition trythisone (group : option (list perm)) (t : tarjan_state) (dswitch : bool)
    (g : graph) (n : Z) (s : vcolg_state) : Z * vcolg_state :=
  let s := set_newgroupsize 1 s in
  let '(accept, s) := accept_test group n s in
  if accept then (n - 1, filter_and_output t dswitch g n s)
  else (fail_level s - 1, s).


(** [for (k = min; k <= max; ++k)] of [scan]; [cnt] is the number of
    values of [k] left, [body k] colours the vertex and recurses. *)
Fixpoint scan_loop (cnt : nat) (level k : Z)
    (body : Z -> vcolg_state -> option (Z * vcolg_state)) (s : vcolg_state)
    : option (Z * vcolg_state) :=
  match cnt with
  | O => Some (level - 1, s)
  | S cnt' =>
      r <- body k s ;;
      let '(ret, s) := r in
      if ret <? level then Some (ret, s)
      else scan_loop cnt' level (k + 1) body s
  end.

(** [scan], with the action at the leaves of the search tree as a
    parameter so that the same text serves the program ([trythisone]) and
    the variant ([trythisone_full]). *)
Fixpoint scan_with (try : vcolg_state -> Z * vcolg_state) (fuel : nat) (level : Z)
    (prev : Z -> Z) (minedges maxedges sofar numcols n : Z) (s : vcolg_state)
    : option (Z * vcolg_state) :=
  if level =? n then Some (try s)
  else
    match fuel with
    | O => None
    | S fuel' =>
        let left := n - level - 1 in
        let min := minedges - sofar - numcols * left in
        let min := if min <? 0 then 0 else min in
        let max := maxedges - sofar in
        let max := if max >=? numcols then numcols - 1 else max in
        let max := if (prev level >=? 0) && (col s (prev level) <? max)
                   then col s (prev level) else max in
        scan_loop (Z.to_nat (max - min + 1)) level min
          (fun k s =>
             scan_with try fuel' (level + 1) prev minedges maxedges (sofar + k)
                       numcols n (set_col (upd (col s) level k) s))
          s
    end.

Definition scan (group : option (list perm)) (t : tarjan_state) (dswitch : bool)
    (g : graph) (level : Z) (prev : Z -> Z) (minedges maxedges sofar numcols n : Z)
    (s : vcolg_state) : option (Z * vcolg_state) :=
  scan_with (trythisone group t dswitch g n) (Z.to_nat (n - level)) level prev
            minedges maxedges sofar numcols n s.


(** ** [colourdigraph] *)

(** What the program uses of one run of nauty and of the group it leaves
    behind: [stats.grpsize1] (as the integer it holds), [stats.grpsize2],
    [stats.numorbits], [orbits], and the group as [allgroup2] enumerates
    it (without the identity). *)
Record nauty_result := mknauty {
  grpsize1 : Z;
  grpsize2 : Z;
  numorbits : Z;
  orbits : Z -> Z;
  group_elts : list perm }.

(** The automorphism oracle: nauty called on a digraph, the vertex
    weights that [setlabptn] turns into [lab] and [ptn], and [n]. *)
Definition oracle := graph -> (Z -> Z) -> Z -> nauty_result.

(** gtools.h *)
Definition NOLIMIT : Z := 2140000031.

(** Modelled from the spec: nauty's [converse(g,m,n)], which replaces a
    digraph by its converse. *)
Definition converse (g : graph) (n : Z) : graph :=
  fun i => fold_left (fun acc j => if ISELEMENT (g j) i then ADDELEMENT acc j else acc)
                     (range n) 0.

(** Lines 333-346: is the earlier vertex [j] equivalent to [i]? *)
Definition equivalent (g gconv : graph) (loop : Z -> bool) (i j : Z) : bool :=
  if negb (Bool.eqb (loop j) (loop i))
     || negb (Bool.eqb (ISELEMENT (g i) j) (ISELEMENT (g j) i)) then false
  else if (g i =? g j) && (gconv i =? gconv j) then true
  else (FLIPELEMENT (g i) i =? FLIPELEMENT (g j) j)
       && (FLIPELEMENT (gconv i) i =? FLIPELEMENT (gconv j) j).

(** The most recent [j] in [start..j] equivalent to [i], or [start-1]. *)
Fixpoint most_recent (cnt : nat) (eqv : Z -> bool) (start j : Z) : Z :=
  match cnt with
  | O => j
  | S cnt' => if j <? start then j
              else if eqv j then j
              else most_recent cnt' eqv start (j - 1)
  end.

(** Lines 325-358 for one region [start..stop-1]. *)
Definition region_pass (g gconv : graph) (loop : Z -> bool) (start stop : Z)
    (pw : (Z -> Z) * (Z -> Z)) : (Z -> Z) * (Z -> Z) :=
  fold_left
    (fun pw i =>
       let '(prev, weight) := pw in
       let j := most_recent (Z.to_nat (i - start)) (equivalent g gconv loop i)
                            start (i - 1) in
       if j >=? start then (upd prev i j, upd weight i (weight j + 1))
       else (upd prev i (-1), upd weight i 0))
    (map (fun k => start + k) (range (stop - start))) pw.

(** Lines 295-361: the self-loop flags, the digraph without its loops,
    and [prev] and [weight]. *)
Definition has_loop (g : graph) (i : Z) : bool := ISELEMENT (g i) i.

Definition strip_loops (g : graph) (n : Z) : graph :=
  fun i => if (0 <=? i) && (i <? n) && ISELEMENT (g i) i
           then DELELEMENT (g i) i else g i.

Definition prev_weight (g : graph) (nfixed n : Z) : (Z -> Z) * (Z -> Z) :=
  let g0 := strip_loops g n in
  let gconv := converse g0 n in
  let loop := has_loop g in
  let pw := (fun _ : Z => 0, fun _ : Z => 0) in
  let pw := if nfixed =? 0 then pw
            else region_pass g0 gconv loop 0 (if nfixed >? n then n else nfixed) pw in
  let pw := if nfixed >=? n then pw
            else region_pass g0 gconv loop nfixed n pw in
  let '(prev, weight) := pw in
  (prev, fun i => if (nfixed <=? i) && (i <? n) then weight i + nfixed else weight i).

(** Lines 395-403. *)
Definition orbit_prev (r : nauty_result) (n : Z) (prev : Z -> Z) : Z -> Z :=
  if numorbits r <? n then
    let j := fold_left (fun j i => if (orbits r i <? i) && (orbits r i <? j)
                                   then orbits r i else j) (range n) n in
    fold_left (fun prev i => if orbits r i =? j then upd prev i j else prev)
              (map (fun k => j + 1 + k) (range (n - (j + 1)))) prev
  else prev.

Definition colourdigraph (nauty : oracle) (t : tarjan_state) (dswitch : bool)
    (g : graph) (nfixed minedges maxedges numcols n : Z) (s : vcolg_state)
    : option vcolg_state :=
  if n >? MAXN then None
  else
    let '(prev, weight) := prev_weight g nfixed n in
    let maxedges := if (maxedges =? NOLIMIT) || (maxedges >? n * numcols)
                    then n * numcols else maxedges in
    if n * numcols <? minedges then Some s
    else if n =? 0 then
      r <- scan None t dswitch g 0 prev minedges maxedges 0 numcols n s ;;
      Some (snd r)
    else
      let res := nauty g weight n in
      let s := set_groupsize (if grpsize2 res =? 0 then grpsize1 res else 0) s in
      let prev := orbit_prev res n prev in
      let s := set_lastrejok false s in
      let s := set_col (fun i => if (0 <=? i) && (i <? n) then 0 else col s i) s in
      r <- scan (Some (group_elts res)) t dswitch g 0 prev minedges maxedges 0
             numcols n s ;;
      Some (snd r).


(** ** The batch driver (lines 603-630 of [main]) *)

Record globals := mkglobals {
  tj : tarjan_state;
  vc : vcolg_state }.

(** Lines 621-623: one digraph. *)
Definition process_graph (nauty : oracle) (dswitch : bool) (gn : graph * Z)
    (st : globals) : option globals :=
  let '(g, n) := gn in
  t <- tarjan g n (tj st) ;;
  c <- colourdigraph nauty t dswitch g 0 0 NOLIMIT 2 n (vc st) ;;
  Some (mkglobals t c).

(** The [while] loop over the digraphs of one input file. *)
Fixpoint process_graphs (nauty : oracle) (dswitch : bool) (gs : list (graph * Z))
    (st : globals) : option globals :=
  match gs with
  | [] => Some st
  | gn :: rest => st <- process_graph nauty dswitch gn st ;;
                  process_graphs nauty dswitch rest st
  end.

(** One turn of the [for] loop over the input files: the digraphs of
    the file, the total printed to stderr unless [-q], and the reset. *)
Definition process_file (nauty : oracle) (qswitch dswitch : bool)
    (gs : list (graph * Z)) (st : globals * list Z) : option (globals * list Z) :=
  let '(st, stderr) := st in
  st <- process_graphs nauty dswitch gs st ;;
  let stderr := if qswitch then stderr else stderr ++ [totalCount (vc st)] in
  Some (mkglobals (tj st) (set_totalCount 0 (vc st)), stderr).

Fixpoint process_files (nauty : oracle) (qswitch dswitch : bool)
    (files : list (list (graph * Z))) (st : globals * list Z)
    : option (globals * list Z) :=
  match files with
  | [] => Some st
  | gs :: rest => st <- process_file nauty qswitch dswitch gs st ;;
                  process_files nauty qswitch dswitch rest st
  end.

(** The state of a freshly started process. *)
Definition initial_vcolg_state : vcolg_state :=
  mkvs (fun _ => 0) false (fun _ => 0) false 0 0 0 0 [] [].

Definition initial_globals : globals :=
  mkglobals initial_tarjan_state initial_vcolg_state.

(** ** Vocabulary for the decomposer's invariants *)

(** A digraph on [n <= MAXN] vertices as the reader delivers it: row [v]
    holds out-neighbours below [n] only. *)
Definition wf_graph (g : graph) (n : Z) : Prop :=
  0 <= n <= MAXN /\ forall v, 0 <= v < n -> within n (g v).

Definition edge (g : graph) (u w : Z) : Prop := ISELEMENT (g u) w = true.

Definition visited (s : tarjan_state) (v : Z) : Prop :=
  index (vinfos s v) <> UNDEFINED.

Definition isnew (n : Z) (s : tarjan_state) (v : Z) : Prop :=
  0 <= v < n /\ index (vinfos s v) = UNDEFINED.

(** The live part of the stack array, top first. *)
Definition stack_list (s : tarjan_state) : list Z :=
  map (stack s) (rev (range (stack_top s + 1))).

Definition nvisited (n : Z) (s : tarjan_state) : nat :=
  length (filter (fun u => negb (index (vinfos s u) =? UNDEFINED)) (range n)).

(** Vertex [v] is a member of the [i]-th recorded component. *)
Definition inscc (s : tarjan_state) (i v : Z) : Prop :=
  ISELEMENT (sccVertices (sccinfos s i)) v = true.

(** No edge of [g] leaves the vertex set [S]. *)
Definition closed_set (g : graph) (S : setword) : Prop :=
  forall u w, ISELEMENT S u = true -> edge g u w -> ISELEMENT S w = true.

(** The invariant of the decomposer between any two steps; [b] is the
    value [vertex_index] had when [tarjan] was entered. *)
Record TInv (g : graph) (n b : Z) (s : tarjan_state) : Prop := {
  ti_top : -1 <= stack_top s;
  ti_base : 0 <= b <= vertex_index s;
  ti_index : forall v, 0 <= v < n ->
      index (vinfos s v) = UNDEFINED \/ b <= index (vinfos s v) < vertex_index s;
  ti_fresh : forall v, 0 <= v < n ->
      index (vinfos s v) = UNDEFINED -> vinfos s v = fresh_vinfo;
  ti_stack_in : forall v,
      In v (stack_list s) <-> (0 <= v < n /\ onstack (vinfos s v) = true);
  ti_sorted : StronglySorted
      (fun a c => index (vinfos s a) > index (vinfos s c)) (stack_list s);
  ti_count1 : currentSCC s + (stack_top s + 1) <= vertex_index s - b;
  ti_count2 : vertex_index s - b = Z.of_nat (nvisited n s);
  ti_cur : 0 <= currentSCC s;
  ti_first : isFirstSCC s = true <-> currentSCC s = 0;
  ti_scc_fresh : forall i, currentSCC s <= i < n -> sccinfos s i = fresh_sccinfo;
  ti_scc_within : forall i, 0 <= i < currentSCC s ->
      within n (sccVertices (sccinfos s i));
  ti_scc_nonempty : forall i, 0 <= i < currentSCC s -> exists v, inscc s i v;
  ti_scc_part : forall v, 0 <= v < n ->
      ((exists i, 0 <= i < currentSCC s /\ inscc s i v)
       <-> (visited s v /\ onstack (vinfos s v) = false));
  ti_scc_disj : forall i j v, 0 <= i < currentSCC s -> 0 <= j < currentSCC s ->
      inscc s i v -> inscc s j v -> i = j;
  ti_leaf : forall i, 0 <= i < currentSCC s ->
      (isLeaf (sccinfos s i) = true <-> closed_set g (sccVertices (sccinfos s i)));
  ti_leaf0 : 0 < currentSCC s -> isLeaf (sccinfos s 0) = true;
  ti_size : forall i, 0 <= i < currentSCC s ->
      sccSize (sccinfos s i) = Z.of_nat (length (setlist (sccVertices (sccinfos s i))));
  ti_single : forall i u u', 0 <= i < currentSCC s ->
      inscc s i u -> (forall w, ~ edge g u w) -> inscc s i u' -> u' = u
}.

(** What a call of [strongconnect] started in [s0] leaves untouched. *)
Record Frame (n : Z) (s0 s : tarjan_state) : Prop := {
  fr_vinfo : forall u, ~ isnew n s0 u -> vinfos s u = vinfos s0 u;
  fr_scc : forall i, i < currentSCC s0 -> sccinfos s i = sccinfos s0 i;
  fr_cur : currentSCC s0 <= currentSCC s;
  fr_vi : vertex_index s0 <= vertex_index s;
  fr_newidx : forall u, isnew n s0 u -> visited s u ->
      vertex_index s0 <= index (vinfos s u)
}.

(** A vertex first reached during the call started in [s0] and already
    finished: its recorded descendants are its whole row and all its
    out-neighbours have been reached. *)
Definition finished (g : graph) (s : tarjan_state) (u : Z) : Prop :=
  descendents (vinfos s u) = g u /\ forall w, edge g u w -> visited s w.

Definition low_ok (s0 s : tarjan_state) (v : Z) : Prop :=
  lowlink (vinfos s v) <= index (vinfos s v) /\
  (lowlink (vinfos s v) = index (vinfos s v) \/
   exists x, In x (stack_list s0) /\ lowlink (vinfos s v) = index (vinfos s x)).

(** Precondition of [strongconnect(g,v,n,m)]. *)
Definition SPre (g : graph) (n b : Z) (v : Z) (s : tarjan_state) : Prop :=
  TInv g n b s /\ isnew n s v.

(** [s3] differs from [s2] at most in [vinfos[v].lowlink] and
    [vinfos[v].descendents]. *)
Definition vchanged (v : Z) (s2 s3 : tarjan_state) : Prop :=
  sccinfos s3 = sccinfos s2 /\ currentSCC s3 = currentSCC s2 /\
  isFirstSCC s3 = isFirstSCC s2 /\ vertex_index s3 = vertex_index s2 /\
  stack s3 = stack s2 /\ stack_top s3 = stack_top s2 /\
  (forall u, u <> v -> vinfos s3 u = vinfos s2 u) /\
  index (vinfos s3 v) = index (vinfos s2 v) /\
  onstack (vinfos s3 v) = onstack (vinfos s2 v).

(** Invariant of the neighbour loop of the call on [v] started in [s0],
    after the neighbours [done] have been handled: the part that does not
    speak of [vinfos[v].descendents]. *)
Record SCore (g : graph) (n b : Z) (v : Z) (s0 : tarjan_state)
    (done : list Z) (s : tarjan_state) : Prop := {
  sl_inv0 : TInv g n b s0;
  sl_inv : TInv g n b s;
  sl_frame : Frame n s0 s;
  sl_new : isnew n s0 v;
  sl_vi : vertex_index s0 < vertex_index s;
  sl_index : index (vinfos s v) = vertex_index s0;
  sl_stack : exists A, stack_list s = A ++ v :: stack_list s0 /\
      (forall u, In u A -> isnew n s0 u /\ u <> v /\ exists w, edge g u w) /\
      (done = [] -> A = []);
  sl_low : low_ok s0 s v;
  sl_low_nil : done = [] -> lowlink (vinfos s v) = index (vinfos s v);
  sl_fin : forall u, isnew n s0 u -> u <> v -> visited s u -> finished g s u;
  sl_done : forall w, In w done -> 0 <= w < n /\ visited s w;
  sl_first : isFirstSCC s = true ->
      (forall u w, isnew n s0 u -> u <> v -> visited s u -> edge g u w ->
         lowlink (vinfos s v) <= index (vinfos s w)) /\
      (forall w, In w done -> lowlink (vinfos s v) <= index (vinfos s w))
}.

Record SLoop (g : graph) (n b : Z) (v : Z) (s0 : tarjan_state)
    (done : list Z) (s : tarjan_state) : Prop := {
  sl_core : SCore g n b v s0 done s;
  sl_desc : forall y, ISELEMENT (descendents (vinfos s v)) y = true <-> In y done;
  sl_desc_in : within n (descendents (vinfos s v))
}.

(** Postcondition of the call on [v] started in [s0]. *)
Record SPost (g : graph) (n b : Z) (v : Z) (s0 s : tarjan_state) : Prop := {
  sp_inv : TInv g n b s;
  sp_frame : Frame n s0 s;
  sp_vi : vertex_index s0 < vertex_index s;
  sp_index : index (vinfos s v) = vertex_index s0;
  sp_stack : exists A, stack_list s = A ++ stack_list s0 /\
      (forall u, In u A -> isnew n s0 u /\ exists w, edge g u w) /\
      (lowlink (vinfos s v) = index (vinfos s v) -> A = []) /\
      (lowlink (vinfos s v) <> index (vinfos s v) -> exists A', A = A' ++ [v]);
  sp_low : low_ok s0 s v;
  sp_fin : forall u, isnew n s0 u -> visited s u -> finished g s u;
  sp_first : isFirstSCC s = true ->
      forall u w, isnew n s0 u -> visited s u -> edge g u w ->
        lowlink (vinfos s v) <= index (vinfos s w)
}.

(** ** Two runs of the decomposer that differ in where the counter
    [vertex_index] started *)

(** The records of one vertex in the two runs: the same, but for the
    discovery index and the lowlink, which are [d] apart once the vertex
    has been reached. *)
Definition vinfo_shift (d : Z) (x1 x2 : vinfo) : Prop :=
  onstack x1 = onstack x2 /\ descendents x1 = descendents x2 /\
  (index x2 = UNDEFINED -> index x1 = UNDEFINED /\ lowlink x1 = lowlink x2) /\
  (index x2 <> UNDEFINED ->
     index x1 <> UNDEFINED /\ index x1 = index x2 + d /\ lowlink x1 = lowlink x2 + d).

(** [s1] is [s2] with the counter [d] further on, on the cells a run on
    [n] vertices reads. *)
Record shifted (n d : Z) (s1 s2 : tarjan_state) : Prop := {
  sh_cur : currentSCC s1 = currentSCC s2;
  sh_first : isFirstSCC s1 = isFirstSCC s2;
  sh_top : stack_top s1 = stack_top s2;
  sh_vi : vertex_index s1 = vertex_index s2 + d;
  sh_vinfo : forall v, 0 <= v < n -> vinfo_shift d (vinfos s1 v) (vinfos s2 v);
  sh_scc : forall i, 0 <= i < n -> sccinfos s1 i = sccinfos s2 i;
  sh_stack : forall i, 0 <= i <= stack_top s2 -> stack s1 i = stack s2 i
}.

(** ** Vocabulary for the search *)

(** Lexicographic order on colourings of the same length. *)
Inductive lex_le : list Z -> list Z -> Prop :=
| lex_le_nil : lex_le [] []
| lex_le_lt x y a b : x < y -> length a = length b -> lex_le (x :: a) (y :: b)
| lex_le_eq x a b : lex_le a b -> lex_le (x :: a) (x :: b).

(** The colouring [col] permuted by [p]: position [i] holds [col[p[i]]]. *)
Definition permuted (c : Z -> Z) (p : perm) (n : Z) : list Z :=
  coloring (fun i => c (p i)) n.

(** [c] is the lexicographically greatest colouring of its orbit under
    the group (the identity and [grp]). *)
Definition orbit_maximal (grp : list perm) (c : Z -> Z) (n : Z) : Prop :=
  forall p, In p (identity_perm :: grp) -> lex_le (permuted c p n) (coloring c n).

(** The comparison [ismax] makes, without the state: [Some f] when
    [col^p > col] is found, [f] being the level stored in [fail_level]. *)
Fixpoint lexfail (cnt : nat) (p : perm) (c : Z -> Z) (i fail : Z) : option Z :=
  match cnt with
  | O => None
  | S cnt' =>
      let k := p i in
      let fail := if k >? fail then k else fail in
      if c k >? c i then Some fail
      else if c k <? c i then None
      else lexfail cnt' p c (i + 1) fail
  end.

Definition lexok (n : Z) (c : Z -> Z) (p : perm) : bool :=
  match lexfail (Z.to_nat n) p c 0 0 with
  | None => true
  | Some _ => false
  end.

(** A candidate passes the canonicity test: there is no group, the
    oracle reported order 1, or no element of the group makes it larger. *)
Definition passes (group : option (list perm)) (gs n : Z) (c : Z -> Z) : bool :=
  match group with
  | None => true
  | Some grp => (gs =? 1) || forallb (lexok n c) grp
  end.

Definition is_perm (p : perm) (n : Z) : Prop :=
  (forall i, 0 <= i < n -> 0 <= p i < n) /\
  (forall i j, 0 <= i < n -> 0 <= j < n -> p i = p j -> i = j).

(** The remembered rejection, when there is one, is an element of the
    group. *)
Definition witness_ok (group : option (list perm)) (n : Z) (s : vcolg_state) : Prop :=
  match group with
  | None => True
  | Some grp =>
      lastrejok s = true ->
      exists p, In p grp /\ forall i, 0 <= i < n -> lastreject s i = p i
  end.

(** What the oracle's answer must satisfy for the search to use it: the
    enumerated elements are permutations of [0..n-1], and a reported
    order of 2 means one element besides the identity. *)
Definition group_ok (group : option (list perm)) (gs n : Z) : Prop :=
  match group with
  | None => True
  | Some grp => (forall p, In p grp -> is_perm p n) /\ (gs = 2 -> length grp = 1%nat)
  end.

(** Rejection certificate: every colouring that agrees with [c] up to
    level [ret] and is at least as large at level [ret+1] fails the
    canonicity test. *)
Definition rejects_beyond (group : option (list perm)) (gs n : Z) (c : Z -> Z)
    (ret : Z) : Prop :=
  forall c', (forall j, 0 <= j <= ret -> c' j = c j) -> c (ret + 1) <= c' (ret + 1) ->
             passes group gs n c' = false.

(** The observable effect of the program: the counter, what was
    written, and the colourings handed to the filter. *)
Definition obs : Type := Z * list (list setword * Z) * list (list Z).

Definition obs_of (s : vcolg_state) : obs := (totalCount s, written s, calls s).

(** Effect of one call of [filter_and_output] with colouring [c]. *)
Definition filter_obs (t : tarjan_state) (dswitch : bool) (g : graph) (n : Z)
    (c : Z -> Z) (o : obs) : obs :=
  let '(tc, wr, ca) := o in
  let ca := ca ++ [coloring c n] in
  if admissible t c then
    (tc + 1,
     if dswitch then wr ++ [(map (extend g c n) (range (n + 1)), n + 1)] else wr,
     ca)
  else (tc, wr, ca).

(** [s'] has the colouring, the group order and the observable effect
    of [s]. *)
Definition keeps (s s' : vcolg_state) : Prop :=
  col s' = col s /\ groupsize s' = groupsize s /\ obs_of s' = obs_of s.

Definition lookup (l : list Z) (j : Z) : Z := nth (Z.to_nat j) l 0.

(** The array that holds the list [cl] below [n] and [cout] elsewhere. *)
Definition fill (n : Z) (cout : Z -> Z) (cl : list Z) : Z -> Z :=
  fun j => if (0 <=? j) && (j <? n) then lookup cl j else cout j.

Definition replay (t : tarjan_state) (dswitch : bool) (g : graph) (n : Z)
    (cout : Z -> Z) (cls : list (list Z)) (o : obs) : obs :=
  fold_left (fun o cl => filter_obs t dswitch g n (fill n cout cl) o) cls o.

(** The values [k, k+1, ..] of a loop with [cnt] turns. *)
Definition kvalues (k : Z) (cnt : nat) : list Z :=
  map (fun i => k + Z.of_nat i) (seq 0 cnt).

(** The complete colourings the loops of [scan] run through below a
    prefix [pre] of length [level], in order, [d] levels from the end. *)
Fixpoint candidates (prev : Z -> Z) (minedges maxedges numcols n : Z)
    (d : nat) (level sofar : Z) (pre : list Z) : list (list Z) :=
  match d with
  | O => [pre]
  | S d' =>
      let left := n - level - 1 in
      let min := minedges - sofar - numcols * left in
      let min := if min <? 0 then 0 else min in
      let max := maxedges - sofar in
      let max := if max >=? numcols then numcols - 1 else max in
      let max := if (prev level >=? 0) && (lookup pre (prev level) <? max)
                 then lookup pre (prev level) else max in
      flat_map (fun k => candidates prev minedges maxedges numcols n d'
                           (level + 1) (sofar + k) (pre ++ [k]))
               (kvalues min (Z.to_nat (max - min + 1)))
  end.


(** The candidates that pass the canonicity test, in order. *)
Definition survivors (group : option (list perm)) (gs n : Z) (cout : Z -> Z)
    (cls : list (list Z)) : list (list Z) :=
  filter (fun cl => passes group gs n (fill n cout cl)) cls.

(** The oracle's answer for [g] is usable by the search. *)
Definition oracle_ok (nauty : oracle) (g : graph) (nfixed n : Z) : Prop :=
  let res := nauty g (snd (prev_weight g nfixed n)) n in
  group_ok (Some (group_elts res)) (if grpsize2 res =? 0 then grpsize1 res else 0) n.

(** The effect of [colourdigraph] on what is observable, as a function
    of the digraph, the decomposition [t] and the oracle alone: the
    candidates of the search that pass the canonicity test go through
    the filter, in order.  [cout] stands for the cells of [col] the
    search does not write. *)
Definition colour_effect (nauty : oracle) (t : tarjan_state) (dswitch : bool)
    (g : graph) (nfixed minedges maxedges numcols n : Z) (cout : Z -> Z)
    (o : obs) : obs :=
  let '(prev, weight) := prev_weight g nfixed n in
  let maxedges := if (maxedges =? NOLIMIT) || (maxedges >? n * numcols)
                  then n * numcols else maxedges in
  if n * numcols <? minedges then o
  else
    let res := nauty g weight n in
    let group := if n =? 0 then None else Some (group_elts res) in
    let gs := if grpsize2 res =? 0 then grpsize1 res else 0 in
    let prev := if n =? 0 then prev else orbit_prev res n prev in
    replay t dswitch g n cout
      (survivors group gs n cout
         (candidates prev minedges maxedges numcols n (Z.to_nat n) 0 0 []))
      o.

(** ** The result for one digraph *)

(** The decomposition of [g] by a freshly started process. *)
Definition reference_scc (g : graph) (n : Z) : tarjan_state :=
  match tarjan g n initial_tarjan_state with
  | Some t => t
  | None => initial_tarjan_state
  end.

(** What processing [g] adds to the observable state, as a function of
    [g] and the oracle alone. *)
Definition graph_effect (nauty : oracle) (dswitch : bool) (g : graph) (n : Z)
    (o : obs) : obs :=
  colour_effect nauty (reference_scc g n) dswitch g 0 0 NOLIMIT 2 n (fun _ => 0) o.

Definition obs_count (o : obs) : Z := fst (fst o).

(** The number of colourings of [g] the program accepts. *)
Definition graph_count (nauty : oracle) (g : graph) (n : Z) : Z :=
  obs_count (graph_effect nauty false g n (0, [], [])).

Definition total_vertices (gs : list (graph * Z)) : Z :=
  fold_right (fun gn a => snd gn + a) 0 gs.

Definition total_count (nauty : oracle) (gs : list (graph * Z)) : Z :=
  fold_right (fun gn a => graph_count nauty (fst gn) (snd gn) + a) 0 gs.

(** An input the program is meant for: a digraph on at most MAXN
    vertices, for which the oracle returns permutations. *)
Definition input_ok (nauty : oracle) (gn : graph * Z) : Prop :=
  wf_graph (fst gn) (snd gn) /\
  (0 < snd gn -> oracle_ok nauty (fst gn) 0 (snd gn)).

(** ** Small inputs *)

(** The digraph on two vertices with the single edge 0 -> 1. *)
Definition g01 : graph := fun v => if v =? 0 then ADDELEMENT 0 1 else 0.

(** The 2-cycle 0 <-> 1. *)
Definition g2c : graph :=
  fun v => if v =? 0 then ADDELEMENT 0 1 else if v =? 1 then ADDELEMENT 0 0 else 0.

(** The digraph without vertices. *)
Definition gempty : graph := fun _ => 0.

(** The transposition of the vertices 0 and 1. *)
Definition swap01 : perm := fun i => if i =? 0 then 1 else if i =? 1 then 0 else i.

(** An oracle that reports the trivial group: every vertex its own
    orbit, no automorphism but the identity. *)
Definition trivial_oracle : oracle :=
  fun _ _ n => mknauty 1 0 n (fun i => i) [].

(** An oracle that reports the group generated by [swap01], with one
    orbit. *)
Definition swap_oracle : oracle :=
  fun _ _ _ => mknauty 2 0 1 (fun _ => 0) [swap01].

(** The colouring that gives vertex 1 the colour 1 and every other
    vertex the colour 0. *)
Definition col_01 : Z -> Z := fun i => if i =? 1 then 1 else 0.

(** A process whose counter [vertex_index] has reached INT_MAX. *)
Definition late_globals : globals :=
  mkglobals (set_vertex_index INT_MAX initial_tarjan_state) initial_vcolg_state.

(** ** Further vocabulary *)

(** The sum of the [sccSize] fields of the recorded components. *)
Definition sum_sizes (t : tarjan_state) : Z :=
  fold_right Z.add 0 (map (fun i => sccSize (sccinfos t i)) (range (currentSCC t))).

(** There is a directed path from [u] to [w]. *)
Inductive reach (g : graph) : Z -> Z -> Prop :=
| reach_refl u : reach g u u
| reach_step u w x : edge g u w -> reach g w x -> reach g u x.

(** The first vertex of the region of [i]: the vertices below [nfixed]
    form one region, the others another (lines 309-323). *)
Definition region_start (nfixed i : Z) : Z := if i <? nfixed then 0 else nfixed.

(** The test of lines 333-346 as [colourdigraph] applies it: on the
    digraph without its loops, its converse and the loop flags. *)
Definition twin_test (g : graph) (n i j : Z) : bool :=
  equivalent (strip_loops g n) (converse (strip_loops g n) n) (has_loop g) i j.

Definition sumlist (l : list Z) : Z := fold_right Z.add 0 l.

(** A complete colouring within the budget of [scan]: [n] colours
    below [numcols], none greater than the colour of the vertex [prev]
    names, and a sum between [minedges] and [maxedges]. *)
Definition eligible (prev : Z -> Z) (minedges maxedges numcols n : Z) (cl : list Z)
    : Prop :=
  length cl = Z.to_nat n /\
  (forall i, 0 <= i < n ->
     0 <= lookup cl i <= numcols - 1 /\
     (0 <= prev i -> lookup cl i <= lookup cl (prev i))) /\
  minedges <= sumlist cl <= maxedges.

(** ** Reachability invariants of the decomposer *)

(** The recorded components are strongly connected, and an edge that
    starts in one of them ends in it or in one recorded before it. *)
Record RInv (g : graph) (s : tarjan_state) : Prop := {
  ri_conn : forall i u u', 0 <= i < currentSCC s ->
      inscc s i u -> inscc s i u' -> reach g u u';
  ri_down : forall i u w, 0 <= i < currentSCC s ->
      inscc s i u -> edge g u w -> exists j, 0 <= j <= i /\ inscc s j w
}.

(** Invariant of the neighbour loop of the call on [v] started in [s0]:
    what [lowlink] of [v] says about paths. *)
Record RLoop (g : graph) (n : Z) (v : Z) (s0 : tarjan_state)
    (done : list Z) (s : tarjan_state) : Prop := {
  rl_inv : RInv g s;
  rl_back : forall u, isnew n s0 u -> u <> v -> onstack (vinfos s u) = true ->
      exists x, In x (stack_list s) /\
        index (vinfos s x) < index (vinfos s u) /\
        lowlink (vinfos s v) <= index (vinfos s x) /\ reach g u x;
  rl_tree : forall u, isnew n s0 u -> visited s u -> reach g v u;
  rl_low : exists x, (x = v \/ In x (stack_list s0)) /\
      index (vinfos s x) = lowlink (vinfos s v) /\ reach g v x;
  rl_cross :
      (forall u y, isnew n s0 u -> u <> v -> visited s u -> edge g u y ->
         In y (stack_list s0) -> lowlink (vinfos s v) <= index (vinfos s y)) /\
      (forall y, In y done -> In y (stack_list s0) ->
         lowlink (vinfos s v) <= index (vinfos s y))
}.

(** What the call on [v] started in [s0] has established on return. *)
Record RPost (g : graph) (n : Z) (v : Z) (s0 s : tarjan_state) : Prop := {
  rp_inv : RInv g s;
  rp_back : forall u, isnew n s0 u -> u <> v -> onstack (vinfos s u) = true ->
      exists x, In x (stack_list s) /\
        index (vinfos s x) < index (vinfos s u) /\
        lowlink (vinfos s v) <= index (vinfos s x) /\ reach g u x;
  rp_tree : forall u, isnew n s0 u -> visited s u -> reach g v u;
  rp_low : exists x, (x = v \/ In x (stack_list s0)) /\
      index (vinfos s x) = lowlink (vinfos s v) /\ reach g v x;
  rp_cross : forall u y, isnew n s0 u -> visited s u -> edge g u y ->
      In y (stack_list s0) -> lowlink (vinfos s v) <= index (vinfos s y)
}.


(** ** The front end of [main] (lines 553-631)

    The model starts where [main] sets its switches, after the early
    returns of nauty's [HELP] and [PUTVERSION] macros and after
    [nauty_check].  The arguments are [argv[1]], [argv[2]], ...  as
    strings.  Three things come from outside the program and are
    parameters of the model: [strtol] is the C library's conversion of
    a string to a [long] in base 10; [nauty] is the automorphism-group
    computation; [opengraphfile] gives, for a file name, the digraphs
    that [readgg_inc] delivers from that file with their numbers of
    vertices, or [None] when the file cannot be opened. *)

Section MainModel.

Import Ascii String.

Variable strtol : string -> Z.
Variable nauty : oracle.
Variable opengraphfile : string -> option (list (graph * Z)).

Record options := mkoptions {
  qswitch : bool;
  dswitch : bool;
  lswitch : bool;
  countN : Z;
  badargs : bool }.

(** [arg[i]] of a NUL-terminated string. *)
Definition char_at (arg : string) (i : nat) : ascii :=
  match get i arg with
  | Some c => c
  | None => zero
  end.

(** The body of the argument loop, lines 564-577. *)
Definition parse_arg (arg : string) (o : options) : options :=
  if Ascii.eqb (char_at arg 0) "-" then
    if Ascii.eqb (char_at arg 1) "q" then
      mkoptions true (dswitch o) (lswitch o) (countN o) (badargs o)
    else if Ascii.eqb (char_at arg 1) "d" then
      mkoptions (qswitch o) true (lswitch o) (countN o) (badargs o)
    else if Ascii.eqb (char_at arg 1) "l" then
      mkoptions (qswitch o) (dswitch o) true (countN o) (badargs o)
    else mkoptions (qswitch o) (dswitch o) (lswitch o) (countN o) true
  else
    let c := strtol arg in
    mkoptions (qswitch o) (dswitch o) (lswitch o) c
              (if c <=? 0 then true else badargs o).

(** [for (j = 1; !badargs && j < argc; ++j)] *)
Fixpoint parse_args (args : list string) (o : options) : options :=
  match args with
  | [] => o
  | arg :: rest => if badargs o then o else parse_args rest (parse_arg arg o)
  end.

Definition INFILE_PREFIX : string := "dig".
Definition INFILE_LOOP_MODIFIER : ascii := "l".
Definition INFILE_SUFFIX : string := ".d6".

(** What printf's [%d] prints for [i]. *)
Definition decimal (i : Z) : string :=
  DecimalString.NilZero.string_of_int (Z.to_int i).

(** Lines 606-612.  [snprintf] is given the size [filepart - infilename]
    and writes at most one character fewer than that; the array
    [infilename] has 10 cells, the terminating NUL included, and a name
    that does not fit has no defined meaning. *)
Definition infilename (lswitch : bool) (i : Z) : option string :=
  let name := INFILE_PREFIX in
  let name := if lswitch then append name (String INFILE_LOOP_MODIFIER EmptyString)
              else name in
  let size := length name in
  let name := append name (substring 0 (size - 1) (decimal i)) in
  let name := append name INFILE_SUFFIX in
  if (10 <=? length name)%nat then None else Some name.

(** The [for] loop over the input files, lines 603-630, with [cnt]
    turns left; the result is the value passed to [exit]. *)
Fixpoint file_loop (cnt : nat) (i : Z) (o : options) (st : globals * list Z)
    : option (Z * (globals * list Z)) :=
  match cnt with
  | O => Some (0, st)
  | S c =>
      name <- infilename (lswitch o) i ;;
      match opengraphfile name with
      | None => Some (1, st)
      | Some gs =>
          st <- process_file nauty (qswitch o) (dswitch o) gs st ;;
          file_loop c (i + 1) o st
      end
  end.

(** What a run leaves behind: the exit status, whether the usage
    message was printed, the totals printed to stderr and the digraphs
    written to stdout. *)
Record run := mkrun {
  exit_code : Z;
  usage : bool;
  totals : list Z;
  output : list (list setword * Z) }.

Definition main (args : list string) : option run :=
  let o := parse_args args (mkoptions false false false 0 false) in
  if badargs o then Some (mkrun 1 true [] [])
  else
    let startN := if countN o =? 0 then 1 else wrap_int (countN o - 1) in
    let endN := if countN o =? 0 then 10 else wrap_int (countN o) in
    r <- file_loop (Z.to_nat (endN - startN)) startN o (initial_globals, []) ;;
    let '(code, (st, stderr)) := r in
    Some (mkrun code false stderr (written (vc st))).

(** *** Vocabulary for the properties of [main] *)

Definition is_switch (arg : string) : bool := Ascii.eqb (char_at arg 0) "-".

Definition switch_is (c : ascii) (arg : string) : bool :=
  is_switch arg && Ascii.eqb (char_at arg 1) c.

(** An argument the program rejects: a switch other than [-q], [-d],
    [-l], or a vertex count that is not positive. *)
Definition bad_arg (arg : string) : bool :=
  if is_switch arg
  then negb (Ascii.eqb (char_at arg 1) "q" || Ascii.eqb (char_at arg 1) "d"
             || Ascii.eqb (char_at arg 1) "l")
  else strtol arg <=? 0.

Definition has_switch (c : ascii) (args : list string) : bool :=
  existsb (switch_is c) args.

(** The value of the last argument that is not a switch, 0 if there is
    none. *)
Definition last_count (args : list string) : Z :=
  fold_left (fun z arg => if is_switch arg then z else strtol arg) args 0.

(** The index of the first file the run reads, and the number of files
    it is prepared to read. *)
Definition first_index (args : list string) : Z :=
  if last_count args =? 0 then 1 else last_count args - 1.

Definition turns (args : list string) : nat :=
  if last_count args =? 0 then 9%nat else 1%nat.

(** The intended name of the file of the digraphs on [i] vertices. *)
Definition dig_name (l : bool) (i : Z) : string :=
  append INFILE_PREFIX
    (append (if l then String INFILE_LOOP_MODIFIER EmptyString else EmptyString)
       (append (decimal i) INFILE_SUFFIX)).

Definition switch_q : ascii := "q".
Definition switch_d : ascii := "d".
Definition switch_l : ascii := "l".

End MainModel.

(** Arguments and a file system for the examples: [gsinks -q 3] and
    [gsinks -x], where only [dig2.d6] exists and holds one digraph. *)
Section MainExamples.

Import Ascii String.

Definition args_q3 : list string := ["-q"%string; "3"%string].
Definition args_x : list string := ["-d"%string; "-x"%string; "3"%string].

Definition strtol_digit (arg : string) : Z :=
  if String.eqb arg "3" then 3 else 0.

Definition one_file (name : string) : option (list (graph * Z)) :=
  if String.eqb name "dig2.d6" then Some [(g01, 2)] else None.

End MainExamples.
(** * Facts about the set operations *)

Section Bitsets.

Lemma upd_same {A : Type} (a : Z -> A) i x : upd a i x i = x.
Proof. unfold upd. now rewrite Z.eqb_refl. Qed.

Lemma upd_other {A : Type} (a : Z -> A) i j x : j <> i -> upd a i x j = a j.
Proof. unfold upd. intros H. apply Z.eqb_neq in H. now rewrite H. Qed.

Lemma In_range n x : In x (range n) <-> 0 <= x < n.
Proof.
  unfold range. rewrite in_map_iff. split.
  - intros (k & <- & Hk). apply in_seq in Hk. lia.
  - intros H. exists (Z.to_nat x). split; [lia|]. apply in_seq. lia.
Qed.

Lemma range_succ n : 0 <= n -> range (n + 1) = range n ++ [n].
Proof.
  intros H. unfold range.
  replace (Z.to_nat (n + 1)) with (S (Z.to_nat n)) by lia.
  rewrite seq_S, map_app. simpl. f_equal. f_equal. lia.
Qed.

Lemma NoDup_range n : NoDup (range n).
Proof.
  unfold range. apply Injective_map_NoDup.
  - intros a b H. lia.
  - apply seq_NoDup.
Qed.

Lemma length_range n : length (range n) = Z.to_nat n.
Proof. unfold range. now rewrite length_map, length_seq. Qed.

Lemma BITT_spec x i : 0 <= x < WORDSIZE ->
  Z.testbit (BITT x) i = (i =? WORDSIZE - 1 - x).
Proof.
  intros Hx. unfold BITT.
  destruct (Z.ltb_spec i 0) as [Hi|Hi].
  - rewrite Z.testbit_neg_r by lia. symmetry. apply Z.eqb_neq. unfold WORDSIZE in *. lia.
  - rewrite Z.shiftl_spec by lia.
    destruct (Z.eqb_spec i (WORDSIZE - 1 - x)) as [->|Hne].
    + now rewrite Z.sub_diag.
    + destruct (Z.ltb_spec (i - (WORDSIZE - 1 - x)) 0).
      * now rewrite Z.testbit_neg_r.
      * apply Z.bits_above_log2; [lia|]. change (Z.log2 1) with 0. lia.
Qed.

Lemma ISELEMENT_ADDELEMENT s x y : 0 <= x < WORDSIZE ->
  ISELEMENT (ADDELEMENT s x) y = (y =? x) || ISELEMENT s y.
Proof.
  intros Hx. unfold ISELEMENT, ADDELEMENT.
  rewrite Z.lor_spec, BITT_spec by assumption.
  rewrite orb_comm. f_equal.
  destruct (Z.eqb_spec y x), (Z.eqb_spec (WORDSIZE - 1 - y) (WORDSIZE - 1 - x)); auto; lia.
Qed.

Lemma ISELEMENT_UNION a b y : ISELEMENT (UNION a b) y = ISELEMENT a y || ISELEMENT b y.
Proof. unfold ISELEMENT, UNION. apply Z.lor_spec. Qed.

Lemma ISELEMENT_0 y : ISELEMENT 0 y = false.
Proof. unfold ISELEMENT. apply Z.bits_0. Qed.

Lemma within_0 n : within n 0.
Proof. intros i H. now rewrite Z.bits_0 in H. Qed.

Lemma within_ADDELEMENT n s x : 0 <= x < n -> n <= WORDSIZE ->
  within n s -> within n (ADDELEMENT s x).
Proof.
  intros Hx Hn Hs i H. unfold ADDELEMENT in H.
  rewrite Z.lor_spec, BITT_spec in H by lia.
  apply orb_true_iff in H as [H|H]; [now apply Hs|].
  apply Z.eqb_eq in H. lia.
Qed.

Lemma within_UNION n a b : within n a -> within n b -> within n (UNION a b).
Proof.
  intros Ha Hb i H. unfold UNION in H. rewrite Z.lor_spec in H.
  apply orb_true_iff in H as [H|H]; auto.
Qed.

Lemma within_mono n n' s : n <= n' -> within n s -> within n' s.
Proof. intros Hn Hs i H. apply Hs in H. lia. Qed.

Lemma within_ISELEMENT n s y : within n s -> ISELEMENT s y = true -> 0 <= y < n.
Proof. intros Hs H. unfold ISELEMENT in H. apply Hs in H. lia. Qed.

Lemma within_intro n s : within WORDSIZE s ->
  (forall y, ISELEMENT s y = true -> y < n) -> within n s.
Proof.
  intros Hs H i Hi. pose proof (Hs i Hi) as Hr.
  specialize (H (WORDSIZE - 1 - i)). unfold ISELEMENT in H.
  replace (WORDSIZE - 1 - (WORDSIZE - 1 - i)) with i in H by lia.
  specialize (H Hi). lia.
Qed.

Lemma SETDIFF_zero a b : within WORDSIZE a ->
  (SETDIFF a b = 0 <-> forall y, ISELEMENT a y = true -> ISELEMENT b y = true).
Proof.
  intros Ha. unfold SETDIFF, ISELEMENT. split.
  - intros H y Hy.
    assert (Hb : Z.testbit (Z.ldiff a b) (WORDSIZE - 1 - y) = false)
      by (rewrite H; apply Z.bits_0).
    rewrite Z.ldiff_spec, Hy in Hb. simpl in Hb. now apply negb_false_iff in Hb.
  - intros H. apply Z.bits_inj_0. intros i. rewrite Z.ldiff_spec.
    destruct (Z.testbit a i) eqn:Hi; [|reflexivity].
    pose proof (Ha i Hi) as Hr. specialize (H (WORDSIZE - 1 - i)).
    replace (WORDSIZE - 1 - (WORDSIZE - 1 - i)) with i in H by lia.
    rewrite (H Hi). reflexivity.
Qed.

Lemma setword_ext a b : within WORDSIZE a -> within WORDSIZE b ->
  (forall y, ISELEMENT a y = ISELEMENT b y) -> a = b.
Proof.
  intros Ha Hb H. apply Z.bits_inj'. intros i Hi.
  destruct (Z.ltb_spec i WORDSIZE) as [Hlt|Hge].
  - specialize (H (WORDSIZE - 1 - i)). unfold ISELEMENT in H.
    now replace (WORDSIZE - 1 - (WORDSIZE - 1 - i)) with i in H by lia.
  - destruct (Z.testbit a i) eqn:E1; [apply Ha in E1; lia|].
    destruct (Z.testbit b i) eqn:E2; [apply Hb in E2; lia|]. reflexivity.
Qed.

Lemma setword_empty s : within WORDSIZE s ->
  (forall y, ISELEMENT s y = false) -> s = 0.
Proof.
  intros Hs H. apply setword_ext; auto using within_0.
  intros y. now rewrite H, ISELEMENT_0.
Qed.

Lemma In_elems_from c s x y :
  In y (elems_from c s x) <-> (x <= y < x + Z.of_nat c /\ ISELEMENT s y = true).
Proof.
  revert x. induction c as [|c IH]; intros x; simpl elems_from.
  - simpl. lia.
  - destruct (ISELEMENT s x) eqn:E.
    + simpl. rewrite IH. split.
      * intros [<-|[H1 H2]]; split; auto; lia.
      * intros [H1 H2]. destruct (Z.eq_dec x y); [now left|right; split; auto; lia].
    + rewrite IH. split.
      * intros [H1 H2]; split; auto; lia.
      * intros [H1 H2]. split; auto.
        destruct (Z.eq_dec x y) as [->|]; [congruence|lia].
Qed.

Lemma NoDup_elems_from c s x : NoDup (elems_from c s x).
Proof.
  revert x. induction c as [|c IH]; intros x; simpl.
  - constructor.
  - destruct (ISELEMENT s x); auto. constructor; auto.
    rewrite In_elems_from. lia.
Qed.

Lemma length_elems_from c s x : (length (elems_from c s x) <= c)%nat.
Proof.
  revert x. induction c as [|c IH]; intros x; simpl; auto.
  destruct (ISELEMENT s x); simpl; specialize (IH (x + 1)); lia.
Qed.

Lemma In_setlist s y : In y (setlist s) <-> (0 <= y < WORDSIZE /\ ISELEMENT s y = true).
Proof.
  unfold setlist. rewrite In_elems_from.
  rewrite Z2Nat.id by (unfold WORDSIZE; lia). intuition lia.
Qed.

Lemma NoDup_setlist s : NoDup (setlist s).
Proof. apply NoDup_elems_from. Qed.

Lemma nextelement_elems s x : 0 <= x < WORDSIZE ->
  nextelement s x = hd (-1) (elems_from (Z.to_nat (WORDSIZE - 1 - x)) s (x + 1)).
Proof.
  intros H. unfold nextelement.
  destruct (Z.ltb_spec x 0); [lia|reflexivity].
Qed.

Lemma foreach_from_elems {A : Type} (body : Z -> A -> option A) s c :
  forall x fuel a, 0 <= x -> x + Z.of_nat c = WORDSIZE ->
    (length (elems_from c s x) <= fuel)%nat ->
    foreach_from fuel s (hd (-1) (elems_from c s x)) body a
    = ofold body (elems_from c s x) a.
Proof.
  induction c as [|c IH]; intros x fuel a Hx Hc Hf.
  - simpl. destruct fuel; reflexivity.
  - simpl elems_from in *. destruct (ISELEMENT s x) eqn:E.
    + simpl hd. simpl in Hf. destruct fuel as [|fuel]; [lia|].
      simpl. destruct (Z.gtb_spec x UNDEFINED) as [_|Hbad]; [|unfold UNDEFINED in Hbad; lia].
      destruct (body x a) as [a'|]; simpl; [|reflexivity].
      rewrite nextelement_elems by lia.
      replace (Z.to_nat (WORDSIZE - 1 - x)) with c by lia.
      apply IH; lia.
    + apply IH; lia.
Qed.

Lemma foreach_setlist {A : Type} (body : Z -> A -> option A) s a :
  foreach_from (Z.to_nat WORDSIZE) s (nextelement s UNDEFINED) body a
  = ofold body (setlist s) a.
Proof.
  unfold setlist. change (nextelement s UNDEFINED)
    with (hd (-1) (elems_from (Z.to_nat WORDSIZE) s 0)).
  apply foreach_from_elems; [lia| |apply length_elems_from].
  rewrite Z2Nat.id by (unfold WORDSIZE; lia). lia.
Qed.

End Bitsets.

(** * The decomposer: stack and counting lemmas *)

Section StackFacts.

Lemma length_stack_list s :
  length (stack_list s) = Z.to_nat (stack_top s + 1).
Proof. unfold stack_list. now rewrite length_map, length_rev, length_range. Qed.

Lemma stack_list_push s v s' : -1 <= stack_top s -> push v s = Some s' ->
  stack_list s' = v :: stack_list s /\ sccinfos s' = sccinfos s /\
  currentSCC s' = currentSCC s /\ isFirstSCC s' = isFirstSCC s /\
  vinfos s' = vinfos s /\ vertex_index s' = vertex_index s /\
  stack_top s' = stack_top s + 1.
Proof.
  intros Htop H. unfold push in H.
  destruct (stack_top s + 1 >=? MAXN); [discriminate|].
  injection H as <-. simpl. repeat split.
  unfold stack_list. simpl.
  rewrite range_succ by lia. rewrite rev_app_distr. simpl.
  rewrite upd_same. f_equal.
  apply map_ext_in. intros a Ha. apply in_rev, In_range in Ha.
  apply upd_other. lia.
Qed.

Lemma push_some s v : stack_top s + 1 < MAXN -> exists s', push v s = Some s'.
Proof.
  intros H. unfold push.
  destruct (Z.geb_spec (stack_top s + 1) MAXN); [lia|eauto].
Qed.

Lemma stack_list_pop s w s' : -1 <= stack_top s -> pop s = Some (w, s') ->
  stack_list s = w :: stack_list s' /\ sccinfos s' = sccinfos s /\
  currentSCC s' = currentSCC s /\ isFirstSCC s' = isFirstSCC s /\
  vinfos s' = vinfos s /\ vertex_index s' = vertex_index s /\
  stack_top s' = stack_top s - 1.
Proof.
  intros Htop H. unfold pop in H.
  destruct (Z.ltb_spec (stack_top s) 0); [discriminate|].
  injection H as <- <-. simpl. repeat split.
  unfold stack_list. simpl.
  replace (stack_top s + 1) with ((stack_top s - 1 + 1) + 1) at 1 by lia.
  rewrite range_succ by lia. rewrite rev_app_distr. simpl.
  f_equal. f_equal. lia.
Qed.

Lemma pop_some s : 0 <= stack_top s -> exists w s', pop s = Some (w, s').
Proof.
  intros H. unfold pop. destruct (Z.ltb_spec (stack_top s) 0); [lia|eauto].
Qed.

Lemma filter_length_le {A : Type} (p : A -> bool) l :
  (length (filter p l) <= length l)%nat.
Proof. induction l as [|a l IH]; simpl; [lia|]. destruct (p a); simpl; lia. Qed.

Lemma filter_length_flip {A : Type} (p q : A -> bool) (v : A) l :
  NoDup l -> In v l -> p v = false -> q v = true ->
  (forall u, u <> v -> q u = p u) ->
  length (filter q l) = S (length (filter p l)).
Proof.
  intros Hnd Hin Hp Hq Hext. induction l as [|a l IH]; [destruct Hin|].
  inversion Hnd as [|? ? Hnotin Hnd']; subst. simpl.
  destruct Hin as [->|Hin].
  - rewrite Hp, Hq. simpl. f_equal. f_equal. apply filter_ext_in.
    intros u Hu. apply Hext. intros ->. contradiction.
  - assert (a <> v) by (intros ->; contradiction).
    rewrite (Hext a) by assumption. destruct (p a); simpl; rewrite IH; auto.
Qed.

Lemma nvisited_le n s : (nvisited n s <= Z.to_nat n)%nat.
Proof.
  unfold nvisited. rewrite <- (length_range n). apply filter_length_le.
Qed.

Lemma nvisited_ext n s s' :
  (forall u, 0 <= u < n -> index (vinfos s' u) = index (vinfos s u)) ->
  nvisited n s' = nvisited n s.
Proof.
  intros H. unfold nvisited. f_equal. apply filter_ext_in.
  intros u Hu. apply In_range in Hu. now rewrite H.
Qed.

Lemma nvisited_enter n s s' v : isnew n s v ->
  index (vinfos s' v) <> UNDEFINED ->
  (forall u, u <> v -> index (vinfos s' u) = index (vinfos s u)) ->
  nvisited n s' = S (nvisited n s).
Proof.
  intros [Hv Hu] Hv' Hext. unfold nvisited.
  apply filter_length_flip with (v := v).
  - apply NoDup_range.
  - now apply In_range.
  - rewrite Hu. reflexivity.
  - apply negb_true_iff, Z.eqb_neq. assumption.
  - intros u Hne. now rewrite Hext.
Qed.

Lemma nvisited_lt n s v : isnew n s v -> (nvisited n s < Z.to_nat n)%nat.
Proof.
  intros Hv.
  pose (s' := set_index v 0 s).
  assert (H : nvisited n s' = S (nvisited n s)).
  { apply nvisited_enter with (v := v); auto.
    - unfold s', set_index. simpl. rewrite upd_same. simpl. discriminate.
    - intros u Hne. unfold s', set_index. simpl. now rewrite upd_other. }
  pose proof (nvisited_le n s'). lia.
Qed.

End StackFacts.

(** * The decomposer: single steps preserve the invariant *)

Section TarjanSteps.

Variable g : graph.
Variables n b : Z.
Hypothesis Hwf : wf_graph g n.
Hypothesis Hb : b + n <= INT_MAX.

Lemma wrap_int_small x : - 2 ^ 31 <= x <= INT_MAX -> wrap_int x = x.
Proof.
  intros H. unfold wrap_int, INT_MAX in *.
  rewrite Z.mod_small; lia.
Qed.

Lemma StronglySorted_impl {A : Type} (R R' : A -> A -> Prop) l :
  (forall a c, In a l -> In c l -> R a c -> R' a c) ->
  StronglySorted R l -> StronglySorted R' l.
Proof.
  intros H Hs. induction Hs as [|a l Hs IH Hall]; constructor.
  - apply IH. intros x y Hx Hy. apply H; now right.
  - rewrite Forall_forall in *. intros x Hx. apply H; [now left|now right|auto].
Qed.

Lemma StronglySorted_app_inv_r {A : Type} (R : A -> A -> Prop) l1 l2 :
  StronglySorted R (l1 ++ l2) -> StronglySorted R l2.
Proof.
  induction l1 as [|a l1 IH]; simpl; auto.
  intros H. inversion H; auto.
Qed.

Lemma StronglySorted_app_lt {A : Type} (R : A -> A -> Prop) l1 l2 x y :
  StronglySorted R (l1 ++ l2) -> In x l1 -> In y l2 -> R x y.
Proof.
  induction l1 as [|a l1 IH]; simpl; [contradiction|].
  intros H [->|Hx] Hy.
  - inversion H as [|? ? _ Hall]; subst. rewrite Forall_forall in Hall.
    apply Hall. apply in_or_app. now right.
  - inversion H; subst. auto.
Qed.

(** States that agree on everything the invariant looks at. *)
Lemma TInv_ext s s' :
  TInv g n b s ->
  sccinfos s' = sccinfos s -> currentSCC s' = currentSCC s ->
  isFirstSCC s' = isFirstSCC s -> vertex_index s' = vertex_index s ->
  stack_list s' = stack_list s -> stack_top s' = stack_top s ->
  (forall u, index (vinfos s' u) = index (vinfos s u)) ->
  (forall u, onstack (vinfos s' u) = onstack (vinfos s u)) ->
  (forall u, index (vinfos s u) = UNDEFINED -> vinfos s' u = vinfos s u) ->
  TInv g n b s'.
Proof.
  intros H Hscc Hcur Hfirst Hvi Hsl Htop Hidx Hon Hfresh.
  destruct H. constructor; unfold inscc, visited in *;
    rewrite ?Hscc, ?Hcur, ?Hfirst, ?Hvi, ?Hsl, ?Htop; auto.
  - intros v Hv. rewrite Hidx. auto.
  - intros v Hv Hu. rewrite Hidx in Hu. rewrite Hfresh; auto.
  - intros v. rewrite Hon. auto.
  - eapply StronglySorted_impl; [|eassumption].
    intros a c _ _. simpl. now rewrite !Hidx.
  - rewrite (nvisited_ext n s s'); auto.
  - intros v Hv. rewrite Hidx, Hon. auto.
Qed.

Lemma TInv_set_vinfo s v x :
  TInv g n b s -> index (vinfos s v) <> UNDEFINED ->
  index x = index (vinfos s v) -> onstack x = onstack (vinfos s v) ->
  TInv g n b (set_vinfo v x s).
Proof.
  intros H Hv Hi Ho. apply TInv_ext with (s := s); auto; simpl; intros u.
  - unfold upd. destruct (Z.eqb_spec u v) as [->|]; auto.
  - unfold upd. destruct (Z.eqb_spec u v) as [->|]; auto.
  - intros Hu. unfold upd. destruct (Z.eqb_spec u v) as [->|]; auto. contradiction.
Qed.

Lemma Frame_refl s : Frame n s s.
Proof.
  constructor; auto; try lia.
  intros u [_ Hu] Hv. contradiction.
Qed.

Lemma Frame_set_vinfo s0 s v x :
  Frame n s0 s -> isnew n s0 v -> index x = index (vinfos s v) ->
  Frame n s0 (set_vinfo v x s).
Proof.
  intros [F1 F2 F3 F4 F5] Hv Hi. constructor; simpl; auto.
  - intros u Hu. rewrite upd_other; auto. intros ->. contradiction.
  - intros u Hu. unfold visited. simpl. unfold upd.
    destruct (Z.eqb_spec u v) as [->|]; [rewrite Hi|]; apply F5; auto.
Qed.

Lemma onstack_visited s v : TInv g n b s -> 0 <= v < n ->
  onstack (vinfos s v) = true -> visited s v.
Proof.
  intros H Hv Ho Hu. apply (ti_fresh _ _ _ _ H) in Hu; auto.
  rewrite Hu in Ho. discriminate.
Qed.

Lemma stack_visited s v : TInv g n b s -> In v (stack_list s) ->
  0 <= v < n /\ visited s v.
Proof.
  intros H Hin. apply (ti_stack_in _ _ _ _ H) in Hin as [Hv Ho].
  split; auto. eapply onstack_visited; eauto.
Qed.

Lemma visited_index_lt s v : TInv g n b s -> 0 <= v < n -> visited s v ->
  b <= index (vinfos s v) < vertex_index s.
Proof.
  intros H Hv Hvis. destruct (ti_index _ _ _ _ H v Hv); auto. contradiction.
Qed.

Lemma NoDup_stack s : TInv g n b s -> NoDup (stack_list s).
Proof.
  intros H. pose proof (ti_sorted _ _ _ _ H) as Hs.
  induction Hs as [|a l Hs IH Hall]; constructor; auto.
  intros Hin. rewrite Forall_forall in Hall. specialize (Hall a Hin). lia.
Qed.

Lemma TInv_cur_le s : TInv g n b s -> currentSCC s + (stack_top s + 1) <= n.
Proof.
  intros H. pose proof (ti_count1 _ _ _ _ H). pose proof (ti_count2 _ _ _ _ H).
  pose proof (nvisited_le n s). destruct Hwf. lia.
Qed.

Lemma enter_fields v s s1 : -1 <= stack_top s ->
  0 <= vertex_index s + 1 <= INT_MAX -> enter v s = Some s1 ->
  stack_list s1 = v :: stack_list s /\
  vinfos s1 v = mkvinfo (vertex_index s) (vertex_index s) true
                        (descendents (vinfos s v)) /\
  (forall u, u <> v -> vinfos s1 u = vinfos s u) /\
  sccinfos s1 = sccinfos s /\ currentSCC s1 = currentSCC s /\
  isFirstSCC s1 = isFirstSCC s /\ vertex_index s1 = vertex_index s + 1 /\
  stack_top s1 = stack_top s + 1.
Proof.
  intros Htop Hrange H. unfold enter in H.
  cbn [set_index set_lowlink set_vinfo vertex_index] in H.
  rewrite wrap_int_small in H by (unfold INT_MAX in *; lia).
  match type of H with (obind (push v ?X) _ = _) =>
    destruct (push v X) as [s2|] eqn:Hp; [|discriminate] end.
  simpl in H. injection H as <-.
  apply stack_list_push in Hp; [|assumption].
  destruct Hp as (Hsl & Hscc & Hcur & Hfirst & Hvin & Hvi & Htop').
  simpl in *. rewrite Hvin. simpl.
  repeat split; auto.
  - rewrite upd_same. simpl. rewrite !upd_same. simpl. reflexivity.
  - intros u Hu. rewrite upd_other by auto. rewrite !upd_other by auto. reflexivity.
Qed.

Lemma enter_spec v s : SPre g n b v s ->
  exists s1, enter v s = Some s1 /\ SLoop g n b v s [] s1.
Proof.
  intros [Hinv Hnew].
  pose proof Hnew as [Hv Hu].
  assert (Hlt : stack_top s + 1 < MAXN).
  { pose proof (ti_count1 _ _ _ _ Hinv). pose proof (ti_count2 _ _ _ _ Hinv).
    pose proof (nvisited_lt n s v Hnew). pose proof (ti_cur _ _ _ _ Hinv).
    destruct Hwf. lia. }
  assert (Hs1 : exists s1, enter v s = Some s1).
  { unfold enter.
    match goal with |- exists _, obind (push v ?X) _ = _ =>
      destruct (push_some X v) as [s2 Hp]; [exact Hlt|rewrite Hp] end.
    simpl. eauto. }
  destruct Hs1 as [s1 Hs1]. exists s1. split; [assumption|].
  pose proof (ti_top _ _ _ _ Hinv) as Htop.
  assert (Hvir : 0 <= vertex_index s + 1 <= INT_MAX).
  { pose proof (ti_base _ _ _ _ Hinv). pose proof (ti_count2 _ _ _ _ Hinv).
    pose proof (nvisited_lt n s v Hnew). destruct Hwf. lia. }
  destruct (enter_fields v s s1 Htop Hvir Hs1)
    as (Hsl & Hvv & Hother & Hscc & Hcur & Hfirst & Hvi & Htop1).
  pose proof (ti_fresh _ _ _ _ Hinv v Hv Hu) as Hfr.
  assert (Hidx : forall u, u <> v -> index (vinfos s1 u) = index (vinfos s u))
    by (intros u Hne; now rewrite Hother).
  assert (Hvis : forall u, visited s u -> u <> v).
  { intros u Hvis ->. contradiction. }
  assert (Hinv1 : TInv g n b s1).
  { destruct Hinv.
    constructor; unfold inscc, visited in *;
      rewrite ?Hscc, ?Hcur, ?Hfirst, ?Hvi, ?Htop1; auto; try lia.
    + intros u Hu'. destruct (Z.eq_dec u v) as [->|Hne].
      * rewrite Hvv. simpl. right. lia.
      * rewrite Hidx by auto. destruct (ti_index0 u Hu'); [now left|right; lia].
    + intros u Hu' Hund. destruct (Z.eq_dec u v) as [->|Hne].
      * rewrite Hvv in Hund. simpl in Hund. unfold UNDEFINED in Hund. lia.
      * rewrite Hother by auto. apply ti_fresh0; auto. now rewrite <- Hidx.
    + intros u. rewrite Hsl. simpl. rewrite ti_stack_in0.
      destruct (Z.eq_dec u v) as [->|Hne].
      * rewrite Hvv. simpl. tauto.
      * rewrite Hother by auto. split; [intros [?|?]; [congruence|auto]|auto].
    + rewrite Hsl. constructor.
      * eapply StronglySorted_impl; [|exact ti_sorted0].
        intros a c Ha Hc. simpl.
        assert (a <> v).
        { intros ->. apply ti_stack_in0 in Ha as [_ Ha]. rewrite Hfr in Ha. discriminate. }
        assert (c <> v).
        { intros ->. apply ti_stack_in0 in Hc as [_ Hc]. rewrite Hfr in Hc. discriminate. }
        now rewrite !Hidx.
      * apply Forall_forall. intros x Hx.
        assert (Hxv : x <> v).
        { intros ->. apply ti_stack_in0 in Hx as [_ Hx]. rewrite Hfr in Hx. discriminate. }
        rewrite Hvv, Hidx by auto. simpl.
        pose proof Hx as Hx'. apply ti_stack_in0 in Hx' as [Hxr Hxo].
        destruct (ti_index0 x Hxr) as [Hbad|]; [|lia].
        apply ti_fresh0 in Hbad; auto. rewrite Hbad in Hxo. discriminate.
    + rewrite (nvisited_enter n s s1 v); auto; [lia|].
      rewrite Hvv. simpl. unfold UNDEFINED. lia.
    + intros u Hu'. rewrite ti_scc_part0 by auto.
      destruct (Z.eq_dec u v) as [->|Hne].
      * rewrite Hvv. simpl. split; [intros [Hc _]; contradiction|intros [_ Hc]; discriminate].
      * rewrite Hother by auto. tauto. }
  constructor; [constructor|..]; auto.
  - (* Frame *)
    constructor; try lia.
    + intros u Hnn. apply Hother. intros ->. contradiction.
    + intros i _. now rewrite Hscc.
    + intros u [Hur Huu] Hvis'. unfold visited in Hvis'.
      destruct (Z.eq_dec u v) as [->|Hne].
      * rewrite Hvv. simpl. lia.
      * rewrite Hidx in Hvis' by auto. contradiction.
  - lia.
  - rewrite Hvv. reflexivity.
  - exists []. split; [assumption|]. split; [intros u []|auto].
  - split; rewrite Hvv; simpl; [lia|now left].
  - intros _. rewrite Hvv. reflexivity.
  - intros u [Hur Huu] Hne Hvis'. unfold visited in Hvis'.
    rewrite Hidx in Hvis' by auto. contradiction.
  - intros w [].
  - intros _. split.
    + intros u w [Hur Huu] Hne Hvis'. unfold visited in Hvis'.
      rewrite Hidx in Hvis' by auto. contradiction.
    + intros w [].
  - intros y. rewrite Hvv. simpl. rewrite Hfr. simpl. rewrite ISELEMENT_0.
    split; [discriminate|intros []].
  - rewrite Hvv. simpl. rewrite Hfr. simpl. apply within_0.
Qed.

Lemma vchanged_refl v s : vchanged v s s.
Proof. unfold vchanged. repeat split; auto. Qed.

Lemma vchanged_trans v s1 s2 s3 :
  vchanged v s1 s2 -> vchanged v s2 s3 -> vchanged v s1 s3.
Proof.
  unfold vchanged.
  intros (A1 & A2 & A3 & A4 & A5 & A6 & A7 & A8 & A9)
         (B1 & B2 & B3 & B4 & B5 & B6 & B7 & B8 & B9).
  repeat split; try congruence.
  intros u Hu. rewrite B7, A7; auto.
Qed.

Lemma vchanged_set_lowlink v L s : vchanged v s (set_lowlink v L s).
Proof.
  unfold vchanged. simpl. repeat split; auto.
  - intros u Hu. now rewrite upd_other.
  - now rewrite upd_same.
  - now rewrite upd_same.
Qed.

Lemma vchanged_set_descendents v d s : vchanged v s (set_descendents v d s).
Proof.
  unfold vchanged. simpl. repeat split; auto.
  - intros u Hu. now rewrite upd_other.
  - now rewrite upd_same.
  - now rewrite upd_same.
Qed.

Lemma vchanged_index v s2 s3 u : vchanged v s2 s3 ->
  index (vinfos s3 u) = index (vinfos s2 u).
Proof.
  intros (_ & _ & _ & _ & _ & _ & H7 & H8 & _).
  destruct (Z.eq_dec u v) as [->|Hne]; [assumption|now rewrite H7].
Qed.

Lemma vchanged_onstack v s2 s3 u : vchanged v s2 s3 ->
  onstack (vinfos s3 u) = onstack (vinfos s2 u).
Proof.
  intros (_ & _ & _ & _ & _ & _ & H7 & _ & H9).
  destruct (Z.eq_dec u v) as [->|Hne]; [assumption|now rewrite H7].
Qed.

Lemma vchanged_visited v s2 s3 u : vchanged v s2 s3 ->
  (visited s3 u <-> visited s2 u).
Proof. intros H. unfold visited. now rewrite (vchanged_index v s2 s3 u H). Qed.

Lemma vchanged_stack_list v s2 s3 : vchanged v s2 s3 ->
  stack_list s3 = stack_list s2.
Proof.
  intros (_ & _ & _ & _ & H5 & H6 & _). unfold stack_list. now rewrite H5, H6.
Qed.

Lemma TInv_vchanged v s2 s3 :
  TInv g n b s2 -> visited s2 v -> vchanged v s2 s3 -> TInv g n b s3.
Proof.
  intros H Hv Hc. pose proof Hc as (H1 & H2 & H3 & H4 & H5 & H6 & H7 & H8 & H9).
  apply TInv_ext with (s := s2); auto.
  - eapply vchanged_stack_list; eauto.
  - intros u. eapply vchanged_index; eauto.
  - intros u. eapply vchanged_onstack; eauto.
  - intros u Hu. apply H7. intros ->. contradiction.
Qed.

Lemma Frame_vchanged s0 s2 s3 v :
  Frame n s0 s2 -> isnew n s0 v -> vchanged v s2 s3 -> Frame n s0 s3.
Proof.
  intros [F1 F2 F3 F4 F5] Hv Hc.
  pose proof Hc as (H1 & H2 & H3 & H4 & H5 & H6 & H7 & H8 & H9).
  constructor; rewrite ?H1, ?H2, ?H4; auto.
  - intros u Hu. rewrite H7; auto. intros ->. contradiction.
  - intros u Hu Hvis. rewrite (vchanged_index v s2 s3 u Hc).
    apply F5; auto. now apply (vchanged_visited v s2 s3 u Hc).
Qed.

Lemma Frame_trans s0 s1 s2 : Frame n s0 s1 -> Frame n s1 s2 -> Frame n s0 s2.
Proof.
  intros [F1 F2 F3 F4 F5] [G1 G2 G3 G4 G5]. constructor; try lia.
  - intros u Hu. rewrite G1, F1; auto.
    intros [Hr Hi]. rewrite F1 in Hi by auto. apply Hu. now split.
  - intros i Hi. rewrite G2, F2; auto. lia.
  - intros u Hu Hvis.
    destruct (Z.eq_dec (index (vinfos s1 u)) UNDEFINED) as [He|Hne].
    + assert (isnew n s1 u) by (destruct Hu; now split).
      specialize (G5 u H Hvis). lia.
    + assert (Hnn : ~ isnew n s1 u) by (intros [_ ?]; contradiction).
      rewrite (G1 u Hnn). apply F5; auto.
Qed.

Lemma Frame_visited s0 s u : Frame n s0 s -> visited s0 u -> visited s u.
Proof.
  intros F Hv. unfold visited. rewrite (fr_vinfo _ _ _ F); auto.
  intros [_ H]. contradiction.
Qed.

Lemma Frame_first s0 s : TInv g n b s0 -> TInv g n b s -> Frame n s0 s ->
  isFirstSCC s = true -> isFirstSCC s0 = true.
Proof.
  intros H0 H F Hf. apply (ti_first _ _ _ _ H) in Hf.
  apply (ti_first _ _ _ _ H0). pose proof (fr_cur _ _ _ F).
  pose proof (ti_cur _ _ _ _ H0). lia.
Qed.

(** Changing only [lowlink] and [descendents] of [v], with the same
    lowlink, keeps the core invariant. *)
Lemma SCore_vchanged v s0 done s s1 :
  SCore g n b v s0 done s -> vchanged v s s1 ->
  lowlink (vinfos s1 v) = lowlink (vinfos s v) ->
  SCore g n b v s0 done s1.
Proof.
  intros C Hc Hl. destruct C.
  pose proof Hc as (H1 & H2 & H3 & H4 & H5 & H6 & H7 & H8 & H9).
  assert (Hvis : visited s v).
  { unfold visited. rewrite sl_index0.
    pose proof (ti_base _ _ _ _ sl_inv1). unfold UNDEFINED. lia. }
  assert (Hidx := fun u => vchanged_index v s s1 u Hc).
  constructor; auto.
  - eapply TInv_vchanged; eauto.
  - eapply Frame_vchanged; eauto.
  - lia.
  - now rewrite Hidx.
  - rewrite (vchanged_stack_list v s s1 Hc). assumption.
  - destruct sl_low0 as [L1 L2]. split; rewrite Hl, Hidx; auto.
    destruct L2 as [L2|(x & Hx & L2)]; [now left|right].
    exists x. split; auto. now rewrite Hidx.
  - intros Hd. rewrite Hl, Hidx. auto.
  - intros u Hu Hne Hv. apply (vchanged_visited v s s1 u Hc) in Hv.
    destruct (sl_fin0 u Hu Hne Hv) as [Fd Fe]. split.
    + now rewrite H7.
    + intros w Hw. apply (vchanged_visited v s s1 w Hc). auto.
  - intros w Hw. destruct (sl_done0 w Hw). split; auto.
    now apply (vchanged_visited v s s1 w Hc).
  - rewrite H3. intros Hf. destruct (sl_first0 Hf) as [S1 S2]. split.
    + intros u w Hu Hne Hv He. rewrite Hl, Hidx. apply (S1 u w); auto.
      now apply (vchanged_visited v s s1 u Hc).
    + intros w Hw. rewrite Hl, Hidx. auto.
Qed.

Lemma isnew_back s0 s1 u : Frame n s0 s1 -> isnew n s1 u -> isnew n s0 u.
Proof.
  intros F [Hr Hi]. split; auto.
  destruct (Z.eq_dec (index (vinfos s0 u)) UNDEFINED) as [|Hne]; auto.
  rewrite (fr_vinfo _ _ _ F) in Hi; [contradiction|].
  intros [_ ?]. contradiction.
Qed.

Lemma SCore_visited v s0 done s : SCore g n b v s0 done s -> visited s v.
Proof.
  intros C. unfold visited. rewrite (sl_index _ _ _ _ _ _ _ C).
  pose proof (ti_base _ _ _ _ (sl_inv0 _ _ _ _ _ _ _ C)). unfold UNDEFINED. lia.
Qed.

(** A neighbour that has been reached before (lines 486-492). *)
Lemma SCore_old v s0 done s w s3 :
  SCore g n b v s0 done s -> 0 <= w < n -> visited s w -> vchanged v s s3 ->
  lowlink (vinfos s3 v) <= lowlink (vinfos s v) ->
  (lowlink (vinfos s3 v) = lowlink (vinfos s v) \/
   (onstack (vinfos s w) = true /\ lowlink (vinfos s3 v) = index (vinfos s w))) ->
  (onstack (vinfos s w) = true -> lowlink (vinfos s3 v) <= index (vinfos s w)) ->
  SCore g n b v s0 (done ++ [w]) s3.
Proof.
  intros C Hw Hvw Hc Hle Hcase Hon.
  pose proof (SCore_visited _ _ _ _ C) as Hvis.
  destruct C as [I0 I F Hnew Hvi Hix Hst Hlow Hnil Hfin Hdone Hfirst].
  pose proof Hc as (H1 & H2 & H3 & H4 & H5 & H6 & H7 & H8 & H9).
  assert (Hidx := fun u => vchanged_index v s s3 u Hc).
  destruct Hst as (A & HA & HAnew & HAnil).
  destruct Hlow as [L1 L2].
  constructor; auto.
  - eapply TInv_vchanged; eauto.
  - eapply Frame_vchanged; eauto.
  - lia.
  - now rewrite Hidx.
  - rewrite (vchanged_stack_list v s s3 Hc). exists A.
    split; [assumption|]. split; [assumption|].
    intros Hd. destruct done; discriminate.
  - split; [rewrite Hidx; lia|].
    destruct Hcase as [He|[Ho He]].
    + rewrite He, Hidx. destruct L2 as [L2|(x & Hx & L2)]; [now left|right].
      exists x. split; auto. now rewrite Hidx.
    + assert (Hin : In w (stack_list s)) by (apply (ti_stack_in _ _ _ _ I); auto).
      rewrite HA in Hin. apply in_app_or in Hin as [Hin|[->|Hin]].
      * pose proof (ti_sorted _ _ _ _ I) as Hs. rewrite HA in Hs.
        pose proof (StronglySorted_app_lt _ A (v :: stack_list s0) w v Hs Hin
                      (or_introl eq_refl)) as Hgt.
        simpl in Hgt. lia.
      * left. rewrite He, Hidx. reflexivity.
      * right. exists w. split; auto. now rewrite Hidx.
  - intros Hd. destruct done; discriminate.
  - intros u Hu Hne Hv. apply (vchanged_visited v s s3 u Hc) in Hv.
    destruct (Hfin u Hu Hne Hv) as [Fd Fe]. split.
    + now rewrite H7.
    + intros w' Hw'. apply (vchanged_visited v s s3 w' Hc). auto.
  - intros w' Hw'. apply in_app_or in Hw' as [Hw'|[<-|[]]].
    + destruct (Hdone w' Hw'). split; auto.
      now apply (vchanged_visited v s s3 w' Hc).
    + split; auto. now apply (vchanged_visited v s s3 w Hc).
  - rewrite H3. intros Hf. destruct (Hfirst Hf) as [S1 S2]. split.
    + intros u w' Hu Hne Hv He. rewrite Hidx.
      apply (vchanged_visited v s s3 u Hc) in Hv.
      specialize (S1 u w' Hu Hne Hv He). lia.
    + intros w' Hw'. rewrite Hidx. apply in_app_or in Hw' as [Hw'|[<-|[]]].
      * specialize (S2 w' Hw'). lia.
      * destruct (onstack (vinfos s w)) eqn:Ho; [auto|].
        exfalso. apply (ti_first _ _ _ _ I) in Hf.
        assert (Hex : exists i, 0 <= i < currentSCC s /\ inscc s i w)
          by (apply (ti_scc_part _ _ _ _ I); auto).
        destruct Hex as (i & Hi & _). lia.
Qed.

(** A neighbour reached for the first time: the recursive call and the
    lowlink update after it (lines 477-485). *)
Lemma SCore_child v s0 done s1 w s2 s3 :
  SCore g n b v s0 done s1 -> isnew n s1 w -> SPost g n b w s1 s2 ->
  vchanged v s2 s3 ->
  lowlink (vinfos s3 v) = Z.min (lowlink (vinfos s2 v)) (lowlink (vinfos s2 w)) ->
  SCore g n b v s0 (done ++ [w]) s3.
Proof.
  intros C Hw P Hc Hmin.
  pose proof (SCore_visited _ _ _ _ C) as Hvis1.
  destruct C as [I0 I F Hnew Hvi Hix Hst Hlow Hnil Hfin Hdone Hfirst].
  destruct P as [PI PF Pvi Pix Pst Plow Pfin Pfirst].
  pose proof Hc as (H1 & H2 & H3 & H4 & H5 & H6 & H7 & H8 & H9).
  assert (Hidx := fun u => vchanged_index v s2 s3 u Hc).
  destruct Hst as (A & HA & HAnew & HAnil).
  destruct Hlow as [L1 L2].
  destruct Pst as (A2 & HA2 & HA2new & _ & _).
  destruct Plow as [M1 M2].
  assert (Hnn : forall u, visited s1 u -> ~ isnew n s1 u).
  { intros u Hu [_ ?]. contradiction. }
  assert (Hv21 : vinfos s2 v = vinfos s1 v)
    by (apply (fr_vinfo _ _ _ PF); auto).
  assert (Hvis2 : visited s2 v) by (eapply Frame_visited; eauto).
  assert (Hiv : b <= index (vinfos s1 v) < vertex_index s1).
  { apply visited_index_lt; auto. destruct Hnew; auto. }
  assert (Hst0 : forall x, In x (stack_list s0) ->
             index (vinfos s3 x) = index (vinfos s1 x)).
  { intros x Hx. rewrite Hidx.
    destruct (stack_visited s0 x I0 Hx) as [Hxr Hxv].
    rewrite (fr_vinfo _ _ _ PF); auto.
    apply Hnn. eapply Frame_visited; eauto. }
  constructor; auto.
  - eapply TInv_vchanged; eauto.
  - apply Frame_vchanged with (s2 := s2) (v := v); auto.
    apply Frame_trans with (s1 := s1); auto.
  - pose proof (fr_vi _ _ _ PF). lia.
  - rewrite Hidx, Hv21. assumption.
  - rewrite (vchanged_stack_list v s2 s3 Hc), HA2, HA.
    exists (A2 ++ A). rewrite <- app_assoc. split; [reflexivity|]. split.
    + intros u Hu. apply in_app_or in Hu as [Hu|Hu]; [|apply HAnew; auto].
      destruct (HA2new u Hu) as [Hn He].
      split; [eapply isnew_back; eauto|]. split; [|assumption].
      intros ->. destruct Hn. contradiction.
    + intros Hd. destruct done; discriminate.
  - unfold low_ok. rewrite Hmin, Hidx, Hv21. split; [lia|].
    destruct (Z.min_spec (lowlink (vinfos s1 v)) (lowlink (vinfos s2 w)))
      as [[Hlt ->]|[Hge ->]].
    + destruct L2 as [L2|(x & Hx & L2)]; [now left|right].
      exists x. split; auto. rewrite Hst0; auto.
    + destruct (Z.eq_dec (lowlink (vinfos s2 w)) (lowlink (vinfos s1 v))) as [He|Hne].
      { rewrite He. destruct L2 as [L2|(x & Hx & L2)]; [now left|right].
        exists x. split; auto. rewrite Hst0; auto. }
      destruct M2 as [M2|(x & Hx & M2)].
      * rewrite Pix in M2. lia.
      * assert (Hx1 : index (vinfos s2 x) = index (vinfos s1 x)).
        { destruct (stack_visited s1 x I Hx) as [Hxr Hxv].
          rewrite (fr_vinfo _ _ _ PF); auto. }
        rewrite HA in Hx. apply in_app_or in Hx as [Hx|[<-|Hx]].
        -- pose proof (ti_sorted _ _ _ _ I) as Hs. rewrite HA in Hs.
           pose proof (StronglySorted_app_lt _ A (v :: stack_list s0) x v Hs Hx
                         (or_introl eq_refl)) as Hgt.
           simpl in Hgt. lia.
        -- lia.
        -- right. exists x. split; auto. rewrite Hst0; auto. lia.
  - intros Hd. destruct done; discriminate.
  - intros u Hu Hne Hv. apply (vchanged_visited v s2 s3 u Hc) in Hv.
    destruct (Z.eq_dec (index (vinfos s1 u)) UNDEFINED) as [He|Hn1].
    + assert (Hnew1 : isnew n s1 u) by (destruct Hu; split; auto).
      destruct (Pfin u Hnew1 Hv) as [Fd Fe]. split.
      * now rewrite H7.
      * intros w' Hw'. apply (vchanged_visited v s2 s3 w' Hc). auto.
    + destruct (Hfin u Hu Hne Hn1) as [Fd Fe]. split.
      * rewrite H7 by auto. rewrite (fr_vinfo _ _ _ PF); auto.
      * intros w' Hw'. apply (vchanged_visited v s2 s3 w' Hc).
        eapply Frame_visited; eauto.
  - intros w' Hw'. apply in_app_or in Hw' as [Hw'|[<-|[]]].
    + destruct (Hdone w' Hw'). split; auto.
      apply (vchanged_visited v s2 s3 w' Hc). eapply Frame_visited; eauto.
    + split; [apply Hw|]. apply (vchanged_visited v s2 s3 w Hc).
      unfold visited. rewrite Pix.
      pose proof (ti_base _ _ _ _ I). unfold UNDEFINED. lia.
  - rewrite H3. intros Hf.
    assert (Hf1 : isFirstSCC s1 = true) by (eapply Frame_first; eauto).
    destruct (Hfirst Hf1) as [S1 S2]. specialize (Pfirst Hf).
    rewrite Hmin, Hv21. split.
    + intros u w' Hu Hne Hv He. rewrite Hidx.
      apply (vchanged_visited v s2 s3 u Hc) in Hv.
      destruct (Z.eq_dec (index (vinfos s1 u)) UNDEFINED) as [Heq|Hn1].
      * assert (Hnew1 : isnew n s1 u) by (destruct Hu; split; auto).
        specialize (Pfirst u w' Hnew1 Hv He). lia.
      * specialize (S1 u w' Hu Hne Hn1 He).
        destruct (Hfin u Hu Hne Hn1) as [_ Fe].
        rewrite (fr_vinfo _ _ _ PF w'); auto. lia.
    + intros w' Hw'. rewrite Hidx. apply in_app_or in Hw' as [Hw'|[<-|[]]].
      * specialize (S2 w' Hw'). destruct (Hdone w' Hw') as [_ Hvw].
        rewrite (fr_vinfo _ _ _ PF w'); auto. lia.
      * lia.
Qed.

(** The closing loop pops the stack down to and including [v]. *)
Lemma pop_scc_spec v B A : forall s desc size cnt,
  -1 <= stack_top s -> stack_list s = A ++ v :: B -> ~ In v A ->
  (length A < cnt)%nat ->
  (forall u, In u (A ++ [v]) -> 0 <= u < WORDSIZE) ->
  exists s' desc',
    pop_scc cnt v s desc size = Some (s', desc', size + Z.of_nat (length A) + 1) /\
    stack_list s' = B /\
    stack_top s' = stack_top s - Z.of_nat (length A) - 1 /\
    currentSCC s' = currentSCC s /\ isFirstSCC s' = isFirstSCC s /\
    vertex_index s' = vertex_index s /\
    (forall u, ~ In u (A ++ [v]) -> vinfos s' u = vinfos s u) /\
    (forall u, index (vinfos s' u) = index (vinfos s u) /\
               lowlink (vinfos s' u) = lowlink (vinfos s u) /\
               descendents (vinfos s' u) = descendents (vinfos s u)) /\
    (forall u, In u (A ++ [v]) -> onstack (vinfos s' u) = false) /\
    (forall i, i <> currentSCC s -> sccinfos s' i = sccinfos s i) /\
    isLeaf (sccinfos s' (currentSCC s)) = isLeaf (sccinfos s (currentSCC s)) /\
    sccSize (sccinfos s' (currentSCC s)) = sccSize (sccinfos s (currentSCC s)) /\
    (forall y, ISELEMENT (sccVertices (sccinfos s' (currentSCC s))) y = true <->
               (ISELEMENT (sccVertices (sccinfos s (currentSCC s))) y = true \/
                In y (A ++ [v]))) /\
    (forall k, k <= WORDSIZE -> (forall u, In u (A ++ [v]) -> u < k) ->
               within k (sccVertices (sccinfos s (currentSCC s))) ->
               within k (sccVertices (sccinfos s' (currentSCC s)))) /\
    (forall y, ISELEMENT desc' y = true <->
               (ISELEMENT desc y = true \/
                exists u, In u (A ++ [v]) /\
                  (y = u \/ ISELEMENT (descendents (vinfos s u)) y = true))) /\
    (forall k, k <= WORDSIZE -> (forall u, In u (A ++ [v]) -> u < k) ->
               within k desc ->
               (forall u, In u (A ++ [v]) -> within k (descendents (vinfos s u))) ->
               within k desc').
Proof.
  induction A as [|a A IH]; intros s desc size cnt Htop Hsl Hnin Hcnt Hrange.
  - destruct cnt as [|cnt]; [simpl in Hcnt; lia|].
    assert (Htop0 : 0 <= stack_top s).
    { pose proof (length_stack_list s) as Hl. rewrite Hsl in Hl. simpl in Hl. lia. }
    destruct (pop_some s Htop0) as (w & s1 & Hpop).
    destruct (stack_list_pop s w s1 Htop Hpop)
      as (Hsl1 & Hscc & Hcur & Hfirst & Hvin & Hvi & Htop1).
    rewrite Hsl in Hsl1. simpl in Hsl1. injection Hsl1 as <- HB.
    assert (Hv : 0 <= v < WORDSIZE) by (apply Hrange; simpl; auto).
    simpl pop_scc. rewrite Hpop. simpl. rewrite Z.eqb_refl.
    eexists. eexists. split; [f_equal; f_equal; lia|].
    simpl. rewrite Hcur, Hvin, Hscc. simpl.
    repeat match goal with |- _ /\ _ => split end; auto; try lia.
    + intros u Hu. rewrite upd_other by (intros ->; apply Hu; simpl; auto).
      reflexivity.
    + intros u. unfold upd.
      destruct (Z.eqb_spec u v) as [->|]; simpl; auto.
    + intros u [<-|[]]. now rewrite upd_same.
    + intros i Hi. now rewrite upd_other.
    + now rewrite upd_same.
    + now rewrite upd_same.
    + intros y. rewrite upd_same. simpl. rewrite ISELEMENT_ADDELEMENT by assumption.
      rewrite orb_true_iff, Z.eqb_eq. simpl. intuition.
    + intros k Hk Hlt Hw. rewrite upd_same. simpl.
      apply within_ADDELEMENT; auto. split; [lia|]. apply Hlt. now left.
    + intros y. rewrite upd_same. simpl.
      rewrite ISELEMENT_UNION, ISELEMENT_ADDELEMENT by assumption.
      rewrite !orb_true_iff, Z.eqb_eq. split.
      * intros [[->|H]|H]; [right|now left|right]; exists v; simpl; auto.
      * intros [H|(u & [<-|[]] & [->|H])]; auto.
    + intros k Hk Hlt Hw Hd. rewrite upd_same. simpl.
      apply within_UNION.
      * apply within_ADDELEMENT; auto. split; [lia|]. apply Hlt. now left.
      * apply Hd. now left.
  - destruct cnt as [|cnt]; [simpl in Hcnt; lia|].
    assert (Htop0 : 0 <= stack_top s).
    { pose proof (length_stack_list s) as Hl. rewrite Hsl in Hl. simpl in Hl. lia. }
    destruct (pop_some s Htop0) as (w & s1 & Hpop).
    destruct (stack_list_pop s w s1 Htop Hpop)
      as (Hsl1 & Hscc & Hcur & Hfirst & Hvin & Hvi & Htop1).
    rewrite Hsl in Hsl1. simpl in Hsl1. injection Hsl1 as <- HB.
    assert (Ha : 0 <= a < WORDSIZE) by (apply Hrange; simpl; auto).
    assert (Hav : a <> v) by (intros ->; apply Hnin; now left).
    simpl pop_scc. rewrite Hpop. simpl.
    destruct (Z.eqb_spec a v) as [|_]; [contradiction|].
    match goal with |- exists s' desc', pop_scc cnt v ?S2 ?D2 ?Z2 = _ /\ _ =>
      set (s2 := S2); set (d2 := D2) end.
    assert (Hsl2 : stack_list s2 = A ++ v :: B) by (symmetry; exact HB).
    assert (Htop2 : -1 <= stack_top s2) by (simpl; lia).
    assert (Hnin2 : ~ In v A) by (intros H; apply Hnin; now right).
    assert (Hcnt2 : (length A < cnt)%nat) by (simpl in Hcnt; lia).
    assert (Hrange2 : forall u, In u (A ++ [v]) -> 0 <= u < WORDSIZE)
      by (intros u Hu; apply Hrange; now right).
    destruct (IH s2 d2 (size + 1) cnt Htop2 Hsl2 Hnin2 Hcnt2 Hrange2)
      as (s' & desc' & Hrun & R1 & R2 & R3 & R4 & R5 & R6 & R7 & R8 & R9 & R10
          & R11 & R12 & R13 & R14 & R15).
    exists s', desc'.
    assert (Hc2 : currentSCC s2 = currentSCC s) by (simpl; auto).
    assert (Hv2 : forall u, vinfos s2 u =
              if u =? a then mkvinfo (index (vinfos s a)) (lowlink (vinfos s a))
                                     false (descendents (vinfos s a))
              else vinfos s u).
    { intros u. simpl. rewrite Hvin. unfold upd. reflexivity. }
    assert (Hs2 : forall i, sccinfos s2 i =
              if i =? currentSCC s
              then mksccinfo (ADDELEMENT (sccVertices (sccinfos s (currentSCC s))) a)
                     (isLeaf (sccinfos s (currentSCC s)))
                     (sccSize (sccinfos s (currentSCC s)))
              else sccinfos s i).
    { intros i. simpl. rewrite Hcur, Hscc. unfold upd. reflexivity. }
    rewrite Hc2 in *.
    split; [rewrite Hrun; f_equal; f_equal; simpl length; lia|].
    split; [exact R1|].
    split; [rewrite R2; simpl length; simpl stack_top; lia|].
    split; [exact R3|].
    split; [rewrite R4; simpl; exact Hfirst|].
    split; [rewrite R5; simpl; exact Hvi|].
    repeat match goal with |- _ /\ _ => split end.
    + intros u Hu. rewrite R6, Hv2.
      * destruct (Z.eqb_spec u a) as [->|]; auto. exfalso. apply Hu. now left.
      * intros H. apply Hu. now right.
    + intros u. destruct (R7 u) as (E1 & E2 & E3). rewrite E1, E2, E3, Hv2.
      destruct (Z.eqb_spec u a) as [->|]; simpl; auto.
    + intros u [<-|Hu]; [|now apply R8].
      destruct (in_dec Z.eq_dec a (A ++ [v])) as [Hin|Hnot]; [now apply R8|].
      rewrite R6, Hv2, Z.eqb_refl; auto.
    + intros i Hi. rewrite R9, Hs2; auto.
      destruct (Z.eqb_spec i (currentSCC s)); [contradiction|reflexivity].
    + rewrite R10, Hs2, Z.eqb_refl. reflexivity.
    + rewrite R11, Hs2, Z.eqb_refl. reflexivity.
    + intros y. rewrite R12, Hs2, Z.eqb_refl. simpl.
      rewrite ISELEMENT_ADDELEMENT by assumption.
      rewrite orb_true_iff, Z.eqb_eq. intuition.
    + intros k Hk Hlt Hw. apply R13; [assumption| |].
      * intros u Hu. apply Hlt. now right.
      * rewrite Hs2, Z.eqb_refl. simpl. apply within_ADDELEMENT; auto.
        split; [lia|]. apply Hlt. now left.
    + intros y. rewrite R14. unfold d2, set_onstack, set_vinfo. cbn [vinfos].
      rewrite upd_same. cbn [descendents]. rewrite Hvin.
      rewrite ISELEMENT_UNION, ISELEMENT_ADDELEMENT by assumption.
      rewrite !orb_true_iff, Z.eqb_eq.
      assert (Hd2 : forall u, descendents (vinfos s2 u) = descendents (vinfos s u)).
      { intros u. rewrite Hv2. destruct (Z.eqb_spec u a) as [->|]; auto. }
      split.
      * intros [[[->|H]|H]|(u & Hu & H)].
        -- right. exists a. split; [now left|now left].
        -- now left.
        -- right. exists a. split; [now left|now right].
        -- right. exists u. split; [now right|]. rewrite Hd2 in H. exact H.
      * intros [H|(u & [<-|Hu] & [->|H])]; auto.
        -- right. exists u. split; auto.
        -- right. exists u. split; auto. rewrite Hd2. auto.
    + intros k Hk Hlt Hw Hd. apply R15; [assumption| | |].
      * intros u Hu. apply Hlt. now right.
      * unfold d2. apply within_UNION.
        -- apply within_ADDELEMENT; auto. split; [lia|]. apply Hlt. now left.
        -- unfold set_onstack, set_vinfo. cbn [vinfos]. rewrite upd_same.
           cbn [descendents]. rewrite Hvin. apply Hd. now left.
      * intros u Hu. rewrite Hv2. destruct (Z.eqb_spec u a) as [->|]; simpl.
        -- apply Hd. now left.
        -- apply Hd. now right.
Qed.

(** What lines 496-522 compute once the pops are done. *)
Lemma close_fields v s s1 desc1 size1 :
  lowlink (vinfos s v) = index (vinfos s v) ->
  pop_scc (Z.to_nat (stack_top s + 1)) v s 0 0 = Some (s1, desc1, size1) ->
  exists s', close_scc v s = Some s' /\
    vinfos s' = vinfos s1 /\ stack s' = stack s1 /\ stack_top s' = stack_top s1 /\
    vertex_index s' = vertex_index s1 /\
    currentSCC s' = currentSCC s1 + 1 /\
    isFirstSCC s' = false /\
    (forall i, i <> currentSCC s1 -> sccinfos s' i = sccinfos s1 i) /\
    sccVertices (sccinfos s' (currentSCC s1)) =
      sccVertices (sccinfos s1 (currentSCC s1)) /\
    sccSize (sccinfos s' (currentSCC s1)) = size1 /\
    isLeaf (sccinfos s' (currentSCC s1)) =
      (if isFirstSCC s1 then true
       else if SETDIFF desc1 (sccVertices (sccinfos s1 (currentSCC s1))) =? 0
            then true else isLeaf (sccinfos s1 (currentSCC s1))).
Proof.
  intros Hl Hpop. unfold close_scc.
  apply Z.eqb_eq in Hl. rewrite Hl, Hpop. cbn [obind].
  unfold set_sccSize, set_isLeaf, set_isFirstSCC, set_currentSCC, set_sccinfo.
  cbn [sccinfos currentSCC isFirstSCC vinfos vertex_index stack stack_top].
  rewrite !upd_same. cbn [sccVertices isLeaf sccSize].
  destruct (isFirstSCC s1) eqn:Hf.
  - eexists. split; [reflexivity|].
    cbn [sccinfos currentSCC isFirstSCC vinfos vertex_index stack stack_top].
    rewrite !upd_same. cbn [sccVertices isLeaf sccSize].
    repeat split; auto.
    intros i Hi. now rewrite !upd_other.
  - destruct (SETDIFF desc1 (sccVertices (sccinfos s1 (currentSCC s1))) =? 0) eqn:Hd.
    + eexists. split; [reflexivity|].
      cbn [sccinfos currentSCC isFirstSCC vinfos vertex_index stack stack_top].
      rewrite !upd_same. cbn [sccVertices isLeaf sccSize].
      repeat split; auto.
      intros i Hi. now rewrite !upd_other.
    + eexists. split; [reflexivity|].
      cbn [sccinfos currentSCC isFirstSCC vinfos vertex_index stack stack_top].
      rewrite !upd_same. cbn [sccVertices isLeaf sccSize].
      repeat split; auto.
      intros i Hi. now rewrite !upd_other.
Qed.

Lemma edge_in_setlist v w : 0 <= v < n -> edge g v w ->
  In w (setlist (g v)) /\ 0 <= w < n.
Proof.
  intros Hv He. destruct Hwf as [Hn Hrows].
  pose proof (within_ISELEMENT n (g v) w (Hrows v Hv) He) as Hw.
  split; auto. apply In_setlist. split; auto. unfold MAXN, WORDSIZE in *. lia.
Qed.

Lemma SLoop_finished v s0 s :
  SLoop g n b v s0 (setlist (g v)) s ->
  forall u, isnew n s0 u -> visited s u -> finished g s u.
Proof.
  intros [C Hdesc Hdin] u Hu Hvis.
  destruct (Z.eq_dec u v) as [->|Hne]; [|eapply sl_fin; eauto].
  destruct Hwf as [Hn Hrows]. destruct Hu as [Hvr _]. split.
  - apply setword_ext.
    + eapply within_mono; [|exact Hdin]. unfold MAXN, WORDSIZE in *. lia.
    + eapply within_mono; [|apply Hrows; exact Hvr]. unfold MAXN, WORDSIZE in *. lia.
    + intros y. destruct (ISELEMENT (g v) y) eqn:E.
      * apply Hdesc. apply edge_in_setlist; auto.
      * destruct (ISELEMENT (descendents (vinfos s v)) y) eqn:E'; auto.
        apply Hdesc, In_setlist in E'. destruct E'. congruence.
  - intros w Hw. apply (sl_done _ _ _ _ _ _ _ C). apply edge_in_setlist; auto.
Qed.

(** Leaving the call without closing a component. *)
Lemma close_spec_open v s0 s :
  SLoop g n b v s0 (setlist (g v)) s ->
  lowlink (vinfos s v) <> index (vinfos s v) ->
  close_scc v s = Some s /\ SPost g n b v s0 s.
Proof.
  intros L Hneq. pose proof (SLoop_finished v s0 s L) as Hfin'.
  destruct L as [C Hdesc Hdin].
  destruct C as [I0 I F Hnew Hvi Hix Hst Hlow Hnil Hfin Hdone Hfirst].
  destruct Hst as (A & HA & HAnew & HAnil).
  split.
  - unfold close_scc. apply Z.eqb_neq in Hneq. now rewrite Hneq.
  - assert (Hedge : exists w, edge g v w).
    { destruct (setlist (g v)) as [|w l] eqn:E; [exfalso; auto|].
      exists w. assert (Hin : In w (setlist (g v))) by (rewrite E; now left).
      apply In_setlist in Hin. apply Hin. }
    constructor; auto.
    + exists (A ++ [v]). rewrite <- app_assoc. simpl. split; [assumption|].
      split; [|split; [contradiction|intros _; eauto]].
      intros u Hu. apply in_app_or in Hu as [Hu|[<-|[]]].
      * destruct (HAnew u Hu) as (H1 & _ & H3). auto.
      * auto.
    + intros Hf u w Hu Hvis He. destruct (Hfirst Hf) as [S1 S2].
      destruct (Z.eq_dec u v) as [->|Hne].
      * apply S2. apply edge_in_setlist; auto. apply Hu.
      * apply (S1 u w); auto.
Qed.

Lemma NoDup_same_length {A : Type} (l l' : list A) :
  NoDup l -> NoDup l' -> (forall x, In x l <-> In x l') -> length l = length l'.
Proof.
  intros H H' Hiff. apply Nat.le_antisymm.
  - apply NoDup_incl_length; auto. intros x Hx. now apply Hiff.
  - apply NoDup_incl_length; auto. intros x Hx. now apply Hiff.
Qed.

(** Closing the component rooted at [v] (lines 496-522). *)
Lemma close_spec_closed v s0 s :
  SLoop g n b v s0 (setlist (g v)) s ->
  lowlink (vinfos s v) = index (vinfos s v) ->
  exists s', close_scc v s = Some s' /\ SPost g n b v s0 s'.
Proof.
  intros L Heq. pose proof (SLoop_finished v s0 s L) as Hfin'.
  destruct L as [C Hdesc Hdin].
  pose proof (SCore_visited _ _ _ _ C) as Hvisv.
  destruct C as [I0 I F Hnew Hvi Hix Hst Hlow Hnil Hfin Hdone Hfirst].
  destruct Hst as (A & HA & HAnew & HAnil).
  pose proof Hwf as [Hn Hrows].
  set (X := A ++ [v]).
  assert (HXnew : forall u, In u X -> isnew n s0 u).
  { intros u Hu. apply in_app_or in Hu as [Hu|[<-|[]]]; auto. now apply HAnew. }
  assert (HXr : forall u, In u X -> 0 <= u < n) by (intros u Hu; apply HXnew; auto).
  assert (HXstack : forall u, In u X -> In u (stack_list s)).
  { intros u Hu. rewrite HA. apply in_app_or in Hu as [Hu|[<-|[]]];
      apply in_or_app; [now left|right; now left]. }
  assert (HXvis : forall u, In u X -> visited s u).
  { intros u Hu. apply (stack_visited s u I). auto. }
  assert (HXon : forall u, In u X -> onstack (vinfos s u) = true).
  { intros u Hu. apply (ti_stack_in _ _ _ _ I). auto. }
  pose proof (NoDup_stack s I) as Hnd. rewrite HA in Hnd.
  assert (HvA : ~ In v A).
  { intros Hin. destruct (HAnew v Hin) as (_ & Hne & _). now apply Hne. }
  assert (HX0 : forall u, In u X -> ~ In u (stack_list s0)).
  { intros u Hu Hin0. destruct (stack_visited s0 u I0 Hin0) as [_ Hv0].
    destruct (HXnew u Hu) as [_ Hund]. contradiction. }
  assert (HXnd : NoDup X).
  { unfold X. replace (A ++ v :: stack_list s0) with ((A ++ [v]) ++ stack_list s0) in Hnd
      by (rewrite <- app_assoc; reflexivity).
    eapply NoDup_app_remove_r; eauto. }
  assert (Hlen : stack_top s + 1 = Z.of_nat (length A) + 1 + Z.of_nat (length (stack_list s0))).
  { pose proof (length_stack_list s) as Hl. rewrite HA, length_app in Hl. simpl in Hl.
    pose proof (ti_top _ _ _ _ I). lia. }
  set (c := currentSCC s).
  assert (Hc : 0 <= c < n).
  { pose proof (TInv_cur_le s I). pose proof (ti_cur _ _ _ _ I). unfold c. lia. }
  assert (Hfresh : sccinfos s c = fresh_sccinfo) by (apply (ti_scc_fresh _ _ _ _ I); unfold c; lia).
  destruct (pop_scc_spec v (stack_list s0) A s 0 0 (Z.to_nat (stack_top s + 1)))
    as (s1 & desc1 & Hrun & R1 & R2 & R3 & R4 & R5 & R6 & R7 & R8 & R9 & R10
        & R11 & R12 & R13 & R14 & R15); auto.
  { apply (ti_top _ _ _ _ I). }
  { lia. }
  { intros u Hu. specialize (HXr u Hu). unfold MAXN, WORDSIZE in *. lia. }
  fold X in R6, R8, R12, R13, R14, R15. fold c in R9, R10, R11, R12, R13.
  destruct (close_fields v s s1 desc1 _ Heq Hrun)
    as (s' & Hclose & K1 & K2 & K3 & K4 & K5 & K6 & K7 & K8 & K9 & K10).
  rewrite R3 in K5, K7, K8, K9, K10. fold c in K5, K7, K8, K9, K10.
  exists s'. split; [assumption|].
  assert (E_vin : forall u, ~ In u X -> vinfos s' u = vinfos s u)
    by (intros u Hu; rewrite K1; auto).
  assert (E_idx : forall u, index (vinfos s' u) = index (vinfos s u))
    by (intros u; rewrite K1; apply R7).
  assert (E_low : forall u, lowlink (vinfos s' u) = lowlink (vinfos s u))
    by (intros u; rewrite K1; apply R7).
  assert (E_des : forall u, descendents (vinfos s' u) = descendents (vinfos s u))
    by (intros u; rewrite K1; apply R7).
  assert (E_on : forall u, In u X -> onstack (vinfos s' u) = false)
    by (intros u Hu; rewrite K1; auto).
  assert (E_vis : forall u, visited s' u <-> visited s u)
    by (intros u; unfold visited; now rewrite E_idx).
  assert (E_sl : stack_list s' = stack_list s0)
    by (unfold stack_list; rewrite K2, K3; exact R1).
  assert (E_scc : forall i, i <> c -> sccinfos s' i = sccinfos s i)
    by (intros i Hi; rewrite K7, R9; auto).
  assert (E_V : forall y, inscc s' c y <-> In y X).
  { intros y. unfold inscc. rewrite K8, R12, Hfresh. simpl. rewrite ISELEMENT_0.
    split; [intros [H|H]; [discriminate|auto]|auto]. }
  assert (E_Vw : within n (sccVertices (sccinfos s' c))).
  { rewrite K8. apply R13.
    - unfold MAXN, WORDSIZE in *. lia.
    - intros u Hu. apply HXr. auto.
    - rewrite Hfresh. apply within_0. }
  assert (E_leaf : isLeaf (sccinfos s' c) =
            if isFirstSCC s then true
            else SETDIFF desc1 (sccVertices (sccinfos s' c)) =? 0).
  { rewrite K10, K8, R4, R10, Hfresh. simpl.
    destruct (isFirstSCC s); auto.
    destruct (SETDIFF desc1 (sccVertices (sccinfos s1 c)) =? 0); auto. }
  assert (E_desc : forall y, ISELEMENT desc1 y = true <->
            exists u, In u X /\ (y = u \/ edge g u y)).
  { intros y. rewrite R14, ISELEMENT_0. split.
    - intros [H|(u & Hu & H)]; [discriminate|]. exists u. split; auto.
      destruct H as [H|H]; [now left|right].
      destruct (Hfin' u (HXnew u Hu) (HXvis u Hu)) as [Hd _].
      unfold edge. now rewrite <- Hd.
    - intros (u & Hu & H). right. exists u. split; auto.
      destruct H as [H|H]; [now left|right].
      destruct (Hfin' u (HXnew u Hu) (HXvis u Hu)) as [Hd _].
      rewrite Hd. exact H. }
  assert (E_dw : within WORDSIZE desc1).
  { apply R15.
    - lia.
    - intros u Hu. specialize (HXr u Hu). unfold MAXN, WORDSIZE in *. lia.
    - apply within_0.
    - intros u Hu. destruct (Hfin' u (HXnew u Hu) (HXvis u Hu)) as [Hd _].
      rewrite Hd. eapply within_mono; [|apply Hrows; auto].
      unfold MAXN, WORDSIZE in *. lia. }
  assert (Hclosed_first : isFirstSCC s = true ->
            closed_set g (sccVertices (sccinfos s' c))).
  { intros Hf u w Hu He. apply E_V. apply E_V in Hu.
    destruct (Hfirst Hf) as [S1 S2].
    destruct (Hfin' u (HXnew u Hu) (HXvis u Hu)) as [_ Hvw].
    specialize (Hvw w He).
    destruct (edge_in_setlist u w (HXr u Hu) He) as [Hwin Hwr].
    assert (Hge : lowlink (vinfos s v) <= index (vinfos s w)).
    { destruct (Z.eq_dec u v) as [->|Hne]; [now apply S2|].
      apply (S1 u w); auto. }
    assert (Hwnew : isnew n s0 w).
    { split; auto.
      destruct (Z.eq_dec (index (vinfos s0 w)) UNDEFINED) as [|Hn0]; auto.
      exfalso. pose proof (visited_index_lt s0 w I0 Hwr Hn0).
      rewrite (fr_vinfo _ _ _ F w) in Hge; [lia|]. intros [_ ?]. contradiction. }
    assert (Hwon : onstack (vinfos s w) = true).
    { destruct (onstack (vinfos s w)) eqn:Ho; auto. exfalso.
      apply (ti_first _ _ _ _ I) in Hf.
      assert (Hex : exists i, 0 <= i < currentSCC s /\ inscc s i w)
        by (apply (ti_scc_part _ _ _ _ I); auto).
      destruct Hex as (i & Hi & _). lia. }
    assert (Hws : In w (stack_list s)) by (apply (ti_stack_in _ _ _ _ I); auto).
    rewrite HA in Hws. apply in_app_or in Hws as [Hws|[<-|Hws]].
    - unfold X. apply in_or_app. now left.
    - unfold X. apply in_or_app. right. now left.
    - exfalso. destruct (stack_visited s0 w I0 Hws) as [_ Hv0].
      destruct Hwnew. contradiction. }
  assert (Hclosed_later :
            SETDIFF desc1 (sccVertices (sccinfos s' c)) = 0 <->
            closed_set g (sccVertices (sccinfos s' c))).
  { rewrite SETDIFF_zero by assumption. split.
    - intros H u w Hu He. apply H. apply E_desc. exists u. split; auto.
      now apply E_V.
    - intros H y Hy. apply E_desc in Hy as (u & Hu & [->|He]).
      + now apply E_V.
      + apply (H u y); auto. now apply E_V. }
  assert (Hinv : TInv g n b s').
  { constructor.
    - rewrite K3, R2. lia.
    - rewrite K4, R5. apply (ti_base _ _ _ _ I).
    - intros u Hu. rewrite E_idx, K4, R5. apply (ti_index _ _ _ _ I); auto.
    - intros u Hu Hund. rewrite E_idx in Hund.
      rewrite E_vin; [apply (ti_fresh _ _ _ _ I); auto|].
      intros Hin. apply (HXvis u Hin). assumption.
    - intros u. rewrite E_sl. split.
      + intros Hin.
        assert (Hins : In u (stack_list s)).
        { rewrite HA. apply in_or_app. right. now right. }
        apply (ti_stack_in _ _ _ _ I) in Hins.
        rewrite E_vin; auto. intros Hx. apply (HX0 u Hx Hin).
      + intros [Hur Hon].
        assert (HnX : ~ In u X).
        { intros Hx. rewrite (E_on u Hx) in Hon. discriminate. }
        rewrite (E_vin u HnX) in Hon.
        assert (Hins : In u (stack_list s)) by (apply (ti_stack_in _ _ _ _ I); auto).
        rewrite HA in Hins. apply in_app_or in Hins as [Hin|[<-|Hin]]; auto.
        * exfalso. apply HnX. unfold X. apply in_or_app. now left.
        * exfalso. apply HnX. unfold X. apply in_or_app. right. now left.
    - rewrite E_sl. pose proof (ti_sorted _ _ _ _ I) as Hs. rewrite HA in Hs.
      replace (A ++ v :: stack_list s0) with ((A ++ [v]) ++ stack_list s0) in Hs
        by (rewrite <- app_assoc; reflexivity).
      apply StronglySorted_app_inv_r in Hs.
      eapply StronglySorted_impl; [|exact Hs].
      intros a d _ _. simpl. now rewrite !E_idx.
    - rewrite K5, K3, R2, K4, R5. pose proof (ti_count1 _ _ _ _ I). fold c in H. lia.
    - rewrite K4, R5, (nvisited_ext n s s'); auto. apply (ti_count2 _ _ _ _ I).
    - rewrite K5. lia.
    - rewrite K5, K6. split; [discriminate|lia].
    - intros i Hi. rewrite K5 in Hi. rewrite E_scc by lia.
      apply (ti_scc_fresh _ _ _ _ I). fold c. lia.
    - intros i Hi. rewrite K5 in Hi.
      destruct (Z.eq_dec i c) as [->|Hne]; [assumption|].
      rewrite E_scc by auto. apply (ti_scc_within _ _ _ _ I). fold c. lia.
    - intros i Hi. rewrite K5 in Hi.
      destruct (Z.eq_dec i c) as [->|Hne].
      + exists v. apply E_V. unfold X. apply in_or_app. right. now left.
      + destruct (ti_scc_nonempty _ _ _ _ I i) as [u Hu]; [fold c; lia|].
        exists u. unfold inscc in *. now rewrite E_scc.
    - intros u Hur. rewrite K5, E_vis. split.
      + intros (i & Hi & Hin). destruct (Z.eq_dec i c) as [->|Hne].
        * apply E_V in Hin. split; auto.
        * unfold inscc in Hin. rewrite E_scc in Hin by auto.
          assert (Hold : visited s u /\ onstack (vinfos s u) = false).
          { apply (ti_scc_part _ _ _ _ I); auto. exists i. split; auto. fold c. lia. }
          destruct Hold as [Hv Ho]. split; auto.
          rewrite E_vin; auto. intros Hx. rewrite (HXon u Hx) in Ho. discriminate.
      + intros [Hv Ho]. destruct (in_dec Z.eq_dec u X) as [Hx|HnX].
        * exists c. split; [lia|]. now apply E_V.
        * rewrite (E_vin u HnX) in Ho.
          assert (Hex : exists i, 0 <= i < currentSCC s /\ inscc s i u)
            by (apply (ti_scc_part _ _ _ _ I); auto).
          destruct Hex as (i & Hi & Hin). fold c in Hi.
          exists i. split; [lia|]. unfold inscc in *. rewrite E_scc; auto. lia.
    - intros i j u Hi Hj Hin Hjn. rewrite K5 in Hi, Hj.
      assert (Hold : forall k, 0 <= k < c -> inscc s k u -> ~ In u X).
      { intros k Hk Hink Hx.
        assert (Hur : 0 <= u < n) by (apply HXr; auto).
        assert (Hq : visited s u /\ onstack (vinfos s u) = false).
        { apply (ti_scc_part _ _ _ _ I); auto. exists k. split; auto. }
        destruct Hq as [_ Ho]. rewrite (HXon u Hx) in Ho. discriminate. }
      destruct (Z.eq_dec i c) as [->|Hni], (Z.eq_dec j c) as [->|Hnj]; auto.
      + exfalso. unfold inscc in Hjn. rewrite E_scc in Hjn by auto.
        apply (Hold j); [lia|assumption|now apply E_V].
      + exfalso. unfold inscc in Hin. rewrite E_scc in Hin by auto.
        apply (Hold i); [lia|assumption|now apply E_V].
      + unfold inscc in Hin, Hjn. rewrite E_scc in Hin, Hjn by auto.
        apply (ti_scc_disj _ _ _ _ I i j u); auto; fold c; lia.
    - intros i Hi. rewrite K5 in Hi.
      destruct (Z.eq_dec i c) as [->|Hne].
      + rewrite E_leaf. destruct (isFirstSCC s) eqn:Hf.
        * split; auto.
        * rewrite Z.eqb_eq. exact Hclosed_later.
      + rewrite E_scc by auto. apply (ti_leaf _ _ _ _ I). fold c. lia.
    - intros _. destruct (Z.eq_dec c 0) as [Hc0|Hc0].
      + rewrite <- Hc0, E_leaf.
        assert (Hf : isFirstSCC s = true) by (apply (ti_first _ _ _ _ I); auto).
        now rewrite Hf.
      + rewrite E_scc by auto. apply (ti_leaf0 _ _ _ _ I). fold c. lia.
    - intros i Hi. rewrite K5 in Hi.
      destruct (Z.eq_dec i c) as [->|Hne].
      + rewrite K9. replace (0 + Z.of_nat (length A) + 1) with (Z.of_nat (length X))
          by (unfold X; rewrite length_app; simpl; lia).
        f_equal. apply NoDup_same_length; auto using NoDup_setlist.
        intros y. rewrite In_setlist. split.
        * intros Hy. split; [|now apply E_V].
          specialize (HXr y Hy). unfold MAXN, WORDSIZE in *. lia.
        * intros [_ Hy]. now apply E_V.
      + rewrite E_scc by auto. apply (ti_size _ _ _ _ I). fold c. lia.
    - intros i u u' Hi Hu Hno Hu'. rewrite K5 in Hi.
      destruct (Z.eq_dec i c) as [->|Hne].
      + apply E_V in Hu. apply E_V in Hu'.
        assert (Huv : u = v).
        { unfold X in Hu. apply in_app_or in Hu as [Hu|[<-|[]]]; auto.
          destruct (HAnew u Hu) as (_ & _ & w & Hw). exfalso. apply (Hno w Hw). }
        subst u.
        assert (Hnil' : setlist (g v) = []).
        { destruct (setlist (g v)) as [|w l] eqn:E; auto. exfalso.
          assert (Hin : In w (setlist (g v))) by (rewrite E; now left).
          apply In_setlist in Hin. apply (Hno w). apply Hin. }
        unfold X in Hu'. rewrite (HAnil Hnil') in Hu'. simpl in Hu'.
        destruct Hu' as [<-|[]]. reflexivity.
      + unfold inscc in Hu, Hu'. rewrite E_scc in Hu, Hu' by auto.
        apply (ti_single _ _ _ _ I i u u'); auto. fold c. lia. }
  constructor; auto.
  - constructor.
    + intros u Hu. rewrite E_vin; [apply (fr_vinfo _ _ _ F); auto|].
      intros Hx. apply Hu. auto.
    + intros i Hi. pose proof (fr_cur _ _ _ F). fold c in H.
      rewrite E_scc by lia. apply (fr_scc _ _ _ F); auto.
    + rewrite K5. pose proof (fr_cur _ _ _ F). fold c in H. lia.
    + rewrite K4, R5. apply (fr_vi _ _ _ F).
    + intros u Hu Hv. rewrite E_idx. apply (fr_newidx _ _ _ F); auto.
      now apply E_vis.
  - rewrite K4, R5. assumption.
  - now rewrite E_idx.
  - exists []. split; [assumption|]. split; [intros u []|].
    split; [auto|]. rewrite E_low, E_idx. contradiction.
  - destruct Hlow as [L1 L2]. unfold low_ok. rewrite E_low, E_idx.
    split; [exact L1|now left].
  - intros u Hu Hv. apply E_vis in Hv. destruct (Hfin' u Hu Hv) as [Hd He].
    split; [now rewrite E_des|]. intros w Hw. apply E_vis. auto.
  - rewrite K6. discriminate.
Qed.

Lemma close_spec v s0 s :
  SLoop g n b v s0 (setlist (g v)) s ->
  exists s', close_scc v s = Some s' /\ SPost g n b v s0 s'.
Proof.
  intros L.
  destruct (Z.eq_dec (lowlink (vinfos s v)) (index (vinfos s v))) as [Heq|Hneq].
  - now apply close_spec_closed.
  - exists s. now apply close_spec_open.
Qed.

Lemma desc_step s v w d done :
  0 <= w < n ->
  (forall y, ISELEMENT (descendents (vinfos s v)) y = true <-> In y done) ->
  within n (descendents (vinfos s v)) ->
  d = ADDELEMENT (descendents (vinfos s v)) w ->
  (forall y, ISELEMENT d y = true <-> In y (done ++ [w])) /\ within n d.
Proof.
  intros Hw Hdesc Hdin ->. destruct Hwf as [Hn _]. split.
  - intros y. rewrite ISELEMENT_ADDELEMENT by (unfold MAXN, WORDSIZE in *; lia).
    rewrite orb_true_iff, Z.eqb_eq, Hdesc, in_app_iff. simpl. intuition.
  - apply within_ADDELEMENT; auto. unfold MAXN, WORDSIZE in *. lia.
Qed.

(** One turn of the neighbour loop (lines 476-492), given that the
    recursive calls behave. *)
Lemma visit_edge_spec fuel v s0 done w s :
  (forall w s, SPre g n b w s ->
     (Z.to_nat (n - (vertex_index s - b)) < fuel)%nat ->
     exists s', strongconnect fuel g w s = Some s' /\ SPost g n b w s s') ->
  (Z.to_nat (n - (vertex_index s0 - b)) < S fuel)%nat ->
  SLoop g n b v s0 done s -> In w (setlist (g v)) ->
  exists s', visit_edge (strongconnect fuel g) v w s = Some s' /\
             SLoop g n b v s0 (done ++ [w]) s'.
Proof.
  intros IH Hm [C Hdesc Hdin] Hin.
  assert (Hvr : 0 <= v < n) by (apply (sl_new _ _ _ _ _ _ _ C)).
  assert (Hw : 0 <= w < n).
  { apply In_setlist in Hin as [_ Hin]. destruct Hwf as [_ Hrows].
    apply (within_ISELEMENT n (g v) w (Hrows v Hvr) Hin). }
  unfold visit_edge.
  set (s1 := set_descendents v (ADDELEMENT (descendents (vinfos s v)) w) s).
  assert (Hd1 : descendents (vinfos s1 v) = ADDELEMENT (descendents (vinfos s v)) w).
  { unfold s1, set_descendents, set_vinfo. cbn [vinfos]. now rewrite upd_same. }
  assert (Hl1 : lowlink (vinfos s1 v) = lowlink (vinfos s v)).
  { unfold s1, set_descendents, set_vinfo. cbn [vinfos]. now rewrite upd_same. }
  assert (C1 : SCore g n b v s0 done s1).
  { eapply SCore_vchanged; eauto. apply vchanged_set_descendents. }
  destruct (desc_step s v w _ done Hw Hdesc Hdin Hd1) as [Hdesc1 Hdin1].
  pose proof (SCore_visited _ _ _ _ C1) as Hvis1.
  destruct (Z.eqb_spec (index (vinfos s1 w)) UNDEFINED) as [Hund|Hvisw].
  - assert (Hnew : isnew n s1 w) by (split; auto).
    assert (Hpre : SPre g n b w s1) by (split; auto; apply (sl_inv _ _ _ _ _ _ _ C1)).
    assert (Hm1 : (Z.to_nat (n - (vertex_index s1 - b)) < fuel)%nat).
    { pose proof (sl_vi _ _ _ _ _ _ _ C1).
      pose proof (ti_count2 _ _ _ _ (sl_inv0 _ _ _ _ _ _ _ C1)).
      pose proof (nvisited_lt n s0 v (sl_new _ _ _ _ _ _ _ C1)). lia. }
    destruct (IH w s1 Hpre Hm1) as (s2 & Hrun & P). rewrite Hrun. cbn [obind].
    assert (Hv21 : vinfos s2 v = vinfos s1 v).
    { apply (fr_vinfo _ _ _ (sp_frame _ _ _ _ _ _ P)). intros [_ ?]. contradiction. }
    eexists. split; [reflexivity|].
    destruct (Z.gtb_spec (lowlink (vinfos s2 v)) (lowlink (vinfos s2 w))) as [Hgt|Hle].
    + constructor.
      * eapply SCore_child; eauto; [apply vchanged_set_lowlink|].
        unfold set_lowlink, set_vinfo. cbn [vinfos]. rewrite upd_same. cbn [lowlink]. lia.
      * unfold set_lowlink, set_vinfo. cbn [vinfos]. rewrite upd_same. cbn [descendents].
        rewrite Hv21. exact Hdesc1.
      * unfold set_lowlink, set_vinfo. cbn [vinfos]. rewrite upd_same. cbn [descendents].
        rewrite Hv21. exact Hdin1.
    + constructor.
      * eapply SCore_child; eauto; [apply vchanged_refl|]. lia.
      * rewrite Hv21. exact Hdesc1.
      * rewrite Hv21. exact Hdin1.
  - destruct (onstack (vinfos s1 w)) eqn:Hon;
      [destruct (Z.gtb_spec (lowlink (vinfos s1 v)) (index (vinfos s1 w))) as [Hgt|Hle]|];
      (eexists; split; [reflexivity|]).
    + constructor.
      * eapply SCore_old; eauto; try apply vchanged_set_lowlink;
          unfold set_lowlink, set_vinfo; cbn [vinfos]; rewrite upd_same;
          cbn [lowlink]; try lia; try (right; split; auto); try (intros _; lia).
      * unfold set_lowlink, set_vinfo. cbn [vinfos]. rewrite upd_same.
        cbn [descendents]. exact Hdesc1.
      * unfold set_lowlink, set_vinfo. cbn [vinfos]. rewrite upd_same.
        cbn [descendents]. exact Hdin1.
    + constructor; auto.
      eapply SCore_old; eauto; try apply vchanged_refl; try lia;
        try (intros _; lia).
    + constructor; auto.
      eapply SCore_old; eauto; try apply vchanged_refl; try lia;
        try (intros Hc; congruence).
Qed.

Lemma neighbour_loop_spec fuel v s0 :
  (forall w s, SPre g n b w s ->
     (Z.to_nat (n - (vertex_index s - b)) < fuel)%nat ->
     exists s', strongconnect fuel g w s = Some s' /\ SPost g n b w s s') ->
  (Z.to_nat (n - (vertex_index s0 - b)) < S fuel)%nat ->
  forall rest done s, SLoop g n b v s0 done s -> setlist (g v) = done ++ rest ->
  exists s', ofold (visit_edge (strongconnect fuel g) v) rest s = Some s' /\
             SLoop g n b v s0 (setlist (g v)) s'.
Proof.
  intros IH Hm. induction rest as [|w rest IHr]; intros done s L Hsplit.
  - exists s. split; [reflexivity|]. rewrite Hsplit, app_nil_r. exact L.
  - assert (Hin : In w (setlist (g v))).
    { rewrite Hsplit. apply in_or_app. right. now left. }
    destruct (visit_edge_spec fuel v s0 done w s IH Hm L Hin) as (s1 & Hrun & L1).
    simpl. rewrite Hrun. cbn [obind]. apply (IHr (done ++ [w])); auto.
    rewrite Hsplit, <- app_assoc. reflexivity.
Qed.

(** [strongconnect] started on an unreached vertex in a state satisfying
    the invariant returns, with enough fuel for the vertices not yet
    reached, and establishes its postcondition. *)
Lemma strongconnect_spec : forall fuel v s,
  SPre g n b v s ->
  (Z.to_nat (n - (vertex_index s - b)) < fuel)%nat ->
  exists s', strongconnect fuel g v s = Some s' /\ SPost g n b v s s'.
Proof.
  induction fuel as [|fuel IH]; intros v s Hpre Hm; [lia|].
  destruct (enter_spec v s Hpre) as (s1 & He & L).
  cbn [strongconnect]. rewrite He. cbn [obind]. rewrite foreach_setlist.
  destruct (neighbour_loop_spec fuel v s IH Hm (setlist (g v)) [] s1 L eq_refl)
    as (s2 & Hloop & L2).
  rewrite Hloop. cbn [obind]. now apply close_spec.
Qed.

End TarjanSteps.

(** * The decomposer: the whole of [tarjan] *)

Section TarjanTop.

Variable g : graph.
Variable n : Z.
Hypothesis Hwf : wf_graph g n.

Lemma reset_fold_fields l : forall s,
  let s' := fold_left (fun s i => set_sccinfo i fresh_sccinfo (set_vinfo i fresh_vinfo s)) l s in
  stack_top s' = stack_top s /\ currentSCC s' = currentSCC s /\
  isFirstSCC s' = isFirstSCC s /\ vertex_index s' = vertex_index s /\
  stack s' = stack s /\
  (forall i, In i l -> vinfos s' i = fresh_vinfo /\ sccinfos s' i = fresh_sccinfo) /\
  (forall i, ~ In i l -> vinfos s' i = vinfos s i /\ sccinfos s' i = sccinfos s i).
Proof.
  induction l as [|a l IH]; intros s; simpl.
  - repeat split; auto; contradiction.
  - destruct (IH (set_sccinfo a fresh_sccinfo (set_vinfo a fresh_vinfo s)))
      as (H1 & H2 & H3 & H4 & H5 & H6 & H7).
    simpl in *.
    split; [exact H1|]. split; [exact H2|]. split; [exact H3|].
    split; [exact H4|]. split; [exact H5|]. split.
    + intros i Hi.
      destruct (in_dec Z.eq_dec i l) as [Hin|Hnin]; [now apply H6|].
      destruct Hi as [<-|Hi]; [|contradiction].
      destruct (H7 a Hnin) as [E1 E2]. rewrite E1, E2, !upd_same. auto.
    + intros i Hi.
      destruct (H7 i) as [E1 E2]; [tauto|]. rewrite E1, E2.
      rewrite !upd_other by (intros ->; tauto). auto.
Qed.

Lemma tarjan_reset_fields s :
  let s' := tarjan_reset n s in
  stack_top s' = -1 /\ currentSCC s' = 0 /\ isFirstSCC s' = true /\
  vertex_index s' = vertex_index s /\ stack s' = stack s /\
  (forall i, 0 <= i < n -> vinfos s' i = fresh_vinfo /\ sccinfos s' i = fresh_sccinfo) /\
  (forall i, ~ 0 <= i < n -> vinfos s' i = vinfos s i /\ sccinfos s' i = sccinfos s i).
Proof.
  unfold tarjan_reset.
  destruct (reset_fold_fields (range n)
              (set_isFirstSCC true (set_currentSCC 0 (set_stack_top (-1) s))))
    as (H1 & H2 & H3 & H4 & H5 & H6 & H7).
  simpl in *.
  split; [exact H1|]. split; [exact H2|]. split; [exact H3|].
  split; [exact H4|]. split; [exact H5|]. split.
  - intros i Hi. apply H6. now apply In_range.
  - intros i Hi. apply H7. now rewrite In_range.
Qed.

Lemma nvisited_zero s :
  (forall u, 0 <= u < n -> index (vinfos s u) = UNDEFINED) -> nvisited n s = 0%nat.
Proof.
  intros H. unfold nvisited.
  assert (Hl : forall u, In u (range n) -> index (vinfos s u) = UNDEFINED)
    by (intros u Hu; apply H; now apply In_range).
  induction (range n) as [|a l IH]; auto.
  simpl. rewrite (Hl a) by now left. simpl. apply IH. intros u Hu. apply Hl. now right.
Qed.

Lemma tarjan_reset_TInv s : 0 <= vertex_index s ->
  TInv g n (vertex_index s) (tarjan_reset n s).
Proof.
  intros Hvi.
  destruct (tarjan_reset_fields s) as (H1 & H2 & H3 & H4 & H5 & H6 & H7).
  assert (Hsl : stack_list (tarjan_reset n s) = []).
  { unfold stack_list. rewrite H1. reflexivity. }
  constructor; rewrite ?H1, ?H2, ?H3, ?H4, ?Hsl; try lia.
  - intros v Hv. left. destruct (H6 v Hv) as [E _]. now rewrite E.
  - intros v Hv _. now destruct (H6 v Hv).
  - intros v. split; [intros []|]. intros [Hv Ho].
    destruct (H6 v Hv) as [E _]. rewrite E in Ho. discriminate.
  - constructor.
  - rewrite nvisited_zero; [lia|].
    intros u Hu. destruct (H6 u Hu) as [E _]. now rewrite E.
  - intros i Hi. apply H6. lia.
  - intros v Hv. split; [intros (i & Hi & _); lia|].
    intros [Hvis _]. unfold visited in Hvis. destruct (H6 v Hv) as [E _].
    rewrite E in Hvis. contradiction.
Qed.

Lemma tarjan_loop_spec b l : b + n <= INT_MAX -> forall s,
  TInv g n b s -> stack_list s = [] -> (forall u, In u l -> 0 <= u < n) ->
  exists s',
    ofold (fun v s => if index (vinfos s v) =? UNDEFINED
                      then strongconnect (S (Z.to_nat n)) g v s else Some s) l s
      = Some s' /\
    TInv g n b s' /\ stack_list s' = [] /\
    (forall u, visited s u -> visited s' u) /\
    (forall u, In u l -> visited s' u).
Proof.
  intros Hb. induction l as [|v l IH]; intros s I Hsl Hl.
  - exists s. cbn [ofold]. split; [reflexivity|]. split; [assumption|].
    split; [assumption|]. split; [auto|intros u []].
  - assert (Hv : 0 <= v < n) by (apply Hl; now left).
    assert (Hstep : exists s1,
              (if index (vinfos s v) =? UNDEFINED
               then strongconnect (S (Z.to_nat n)) g v s else Some s) = Some s1 /\
              TInv g n b s1 /\ stack_list s1 = [] /\
              (forall u, visited s u -> visited s1 u) /\ visited s1 v).
    { destruct (Z.eqb_spec (index (vinfos s v)) UNDEFINED) as [Hu|Hvis].
      - destruct (strongconnect_spec g n b Hwf Hb (S (Z.to_nat n)) v s) as (s1 & Hrun & P).
        + split; auto. split; auto.
        + pose proof (ti_base _ _ _ _ I). lia.
        + exists s1. split; [assumption|]. destruct P as [PI PF Pvi Pix Pst Plow Pfin Pfirst].
          split; [assumption|].
          destruct Pst as (A & HA & _ & HAnil & _).
          destruct Plow as [_ [Heq|(x & Hx & _)]]; [|rewrite Hsl in Hx; destruct Hx].
          rewrite (HAnil Heq), Hsl in HA. split; [assumption|]. split.
          * intros u Hu'. eapply Frame_visited; eauto.
          * unfold visited. rewrite Pix. pose proof (ti_base _ _ _ _ I).
            unfold UNDEFINED. lia.
      - exists s. split; [reflexivity|]. split; [assumption|].
        split; [assumption|]. split; auto. }
    destruct Hstep as (s1 & Hrun & I1 & Hsl1 & Hmono & Hv1).
    destruct (IH s1 I1 Hsl1) as (s' & Hrest & I' & Hsl' & Hmono' & Hl').
    { intros u Hu. apply Hl. now right. }
    exists s'. cbn [ofold]. rewrite Hrun. cbn [obind]. split; [assumption|].
    split; [assumption|]. split; [assumption|]. split; [auto|].
    intros u [<-|Hu]; auto.
Qed.

(** [tarjan] returns on every digraph the reader can deliver; afterwards
    the invariant holds, the stack is empty and every vertex has been
    reached. *)
Lemma tarjan_spec s : 0 <= vertex_index s -> vertex_index s + n <= INT_MAX ->
  exists s', tarjan g n s = Some s' /\
    TInv g n (vertex_index s) s' /\ stack_list s' = [] /\
    (forall u, 0 <= u < n -> visited s' u).
Proof.
  intros Hvi Hmax. unfold tarjan.
  pose proof (tarjan_reset_TInv s Hvi) as I.
  destruct (tarjan_reset_fields s) as (H1 & _).
  destruct (tarjan_loop_spec (vertex_index s) (range n) Hmax (tarjan_reset n s) I)
    as (s' & Hrun & I' & Hsl' & _ & Hall).
  - unfold stack_list. rewrite H1. reflexivity.
  - intros u Hu. now apply In_range.
  - exists s'. split; [assumption|]. split; [assumption|]. split; [assumption|].
    intros u Hu. apply Hall. now apply In_range.
Qed.

(** After [tarjan] every vertex lies in exactly one recorded component. *)
Lemma tarjan_member s s' v : 0 <= vertex_index s -> vertex_index s + n <= INT_MAX ->
  tarjan g n s = Some s' ->
  0 <= v < n -> exists i, 0 <= i < currentSCC s' /\ inscc s' i v.
Proof.
  intros Hvi Hmax Hrun Hv.
  destruct (tarjan_spec s Hvi Hmax) as (s2 & Hrun2 & I & Hsl & Hall).
  rewrite Hrun in Hrun2. injection Hrun2 as <-.
  apply (ti_scc_part _ _ _ _ I); auto. split; [now apply Hall|].
  destruct (onstack (vinfos s' v)) eqn:Ho; auto.
  assert (Hin : In v (stack_list s')) by (apply (ti_stack_in _ _ _ _ I); auto).
  rewrite Hsl in Hin. destruct Hin.
Qed.

End TarjanTop.

(** * The decomposer does not depend on where [vertex_index] starts *)

Section TarjanShift.

Variables (g : graph) (n b d : Z).
Hypothesis Hwf : wf_graph g n.
Hypothesis Hb : b + n <= INT_MAX.
Hypothesis Hd0 : 0 <= b + d.
Hypothesis Hd1 : b + d + n <= INT_MAX.

Lemma vinfo_shift_test x1 x2 : vinfo_shift d x1 x2 ->
  (index x1 =? UNDEFINED) = (index x2 =? UNDEFINED).
Proof.
  intros (_ & _ & H0 & H1).
  destruct (Z.eqb_spec (index x2) UNDEFINED) as [E|E].
  - destruct (H0 E) as [E1 _]. rewrite E1. reflexivity.
  - destruct (H1 E) as [Hne _]. now apply Z.eqb_neq.
Qed.

Lemma shifted_set_vinfo s1 s2 v x1 x2 :
  shifted n d s1 s2 -> vinfo_shift d x1 x2 ->
  shifted n d (set_vinfo v x1 s1) (set_vinfo v x2 s2).
Proof.
  intros [H1 H2 H3 H4 H5 H6 H7] Hx.
  constructor;
    cbn [set_vinfo sccinfos currentSCC isFirstSCC vinfos vertex_index stack stack_top];
    auto.
  intros u Hu. unfold upd. destruct (u =? v); auto.
Qed.

Lemma shifted_set_sccinfo s1 s2 i x :
  shifted n d s1 s2 -> shifted n d (set_sccinfo i x s1) (set_sccinfo i x s2).
Proof.
  intros [H1 H2 H3 H4 H5 H6 H7].
  constructor;
    cbn [set_sccinfo sccinfos currentSCC isFirstSCC vinfos vertex_index stack stack_top];
    auto.
  intros u Hu. unfold upd. destruct (u =? i); auto.
Qed.

Lemma shifted_set_currentSCC s1 s2 x :
  shifted n d s1 s2 -> shifted n d (set_currentSCC x s1) (set_currentSCC x s2).
Proof. intros [H1 H2 H3 H4 H5 H6 H7]. constructor; cbn; auto. Qed.

Lemma shifted_set_isFirstSCC s1 s2 x :
  shifted n d s1 s2 -> shifted n d (set_isFirstSCC x s1) (set_isFirstSCC x s2).
Proof. intros [H1 H2 H3 H4 H5 H6 H7]. constructor; cbn; auto. Qed.

Lemma shifted_set_stack_top s1 s2 x : x <= stack_top s2 ->
  shifted n d s1 s2 -> shifted n d (set_stack_top x s1) (set_stack_top x s2).
Proof.
  intros Hx [H1 H2 H3 H4 H5 H6 H7]. constructor; cbn; auto.
  intros i Hi. apply H7. lia.
Qed.

Lemma shifted_set_lowlink s1 s2 v x : 0 <= v < n ->
  shifted n d s1 s2 -> index (vinfos s2 v) <> UNDEFINED ->
  shifted n d (set_lowlink v (x + d) s1) (set_lowlink v x s2).
Proof.
  intros Hv H Hvis. unfold set_lowlink. cbv zeta.
  apply shifted_set_vinfo; [assumption|].
  destruct (sh_vinfo _ _ _ _ H v Hv) as (A & B & C & D).
  destruct (D Hvis) as (D1 & D2 & D3).
  unfold vinfo_shift. cbn [index lowlink onstack descendents].
  repeat split; auto; try contradiction.
Qed.

Lemma shifted_set_onstack s1 s2 v x : 0 <= v < n ->
  shifted n d s1 s2 ->
  shifted n d (set_onstack v x s1) (set_onstack v x s2).
Proof.
  intros Hv H. unfold set_onstack. cbv zeta.
  apply shifted_set_vinfo; [assumption|].
  destruct (sh_vinfo _ _ _ _ H v Hv) as (A & B & C & D).
  unfold vinfo_shift. cbn [index lowlink onstack descendents]. auto.
Qed.

Lemma shifted_set_descendents s1 s2 v x : 0 <= v < n ->
  shifted n d s1 s2 ->
  shifted n d (set_descendents v x s1) (set_descendents v x s2).
Proof.
  intros Hv H. unfold set_descendents. cbv zeta.
  apply shifted_set_vinfo; [assumption|].
  destruct (sh_vinfo _ _ _ _ H v Hv) as (A & B & C & D).
  unfold vinfo_shift. cbn [index lowlink onstack descendents]. auto.
Qed.

Lemma shifted_enter v s1 s2 s2' :
  shifted n d s1 s2 -> SPre g n b v s2 -> enter v s2 = Some s2' ->
  exists s1', enter v s1 = Some s1' /\ shifted n d s1' s2'.
Proof.
  intros H [I Hnew] E.
  pose proof (ti_base _ _ _ _ I) as Hbase.
  pose proof (ti_count2 _ _ _ _ I) as Hcnt.
  pose proof (nvisited_lt n s2 v Hnew) as Hlt.
  destruct Hnew as [Hv Hund].
  pose proof (sh_vi _ _ _ _ H) as Hvi.
  pose proof (sh_top _ _ _ _ H) as Htop.
  unfold enter, push in *.
  cbn [set_index set_lowlink set_vinfo set_vertex_index sccinfos currentSCC isFirstSCC
       vinfos vertex_index stack stack_top] in *.
  rewrite wrap_int_small in E by (unfold INT_MAX in *; lia).
  rewrite wrap_int_small by (unfold INT_MAX in *; lia).
  rewrite Htop. destruct (stack_top s2 + 1 >=? MAXN); [discriminate|].
  cbn [obind] in *. injection E as <-. eexists. split; [reflexivity|].
  destruct H as [H1 H2 H3 H4 H5 H6 H7].
  constructor;
    cbn [set_onstack set_vinfo sccinfos currentSCC isFirstSCC vinfos vertex_index
         stack stack_top]; auto; try lia.
  - intros u Hu. unfold upd. destruct (Z.eqb_spec u v) as [->|Hne].
    + rewrite !Z.eqb_refl. cbn [index lowlink onstack descendents].
      destruct (H5 v Hv) as (A & B & C & D).
      unfold vinfo_shift. cbn [index lowlink onstack descendents].
      split; [reflexivity|]. split; [assumption|]. split.
      * intros Hc. unfold UNDEFINED in *. lia.
      * intros _. unfold UNDEFINED in *. split; lia.
    + apply H5. assumption.
  - intros i Hi. unfold upd. destruct (i =? stack_top s2 + 1) eqn:Ei; auto.
    apply H7. apply Z.eqb_neq in Ei. lia.
Qed.

Lemma shifted_pop_scc v : forall cnt s1 s2 desc size s2' desc' size',
  shifted n d s1 s2 -> 0 <= currentSCC s2 < n ->
  (forall i, 0 <= i <= stack_top s2 -> 0 <= stack s2 i < n) ->
  pop_scc cnt v s2 desc size = Some (s2', desc', size') ->
  exists s1', pop_scc cnt v s1 desc size = Some (s1', desc', size') /\
              shifted n d s1' s2'.
Proof.
  induction cnt as [|cnt IH]; intros s1 s2 desc size s2' desc' size' H Hc Hst E;
    [discriminate|].
  cbn [pop_scc] in *. unfold pop in *.
  rewrite (sh_top _ _ _ _ H).
  destruct (Z.ltb_spec (stack_top s2) 0) as [?|Htop]; [discriminate|].
  cbn [obind] in *.
  rewrite (sh_stack _ _ _ _ H (stack_top s2)) by lia.
  set (w := stack s2 (stack_top s2)) in *.
  assert (Hw : 0 <= w < n) by (apply Hst; lia).
  cbv zeta in *.
  set (a2 := set_onstack w false (set_stack_top (stack_top s2 - 1) s2)) in *.
  set (a1 := set_onstack w false (set_stack_top (stack_top s2 - 1) s1)).
  assert (Ha : shifted n d a1 a2).
  { apply shifted_set_onstack; [assumption|].
    apply shifted_set_stack_top; [lia|assumption]. }
  rewrite (sh_cur _ _ _ _ Ha).
  rewrite (sh_scc _ _ _ _ Ha (currentSCC a2)) by exact Hc.
  set (R := mksccinfo (ADDELEMENT (sccVertices (sccinfos a2 (currentSCC a2))) w)
                      (isLeaf (sccinfos a2 (currentSCC a2)))
                      (sccSize (sccinfos a2 (currentSCC a2)))) in *.
  cbn [vinfos set_sccinfo] in *.
  destruct (sh_vinfo _ _ _ _ Ha w Hw) as (_ & Hdesc & _).
  rewrite Hdesc.
  pose proof (shifted_set_sccinfo a1 a2 (currentSCC a2) R Ha) as Hb2.
  destruct (w =? v).
  - injection E as <- <- <-. eexists. split; [reflexivity|]. exact Hb2.
  - apply (IH _ _ _ _ _ _ _ Hb2); [exact Hc| |exact E].
    intros i Hi. apply Hst. cbn in Hi. lia.
Qed.

Lemma pop_scc_cur v : forall cnt s desc size s' desc' size',
  pop_scc cnt v s desc size = Some (s', desc', size') -> currentSCC s' = currentSCC s.
Proof.
  induction cnt as [|cnt IH]; intros s desc size s' desc' size' E; [discriminate|].
  cbn [pop_scc] in E. unfold pop in E.
  destruct (stack_top s <? 0); [discriminate|]. cbn [obind] in E. cbv zeta in E.
  destruct (stack s (stack_top s) =? v).
  - injection E as <- _ _. reflexivity.
  - apply IH in E. rewrite E. reflexivity.
Qed.

Lemma stack_entry_in s i : 0 <= i <= stack_top s -> In (stack s i) (stack_list s).
Proof.
  intros Hi. unfold stack_list. apply in_map. apply -> in_rev. apply In_range. lia.
Qed.

Lemma shifted_set_isLeaf s1 s2 i x : 0 <= i < n ->
  shifted n d s1 s2 -> shifted n d (set_isLeaf i x s1) (set_isLeaf i x s2).
Proof.
  intros Hi H. unfold set_isLeaf. cbv zeta. rewrite (sh_scc _ _ _ _ H i Hi).
  now apply shifted_set_sccinfo.
Qed.

Lemma shifted_set_sccSize s1 s2 i x : 0 <= i < n ->
  shifted n d s1 s2 -> shifted n d (set_sccSize i x s1) (set_sccSize i x s2).
Proof.
  intros Hi H. unfold set_sccSize. cbv zeta. rewrite (sh_scc _ _ _ _ H i Hi).
  now apply shifted_set_sccinfo.
Qed.

Lemma shifted_close v s0 s1 s2 s2' :
  shifted n d s1 s2 -> SLoop g n b v s0 (setlist (g v)) s2 ->
  close_scc v s2 = Some s2' ->
  exists s1', close_scc v s1 = Some s1' /\ shifted n d s1' s2'.
Proof.
  intros H [C _ _] E.
  pose proof (sl_inv _ _ _ _ _ _ _ C) as I.
  assert (Hv : 0 <= v < n) by apply (sl_new _ _ _ _ _ _ _ C).
  pose proof (SCore_visited g n b v s0 _ s2 C) as Hvis.
  destruct (sh_vinfo _ _ _ _ H v Hv) as (_ & _ & _ & Hsh).
  destruct (Hsh Hvis) as (_ & Hix & Hlow).
  assert (Htop : 0 <= stack_top s2).
  { destruct (sl_stack _ _ _ _ _ _ _ C) as (A & HA & _).
    pose proof (length_stack_list s2) as Hlen. rewrite HA, length_app in Hlen.
    cbn [length] in Hlen. lia. }
  assert (Hc : 0 <= currentSCC s2 < n).
  { pose proof (TInv_cur_le g n b Hwf s2 I). pose proof (ti_cur _ _ _ _ I). lia. }
  assert (Hst : forall i, 0 <= i <= stack_top s2 -> 0 <= stack s2 i < n).
  { intros i Hi. apply (ti_stack_in _ _ _ _ I). now apply stack_entry_in. }
  unfold close_scc in *. rewrite Hix, Hlow.
  replace (lowlink (vinfos s2 v) + d =? index (vinfos s2 v) + d)
    with (lowlink (vinfos s2 v) =? index (vinfos s2 v))
    by (destruct (Z.eqb_spec (lowlink (vinfos s2 v)) (index (vinfos s2 v)));
        symmetry; [apply Z.eqb_eq|apply Z.eqb_neq]; lia).
  destruct (lowlink (vinfos s2 v) =? index (vinfos s2 v)).
  2:{ injection E as <-. exists s1. split; [reflexivity|assumption]. }
  rewrite (sh_top _ _ _ _ H).
  destruct (pop_scc (Z.to_nat (stack_top s2 + 1)) v s2 0 0) as [[[p2 desc] size]|] eqn:Ep;
    [|discriminate].
  destruct (shifted_pop_scc v _ s1 s2 0 0 p2 desc size H Hc Hst Ep) as (p1 & Ep1 & Hp).
  rewrite Ep1. cbn [obind] in *. cbv zeta in *.
  pose proof (pop_scc_cur v _ _ _ _ _ _ _ Ep) as Hcur.
  assert (Hc2 : 0 <= currentSCC p2 < n) by lia.
  rewrite (sh_cur _ _ _ _ Hp).
  set (T2 := set_sccSize (currentSCC p2) size p2) in *.
  set (T1 := set_sccSize (currentSCC p2) size p1).
  assert (HT : shifted n d T1 T2) by (apply shifted_set_sccSize; assumption).
  rewrite (sh_first _ _ _ _ HT), (sh_cur _ _ _ _ HT).
  rewrite (sh_scc _ _ _ _ HT (currentSCC T2)) by exact Hc2.
  destruct (isFirstSCC T2).
  - injection E as <-. eexists. split; [reflexivity|].
    rewrite (sh_cur _ _ _ _ (shifted_set_isFirstSCC _ _ false
               (shifted_set_isLeaf _ _ (currentSCC T2) true Hc2 HT))).
    apply shifted_set_currentSCC, shifted_set_isFirstSCC, shifted_set_isLeaf; assumption.
  - destruct (SETDIFF desc (sccVertices (sccinfos T2 (currentSCC T2))) =? 0).
    + injection E as <-. eexists. split; [reflexivity|].
      rewrite (sh_cur _ _ _ _ (shifted_set_isLeaf _ _ (currentSCC T2) true Hc2 HT)).
      apply shifted_set_currentSCC, shifted_set_isLeaf; assumption.
    + injection E as <-. eexists. split; [reflexivity|].
      rewrite (sh_cur _ _ _ _ HT).
      apply shifted_set_currentSCC; assumption.
Qed.

Lemma gtb_shift x y : (x + d >? y + d) = (x >? y).
Proof. destruct (Z.gtb_spec x y), (Z.gtb_spec (x + d) (y + d)); auto; lia. Qed.

Lemma shifted_visit_edge fuel v s0 done w s1 s2 :
  (forall w s1 s2, shifted n d s1 s2 -> SPre g n b w s2 ->
     (Z.to_nat (n - (vertex_index s2 - b)) < fuel)%nat ->
     exists s1' s2', strongconnect fuel g w s1 = Some s1' /\
                     strongconnect fuel g w s2 = Some s2' /\ shifted n d s1' s2') ->
  (Z.to_nat (n - (vertex_index s0 - b)) < S fuel)%nat ->
  shifted n d s1 s2 -> SLoop g n b v s0 done s2 -> In w (setlist (g v)) ->
  exists s1' s2', visit_edge (strongconnect fuel g) v w s1 = Some s1' /\
                  visit_edge (strongconnect fuel g) v w s2 = Some s2' /\
                  shifted n d s1' s2' /\ SLoop g n b v s0 (done ++ [w]) s2'.
Proof.
  intros IH Hm H L Hin.
  destruct (visit_edge_spec g n b Hwf fuel v s0 done w s2
              (strongconnect_spec g n b Hwf Hb fuel) Hm L Hin) as (s2' & E2 & L2).
  destruct L as [C Hdesc Hdin].
  assert (Hv : 0 <= v < n) by (apply (sl_new _ _ _ _ _ _ _ C)).
  assert (Hw : 0 <= w < n).
  { apply In_setlist in Hin as [_ Hin]. destruct Hwf as [_ Hrows].
    apply (within_ISELEMENT n (g v) w (Hrows v Hv) Hin). }
  cut (exists s1', visit_edge (strongconnect fuel g) v w s1 = Some s1' /\
                   shifted n d s1' s2').
  { intros (s1' & E1 & Hs). exists s1', s2'. auto. }
  unfold visit_edge in *.
  destruct (sh_vinfo _ _ _ _ H v Hv) as (_ & Hdv & _). rewrite Hdv.
  set (a2 := set_descendents v (ADDELEMENT (descendents (vinfos s2 v)) w) s2) in *.
  set (a1 := set_descendents v (ADDELEMENT (descendents (vinfos s2 v)) w) s1).
  assert (Ha : shifted n d a1 a2) by (apply shifted_set_descendents; assumption).
  assert (C1 : SCore g n b v s0 done a2).
  { eapply SCore_vchanged; eauto; [apply vchanged_set_descendents|].
    unfold a2, set_descendents, set_vinfo. cbn [vinfos]. now rewrite upd_same. }
  pose proof (SCore_visited _ _ _ _ _ _ _ C1) as Hvis1.
  rewrite (vinfo_shift_test _ _ (sh_vinfo _ _ _ _ Ha w Hw)).
  destruct (Z.eqb_spec (index (vinfos a2 w)) UNDEFINED) as [Hund|Hvisw].
  - assert (Hnew : isnew n a2 w) by (split; auto).
    assert (Hpre : SPre g n b w a2) by (split; auto; apply (sl_inv _ _ _ _ _ _ _ C1)).
    assert (Hm1 : (Z.to_nat (n - (vertex_index a2 - b)) < fuel)%nat).
    { pose proof (sl_vi _ _ _ _ _ _ _ C1).
      pose proof (ti_count2 _ _ _ _ (sl_inv0 _ _ _ _ _ _ _ C1)).
      pose proof (nvisited_lt n s0 v (sl_new _ _ _ _ _ _ _ C1)). lia. }
    destruct (IH w a1 a2 Ha Hpre Hm1) as (r1 & r2 & R1 & R2 & Hr).
    destruct (strongconnect_spec g n b Hwf Hb fuel w a2 Hpre Hm1) as (r2' & R2' & P).
    rewrite R2 in R2'. injection R2' as <-.
    rewrite R2 in E2. rewrite R1. cbn [obind] in *.
    assert (Hv21 : vinfos r2 v = vinfos a2 v).
    { apply (fr_vinfo _ _ _ (sp_frame _ _ _ _ _ _ P)). intros [_ ?]. contradiction. }
    assert (Hvr : index (vinfos r2 v) <> UNDEFINED) by (rewrite Hv21; exact Hvis1).
    assert (Hwr : index (vinfos r2 w) <> UNDEFINED).
    { rewrite (sp_index _ _ _ _ _ _ P).
      pose proof (ti_base _ _ _ _ (sl_inv _ _ _ _ _ _ _ C1)). unfold UNDEFINED. lia. }
    destruct (sh_vinfo _ _ _ _ Hr v Hv) as (_ & _ & _ & Hsv).
    destruct (Hsv Hvr) as (_ & _ & Hlv).
    destruct (sh_vinfo _ _ _ _ Hr w Hw) as (_ & _ & _ & Hsw).
    destruct (Hsw Hwr) as (_ & _ & Hlw).
    rewrite Hlv, Hlw, gtb_shift.
    destruct (lowlink (vinfos r2 v) >? lowlink (vinfos r2 w)).
    + injection E2 as <-. eexists. split; [reflexivity|].
      now apply shifted_set_lowlink.
    + injection E2 as <-. eexists. split; [reflexivity|assumption].
  - destruct (sh_vinfo _ _ _ _ Ha w Hw) as (Hon & _ & _ & Hsw).
    destruct (Hsw Hvisw) as (_ & Hiw & _).
    destruct (sh_vinfo _ _ _ _ Ha v Hv) as (_ & _ & _ & Hsv).
    destruct (Hsv Hvis1) as (_ & _ & Hlv).
    rewrite Hon, Hlv, Hiw, gtb_shift.
    destruct (onstack (vinfos a2 w)).
    + destruct (lowlink (vinfos a2 v) >? index (vinfos a2 w)).
      * injection E2 as <-. eexists. split; [reflexivity|].
        now apply shifted_set_lowlink.
      * injection E2 as <-. eexists. split; [reflexivity|assumption].
    + injection E2 as <-. eexists. split; [reflexivity|assumption].
Qed.

Lemma shifted_neighbour_loop fuel v s0 :
  (forall w s1 s2, shifted n d s1 s2 -> SPre g n b w s2 ->
     (Z.to_nat (n - (vertex_index s2 - b)) < fuel)%nat ->
     exists s1' s2', strongconnect fuel g w s1 = Some s1' /\
                     strongconnect fuel g w s2 = Some s2' /\ shifted n d s1' s2') ->
  (Z.to_nat (n - (vertex_index s0 - b)) < S fuel)%nat ->
  forall rest done s1 s2, shifted n d s1 s2 -> SLoop g n b v s0 done s2 ->
  setlist (g v) = done ++ rest ->
  exists s1' s2', ofold (visit_edge (strongconnect fuel g) v) rest s1 = Some s1' /\
                  ofold (visit_edge (strongconnect fuel g) v) rest s2 = Some s2' /\
                  shifted n d s1' s2' /\ SLoop g n b v s0 (setlist (g v)) s2'.
Proof.
  intros IH Hm. induction rest as [|w rest IHr]; intros done s1 s2 H L Hsplit.
  - exists s1, s2. cbn [ofold]. rewrite Hsplit, app_nil_r. auto.
  - assert (Hin : In w (setlist (g v))).
    { rewrite Hsplit. apply in_or_app. right. now left. }
    destruct (shifted_visit_edge fuel v s0 done w s1 s2 IH Hm H L Hin)
      as (a1 & a2 & E1 & E2 & Ha & La).
    cbn [ofold]. rewrite E1, E2. cbn [obind].
    apply (IHr (done ++ [w])); auto.
    rewrite Hsplit, <- app_assoc. reflexivity.
Qed.

(** Started in states that are the same but for the counter, two calls
    of [strongconnect] end in such states. *)
Lemma shifted_strongconnect : forall fuel v s1 s2,
  shifted n d s1 s2 -> SPre g n b v s2 ->
  (Z.to_nat (n - (vertex_index s2 - b)) < fuel)%nat ->
  exists s1' s2', strongconnect fuel g v s1 = Some s1' /\
                  strongconnect fuel g v s2 = Some s2' /\ shifted n d s1' s2'.
Proof.
  induction fuel as [|fuel IH]; intros v s1 s2 H Hpre Hm; [lia|].
  destruct (enter_spec g n b Hwf Hb v s2 Hpre) as (a2 & E2 & L).
  destruct (shifted_enter v s1 s2 a2 H Hpre E2) as (a1 & E1 & Ha).
  cbn [strongconnect]. rewrite E1, E2. cbn [obind]. rewrite !foreach_setlist.
  destruct (shifted_neighbour_loop fuel v s2 IH Hm (setlist (g v)) [] a1 a2 Ha L eq_refl)
    as (c1 & c2 & F1 & F2 & Hc & Lc).
  rewrite F1, F2. cbn [obind].
  destruct (close_spec g n b Hwf v s2 c2 Lc) as (r2 & G2 & _).
  destruct (shifted_close v s2 c1 c2 r2 Hc Lc G2) as (r1 & G1 & Hr).
  exists r1, r2. auto.
Qed.

End TarjanShift.

Section TarjanIndependent.

Variables (g : graph) (n : Z).
Hypothesis Hwf : wf_graph g n.

Lemma shifted_reset s1 s2 :
  shifted n (vertex_index s1 - vertex_index s2) (tarjan_reset n s1) (tarjan_reset n s2).
Proof.
  destruct (tarjan_reset_fields n s1) as (A1 & A2 & A3 & A4 & A5 & A6 & A7).
  destruct (tarjan_reset_fields n s2) as (B1 & B2 & B3 & B4 & B5 & B6 & B7).
  constructor; try congruence; try lia.
  - intros v Hv. destruct (A6 v Hv) as [-> _]. destruct (B6 v Hv) as [-> _].
    unfold vinfo_shift, fresh_vinfo. cbn [index lowlink onstack descendents].
    repeat split; auto; contradiction.
  - intros i Hi. destruct (A6 i Hi) as [_ ->]. destruct (B6 i Hi) as [_ ->]. reflexivity.
Qed.

Lemma shifted_tarjan_loop b d l :
  b + n <= INT_MAX -> 0 <= b + d -> b + d + n <= INT_MAX ->
  forall s1 s2, shifted n d s1 s2 -> TInv g n b s2 -> stack_list s2 = [] ->
  (forall u, In u l -> 0 <= u < n) ->
  exists s1' s2',
    ofold (fun v s => if index (vinfos s v) =? UNDEFINED
                      then strongconnect (S (Z.to_nat n)) g v s else Some s) l s1
      = Some s1' /\
    ofold (fun v s => if index (vinfos s v) =? UNDEFINED
                      then strongconnect (S (Z.to_nat n)) g v s else Some s) l s2
      = Some s2' /\
    shifted n d s1' s2'.
Proof.
  intros Hb Hd0 Hd1. induction l as [|v l IH]; intros s1 s2 H I Hsl Hl.
  - exists s1, s2. cbn [ofold]. auto.
  - assert (Hv : 0 <= v < n) by (apply Hl; now left).
    destruct (tarjan_loop_spec g n Hwf b [v] Hb s2 I Hsl) as (r2 & R2 & I2 & Hsl2 & _).
    { intros u [<-|[]]. assumption. }
    cbn [ofold] in *.
    rewrite (vinfo_shift_test d _ _ (sh_vinfo _ _ _ _ H v Hv)).
    destruct (Z.eqb_spec (index (vinfos s2 v)) UNDEFINED) as [Hund|Hvis].
    + destruct (shifted_strongconnect g n b d Hwf Hb Hd0 Hd1 (S (Z.to_nat n)) v s1 s2 H)
        as (a1 & a2 & E1 & E2 & Ha).
      * split; [assumption|]. split; assumption.
      * pose proof (ti_base _ _ _ _ I). lia.
      * rewrite E2 in R2 |- *. rewrite E1. cbn [obind] in *. injection R2 as <-.
        apply IH; auto. intros u Hu. apply Hl. now right.
    + cbn [obind] in *. injection R2 as <-.
      apply IH; auto. intros u Hu. apply Hl. now right.
Qed.

(** Two runs of [tarjan] on the same digraph from any two states in
    which the counter cannot overflow differ by the shift only. *)
Lemma tarjan_shifted s1 s2 :
  0 <= vertex_index s1 -> vertex_index s1 + n <= INT_MAX ->
  0 <= vertex_index s2 -> vertex_index s2 + n <= INT_MAX ->
  exists t1 t2, tarjan g n s1 = Some t1 /\ tarjan g n s2 = Some t2 /\
                shifted n (vertex_index s1 - vertex_index s2) t1 t2.
Proof.
  intros A1 A2 B1 B2. unfold tarjan.
  apply (shifted_tarjan_loop (vertex_index s2)); try lia.
  - apply shifted_reset.
  - now apply tarjan_reset_TInv.
  - unfold stack_list. destruct (tarjan_reset_fields n s2) as (-> & _). reflexivity.
  - intros u Hu. now apply In_range.
Qed.

End TarjanIndependent.

(** * The admissibility filter *)

Section FilterFacts.

Lemma elems_from_ge c s x y : In y (elems_from c s x) -> x <= y.
Proof. intros H. apply In_elems_from in H. lia. Qed.

Lemma leaf_scan_elems S c : forall k x cnt v l,
  0 <= x -> x + Z.of_nat k = WORDSIZE -> elems_from k S x = v :: l ->
  (length l <= cnt)%nat ->
  leaf_scan cnt S c v = existsb (fun u => negb (c u =? 0)) (v :: l).
Proof.
  induction k as [|k IH]; intros x cnt v l Hx Hk He Hc; [discriminate|].
  simpl in He. destruct (ISELEMENT S x) eqn:E.
  - injection He as <- Hl.
    assert (Hnext : nextelement S x = hd (-1) l).
    { rewrite nextelement_elems by lia.
      replace (Z.to_nat (WORDSIZE - 1 - x)) with k by lia. now rewrite Hl. }
    assert (Hunf : leaf_scan cnt S c x =
              if negb (c x =? 0) then true
              else if nextelement S x =? UNDEFINED then false
                   else match cnt with
                        | O => false
                        | S cnt' => leaf_scan cnt' S c (nextelement S x)
                        end) by (destruct cnt; reflexivity).
    rewrite Hunf, Hnext. cbn [existsb].
    destruct (negb (c x =? 0)); [reflexivity|]. cbn [orb].
    destruct l as [|v' l']; [reflexivity|]. cbn [hd].
    assert (Hv' : x + 1 <= v').
    { apply (elems_from_ge k S (x + 1)). rewrite Hl. now left. }
    destruct (Z.eqb_spec v' UNDEFINED) as [Hbad|_]; [unfold UNDEFINED in Hbad; lia|].
    destruct cnt as [|cnt']; [simpl in Hc; lia|].
    apply (IH (x + 1)); auto; try lia. simpl in Hc. lia.
  - apply (IH (x + 1)); auto; lia.
Qed.

Lemma setlist_unfold S : setlist S = elems_from (Z.to_nat WORDSIZE) S 0.
Proof. unfold setlist. reflexivity. Qed.

Lemma nextelement_first S : nextelement S UNDEFINED = hd (-1) (setlist S).
Proof.
  unfold nextelement, setlist.
  replace (UNDEFINED <? 0) with true by reflexivity. reflexivity.
Qed.

Lemma leafcoloured_spec S c : setlist S <> [] ->
  leafcoloured S c = existsb (fun u => negb (c u =? 0)) (setlist S).
Proof.
  intros Hne. unfold leafcoloured. rewrite nextelement_first.
  destruct (setlist S) as [|v l] eqn:E; [contradiction|]. cbn [hd].
  rewrite setlist_unfold in E.
  pose proof (length_elems_from (Z.to_nat WORDSIZE) S 0) as Hl.
  rewrite E in Hl. cbn [length] in Hl.
  apply (leaf_scan_elems S c (Z.to_nat WORDSIZE) 0 (Z.to_nat WORDSIZE) v l).
  - lia.
  - rewrite Z2Nat.id; unfold WORDSIZE; lia.
  - exact E.
  - lia.
Qed.

Lemma leafcoloured_iff S c n : within n S -> n <= WORDSIZE ->
  (exists v, ISELEMENT S v = true) ->
  (leafcoloured S c = true <-> exists v, ISELEMENT S v = true /\ c v <> 0).
Proof.
  intros Hw Hn (v0 & Hv0).
  assert (Hin0 : In v0 (setlist S)).
  { apply In_setlist. split; auto. pose proof (within_ISELEMENT n S v0 Hw Hv0). lia. }
  rewrite leafcoloured_spec by (intros E; rewrite E in Hin0; destruct Hin0).
  rewrite existsb_exists. split.
  - intros (v & Hv & Hc). apply In_setlist in Hv as [_ Hv].
    exists v. split; auto. apply negb_true_iff, Z.eqb_neq in Hc. exact Hc.
  - intros (v & Hv & Hc). exists v. split.
    + apply In_setlist. split; auto. pose proof (within_ISELEMENT n S v Hw Hv). lia.
    + apply negb_true_iff, Z.eqb_neq. exact Hc.
Qed.

Lemma admissible_iff t c :
  admissible t c = true <->
  forall i, 0 <= i < currentSCC t -> isLeaf (sccinfos t i) = true ->
            leafcoloured (sccVertices (sccinfos t i)) c = true.
Proof.
  unfold admissible. rewrite forallb_forall. split.
  - intros H i Hi Hl. specialize (H i (proj2 (In_range _ _) Hi)).
    rewrite Hl in H. exact H.
  - intros H i Hi. apply In_range in Hi.
    destruct (isLeaf (sccinfos t i)) eqn:E; [|reflexivity]. simpl. auto.
Qed.

(** For the component table [tarjan] leaves behind, the filter accepts
    exactly the colourings that colour a vertex of every leaf. *)
Lemma admissible_tarjan g n b t c : wf_graph g n -> TInv g n b t ->
  (admissible t c = true <->
   forall i, 0 <= i < currentSCC t -> isLeaf (sccinfos t i) = true ->
             exists v, inscc t i v /\ c v <> 0).
Proof.
  intros [Hn _] I. rewrite admissible_iff.
  assert (Hle : n <= WORDSIZE) by (unfold MAXN, WORDSIZE in *; lia).
  split; intros H i Hi Hl; specialize (H i Hi Hl).
  - apply (leafcoloured_iff _ c n) in H; auto.
    + apply (ti_scc_within _ _ _ _ I); auto.
    + apply (ti_scc_nonempty _ _ _ _ I); auto.
  - apply (leafcoloured_iff _ c n); auto.
    + apply (ti_scc_within _ _ _ _ I); auto.
    + apply (ti_scc_nonempty _ _ _ _ I); auto.
Qed.

Lemma leaf_scan_ext S c c' : (forall j, c j = c' j) ->
  forall cnt j, leaf_scan cnt S c j = leaf_scan cnt S c' j.
Proof.
  intros H. induction cnt as [|cnt IH]; intros j; simpl; rewrite H; auto.
  destruct (negb (c' j =? 0)); auto.
  destruct (nextelement S j =? UNDEFINED); auto.
Qed.

Lemma admissible_ext t c c' : (forall j, c j = c' j) ->
  admissible t c = admissible t c'.
Proof.
  intros H. unfold admissible.
  induction (range (currentSCC t)) as [|i l IH]; [reflexivity|].
  cbn [forallb]. rewrite IH. f_equal. f_equal.
  unfold leafcoloured. now apply leaf_scan_ext.
Qed.

Lemma coloring_ext c c' n : (forall j, 0 <= j < n -> c j = c' j) ->
  coloring c n = coloring c' n.
Proof.
  intros H. unfold coloring. apply map_ext_in. intros j Hj. apply H.
  now apply In_range.
Qed.

Lemma extend_rows_ext g c c' n : (forall j, 0 <= j < n -> c j = c' j) ->
  map (extend g c n) (range (n + 1)) = map (extend g c' n) (range (n + 1)).
Proof.
  intros H. apply map_ext_in. intros j Hj. unfold extend.
  destruct (Z.leb_spec 0 j), (Z.ltb_spec j n); simpl; auto.
  rewrite H by lia. reflexivity.
Qed.

Lemma filter_obs_ext t dswitch g n c c' o : (forall j, c j = c' j) ->
  filter_obs t dswitch g n c o = filter_obs t dswitch g n c' o.
Proof.
  intros H. unfold filter_obs. destruct o as [[tc wr] ca].
  rewrite (admissible_ext t c c' H), (coloring_ext c c' n), (extend_rows_ext g c c' n);
    auto.
Qed.

Lemma filter_and_output_obs t dswitch g n s :
  obs_of (filter_and_output t dswitch g n s)
  = filter_obs t dswitch g n (col s) (obs_of s).
Proof.
  unfold filter_and_output, filter_obs, obs_of. simpl.
  destruct (admissible t (col s)); destruct dswitch; reflexivity.
Qed.

End FilterFacts.

(** * The canonicity test *)

Section MaxFacts.

Lemma kvalues_S k cnt : kvalues k (S cnt) = k :: kvalues (k + 1) cnt.
Proof.
  unfold kvalues. cbn [seq map]. f_equal; [lia|].
  rewrite <- seq_shift, map_map. apply map_ext. intros a. lia.
Qed.

Lemma range_kvalues n : range n = kvalues 0 (Z.to_nat n).
Proof. unfold range, kvalues. apply map_ext. intros a. lia. Qed.

Lemma In_kvalues k cnt x : In x (kvalues k cnt) <-> k <= x < k + Z.of_nat cnt.
Proof.
  unfold kvalues. rewrite in_map_iff. split.
  - intros (i & <- & Hi). apply in_seq in Hi. lia.
  - intros H. exists (Z.to_nat (x - k)). split; [lia|]. apply in_seq. lia.
Qed.

Lemma length_kvalues k cnt : length (kvalues k cnt) = cnt.
Proof. unfold kvalues. now rewrite length_map, length_seq. Qed.

Lemma ismax_from_lexfail cnt p s : forall i fail,
  match lexfail cnt p (col s) i fail with
  | Some f => ismax_from cnt p i fail s = (false, set_fail_level f s)
  | None => ismax_from cnt p i fail s = (true, s) \/
            ismax_from cnt p i fail s
              = (true, set_newgroupsize (newgroupsize s + 1) s)
  end.
Proof.
  induction cnt as [|cnt IH]; intros i fail; cbn [lexfail ismax_from].
  - now right.
  - destruct (col s (p i) >? col s i); [reflexivity|].
    destruct (col s (p i) <? col s i); [now left|]. apply IH.
Qed.

Lemma lex_le_cons_inv x y a b :
  lex_le (x :: a) (y :: b) <-> (x < y /\ length a = length b) \/ (x = y /\ lex_le a b).
Proof.
  split.
  - intros H. inversion H; subst; auto.
  - intros [[H1 H2]|[-> H]]; [now apply lex_le_lt|now apply lex_le_eq].
Qed.

(** [ismax] answers TRUE exactly when col^p <= col lexicographically. *)
Lemma lexfail_none cnt p c : forall i fail,
  lexfail cnt p c i fail = None <->
  lex_le (map (fun j => c (p j)) (kvalues i cnt)) (map c (kvalues i cnt)).
Proof.
  induction cnt as [|cnt IH]; intros i fail.
  - cbn. split; [constructor|reflexivity].
  - rewrite kvalues_S. cbn [lexfail map]. rewrite lex_le_cons_inv.
    destruct (Z.gtb_spec (c (p i)) (c i)) as [Hgt|Hle].
    + split; [discriminate|]. intros [[H _]|[H _]]; lia.
    + destruct (Z.ltb_spec (c (p i)) (c i)) as [Hlt|Hge].
      * split; [|reflexivity]. intros _. left. split; [assumption|].
        now rewrite !length_map.
      * rewrite IH. split; [intros H; right; split; [lia|exact H]|].
        intros [[H _]|[_ H]]; [lia|exact H].
Qed.

Lemma lexok_lex_le n c p :
  lexok n c p = true <-> lex_le (permuted c p n) (coloring c n).
Proof.
  unfold lexok, permuted, coloring. rewrite range_kvalues.
  rewrite <- (lexfail_none (Z.to_nat n) p c 0 0).
  destruct (lexfail (Z.to_nat n) p c 0 0); split; congruence.
Qed.

Lemma lexok_identity n c : lexok n c identity_perm = true.
Proof.
  apply lexok_lex_le. unfold permuted, identity_perm, coloring.
  induction (range n) as [|a l IH]; simpl; [constructor|now apply lex_le_eq].
Qed.

(** Where [ismax] answers FALSE, and what it stores in [fail_level]. *)
Lemma lexfail_some cnt p c : forall i fail f,
  lexfail cnt p c i fail = Some f ->
  exists k, i <= k < i + Z.of_nat cnt /\
    (forall j, i <= j < k -> c (p j) = c j) /\ c (p k) > c k /\
    fail <= f /\ (forall j, i <= j <= k -> p j <= f) /\
    (f = fail \/ exists j, i <= j <= k /\ p j = f).
Proof.
  induction cnt as [|cnt IH]; intros i fail f H; [discriminate|].
  cbn [lexfail] in H.
  destruct (Z.gtb_spec (c (p i)) (c i)) as [Hgt|Hle].
  - injection H as <-. exists i. repeat split; try lia.
    + destruct (Z.gtb_spec (p i) fail); lia.
    + intros j Hj. assert (j = i) by lia. subst.
      destruct (Z.gtb_spec (p i) fail); lia.
    + destruct (Z.gtb_spec (p i) fail); [right; exists i; split; [lia|reflexivity]|now left].
  - destruct (Z.ltb_spec (c (p i)) (c i)) as [Hlt|Hge]; [discriminate|].
    apply IH in H as (k & Hk & Hpre & Hgt & Hf & Hmax & Hatt).
    exists k. split; [lia|]. split.
    { intros j Hj. destruct (Z.eq_dec j i) as [->|]; [lia|apply Hpre; lia]. }
    split; [assumption|].
    destruct (Z.gtb_spec (p i) fail) as [Hpi|Hpi].
    + split; [lia|]. split.
      * intros j Hj. destruct (Z.eq_dec j i) as [->|]; [lia|apply Hmax; lia].
      * destruct Hatt as [->|(j & Hj & Hpj)]; right; [exists i|exists j]; split; auto; lia.
    + split; [lia|]. split.
      * intros j Hj. destruct (Z.eq_dec j i) as [->|]; [lia|apply Hmax; lia].
      * destruct Hatt as [->|(j & Hj & Hpj)]; [now left|right; exists j; split; auto; lia].
Qed.

Lemma lexfail_reject cnt p c : forall i fail k,
  i <= k < i + Z.of_nat cnt ->
  (forall j, i <= j < k -> c (p j) = c j) -> c (p k) > c k ->
  lexfail cnt p c i fail <> None.
Proof.
  induction cnt as [|cnt IH]; intros i fail k Hk Hpre Hgt; [lia|].
  cbn [lexfail].
  destruct (Z.eq_dec k i) as [->|Hne].
  - destruct (Z.gtb_spec (c (p i)) (c i)); [discriminate|lia].
  - rewrite (Hpre i) by lia.
    destruct (Z.gtb_spec (c i) (c i)); [lia|].
    destruct (Z.ltb_spec (c i) (c i)); [lia|].
    apply (IH (i + 1) _ k); auto; try lia. intros j Hj. apply Hpre. lia.
Qed.

Lemma lexfail_ext cnt p p' c c' : forall i fail,
  (forall j, c j = c' j) -> (forall j, i <= j < i + Z.of_nat cnt -> p j = p' j) ->
  lexfail cnt p c i fail = lexfail cnt p' c' i fail.
Proof.
  induction cnt as [|cnt IH]; intros i fail Hc Hp; [reflexivity|].
  cbn [lexfail]. rewrite <- (Hp i) by lia. rewrite <- !Hc.
  destruct (c (p i) >? c i); [reflexivity|].
  destruct (c (p i) <? c i); [reflexivity|].
  apply IH; auto. intros j Hj. apply Hp. lia.
Qed.

Lemma lexok_ext n p p' c c' :
  (forall j, c j = c' j) -> (forall j, 0 <= j < n -> p j = p' j) ->
  lexok n c p = lexok n c' p'.
Proof.
  intros Hc Hp. unfold lexok.
  rewrite (lexfail_ext (Z.to_nat n) p p' c c' 0 0); auto.
  intros j Hj. apply Hp. lia.
Qed.

Lemma passes_ext group gs n c c' : (forall j, c j = c' j) ->
  passes group gs n c = passes group gs n c'.
Proof.
  intros H. destruct group as [grp|]; [|reflexivity]. cbn [passes]. f_equal.
  induction grp as [|p grp IH]; [reflexivity|]. cbn [forallb].
  rewrite IH. f_equal. now apply lexok_ext.
Qed.

(** An injection of [0..k] into [0..f] needs [k <= f]. *)
Lemma injection_bound (p : perm) k f : 0 <= k ->
  (forall j, 0 <= j <= k -> 0 <= p j <= f) ->
  (forall i j, 0 <= i <= k -> 0 <= j <= k -> p i = p j -> i = j) ->
  k <= f.
Proof.
  intros Hk Hr Hinj.
  assert (Hnd : NoDup (map p (range (k + 1)))).
  { assert (Hall : forall l, NoDup l -> (forall x, In x l -> 0 <= x <= k) ->
                              NoDup (map p l)).
    { induction l as [|a l IH]; intros Hn Hl; simpl; constructor.
      - intros Hin. apply in_map_iff in Hin as (x & Hx & Hxl).
        inversion Hn; subst. apply Hinj in Hx.
        + subst. contradiction.
        + apply Hl. now right.
        + apply Hl. now left.
      - inversion Hn; subst. apply IH; auto. intros x Hx. apply Hl. now right. }
    apply Hall; [apply NoDup_range|]. intros x Hx. apply In_range in Hx. lia. }
  assert (Hincl : incl (map p (range (k + 1))) (range (f + 1))).
  { intros y Hy. apply in_map_iff in Hy as (x & <- & Hx). apply In_range in Hx.
    apply In_range. specialize (Hr x). lia. }
  pose proof (NoDup_incl_length Hnd Hincl) as Hlen.
  rewrite length_map, !length_range in Hlen.
  destruct (Z.ltb_spec f 0) as [Hf|Hf]; [specialize (Hr 0); lia|]. lia.
Qed.

(** A rejection at level [f] stands for every colouring that agrees
    below [f] and is not smaller at [f]: the reason why [trythisone] may
    send the search back to level [f-1]. *)
Lemma lexfail_cert n p c f : 0 <= n -> is_perm p n ->
  lexfail (Z.to_nat n) p c 0 0 = Some f ->
  0 <= f < n /\
  forall c', (forall j, 0 <= j < f -> c' j = c j) -> c f <= c' f ->
             lexok n c' p = false.
Proof.
  intros Hn [Hr Hinj] H.
  apply lexfail_some in H as (k & Hk & Hpre & Hgt & Hf & Hmax & Hatt).
  rewrite Z2Nat.id in Hk by lia.
  assert (Hkf : k <= f).
  { apply (injection_bound p k f); try lia.
    - intros j Hj. specialize (Hr j). specialize (Hmax j). lia.
    - intros i j Hi Hj. apply Hinj; lia. }
  assert (Hfn : f < n).
  { destruct Hatt as [->|(j & Hj & <-)]; [lia|]. apply Hr. lia. }
  assert (Hstar : exists j, 0 <= j <= k /\ p j = f).
  { destruct Hatt as [->|Hex]; [|exact Hex].
    exists 0. split; [lia|]. specialize (Hr 0). specialize (Hmax 0). lia. }
  destruct Hstar as (js & Hjs & Hpjs).
  split; [lia|]. intros c' Hagree Hge.
  assert (Hrej : exists k', 0 <= k' < 0 + Z.of_nat (Z.to_nat n) /\
            (forall j, 0 <= j < k' -> c' (p j) = c' j) /\ c' (p k') > c' k').
  { destruct (Z.eq_dec (c' f) (c f)) as [Heq|Hneq].
    - assert (Hall : forall j, 0 <= j <= f -> c' j = c j).
      { intros j Hj. destruct (Z.eq_dec j f) as [->|]; [assumption|apply Hagree; lia]. }
      exists k. split; [lia|]. split.
      + intros j Hj. rewrite !Hall; try lia.
        * apply Hpre. lia.
        * specialize (Hr j). specialize (Hmax j). lia.
      + rewrite !Hall; try lia. specialize (Hr k). specialize (Hmax k). lia.
    - assert (Hjsf : js <> f).
      { intros ->. assert (k = f) by lia. subst k. rewrite Hpjs in Hgt. lia. }
      exists js. split; [lia|]. split.
      + intros j Hj.
        assert (Hpj : p j <> f).
        { intros He. rewrite <- Hpjs in He. apply Hinj in He; lia. }
        rewrite !Hagree.
        * apply Hpre. lia.
        * lia.
        * specialize (Hr j). specialize (Hmax j). lia.
      + rewrite Hpjs, (Hagree js) by lia.
        destruct (Z.eq_dec js k) as [->|Hne].
        * rewrite Hpjs in Hgt. lia.
        * specialize (Hpre js). rewrite Hpjs in Hpre. lia. }
  destruct Hrej as (k' & Hk' & Hpre' & Hgt').
  unfold lexok.
  pose proof (lexfail_reject (Z.to_nat n) p c' 0 0 k' Hk' Hpre' Hgt') as Hne.
  destruct (lexfail (Z.to_nat n) p c' 0 0); congruence.
Qed.

End MaxFacts.

(** * [trythisone] and its variant *)

Ltac conjs := repeat match goal with |- _ /\ _ => split end.

Section TryFacts.

Variable n : Z.
Hypothesis Hn : 0 <= n.

Lemma keeps_refl s : keeps s s.
Proof. unfold keeps. auto. Qed.

Lemma keeps_trans s1 s2 s3 : keeps s1 s2 -> keeps s2 s3 -> keeps s1 s3.
Proof. unfold keeps. intros (A & B & C) (D & E & F). repeat split; congruence. Qed.

Lemma ismax_spec p s :
  let '(ok, s') := ismax p n s in
  ok = lexok n (col s) p /\ keeps s s' /\
  lastreject s' = lastreject s /\ lastrejok s' = lastrejok s /\
  first s' = first s /\
  (ok = false -> lexfail (Z.to_nat n) p (col s) 0 0 = Some (fail_level s')).
Proof.
  unfold ismax, lexok.
  pose proof (ismax_from_lexfail (Z.to_nat n) p s 0 0) as H.
  destruct (lexfail (Z.to_nat n) p (col s) 0 0) as [f|].
  - rewrite H. unfold keeps, obs_of. simpl. repeat split; auto.
  - destruct H as [H|H]; rewrite H; unfold keeps, obs_of; simpl;
      repeat split; auto; easy.
Qed.

Lemma testmax_spec p s : first s = false ->
  let '(abort, s') := testmax p n s in
  abort = negb (lexok n (col s) p) /\ keeps s s' /\ first s' = false /\
  (abort = false -> lastreject s' = lastreject s /\ lastrejok s' = lastrejok s) /\
  (abort = true ->
     lexfail (Z.to_nat n) p (col s) 0 0 = Some (fail_level s') /\
     lastrejok s' = true /\ forall i, 0 <= i < n -> lastreject s' i = p i).
Proof.
  intros Hf. unfold testmax. rewrite Hf.
  pose proof (ismax_spec p s) as H.
  destruct (ismax p n s) as [ok s1].
  destruct H as (Hok & Hk & Hlr & Hlk & Hfirst & Hfail).
  destruct ok.
  - rewrite <- Hok. simpl. conjs; auto; try congruence; easy.
  - rewrite <- Hok. simpl. destruct Hk as (K1 & K2 & K3).
    unfold keeps, obs_of in *. simpl. repeat split; auto; try congruence; try discriminate.
    intros i Hi.
    destruct (Z.leb_spec 0 i), (Z.ltb_spec i n); simpl; auto; lia.
Qed.

Lemma allgroup2_from_spec l : forall s, first s = false ->
  let '(abort, s') := allgroup2_from l n s in
  abort = negb (forallb (lexok n (col s)) l) /\ keeps s s' /\
  (abort = false -> lastreject s' = lastreject s /\ lastrejok s' = lastrejok s) /\
  (abort = true -> exists q,
     In q l /\ lexfail (Z.to_nat n) q (col s) 0 0 = Some (fail_level s') /\
     lastrejok s' = true /\ forall i, 0 <= i < n -> lastreject s' i = q i).
Proof.
  induction l as [|p l IH]; intros s Hf; cbn [allgroup2_from forallb].
  - conjs; auto using keeps_refl; easy.
  - pose proof (testmax_spec p s Hf) as H.
    destruct (testmax p n s) as [abort s1].
    destruct H as (Hab & Hk & Hf1 & Hno & Hyes).
    destruct abort.
    + apply (f_equal negb) in Hab. rewrite negb_involutive in Hab. simpl in Hab.
      rewrite <- Hab. simpl. split; [reflexivity|]. split; [assumption|].
      split; [discriminate|]. intros _. exists p.
      destruct (Hyes eq_refl) as (A & B & C). repeat split; auto; now left.
    + apply (f_equal negb) in Hab. rewrite negb_involutive in Hab. simpl in Hab.
      rewrite <- Hab. cbn [andb].
      specialize (IH s1 Hf1). destruct (allgroup2_from l n s1) as [abort s2].
      destruct IH as (Hab2 & Hk2 & Hno2 & Hyes2).
      assert (Hc : col s1 = col s) by apply Hk.
      rewrite Hc in Hab2, Hyes2.
      split; [assumption|]. split; [eapply keeps_trans; eauto|]. split.
      * intros Ha. destruct (Hno2 Ha) as [A B]. destruct (Hno eq_refl) as [C D].
        split; congruence.
      * intros Ha. destruct (Hyes2 Ha) as (q & Hq & A & B & C).
        exists q. repeat split; auto; now right.
Qed.

Lemma allgroup2_spec grp s : first s = true ->
  let '(abort, s') := allgroup2 grp n s in
  abort = negb (forallb (lexok n (col s)) grp) /\ keeps s s' /\
  (abort = false -> lastreject s' = lastreject s /\ lastrejok s' = lastrejok s) /\
  (abort = true -> exists q,
     In q grp /\ lexfail (Z.to_nat n) q (col s) 0 0 = Some (fail_level s') /\
     lastrejok s' = true /\ forall i, 0 <= i < n -> lastreject s' i = q i).
Proof.
  intros Hf. unfold allgroup2. cbn [allgroup2_from]. unfold testmax. rewrite Hf.
  pose proof (allgroup2_from_spec grp (set_first false s) eq_refl) as H.
  destruct (allgroup2_from grp n (set_first false s)) as [abort s'].
  destruct H as (A & B & C & D). simpl in A, C, D.
  split; [assumption|]. split; [|split; assumption].
  destruct B as (B1 & B2 & B3). unfold keeps. auto.
Qed.

Lemma passes_reject grp gs c p : gs <> 1 -> In p grp -> lexok n c p = false ->
  passes (Some grp) gs n c = false.
Proof.
  intros Hgs Hin Hp. cbn [passes]. apply Z.eqb_neq in Hgs. rewrite Hgs. simpl.
  destruct (forallb (lexok n c) grp) eqn:E; auto.
  rewrite forallb_forall in E. rewrite (E p Hin) in Hp. discriminate.
Qed.

(** A rejection by a group element [q] is a certificate for the level
    it stores. *)
Lemma reject_cert grp gs c q f : gs <> 1 -> In q grp -> is_perm q n ->
  lexfail (Z.to_nat n) q c 0 0 = Some f ->
  0 <= f < n /\ rejects_beyond (Some grp) gs n c (f - 1).
Proof.
  intros Hgs Hin Hperm Hfail.
  destruct (lexfail_cert n q c f Hn Hperm Hfail) as [Hf Hcert].
  split; [assumption|]. intros c' Hagree Hge.
  replace (f - 1 + 1) with f in Hge by lia.
  apply (passes_reject grp gs c' q); auto.
  apply Hcert; auto. intros j Hj. apply Hagree. lia.
Qed.

(** The decision of [trythisone] is the canonicity test, and a rejection
    carries its certificate. *)
Lemma accept_test_spec group s :
  witness_ok group n s -> group_ok group (groupsize s) n ->
  let '(acc, s') := accept_test group n s in
  acc = passes group (groupsize s) n (col s) /\ keeps s s' /\
  witness_ok group n s' /\
  (acc = false -> 0 <= fail_level s' < n /\
     rejects_beyond group (groupsize s) n (col s) (fail_level s' - 1)).
Proof.
  intros Hw Hg. destruct group as [grp|].
  2:{ cbn. conjs; auto using keeps_refl. discriminate. }
  cbn [accept_test passes]. cbn [group_ok] in Hg. destruct Hg as [Hperm Htwo].
  cbn [witness_ok] in Hw.
  destruct (Z.eqb_spec (groupsize s) 1) as [Hone|Hone].
  { simpl. conjs; auto using keeps_refl. discriminate. }
  cbn [orb].
  assert (Hfull : forall s1, keeps s s1 ->
            (lastrejok s1 = true ->
               exists p, In p grp /\ forall i, 0 <= i < n -> lastreject s1 i = p i) ->
            let '(acc, s') :=
              (let s2 := set_first true (set_newgroupsize 1 s1) in
               let '(abort, s3) := allgroup2 grp n s2 in (negb abort, s3)) in
            acc = forallb (lexok n (col s)) grp /\ keeps s s' /\
            witness_ok (Some grp) n s' /\
            (acc = false -> 0 <= fail_level s' < n /\
               rejects_beyond (Some grp) (groupsize s) n (col s) (fail_level s' - 1))).
  { intros s1 Hk1 Hw1. cbn zeta.
    pose proof (allgroup2_spec grp (set_first true (set_newgroupsize 1 s1)) eq_refl) as H.
    destruct (allgroup2 grp n (set_first true (set_newgroupsize 1 s1))) as [abort s3].
    destruct H as (A & B & C & D). simpl in A, C, D.
    destruct Hk1 as (K1 & K2 & K3). rewrite K1 in A, D.
    split; [rewrite A; apply negb_involutive|]. split.
    { destruct B as (B1 & B2 & B3). unfold keeps, obs_of in *. simpl in *.
      repeat split; congruence. }
    split.
    - cbn [witness_ok]. intros Hl. destruct abort.
      + destruct (D eq_refl) as (q & Hq & _ & _ & Hlr). exists q. auto.
      + destruct (C eq_refl) as [E1 E2]. rewrite E1. apply Hw1. congruence.
    - intros Hacc. destruct abort; [|discriminate].
      destruct (D eq_refl) as (q & Hq & Hfail & _).
      apply (reject_cert grp (groupsize s) (col s) q); auto. }
  destruct (lastrejok s) eqn:Hlk.
  - destruct (Hw eq_refl) as (p & Hp & Hlr).
    pose proof (ismax_spec (lastreject s) s) as H.
    destruct (ismax (lastreject s) n s) as [ok s1].
    destruct H as (Hok & Hk & Hlr1 & Hlk1 & _ & Hfail).
    assert (Hext : lexok n (col s) (lastreject s) = lexok n (col s) p)
      by (apply lexok_ext; auto).
    destruct ok; cbn [negb].
    + destruct (Z.eqb_spec (groupsize s1) 2) as [Htwo1|Htwo1].
      * assert (Hgs : groupsize s = 2) by (destruct Hk as (_ & K & _); congruence).
        specialize (Htwo Hgs).
        destruct grp as [|q [|q' grp']]; try discriminate.
        destruct Hp as [->|[]]. cbn [forallb]. rewrite <- Hext, <- Hok. simpl.
        repeat split; auto; try apply Hk; try discriminate.
        cbn [witness_ok]. intros _. exists p. split; [now left|].
        intros i Hi. rewrite Hlr1. auto.
      * apply Hfull; auto. intros _. exists p. split; auto.
        intros i Hi. rewrite Hlr1. auto.
    + assert (Hrej : lexok n (col s) p = false) by congruence.
      split.
      { symmetry. destruct (forallb (lexok n (col s)) grp) eqn:E; auto.
        rewrite forallb_forall in E. rewrite (E p Hp) in Hrej. discriminate. }
      split; [assumption|]. split.
      * cbn [witness_ok]. intros _. exists p. split; auto.
        intros i Hi. rewrite Hlr1. auto.
      * intros _. specialize (Hfail eq_refl).
        rewrite (lexfail_ext _ (lastreject s) p (col s) (col s) 0 0) in Hfail; auto.
        -- apply (reject_cert grp (groupsize s) (col s) p); auto.
        -- intros j Hj. apply Hlr. lia.
  - apply Hfull; auto using keeps_refl. intros Hc. congruence.
Qed.

End TryFacts.

(** * The search [scan] *)

Section ListFacts.

Lemma length_coloring c m : length (coloring c m) = Z.to_nat m.
Proof. unfold coloring. now rewrite length_map, length_range. Qed.

Lemma lookup_coloring c m j : 0 <= j < m -> lookup (coloring c m) j = c j.
Proof.
  intros Hj. unfold lookup, coloring, range. rewrite map_map.
  rewrite (nth_indep _ 0 (c (Z.of_nat 0))) by (rewrite length_map, length_seq; lia).
  rewrite (map_nth (fun i => c (Z.of_nat i))), seq_nth by lia.
  f_equal. lia.
Qed.

Lemma coloring_snoc c level k : 0 <= level ->
  coloring (upd c level k) (level + 1) = coloring c level ++ [k].
Proof.
  intros Hl. unfold coloring. rewrite range_succ by lia. rewrite map_app.
  cbn [map]. rewrite upd_same. f_equal.
  apply map_ext_in. intros j Hj. apply In_range in Hj. apply upd_other. lia.
Qed.

Lemma fill_in n cout cl j : 0 <= j < n -> fill n cout cl j = lookup cl j.
Proof.
  intros Hj. unfold fill.
  destruct (Z.leb_spec 0 j), (Z.ltb_spec j n); simpl; auto; lia.
Qed.

Lemma fill_out n cout cl j : ~ 0 <= j < n -> fill n cout cl j = cout j.
Proof.
  intros Hj. unfold fill.
  destruct (Z.leb_spec 0 j), (Z.ltb_spec j n); simpl; auto; lia.
Qed.

Lemma fill_coloring n cout c :
  (forall j, ~ 0 <= j < n -> c j = cout j) ->
  forall j, fill n cout (coloring c n) j = c j.
Proof.
  intros H j. destruct (Z_le_dec 0 j) as [H0|H0]; [destruct (Z_lt_dec j n) as [H1|H1]|].
  - rewrite fill_in, lookup_coloring by lia. reflexivity.
  - rewrite fill_out by lia. symmetry. apply H. lia.
  - rewrite fill_out by lia. symmetry. apply H. lia.
Qed.

Lemma replay_app t dswitch g n cout a b o :
  replay t dswitch g n cout (a ++ b) o
  = replay t dswitch g n cout b (replay t dswitch g n cout a o).
Proof. unfold replay. apply fold_left_app. Qed.

Lemma survivors_app group gs n cout a b :
  survivors group gs n cout (a ++ b)
  = survivors group gs n cout a ++ survivors group gs n cout b.
Proof. unfold survivors. apply filter_app. Qed.

Lemma survivors_none group gs n cout l :
  (forall cl, In cl l -> passes group gs n (fill n cout cl) = false) ->
  survivors group gs n cout l = [].
Proof.
  unfold survivors. induction l as [|cl l IH]; intros H; [reflexivity|].
  cbn [filter]. rewrite (H cl) by now left. apply IH. intros x Hx. apply H. now right.
Qed.

Lemma rejects_beyond_ext group gs n c c' ret : -1 <= ret ->
  (forall j, 0 <= j <= ret + 1 -> c j = c' j) ->
  rejects_beyond group gs n c ret -> rejects_beyond group gs n c' ret.
Proof.
  intros Hr Hc H x Hx Hge. apply H.
  - intros j Hj. rewrite Hc by lia. now apply Hx.
  - rewrite Hc by lia. assumption.
Qed.

Lemma candidates_prefix prev minedges maxedges numcols n d :
  forall level sofar pre cl,
  In cl (candidates prev minedges maxedges numcols n d level sofar pre) ->
  forall j, 0 <= j < Z.of_nat (length pre) -> lookup cl j = lookup pre j.
Proof.
  induction d as [|d IH]; intros level sofar pre cl Hin j Hj.
  - destruct Hin as [<-|[]]. reflexivity.
  - cbn [candidates] in Hin. cbv zeta in Hin.
    apply in_flat_map in Hin. destruct Hin as (k & _ & Hin).
    rewrite (IH _ _ _ _ Hin) by (rewrite length_app; simpl; lia).
    unfold lookup. apply app_nth1. lia.
Qed.

Lemma candidates_length prev minedges maxedges numcols n d :
  forall level sofar pre cl,
  In cl (candidates prev minedges maxedges numcols n d level sofar pre) ->
  length cl = (length pre + d)%nat.
Proof.
  induction d as [|d IH]; intros level sofar pre cl Hin.
  - destruct Hin as [<-|[]]. lia.
  - cbn [candidates] in Hin. cbv zeta in Hin.
    apply in_flat_map in Hin. destruct Hin as (k & _ & Hin).
    rewrite (IH _ _ _ _ Hin), length_app. simpl. lia.
Qed.

End ListFacts.

Section ScanFacts.

Variables (group : option (list perm)) (t : tarjan_state) (dswitch : bool).
Variables (g : graph) (n gs : Z) (prev : Z -> Z) (minedges maxedges numcols : Z).
Variable cout : Z -> Z.
Variable try : vcolg_state -> Z * vcolg_state.
Variable I : vcolg_state -> Prop.

Hypothesis Hprev : forall l, 0 <= l < n -> prev l < l.
Hypothesis HIcol : forall s c, I s -> I (set_col c s).
Hypothesis Htry : forall s, I s ->
  I (snd (try s)) /\ col (snd (try s)) = col s /\ -1 <= fst (try s) <= n - 1 /\
  obs_of (snd (try s))
  = (if passes group gs n (col s)
     then filter_obs t dswitch g n (col s) (obs_of s) else obs_of s) /\
  (fst (try s) < n - 1 -> rejects_beyond group gs n (col s) (fst (try s))).

Let J (s : vcolg_state) : Prop :=
  I s /\ forall j, ~ 0 <= j < n -> col s j = cout j.

Let cands := candidates prev minedges maxedges numcols n.
Let surv := survivors group gs n cout.
Let rep := replay t dswitch g n cout.

Lemma scan_loop_spec level d sofar body :
  0 <= level < n ->
  (forall k s, J s ->
     exists ret s', body k s = Some (ret, s') /\ J s' /\
       (forall j, j < level -> col s' j = col s j) /\ -1 <= ret <= level /\
       obs_of s' = rep (surv (cands d (level + 1) (sofar + k)
                                 (coloring (col s) level ++ [k]))) (obs_of s) /\
       (ret < level -> rejects_beyond group gs n (upd (col s) level k) ret)) ->
  forall cnt k s, J s ->
  exists ret s', scan_loop cnt level k body s = Some (ret, s') /\ J s' /\
    (forall j, j < level -> col s' j = col s j) /\ -1 <= ret <= level - 1 /\
    obs_of s' = rep (surv (flat_map (fun k => cands d (level + 1) (sofar + k)
                                                (coloring (col s) level ++ [k]))
                                    (kvalues k cnt))) (obs_of s) /\
    (ret < level - 1 -> rejects_beyond group gs n (col s) ret).
Proof.
  intros Hl Hbody. induction cnt as [|cnt IH]; intros k s HJ.
  - exists (level - 1), s. cbn [scan_loop]. conjs; auto; try lia.
  - cbn [scan_loop]. rewrite kvalues_S. cbn [flat_map].
    destruct (Hbody k s HJ) as (ret1 & s1 & E1 & J1 & C1 & R1 & O1 & B1).
    rewrite E1. cbn [obind].
    destruct (Z.ltb_spec ret1 level) as [Hlt|Hge].
    + exists ret1, s1. specialize (B1 Hlt).
      split; [reflexivity|]. split; [assumption|]. split; [assumption|].
      split; [lia|]. split.
      * unfold surv, rep in *. rewrite survivors_app, replay_app, <- O1.
        rewrite survivors_none; [reflexivity|].
        intros cl Hcl. apply in_flat_map in Hcl. destruct Hcl as (k' & Hk' & Hcl).
        apply In_kvalues in Hk'.
        assert (Hpre : forall j, 0 <= j < level + 1 ->
                                 lookup cl j = upd (col s) level k' j).
        { intros j Hj. rewrite <- coloring_snoc in Hcl by lia.
          rewrite (candidates_prefix _ _ _ _ _ _ _ _ _ _ Hcl)
            by (rewrite length_coloring; lia).
          apply lookup_coloring. lia. }
        apply B1.
        -- intros j Hj. rewrite fill_in, Hpre by lia.
           rewrite !upd_other by lia. reflexivity.
        -- rewrite fill_in, Hpre by lia.
           destruct (Z.eq_dec (ret1 + 1) level) as [->|Hne].
           ++ rewrite !upd_same. lia.
           ++ rewrite !upd_other by lia. lia.
      * intros Hlt'. apply (rejects_beyond_ext _ _ _ (upd (col s) level k)); auto; [lia|].
        intros j Hj. apply upd_other. lia.
    + assert (ret1 = level) by lia. subst ret1.
      destruct (IH (k + 1) s1 J1) as (ret2 & s2 & E2 & J2 & C2 & R2 & O2 & B2).
      exists ret2, s2.
      assert (Hc : coloring (col s1) level = coloring (col s) level).
      { apply coloring_ext. intros j Hj. apply C1. lia. }
      rewrite Hc in O2.
      split; [assumption|]. split; [assumption|]. split.
      { intros j Hj. rewrite C2, C1 by lia. reflexivity. }
      split; [assumption|]. split.
      { unfold surv, rep in *. rewrite survivors_app, replay_app, <- O1. exact O2. }
      intros Hlt'. apply (rejects_beyond_ext _ _ _ (col s1)); auto; [lia|].
      intros j Hj. apply C1. lia.
Qed.

Lemma scan_with_spec d : forall level sofar s,
  level = n - Z.of_nat d -> 0 <= level -> J s ->
  exists ret s',
    scan_with try d level prev minedges maxedges sofar numcols n s = Some (ret, s') /\
    J s' /\ (forall j, j < level -> col s' j = col s j) /\ -1 <= ret <= level - 1 /\
    obs_of s' = rep (surv (cands d level sofar (coloring (col s) level))) (obs_of s) /\
    (ret < level - 1 -> rejects_beyond group gs n (col s) ret).
Proof.
  induction d as [|d IH]; intros level sofar s Hlev H0 HJ.
  - assert (level = n) by lia. clear Hlev. subst level.
    cbn [scan_with]. rewrite Z.eqb_refl.
    destruct HJ as [HI Hout].
    destruct (Htry s HI) as (A & B & C & D & E).
    destruct (try s) as [ret s']. cbn [fst snd] in *.
    exists ret, s'. split; [reflexivity|]. split.
    { split; [assumption|]. intros j Hj. rewrite B. auto. }
    split; [intros j _; now rewrite B|]. split; [lia|]. split; [|assumption].
    unfold cands, surv, rep. cbn [candidates]. unfold survivors. cbn [filter].
    rewrite (passes_ext group gs n _ (col s)) by (apply fill_coloring; auto).
    rewrite D. destruct (passes group gs n (col s)); [|reflexivity].
    unfold replay. cbn [fold_left]. apply filter_obs_ext.
    intros j. symmetry. apply fill_coloring. auto.
  - assert (Hl : 0 <= level < n) by lia.
    cbn [scan_with]. destruct (Z.eqb_spec level n) as [?|_]; [lia|].
    unfold cands. cbn [candidates]. cbv zeta. fold cands.
    set (M := if maxedges - sofar >=? numcols then numcols - 1 else maxedges - sofar).
    assert (Hmax : (if (prev level >=? 0) && (lookup (coloring (col s) level) (prev level) <? M)
                    then lookup (coloring (col s) level) (prev level) else M)
                   = (if (prev level >=? 0) && (col s (prev level) <? M)
                      then col s (prev level) else M)).
    { destruct (Z.geb_spec (prev level) 0) as [Hge|Hneg]; [|reflexivity].
      rewrite lookup_coloring; [reflexivity|].
      specialize (Hprev level Hl). lia. }
    rewrite Hmax.
    apply (scan_loop_spec level d sofar _ Hl).
    2: assumption.
    intros k s0 [HI0 Hout0].
    destruct (IH (level + 1) (sofar + k) (set_col (upd (col s0) level k) s0))
      as (ret & s' & E & J' & C & R & O & B); [lia|lia| |].
    { split; [now apply HIcol|]. intros j Hj. cbn [col set_col].
      rewrite upd_other by lia. auto. }
    exists ret, s'. cbn [col set_col] in *.
    rewrite coloring_snoc in O by lia.
    split; [assumption|]. split; [assumption|]. split.
    { intros j Hj. rewrite C by lia. apply upd_other. lia. }
    split; [lia|]. split; [exact O|].
    intros Hlt. apply B. lia.
Qed.

End ScanFacts.

(** * The two leaf actions meet the same contract *)

Section TryInstances.

Variables (group : option (list perm)) (t : tarjan_state) (dswitch : bool).
Variables (g : graph) (n gs : Z).
Hypothesis Hn : 0 <= n.

Lemma filter_and_output_fields s :
  let s' := filter_and_output t dswitch g n s in
  col s' = col s /\ groupsize s' = groupsize s /\
  lastreject s' = lastreject s /\ lastrejok s' = lastrejok s.
Proof.
  unfold filter_and_output. cbn [col set_calls].
  destruct (admissible t (col s)); destruct dswitch; cbn; auto.
Qed.

Lemma trythisone_ok : group_ok group gs n ->
  forall s, witness_ok group n s /\ groupsize s = gs ->
  let r := trythisone group t dswitch g n s in
  (witness_ok group n (snd r) /\ groupsize (snd r) = gs) /\
  col (snd r) = col s /\ -1 <= fst r <= n - 1 /\
  obs_of (snd r)
  = (if passes group gs n (col s)
     then filter_obs t dswitch g n (col s) (obs_of s) else obs_of s) /\
  (fst r < n - 1 -> rejects_beyond group gs n (col s) (fst r)).
Proof.
  intros Hg s [Hw Hgs]. subst gs. unfold trythisone.
  pose proof (accept_test_spec n Hn group (set_newgroupsize 1 s)) as H.
  cbn [groupsize col set_newgroupsize] in H.
  specialize (H Hw Hg).
  destruct (accept_test group n (set_newgroupsize 1 s)) as [acc s1].
  destruct H as (Hacc & (K1 & K2 & K3) & Hw1 & Hrej).
  cbn [groupsize col set_newgroupsize] in K1, K2.
  rewrite <- Hacc. destruct acc; cbv zeta; cbn [fst snd].
  - pose proof (filter_and_output_fields s1) as (F1 & F2 & F3 & F4).
    split; [split|].
    + destruct group as [grp|]; [|exact Logic.I]. cbn [witness_ok] in *.
      rewrite F3, F4. exact Hw1.
    + congruence.
    + split; [congruence|]. split; [lia|]. split; [|lia].
      rewrite filter_and_output_obs, K1, K3. reflexivity.
  - destruct (Hrej eq_refl) as [Hf Hcert].
    split; [split; [assumption|congruence]|].
    split; [assumption|]. split; [lia|]. split; [exact K3|].
    intros _. exact Hcert.
Qed.


End TryInstances.

(** * The search and its variant have the same effect *)

Section ScanEffect.

Variables (group : option (list perm)) (t : tarjan_state) (dswitch : bool).
Variables (g : graph) (n : Z) (prev : Z -> Z) (minedges maxedges numcols : Z).
Hypothesis Hn : 0 <= n.
Hypothesis Hprev : forall l, 0 <= l < n -> prev l < l.

(** The search hands to the filter, in order, exactly the candidates
    that pass the canonicity test. *)
Lemma scan_effect level sofar s :
  0 <= level <= n -> group_ok group (groupsize s) n -> witness_ok group n s ->
  exists ret s',
    scan group t dswitch g level prev minedges maxedges sofar numcols n s
      = Some (ret, s') /\
    witness_ok group n s' /\ groupsize s' = groupsize s /\
    (forall j, ~ level <= j < n -> col s' j = col s j) /\
    obs_of s' = replay t dswitch g n (col s)
                  (survivors group (groupsize s) n (col s)
                     (candidates prev minedges maxedges numcols n
                        (Z.to_nat (n - level)) level sofar (coloring (col s) level)))
                  (obs_of s).
Proof.
  intros Hl Hg Hw. unfold scan.
  destruct (scan_with_spec group t dswitch g n (groupsize s) prev minedges maxedges
              numcols (col s) (trythisone group t dswitch g n)
              (fun s' => witness_ok group n s' /\ groupsize s' = groupsize s)
              Hprev) with (d := Z.to_nat (n - level)) (level := level)
              (sofar := sofar) (s := s)
    as (ret & s' & E & [[Hw' Hgs'] Hout] & C & R & O & _).
  - intros s0 c [A B]. split; [|exact B].
    destruct group; [exact A|exact Logic.I].
  - intros s0 H0. apply (trythisone_ok group t dswitch g n (groupsize s) Hn Hg s0 H0).
  - lia.
  - lia.
  - split; [split; [assumption|reflexivity]|]. reflexivity.
  - exists ret, s'. split; [exact E|]. split; [assumption|]. split; [assumption|].
    split; [|exact O].
    intros j Hj. destruct (Z_lt_dec j level) as [Hlt|Hge]; [now apply C|].
    destruct (Z_le_dec 0 j) as [H0|H0]; [|rewrite Hout by lia; reflexivity].
    rewrite Hout by lia. reflexivity.
Qed.


End ScanEffect.

(** * [colourdigraph] *)

Section PrevFacts.

Lemma most_recent_le eqv start cnt : forall j, most_recent cnt eqv start j <= j.
Proof.
  induction cnt as [|cnt IH]; intros j; cbn [most_recent]; [lia|].
  destruct (j <? start); [lia|]. destruct (eqv j); [lia|].
  specialize (IH (j - 1)). lia.
Qed.

Lemma region_fold_prev g gconv loop start l : forall pw,
  let pw' := fold_left
    (fun pw i =>
       let '(prev, weight) := pw in
       let j := most_recent (Z.to_nat (i - start)) (equivalent g gconv loop i)
                            start (i - 1) in
       if j >=? start then (upd prev i j, upd weight i (weight j + 1))
       else (upd prev i (-1), upd weight i 0)) l pw in
  (forall i, In i l -> 0 <= i -> fst pw' i < i) /\
  (forall i, ~ In i l -> fst pw' i = fst pw i).
Proof.
  induction l as [|a l IH]; intros pw; cbn [fold_left].
  - split; [intros i []|reflexivity].
  - cbv zeta. destruct pw as [prev weight].
    set (j := most_recent (Z.to_nat (a - start)) (equivalent g gconv loop a)
                          start (a - 1)).
    assert (Hj : j <= a - 1) by apply most_recent_le.
    set (pw1 := if j >=? start then (upd prev a j, upd weight a (weight j + 1))
                else (upd prev a (-1), upd weight a 0)).
    assert (H1 : fst pw1 a < a \/ a < 0).
    { unfold pw1. destruct (j >=? start); cbn [fst]; rewrite upd_same; lia. }
    assert (H2 : forall i, i <> a -> fst pw1 i = prev i).
    { intros i Hi. unfold pw1. destruct (j >=? start); cbn [fst];
        apply upd_other; auto. }
    destruct (IH pw1) as [IH1 IH2]. split.
    + intros i Hi H0. destruct (in_dec Z.eq_dec i l) as [Hl|Hl]; [now apply IH1|].
      destruct Hi as [->|Hi]; [|contradiction].
      rewrite IH2 by assumption. lia.
    + intros i Hi. rewrite IH2 by (intros H; apply Hi; now right).
      cbn [fst]. apply H2. intros ->. apply Hi. now left.
Qed.

Lemma region_pass_prev g gconv loop start stop pw :
  (forall i, start <= i < stop -> 0 <= i ->
             fst (region_pass g gconv loop start stop pw) i < i) /\
  (forall i, ~ start <= i < stop ->
             fst (region_pass g gconv loop start stop pw) i = fst pw i).
Proof.
  unfold region_pass.
  pose proof (region_fold_prev g gconv loop start
                (map (fun k => start + k) (range (stop - start))) pw) as [H1 H2].
  assert (Hin : forall i, In i (map (fun k => start + k) (range (stop - start)))
                          <-> start <= i < stop).
  { intros i. rewrite in_map_iff. split.
    - intros (k & <- & Hk). apply In_range in Hk. lia.
    - intros Hi. exists (i - start). split; [lia|]. apply In_range. lia. }
  split.
  - intros i Hi H0. apply H1; auto. now apply Hin.
  - intros i Hi. apply H2. now rewrite Hin.
Qed.

(** [prev[i]], when it names a vertex, names an earlier one. *)
Lemma prev_weight_prev g nfixed n i : 0 <= i < n ->
  fst (prev_weight g nfixed n) i < i.
Proof.
  intros Hi. unfold prev_weight.
  set (g0 := strip_loops g n). set (gconv := converse g0 n). set (loop := has_loop g).
  set (pw0 := (fun _ : Z => 0, fun _ : Z => 0)).
  set (pw1 := if nfixed =? 0 then pw0
              else region_pass g0 gconv loop 0 (if nfixed >? n then n else nfixed) pw0).
  set (pw2 := if nfixed >=? n then pw1 else region_pass g0 gconv loop nfixed n pw1).
  assert (H : fst pw2 i < i).
  { unfold pw2. destruct (Z.geb_spec nfixed n) as [Hge|Hlt].
    - unfold pw1. destruct (Z.eqb_spec nfixed 0) as [?|Hne]; [lia|].
      apply region_pass_prev; [|lia]. destruct (Z.gtb_spec nfixed n); lia.
    - destruct (Z_le_dec nfixed i) as [Hle|Hgt].
      + apply region_pass_prev; lia.
      + rewrite (proj2 (region_pass_prev g0 gconv loop nfixed n pw1)) by lia.
        unfold pw1. destruct (Z.eqb_spec nfixed 0) as [?|Hne]; [lia|].
        apply region_pass_prev; [|lia]. destruct (Z.gtb_spec nfixed n); lia. }
  destruct pw2 as [prev weight]. exact H.
Qed.

Lemma orbit_fold_prev (r : nauty_result) n j l : forall prev,
  (forall i, In i l -> j < i) ->
  (forall i, 0 <= i < n -> prev i < i) ->
  forall i, 0 <= i < n ->
    fold_left (fun prev i => if orbits r i =? j then upd prev i j else prev) l prev i < i.
Proof.
  induction l as [|a l IH]; intros prev Hl Hp i Hi; cbn [fold_left]; [now apply Hp|].
  apply IH; auto.
  - intros x Hx. apply Hl. now right.
  - intros x Hx. destruct (orbits r a =? j); [|now apply Hp].
    unfold upd. destruct (Z.eqb_spec x a) as [->|_]; [|now apply Hp].
    apply Hl. now left.
Qed.

Lemma orbit_prev_lt r n prev :
  (forall i, 0 <= i < n -> prev i < i) ->
  forall i, 0 <= i < n -> orbit_prev r n prev i < i.
Proof.
  intros Hp i Hi. unfold orbit_prev. destruct (numorbits r <? n); [|now apply Hp].
  cbv zeta. apply (orbit_fold_prev r n); auto.
  intros x Hx. apply in_map_iff in Hx. destruct Hx as (k & <- & Hk).
  apply In_range in Hk. lia.
Qed.

End PrevFacts.

Section ColourFacts.

Lemma replay_cout_ext t dswitch g n cout cout' cls :
  (forall j, ~ 0 <= j < n -> cout j = cout' j) ->
  forall o, replay t dswitch g n cout cls o = replay t dswitch g n cout' cls o.
Proof.
  intros H. unfold replay. induction cls as [|cl cls IH]; intros o; [reflexivity|].
  cbn [fold_left]. rewrite IH. f_equal. apply filter_obs_ext.
  intros j. unfold fill. destruct ((0 <=? j) && (j <? n)) eqn:E; [reflexivity|].
  apply H. lia.
Qed.

Lemma survivors_cout_ext group gs n cout cout' cls :
  (forall j, ~ 0 <= j < n -> cout j = cout' j) ->
  survivors group gs n cout cls = survivors group gs n cout' cls.
Proof.
  intros H. unfold survivors. apply filter_ext. intros cl. apply passes_ext.
  intros j. unfold fill. destruct ((0 <=? j) && (j <? n)) eqn:E; [reflexivity|].
  apply H. lia.
Qed.

Lemma coloring_zero c : coloring c 0 = [].
Proof. reflexivity. Qed.

Lemma colourdigraph_effect nauty t dswitch g nfixed minedges maxedges numcols n s :
  0 <= n <= MAXN -> (0 < n -> oracle_ok nauty g nfixed n) ->
  exists s',
    colourdigraph nauty t dswitch g nfixed minedges maxedges numcols n s = Some s' /\
    obs_of s' = colour_effect nauty t dswitch g nfixed minedges maxedges numcols n
                  (col s) (obs_of s).
Proof.
  intros Hn Hor. unfold colourdigraph, colour_effect, oracle_ok in *.
  destruct (Z.gtb_spec n MAXN) as [?|_]; [lia|].
  pose proof (prev_weight_prev g nfixed n) as Hprev.
  destruct (prev_weight g nfixed n) as [prev weight]. cbn [fst snd] in *.
  cbv zeta.
  set (mx := if (maxedges =? NOLIMIT) || (maxedges >? n * numcols)
             then n * numcols else maxedges).
  destruct (n * numcols <? minedges); [exists s; split; reflexivity|].
  destruct (Z.eqb_spec n 0) as [Hz|Hz].
  - subst n.
    destruct (scan_effect None t dswitch g 0 prev minedges mx numcols
                (Z.le_refl 0) Hprev 0 0 s) as (ret & s' & E & _ & _ & _ & O);
      [lia|exact Logic.I|exact Logic.I|].
    rewrite E. cbn [obind snd]. exists s'. split; [reflexivity|].
    rewrite O. reflexivity.
  - set (res := nauty g weight n) in *.
    set (gs := if grpsize2 res =? 0 then grpsize1 res else 0) in *.
    set (s2 := set_col (fun i => if (0 <=? i) && (i <? n) then 0
                                 else col (set_lastrejok false (set_groupsize gs s)) i)
                 (set_lastrejok false (set_groupsize gs s))).
    assert (Hp2 : forall l, 0 <= l < n -> orbit_prev res n prev l < l)
      by (apply orbit_prev_lt; exact Hprev).
    destruct (scan_effect (Some (group_elts res)) t dswitch g n
                (orbit_prev res n prev) minedges mx numcols
                (proj1 Hn) Hp2 0 0 s2) as (ret & s' & E & _ & _ & _ & O).
    + lia.
    + apply Hor. lia.
    + cbn. discriminate.
    + rewrite E. cbn [obind snd]. exists s'. split; [reflexivity|].
      rewrite O. replace (n - 0) with n by lia.
      change (groupsize s2) with gs. change (obs_of s2) with (obs_of s).
      rewrite coloring_zero.
      assert (Hc : forall j, ~ 0 <= j < n -> col s2 j = col s j).
      { intros j Hj. cbn. destruct ((0 <=? j) && (j <? n)) eqn:Ej; [lia|reflexivity]. }
      rewrite (replay_cout_ext _ _ _ _ (col s2) (col s)) by exact Hc.
      rewrite (survivors_cout_ext _ _ _ (col s2) (col s)) by exact Hc.
      reflexivity.
Qed.


End ColourFacts.

(** * One digraph, a file of digraphs *)

Section Independence.

Lemma forallb_ext_in {A : Type} (f f' : A -> bool) l :
  (forall x, In x l -> f x = f' x) -> forallb f l = forallb f' l.
Proof.
  induction l as [|a l IH]; intros H; [reflexivity|]. cbn [forallb].
  rewrite (H a) by now left. rewrite IH; [reflexivity|].
  intros x Hx. apply H. now right.
Qed.

Lemma lexfail_ext_in n p c c' : is_perm p n ->
  (forall j, 0 <= j < n -> c j = c' j) ->
  forall cnt i fail, 0 <= i -> i + Z.of_nat cnt <= n ->
    lexfail cnt p c i fail = lexfail cnt p c' i fail.
Proof.
  intros [Hr _] Hc. induction cnt as [|cnt IH]; intros i fail Hi Hle; [reflexivity|].
  cbn [lexfail]. cbv zeta.
  rewrite <- (Hc i) by lia. rewrite <- (Hc (p i)) by (apply Hr; lia).
  destruct (c (p i) >? c i); [reflexivity|].
  destruct (c (p i) <? c i); [reflexivity|].
  apply IH; lia.
Qed.

Lemma passes_ext_in group gs n c c' : 0 <= n -> group_ok group gs n ->
  (forall j, 0 <= j < n -> c j = c' j) ->
  passes group gs n c = passes group gs n c'.
Proof.
  intros Hn Hg Hc. destruct group as [grp|]; [|reflexivity].
  cbn [passes]. f_equal. apply forallb_ext_in. intros p Hp.
  unfold lexok. destruct Hg as [Hperm _].
  rewrite (lexfail_ext_in n p c c' (Hperm p Hp) Hc (Z.to_nat n) 0 0) by lia.
  reflexivity.
Qed.

Lemma admissible_shifted n d t1 t2 c :
  shifted n d t1 t2 -> 0 <= currentSCC t2 <= n ->
  admissible t1 c = admissible t2 c.
Proof.
  intros H Hc. unfold admissible. rewrite (sh_cur _ _ _ _ H).
  apply forallb_ext_in. intros i Hi. apply In_range in Hi.
  rewrite (sh_scc _ _ _ _ H i) by lia. reflexivity.
Qed.

Lemma admissible_ext_in g n b t c c' : wf_graph g n -> TInv g n b t ->
  (forall j, 0 <= j < n -> c j = c' j) -> admissible t c = admissible t c'.
Proof.
  intros Hwf I Hc.
  pose proof (admissible_tarjan g n b t c Hwf I) as H1.
  pose proof (admissible_tarjan g n b t c' Hwf I) as H2.
  assert (Hin : forall i v, 0 <= i < currentSCC t -> inscc t i v -> 0 <= v < n).
  { intros i v Hi Hv.
    apply (within_ISELEMENT n _ v (ti_scc_within _ _ _ _ I i Hi) Hv). }
  destruct (admissible t c) eqn:E1, (admissible t c') eqn:E2; auto.
  - assert (Ht : false = true); [|discriminate]. apply H2. intros i Hi Hl.
    destruct (proj1 H1 eq_refl i Hi Hl) as (v & Hv & Hcv).
    exists v. split; [assumption|]. rewrite <- Hc; eauto.
  - assert (Ht : false = true); [|discriminate]. apply H1. intros i Hi Hl.
    destruct (proj1 H2 eq_refl i Hi Hl) as (v & Hv & Hcv).
    exists v. split; [assumption|]. rewrite Hc; eauto.
Qed.

Lemma admissible_indep g n b d t1 t2 c c' : wf_graph g n -> TInv g n b t2 ->
  shifted n d t1 t2 -> (forall j, 0 <= j < n -> c j = c' j) ->
  admissible t1 c = admissible t2 c'.
Proof.
  intros Hwf I H Hc.
  rewrite (admissible_shifted n d t1 t2 c H).
  - now apply (admissible_ext_in g n b).
  - pose proof (TInv_cur_le g n b Hwf t2 I). pose proof (ti_cur _ _ _ _ I).
    pose proof (ti_top _ _ _ _ I). lia.
Qed.

Lemma filter_obs_indep t1 t2 dswitch g n c c' o :
  admissible t1 c = admissible t2 c' -> (forall j, 0 <= j < n -> c j = c' j) ->
  filter_obs t1 dswitch g n c o = filter_obs t2 dswitch g n c' o.
Proof.
  intros Ha Hc. unfold filter_obs. destruct o as [[tc wr] ca].
  rewrite Ha, (coloring_ext c c' n Hc), (extend_rows_ext g c c' n Hc). reflexivity.
Qed.

Lemma replay_indep t1 t2 dswitch g n cout cout' cls :
  (forall c c', (forall j, 0 <= j < n -> c j = c' j) ->
                admissible t1 c = admissible t2 c') ->
  forall o, replay t1 dswitch g n cout cls o = replay t2 dswitch g n cout' cls o.
Proof.
  intros Ha. unfold replay. induction cls as [|cl cls IH]; intros o; [reflexivity|].
  cbn [fold_left]. rewrite IH. f_equal.
  assert (Hc : forall j, 0 <= j < n -> fill n cout cl j = fill n cout' cl j).
  { intros j Hj. now rewrite !fill_in. }
  apply filter_obs_indep; auto.
Qed.

Lemma survivors_indep group gs n cout cout' cls : 0 <= n -> group_ok group gs n ->
  survivors group gs n cout cls = survivors group gs n cout' cls.
Proof.
  intros Hn Hg. unfold survivors. apply filter_ext. intros cl.
  apply passes_ext_in; auto. intros j Hj. now rewrite !fill_in.
Qed.

Lemma colour_effect_indep nauty t1 t2 dswitch g nfixed minedges maxedges numcols n
    cout cout' o :
  0 <= n -> (0 < n -> oracle_ok nauty g nfixed n) ->
  (forall c c', (forall j, 0 <= j < n -> c j = c' j) ->
                admissible t1 c = admissible t2 c') ->
  colour_effect nauty t1 dswitch g nfixed minedges maxedges numcols n cout o
  = colour_effect nauty t2 dswitch g nfixed minedges maxedges numcols n cout' o.
Proof.
  intros Hn Hor Ha. unfold colour_effect, oracle_ok in *.
  destruct (prev_weight g nfixed n) as [prev weight]. cbn [snd] in Hor. cbv zeta.
  destruct (n * numcols <? minedges); [reflexivity|].
  destruct (Z.eqb_spec n 0) as [Hz|Hz].
  - rewrite (survivors_indep None _ n cout cout') by (auto; exact Logic.I).
    now apply replay_indep.
  - rewrite (survivors_indep (Some _) _ n cout cout') by (auto; apply Hor; lia).
    now apply replay_indep.
Qed.

End Independence.

Section Pipeline.

Variable nauty : oracle.
Variable dswitch : bool.

Lemma nvisited_full n s : (forall u, 0 <= u < n -> visited s u) ->
  nvisited n s = Z.to_nat n.
Proof.
  intros H. unfold nvisited.
  transitivity (length (range n)); [|apply length_range]. f_equal.
  assert (Hl : forall u, In u (range n) -> visited s u)
    by (intros u Hu; apply H; now apply In_range).
  induction (range n) as [|a l IH]; [reflexivity|].
  cbn [filter]. specialize (Hl a (or_introl eq_refl)) as Ha. unfold visited in Ha.
  apply Z.eqb_neq in Ha. rewrite Ha. cbn [negb]. f_equal. apply IH.
  intros u Hu. apply Hl. now right.
Qed.

Lemma reference_scc_spec g n : wf_graph g n ->
  tarjan g n initial_tarjan_state = Some (reference_scc g n) /\
  TInv g n 0 (reference_scc g n).
Proof.
  intros Hwf. unfold reference_scc.
  destruct (tarjan_spec g n Hwf initial_tarjan_state) as (t & E & I & _).
  - cbn. lia.
  - cbn. destruct Hwf as [[? ?] _]. unfold MAXN, INT_MAX in *. lia.
  - rewrite E. auto.
Qed.

(** One digraph: the program returns, the counter [vertex_index] has
    advanced by [n], and the observable effect is that of the digraph. *)
Lemma process_graph_effect g n st :
  input_ok nauty (g, n) ->
  0 <= vertex_index (tj st) -> vertex_index (tj st) + n <= INT_MAX ->
  exists st', process_graph nauty dswitch (g, n) st = Some st' /\
    vertex_index (tj st') = vertex_index (tj st) + n /\
    obs_of (vc st') = graph_effect nauty dswitch g n (obs_of (vc st)).
Proof.
  intros [Hwf Hor] H0 H1. cbn [fst snd] in *.
  assert (Hn : 0 <= n <= MAXN) by apply Hwf.
  destruct (reference_scc_spec g n Hwf) as [Eref Iref].
  destruct (tarjan_shifted g n Hwf (tj st) initial_tarjan_state) as (t1 & t2 & E1 & E2 & Hs);
    try assumption; try (cbn; unfold MAXN, INT_MAX in *; lia).
  rewrite Eref in E2. injection E2 as <-.
  destruct (tarjan_spec g n Hwf (tj st) H0 H1) as (t1' & E1' & I1 & _ & Hall).
  rewrite E1 in E1'. injection E1' as <-.
  destruct (colourdigraph_effect nauty t1 dswitch g 0 0 NOLIMIT 2 n (vc st) Hn Hor)
    as (c & Ec & Oc).
  unfold process_graph. rewrite E1. cbn [obind]. rewrite Ec. cbn [obind].
  eexists. split; [reflexivity|]. cbn [tj vc]. split.
  - pose proof (ti_count2 _ _ _ _ I1) as Hc. rewrite (nvisited_full n t1 Hall) in Hc. lia.
  - rewrite Oc. unfold graph_effect. apply colour_effect_indep; [lia|assumption|].
    intros x x' Hx.
    apply (admissible_indep g n 0 _ t1 (reference_scc g n) x x' Hwf Iref Hs Hx).
Qed.

Lemma total_vertices_nonneg gs : Forall (input_ok nauty) gs -> 0 <= total_vertices gs.
Proof.
  induction 1 as [|gn gs [[[Hn _] _] _] _ IH]; cbn [total_vertices fold_right]; [lia|].
  fold (total_vertices gs). lia.
Qed.

Lemma process_graphs_effect gs : forall st,
  Forall (input_ok nauty) gs ->
  0 <= vertex_index (tj st) -> vertex_index (tj st) + total_vertices gs <= INT_MAX ->
  exists st', process_graphs nauty dswitch gs st = Some st' /\
    vertex_index (tj st') = vertex_index (tj st) + total_vertices gs /\
    obs_of (vc st')
    = fold_left (fun o gn => graph_effect nauty dswitch (fst gn) (snd gn) o) gs
                (obs_of (vc st)).
Proof.
  induction gs as [|[g n] gs IH]; intros st Hall H0 H1.
  - exists st. cbn. split; [reflexivity|]. split; [lia|reflexivity].
  - inversion Hall as [|? ? Hgn Hrest]; subst.
    pose proof (total_vertices_nonneg gs Hrest) as Hpos.
    assert (Hn : 0 <= n) by apply Hgn.
    cbn [total_vertices fold_right snd] in H1. fold (total_vertices gs) in H1.
    destruct (process_graph_effect g n st Hgn H0) as (st1 & E1 & V1 & O1); [lia|].
    destruct (IH st1 Hrest) as (st' & E' & V' & O'); [lia|lia|].
    exists st'. cbn [process_graphs]. rewrite E1. cbn [obind].
    split; [assumption|]. split.
    + cbn [total_vertices fold_right snd]. fold (total_vertices gs). lia.
    + cbn [fold_left fst snd]. rewrite <- O1. exact O'.
Qed.

End Pipeline.

(** * Leaves, orbits, extensions, totals *)

Section LeafFacts.





End LeafFacts.

Section OrbitFacts.

Lemma passes_maximal grp gs n c : gs <> 1 ->
  (passes (Some grp) gs n c = true <-> orbit_maximal grp c n).
Proof.
  intros Hgs. cbn [passes]. apply Z.eqb_neq in Hgs. rewrite Hgs. cbn [orb].
  rewrite forallb_forall. unfold orbit_maximal. split.
  - intros H p [<-|Hp].
    + apply lexok_lex_le, lexok_identity.
    + apply lexok_lex_le. now apply H.
  - intros H p Hp. apply lexok_lex_le. apply H. now right.
Qed.

End OrbitFacts.

Section ExtendFacts.

Variables (g : graph) (n : Z) (c : Z -> Z).
Hypothesis Hwf : wf_graph g n.
Hypothesis Hn : n < MAXN.

Lemma extend_wf : wf_graph (extend g c n) (n + 1).
Proof.
  destruct Hwf as [[Hn0 _] Hrows]. split; [lia|]. intros v Hv. unfold extend.
  destruct (Z.leb_spec 0 v); [|lia]. cbn [andb].
  destruct (Z.ltb_spec v n) as [Hlt|Hge]; [|apply within_0].
  assert (Hg : within (n + 1) (g v)).
  { apply (within_mono n); [lia|]. apply Hrows. lia. }
  destruct (negb (c v =? 0)); [|assumption].
  apply within_ADDELEMENT; auto; unfold MAXN, WORDSIZE in *; lia.
Qed.

Lemma extend_sink w : ~ edge (extend g c n) n w.
Proof.
  unfold edge, extend. rewrite Z.ltb_irrefl, andb_false_r, ISELEMENT_0. discriminate.
Qed.

Lemma extend_edge v : 0 <= v < n -> c v <> 0 -> edge (extend g c n) v n.
Proof.
  intros Hv Hc. unfold edge, extend.
  destruct (Z.leb_spec 0 v); [|lia]. destruct (Z.ltb_spec v n); [|lia]. cbn [andb].
  apply Z.eqb_neq in Hc. rewrite Hc. cbn [negb].
  rewrite ISELEMENT_ADDELEMENT by (unfold MAXN, WORDSIZE in *; destruct Hwf; lia).
  rewrite Z.eqb_refl. reflexivity.
Qed.

End ExtendFacts.

Section Totals.

Variable nauty : oracle.

Lemma replay_count_length t dswitch g n cout cls : forall o,
  obs_count (replay t dswitch g n cout cls o)
  = obs_count o
    + Z.of_nat (length (filter (fun cl => admissible t (fill n cout cl)) cls)).
Proof.
  unfold replay. induction cls as [|cl cls IH]; intros o; cbn [fold_left filter].
  - cbn [length]. lia.
  - rewrite IH. destruct o as [[tc wr] ca]. unfold filter_obs, obs_count.
    destruct (admissible t (fill n cout cl)); cbn [fst length]; lia.
Qed.

Lemma replay_count t dswitch g n cout cls o :
  obs_count (replay t dswitch g n cout cls o)
  = obs_count o + obs_count (replay t false g n cout cls (0, [], [])).
Proof.
  rewrite !replay_count_length. unfold obs_count. cbn [fst]. lia.
Qed.

Lemma graph_effect_count dswitch g n o :
  obs_count (graph_effect nauty dswitch g n o) = obs_count o + graph_count nauty g n.
Proof.
  unfold graph_count, graph_effect, colour_effect.
  destruct (prev_weight g 0 n) as [prev weight]. cbv zeta.
  destruct (n * 2 <? 0); [unfold obs_count; cbn; lia|].
  apply replay_count.
Qed.

Lemma graphs_effect_count dswitch gs : forall o,
  obs_count (fold_left (fun o gn => graph_effect nauty dswitch (fst gn) (snd gn) o) gs o)
  = obs_count o + total_count nauty gs.
Proof.
  induction gs as [|[g n] gs IH]; intros o; cbn [fold_left total_count fold_right fst snd].
  - lia.
  - rewrite IH, graph_effect_count. fold (total_count nauty gs). lia.
Qed.

(** One input file: every digraph is processed, the total is reported
    and the counter is set back to zero. *)
Lemma process_file_effect qswitch dswitch gs st err :
  Forall (input_ok nauty) gs ->
  0 <= vertex_index (tj st) -> vertex_index (tj st) + total_vertices gs <= INT_MAX ->
  exists st',
    process_file nauty qswitch dswitch gs (st, err)
    = Some (st', if qswitch then err
                 else err ++ [totalCount (vc st) + total_count nauty gs]) /\
    totalCount (vc st') = 0 /\
    vertex_index (tj st') = vertex_index (tj st) + total_vertices gs.
Proof.
  intros Hall H0 H1.
  destruct (process_graphs_effect nauty dswitch gs st Hall H0 H1) as (st1 & E & V & O).
  unfold process_file. rewrite E. cbn [obind].
  assert (Hc : totalCount (vc st1) = totalCount (vc st) + total_count nauty gs).
  { pose proof (graphs_effect_count dswitch gs (obs_of (vc st))) as H.
    rewrite <- O in H. exact H. }
  rewrite Hc. eexists. split; [reflexivity|]. cbn. auto.
Qed.

End Totals.

(** * The claims of the specification *)

Section Examples.

Lemma wf_g01 : wf_graph g01 2.
Proof.
  split; [unfold MAXN; lia|]. intros v Hv. unfold g01.
  destruct (v =? 0); [|apply within_0].
  apply within_ADDELEMENT; [lia|unfold WORDSIZE; lia|apply within_0].
Qed.

Lemma wf_g2c : wf_graph g2c 2.
Proof.
  split; [unfold MAXN; lia|]. intros v Hv. unfold g2c.
  destruct (v =? 0); [|destruct (v =? 1); [|apply within_0]];
    (apply within_ADDELEMENT; [lia|unfold WORDSIZE; lia|apply within_0]).
Qed.

Lemma swap01_perm : is_perm swap01 2.
Proof.
  split.
  - intros i Hi. assert (i = 0 \/ i = 1) as [->| ->] by lia; cbn; lia.
  - intros i j Hi Hj.
    assert (i = 0 \/ i = 1) as [->| ->] by lia;
      assert (j = 0 \/ j = 1) as [->| ->] by lia; cbn; lia.
Qed.

Lemma input_ok_g01 : input_ok trivial_oracle (g01, 2).
Proof.
  split; [exact wf_g01|]. intros _. unfold oracle_ok. cbn. split.
  - intros p [].
  - discriminate.
Qed.


End Examples.



(** C2: when the group the oracle reported has order other than 1, the
    search hands a complete colouring to the filter exactly when it is
    the lexicographically greatest of its orbit, that is when no element
    [p] of the group makes [col o p] greater than [col]; any other
    colouring leaves the record of the filter's calls, the counter and
    the output as they were. *)
Theorem C2_accept_iff_orbit_maximal grp t dswitch g n s :
  0 <= n -> groupsize s <> 1 ->
  group_ok (Some grp) (groupsize s) n -> witness_ok (Some grp) n s ->
  let s' := snd (trythisone (Some grp) t dswitch g n s) in
  (orbit_maximal grp (col s) n -> calls s' = calls s ++ [coloring (col s) n]) /\
  (~ orbit_maximal grp (col s) n ->
     calls s' = calls s /\ totalCount s' = totalCount s /\ written s' = written s).
Proof.
  intros Hn Hgs Hg Hw s'.
  pose proof (trythisone_ok (Some grp) t dswitch g n (groupsize s) Hn Hg s
                (conj Hw eq_refl)) as H.
  cbv zeta in H. destruct H as (_ & _ & _ & O & _). fold s' in O.
  pose proof (passes_maximal grp (groupsize s) n (col s) Hgs) as Hp.
  destruct (passes (Some grp) (groupsize s) n (col s)) eqn:E.
  - split.
    + intros _. unfold obs_of, filter_obs in O.
      destruct (admissible t (col s)); injection O; auto.
    + intros Hm. exfalso. apply Hm, Hp. reflexivity.
  - split.
    + intros Hm. apply Hp in Hm. discriminate.
    + intros _. unfold obs_of in O. injection O; auto.
Qed.

Lemma C2_witness :
  groupsize (set_groupsize 2 initial_vcolg_state) <> 1 /\
  group_ok (Some [swap01]) 2 2 /\
  (orbit_maximal [swap01] (col (set_groupsize 2 initial_vcolg_state)) 2 ->
   calls (snd (trythisone (Some [swap01]) initial_tarjan_state false g2c 2
                 (set_groupsize 2 initial_vcolg_state)))
   = calls (set_groupsize 2 initial_vcolg_state)
     ++ [coloring (col (set_groupsize 2 initial_vcolg_state)) 2]).
Proof.
  assert (Hg : group_ok (Some [swap01]) 2 2).
  { split; [|reflexivity]. intros p [<-|[]]. exact swap01_perm. }
  split; [cbn; lia|]. split; [exact Hg|].
  refine (proj1 (C2_accept_iff_orbit_maximal [swap01] initial_tarjan_state false g2c 2
                   (set_groupsize 2 initial_vcolg_state) _ _ Hg _)).
  - lia.
  - cbn. lia.
  - cbn. intros Hc. congruence.
Defined.



(** C4: for a digraph on [n] vertices, [0 <= n <= MAXN], [tarjan]
    returns, every vertex below [n] is in one of the recorded vertex
    sets, no vertex is in two of them, and the sets hold nothing but
    vertices below [n]. *)
Theorem C4_components_partition_vertices g n s :
  wf_graph g n -> 0 <= vertex_index s -> vertex_index s + n <= INT_MAX ->
  exists t, tarjan g n s = Some t /\
    (forall v, 0 <= v < n -> exists i, 0 <= i < currentSCC t /\ inscc t i v) /\
    (forall i j v, 0 <= i < currentSCC t -> 0 <= j < currentSCC t ->
                   inscc t i v -> inscc t j v -> i = j) /\
    (forall i v, 0 <= i < currentSCC t -> inscc t i v -> 0 <= v < n).
Proof.
  intros Hwf H0 H1.
  destruct (tarjan_spec g n Hwf s H0 H1) as (t & Et & I & Hsl & Hall).
  exists t. split; [assumption|]. split; [|split].
  - intros v Hv. apply (tarjan_member g n Hwf s t v H0 H1 Et Hv).
  - apply (ti_scc_disj _ _ _ _ I).
  - intros i v Hi Hv.
    apply (within_ISELEMENT n _ v (ti_scc_within _ _ _ _ I i Hi) Hv).
Qed.

Lemma C4_witness :
  wf_graph g2c 2 /\
  exists t, tarjan g2c 2 initial_tarjan_state = Some t /\
    (forall v, 0 <= v < 2 -> exists i, 0 <= i < currentSCC t /\ inscc t i v) /\
    (forall i j v, 0 <= i < currentSCC t -> 0 <= j < currentSCC t ->
                   inscc t i v -> inscc t j v -> i = j) /\
    (forall i v, 0 <= i < currentSCC t -> inscc t i v -> 0 <= v < 2).
Proof.
  split; [exact wf_g2c|].
  apply (C4_components_partition_vertices g2c 2 initial_tarjan_state wf_g2c).
  - cbn. lia.
  - cbn. unfold INT_MAX. lia.
Defined.

(** C5, as the program behaves: the counter is not set back between
    the digraphs of a file.  After the first of two copies of the digraph
    0 -> 1 it stands at 2, after the second at 4, although the digraph
    has 2 accepted colourings, and 4 is what is reported for the file. *)
Lemma C5_counter_runs_across_digraphs :
  (st1 <- process_graph trivial_oracle false (g01, 2) initial_globals ;;
   Some (totalCount (vc st1))) = Some 2 /\
  (st1 <- process_graph trivial_oracle false (g01, 2) initial_globals ;;
   st2 <- process_graph trivial_oracle false (g01, 2) st1 ;;
   Some (totalCount (vc st2))) = Some 4 /\
  graph_count trivial_oracle g01 2 = 2 /\
  (r <- process_files trivial_oracle false false [[(g01, 2); (g01, 2)]]
          (initial_globals, []) ;;
   Some (snd r)) = Some [4].
Proof.
  split; [vm_compute; reflexivity|]. split; [vm_compute; reflexivity|].
  split; vm_compute; reflexivity.
Qed.

(** C5, amended: the counter is set back once per input file.  Started
    at zero, it holds after the last digraph of the file the sum of the
    numbers of accepted colourings of the file's digraphs; that sum is
    what is reported, and the counter is zero again before the next file. *)
Theorem C5_counter_is_per_file nauty dswitch gs st err :
  Forall (input_ok nauty) gs ->
  0 <= vertex_index (tj st) -> vertex_index (tj st) + total_vertices gs <= INT_MAX ->
  totalCount (vc st) = 0 ->
  exists st',
    process_file nauty false dswitch gs (st, err)
      = Some (st', err ++ [total_count nauty gs]) /\
    totalCount (vc st') = 0.
Proof.
  intros Hall H0 H1 Hz.
  destruct (process_file_effect nauty false dswitch gs st err Hall H0 H1)
    as (st' & E & Hc & _).
  exists st'. rewrite E, Hz. split; [reflexivity|assumption].
Qed.

Lemma C5_witness :
  Forall (input_ok trivial_oracle) [(g01, 2); (g01, 2)] /\
  exists st',
    process_file trivial_oracle false false [(g01, 2); (g01, 2)] (initial_globals, [])
      = Some (st', [] ++ [total_count trivial_oracle [(g01, 2); (g01, 2)]]) /\
    totalCount (vc st') = 0.
Proof.
  assert (Hall : Forall (input_ok trivial_oracle) [(g01, 2); (g01, 2)])
    by (constructor; [exact input_ok_g01|constructor; [exact input_ok_g01|constructor]]).
  split; [exact Hall|].
  apply (C5_counter_is_per_file trivial_oracle false [(g01, 2); (g01, 2)]
           initial_globals [] Hall).
  - cbn. lia.
  - cbn. unfold INT_MAX. lia.
  - reflexivity.
Defined.

(** C6, as the program behaves: the digraph without vertices has one
    accepted colouring, the empty one; its extension is the single
    vertex 0, which no edge enters. *)
Lemma C6_empty_digraph_sink_has_no_incoming_edge :
  (st <- process_graph trivial_oracle true (gempty, 0) initial_globals ;;
   Some (totalCount (vc st), written (vc st)))
  = Some (1, [(map (extend gempty (fun _ => 0) 0) (range 1), 1)]) /\
  forall u, ~ edge (extend gempty (fun _ => 0) 0) u 0.
Proof.
  split; [vm_compute; reflexivity|].
  intros u. unfold edge, extend.
  replace ((0 <=? u) && (u <? 0)) with false
    by (destruct (Z.leb_spec 0 u), (Z.ltb_spec u 0); auto; lia).
  rewrite ISELEMENT_0. congruence.
Qed.

(** C6, amended: for a digraph on [n] vertices with [1 <= n < MAXN] and
    a colouring the filter accepts, the decomposition of the extended
    digraph has a component that consists of the new vertex [n] alone
    and is marked leaf; no edge leaves [n] and at least one enters it. *)
Theorem C6_new_vertex_is_singleton_leaf g n s0 t c s1 :
  wf_graph g n -> 1 <= n < MAXN ->
  0 <= vertex_index s0 -> vertex_index s0 + n <= INT_MAX ->
  tarjan g n s0 = Some t -> admissible t c = true ->
  0 <= vertex_index s1 -> vertex_index s1 + (n + 1) <= INT_MAX ->
  exists t' i, tarjan (extend g c n) (n + 1) s1 = Some t' /\
    0 <= i < currentSCC t' /\
    (forall v, inscc t' i v <-> v = n) /\
    isLeaf (sccinfos t' i) = true /\
    (forall w, ~ edge (extend g c n) n w) /\
    (exists u, 0 <= u < n /\ edge (extend g c n) u n).
Proof.
  intros Hwf Hn H0 H1 Et Ha H2 H3.
  assert (Hwf' : wf_graph (extend g c n) (n + 1)) by (apply extend_wf; [assumption|lia]).
  destruct (tarjan_spec _ _ Hwf' s1 H2 H3) as (t' & Et' & I' & _ & _).
  destruct (tarjan_member _ _ Hwf' s1 t' n H2 H3 Et') as (i & Hi & Hin); [lia|].
  assert (Hsingle : forall v, inscc t' i v -> v = n).
  { intros v Hv. apply (ti_single _ _ _ _ I' i n v Hi Hin); [|assumption].
    apply extend_sink. }
  exists t', i. split; [assumption|]. split; [assumption|]. split; [|split; [|split]].
  - intros v. split; [apply Hsingle|intros ->; assumption].
  - apply (ti_leaf _ _ _ _ I' i Hi). intros u w Hu He.
    apply Hsingle in Hu. subst u. exfalso. exact (extend_sink g n c w He).
  - apply extend_sink.
  - destruct (tarjan_spec g n Hwf s0 H0 H1) as (t2 & Et2 & I & _ & _).
    rewrite Et in Et2. injection Et2 as <-.
    destruct (tarjan_member g n Hwf s0 t 0 H0 H1 Et) as (j & Hj & _); [lia|].
    assert (Hcur : 0 < currentSCC t) by lia.
    pose proof (ti_leaf0 _ _ _ _ I Hcur) as Hl0.
    destruct (proj1 (admissible_tarjan g n _ t c Hwf I) Ha 0 (conj (Z.le_refl 0) Hcur) Hl0)
      as (v & Hv & Hcv).
    assert (Hvr : 0 <= v < n).
    { apply (within_ISELEMENT n _ v (ti_scc_within _ _ _ _ I 0 (conj (Z.le_refl 0) Hcur)) Hv). }
    exists v. split; [assumption|]. apply extend_edge; auto. lia.
Qed.

Lemma C6_witness :
  wf_graph g01 2 /\
  tarjan g01 2 initial_tarjan_state = Some (reference_scc g01 2) /\
  admissible (reference_scc g01 2) col_01 = true /\
  exists t' i, tarjan (extend g01 col_01 2) (2 + 1) initial_tarjan_state = Some t' /\
    0 <= i < currentSCC t' /\
    (forall v, inscc t' i v <-> v = 2) /\
    isLeaf (sccinfos t' i) = true /\
    (forall w, ~ edge (extend g01 col_01 2) 2 w) /\
    (exists u, 0 <= u < 2 /\ edge (extend g01 col_01 2) u 2).
Proof.
  assert (Et : tarjan g01 2 initial_tarjan_state = Some (reference_scc g01 2))
    by (vm_compute; reflexivity).
  assert (Ha : admissible (reference_scc g01 2) col_01 = true)
    by (vm_compute; reflexivity).
  split; [exact wf_g01|]. split; [exact Et|]. split; [exact Ha|].
  apply (C6_new_vertex_is_singleton_leaf g01 2 initial_tarjan_state
           (reference_scc g01 2) col_01 initial_tarjan_state wf_g01).
  - unfold MAXN. lia.
  - cbn. lia.
  - cbn. unfold INT_MAX. lia.
  - exact Et.
  - exact Ha.
  - cbn. lia.
  - cbn. unfold INT_MAX. lia.
Defined.



(** C8, as the program behaves: [tarjan] sets back the stack, the
    per-vertex records and the component records, but not the discovery
    counter [vertex_index].  In a process whose counter has reached
    INT_MAX the 2-cycle 0 <-> 1 is decomposed into the single component
    {1}, vertex 0 belongs to no component, and one colouring is counted;
    in a fresh process the same digraph gives the component {0,1} and
    two counted colourings. *)
Theorem C8_result_depends_on_vertex_index nauty dswitch st :
  vertex_index (tj st) = INT_MAX ->
  (forall w, nauty g2c w 2 = mknauty 2 0 1 (fun _ => 0) [swap01]) ->
  (forall n s, vertex_index (tarjan_reset n s) = vertex_index s) /\
  (exists st', process_graph nauty dswitch (g2c, 2) st = Some st' /\
     currentSCC (tj st') = 1 /\
     setlist (sccVertices (sccinfos (tj st') 0)) = [1] /\
     totalCount (vc st') = totalCount (vc st) + 1) /\
  (exists st', process_graph nauty dswitch (g2c, 2) initial_globals = Some st' /\
     currentSCC (tj st') = 1 /\
     setlist (sccVertices (sccinfos (tj st') 0)) = [0; 1] /\
     totalCount (vc st') = 2).
Proof.
  intros Hv H. split; [|split].
  - intros n s. apply (tarjan_reset_fields n s).
  - destruct st as [[sc cur fs vi vx stk top] [c f lr lk gs ngs fl tc wr ca]].
    cbn in Hv. subst vx.
    unfold process_graph, colourdigraph.
    destruct (tarjan g2c 2 _) as [t|] eqn:Et; [|vm_compute in Et; congruence].
    cbn [obind].
    destruct (prev_weight g2c 0 2) as [prev weight] eqn:Ep.
    rewrite H.
    vm_compute in Et. injection Et as <-.
    vm_compute in Ep. injection Ep as <- <-.
    destruct dswitch.
    + eexists. split; [vm_compute; reflexivity|]. vm_compute. auto.
    + eexists. split; [vm_compute; reflexivity|]. vm_compute. auto.
  - unfold process_graph, colourdigraph.
    destruct (tarjan g2c 2 _) as [t|] eqn:Et; [|vm_compute in Et; congruence].
    cbn [obind].
    destruct (prev_weight g2c 0 2) as [prev weight] eqn:Ep.
    rewrite H.
    vm_compute in Et. injection Et as <-.
    vm_compute in Ep. injection Ep as <- <-.
    destruct dswitch.
    + eexists. split; [vm_compute; reflexivity|]. vm_compute. auto.
    + eexists. split; [vm_compute; reflexivity|]. vm_compute. auto.
Qed.

Lemma C8_witness :
  vertex_index (tj late_globals) = INT_MAX /\
  (forall n s, vertex_index (tarjan_reset n s) = vertex_index s) /\
  (exists st', process_graph swap_oracle false (g2c, 2) late_globals = Some st' /\
     currentSCC (tj st') = 1 /\
     setlist (sccVertices (sccinfos (tj st') 0)) = [1] /\
     totalCount (vc st') = totalCount (vc late_globals) + 1) /\
  (exists st', process_graph swap_oracle false (g2c, 2) initial_globals = Some st' /\
     currentSCC (tj st') = 1 /\
     setlist (sccVertices (sccinfos (tj st') 0)) = [0; 1] /\
     totalCount (vc st') = 2).
Proof.
  split; [reflexivity|].
  apply (C8_result_depends_on_vertex_index swap_oracle false late_globals).
  - reflexivity.
  - intros w. reflexivity.
Defined.

(** C9: for the digraph on two vertices with the single edge 0 -> 1 and
    an oracle that reports the trivial group, the components are {1},
    closed first and marked leaf, and {0}, not marked leaf; the search
    hands the four colourings to the filter, which counts (0,1) and
    (1,1), those that colour vertex 1, so the count is 2. *)
Theorem C9_single_edge_digraph nauty dswitch orb elts :
  (forall w, nauty g01 w 2 = mknauty 1 0 2 orb elts) ->
  exists st, process_graph nauty dswitch (g01, 2) initial_globals = Some st /\
    currentSCC (tj st) = 2 /\
    setlist (sccVertices (sccinfos (tj st) 0)) = [1] /\
    isLeaf (sccinfos (tj st) 0) = true /\
    setlist (sccVertices (sccinfos (tj st) 1)) = [0] /\
    isLeaf (sccinfos (tj st) 1) = false /\
    calls (vc st) = [[0; 0]; [0; 1]; [1; 0]; [1; 1]] /\
    filter (fun cl => admissible (tj st) (fill 2 (fun _ => 0) cl)) (calls (vc st))
    = [[0; 1]; [1; 1]] /\
    totalCount (vc st) = 2.
Proof.
  intros H. unfold process_graph, colourdigraph.
  destruct (tarjan g01 2 (tj initial_globals)) as [t|] eqn:Et;
    [|vm_compute in Et; congruence].
  cbn [obind].
  destruct (prev_weight g01 0 2) as [prev weight] eqn:Ep.
  rewrite H.
  vm_compute in Et. injection Et as <-.
  vm_compute in Ep. injection Ep as <- <-.
  destruct dswitch.
  - eexists. split; [vm_compute; reflexivity|]. vm_compute. repeat split; reflexivity.
  - eexists. split; [vm_compute; reflexivity|]. vm_compute. repeat split; reflexivity.
Qed.

Lemma C9_witness :
  (forall w, trivial_oracle g01 w 2 = mknauty 1 0 2 (fun i => i) []) /\
  exists st, process_graph trivial_oracle false (g01, 2) initial_globals = Some st /\
    currentSCC (tj st) = 2 /\
    setlist (sccVertices (sccinfos (tj st) 0)) = [1] /\
    isLeaf (sccinfos (tj st) 0) = true /\
    setlist (sccVertices (sccinfos (tj st) 1)) = [0] /\
    isLeaf (sccinfos (tj st) 1) = false /\
    calls (vc st) = [[0; 0]; [0; 1]; [1; 0]; [1; 1]] /\
    filter (fun cl => admissible (tj st) (fill 2 (fun _ => 0) cl)) (calls (vc st))
    = [[0; 1]; [1; 1]] /\
    totalCount (vc st) = 2.
Proof.
  split; [intros w; reflexivity|].
  apply (C9_single_edge_digraph trivial_oracle false (fun i => i) []).
  intros w. reflexivity.
Defined.

(** C10: for a digraph without vertices, whatever the oracle and
    whatever the process has done before, the decomposer records no
    component, the search hands the empty colouring, and nothing else,
    to the filter without testing it against a group, the filter accepts
    it, and the counter grows by one. *)
Theorem C10_empty_digraph_counts_once (nauty : oracle) (dswitch : bool) (g : graph)
    (st : globals) :
  exists st', process_graph nauty dswitch (g, 0) st = Some st' /\
    currentSCC (tj st') = 0 /\
    calls (vc st') = calls (vc st) ++ [[]] /\
    totalCount (vc st') = totalCount (vc st) + 1 /\
    lastrejok (vc st') = lastrejok (vc st) /\
    fail_level (vc st') = fail_level (vc st).
Proof.
  destruct st as [[sc cur fs vi vx stk top] [c f lr lk gs ngs fl tc wr ca]].
  destruct dswitch.
  - eexists. split; [vm_compute; reflexivity|]. cbn. auto.
  - eexists. split; [vm_compute; reflexivity|]. cbn. auto.
Qed.

(** * Further properties of the decomposer *)

Section DecomposerExtras.

Variables (g : graph) (n : Z).
Hypothesis Hwf : wf_graph g n.

Lemma NoDup_concat_map {A B : Type} (f : A -> list B) (l : list A) :
  NoDup l -> (forall i, In i l -> NoDup (f i)) ->
  (forall i j x, In i l -> In j l -> In x (f i) -> In x (f j) -> i = j) ->
  NoDup (concat (map f l)).
Proof.
  induction l as [|a l IH]; intros Hl Hf Hd; cbn [map concat]; [constructor|].
  inversion Hl as [|? ? Ha Hl']; subst.
  apply NoDup_app.
  - apply Hf. now left.
  - apply IH; auto.
    + intros i Hi. apply Hf. now right.
    + intros i j x Hi Hj. apply Hd; now right.
  - intros x Hx Hc. apply in_concat in Hc. destruct Hc as (y & Hy & Hxy).
    apply in_map_iff in Hy. destruct Hy as (j & <- & Hj).
    assert (a = j) by (apply (Hd a j x); auto; [now left|now right]).
    subst j. contradiction.
Qed.

Lemma list_sum_map_length (f : Z -> list Z) (l : list Z) :
  Z.of_nat (length (concat (map f l)))
  = fold_right Z.add 0 (map (fun i => Z.of_nat (length (f i))) l).
Proof.
  induction l as [|a l IH]; cbn [map concat fold_right]; [reflexivity|].
  rewrite length_app, Nat2Z.inj_add, IH. reflexivity.
Qed.

Lemma sum_sizes_spec t b : TInv g n b t -> stack_list t = [] ->
  (forall u, 0 <= u < n -> visited t u) -> sum_sizes t = n.
Proof.
  intros I Hsl Hall.
  set (f := fun i => setlist (sccVertices (sccinfos t i))).
  assert (Hmem : forall v, 0 <= v < n -> exists i, 0 <= i < currentSCC t /\ inscc t i v).
  { intros v Hv. apply (ti_scc_part _ _ _ _ I); auto. split; [now apply Hall|].
    destruct (onstack (vinfos t v)) eqn:Ho; auto.
    assert (Hin : In v (stack_list t)) by (apply (ti_stack_in _ _ _ _ I); auto).
    rewrite Hsl in Hin. destruct Hin. }
  assert (Hin : forall x, In x (concat (map f (range (currentSCC t)))) <-> In x (range n)).
  { intros x. rewrite in_concat, In_range. split.
    - intros (y & Hy & Hx). apply in_map_iff in Hy. destruct Hy as (i & <- & Hi).
      apply In_range in Hi. apply In_setlist in Hx. destruct Hx as [_ Hx].
      apply (within_ISELEMENT n _ x (ti_scc_within _ _ _ _ I i Hi) Hx).
    - intros Hx. destruct (Hmem x Hx) as (i & Hi & Hv).
      exists (f i). split; [apply in_map, In_range; assumption|].
      apply In_setlist. split; [|exact Hv].
      destruct Hwf as [[? ?] _]. unfold MAXN, WORDSIZE in *. lia. }
  assert (Hnd : NoDup (concat (map f (range (currentSCC t))))).
  { apply NoDup_concat_map.
    - apply NoDup_range.
    - intros i _. apply NoDup_setlist.
    - intros i j x Hi Hj Hx Hy. apply In_range in Hi, Hj.
      apply In_setlist in Hx, Hy.
      apply (ti_scc_disj _ _ _ _ I i j x); tauto. }
  assert (Hlen : length (concat (map f (range (currentSCC t)))) = length (range n)).
  { apply Nat.le_antisymm.
    - apply NoDup_incl_length; [assumption|]. intros x Hx. now apply Hin.
    - apply NoDup_incl_length; [apply NoDup_range|]. intros x Hx. now apply Hin. }
  unfold sum_sizes.
  replace (map (fun i => sccSize (sccinfos t i)) (range (currentSCC t)))
    with (map (fun i => Z.of_nat (length (f i))) (range (currentSCC t))).
  - rewrite <- list_sum_map_length, Hlen, length_range.
    destruct Hwf as [[? ?] _]. lia.
  - apply map_ext_in. intros i Hi. apply In_range in Hi.
    symmetry. apply (ti_size _ _ _ _ I i Hi).
Qed.

End DecomposerExtras.

(** X1: [tarjan] returns with the stack empty and no vertex marked as
    on the stack; every vertex has received a discovery index of this
    run; [vertex_index] has advanced by exactly [n]; there are between 0
    and [n] components (at least one when there is a vertex), none is
    empty, each [sccSize] is the number of members of its component, the
    sizes add up to [n], and the records from [currentSCC] on are as the
    reset left them. *)
Theorem X1_tarjan_final_state g n s :
  wf_graph g n -> 0 <= vertex_index s -> vertex_index s + n <= INT_MAX ->
  exists t, tarjan g n s = Some t /\
    stack_top t = -1 /\
    vertex_index t = vertex_index s + n /\
    0 <= currentSCC t <= n /\ (0 < n -> 0 < currentSCC t) /\
    (forall v, 0 <= v < n ->
       onstack (vinfos t v) = false /\
       vertex_index s <= index (vinfos t v) < vertex_index s + n) /\
    (forall i, 0 <= i < currentSCC t ->
       1 <= sccSize (sccinfos t i) /\
       sccSize (sccinfos t i)
       = Z.of_nat (length (setlist (sccVertices (sccinfos t i))))) /\
    sum_sizes t = n /\
    (forall i, currentSCC t <= i < n -> sccinfos t i = fresh_sccinfo).
Proof.
  intros Hwf H0 H1.
  destruct (tarjan_spec g n Hwf s H0 H1) as (t & Et & I & Hsl & Hall).
  assert (Hn : 0 <= n) by apply Hwf.
  assert (Htop : stack_top t = -1).
  { pose proof (length_stack_list t) as Hl. rewrite Hsl in Hl. cbn [length] in Hl.
    pose proof (ti_top _ _ _ _ I). lia. }
  assert (Hvi : vertex_index t = vertex_index s + n).
  { pose proof (ti_count2 _ _ _ _ I) as Hc. rewrite (nvisited_full n t Hall) in Hc. lia. }
  exists t. split; [assumption|]. split; [assumption|]. split; [assumption|].
  split; [|split; [|split; [|split; [|split]]]].
  - pose proof (TInv_cur_le g n _ Hwf t I). pose proof (ti_cur _ _ _ _ I). lia.
  - intros Hpos.
    destruct (tarjan_member g n Hwf s t 0 H0 H1 Et) as (i & Hi & _); lia.
  - intros v Hv. split.
    + destruct (onstack (vinfos t v)) eqn:Ho; auto.
      assert (Hin : In v (stack_list t)) by (apply (ti_stack_in _ _ _ _ I); auto).
      rewrite Hsl in Hin. destruct Hin.
    + pose proof (visited_index_lt g n _ t v I Hv (Hall v Hv)). lia.
  - intros i Hi. pose proof (ti_size _ _ _ _ I i Hi) as Hs. split; [|assumption].
    destruct (ti_scc_nonempty _ _ _ _ I i Hi) as (v & Hv).
    assert (Hin : In v (setlist (sccVertices (sccinfos t i)))).
    { apply In_setlist. split; [|exact Hv].
      pose proof (within_ISELEMENT n _ v (ti_scc_within _ _ _ _ I i Hi) Hv).
      destruct Hwf as [[? ?] _]. unfold MAXN, WORDSIZE in *. lia. }
    destruct (setlist (sccVertices (sccinfos t i))); [destruct Hin|].
    rewrite Hs. cbn [length]. lia.
  - apply (sum_sizes_spec g n Hwf t _ I Hsl Hall).
  - apply (ti_scc_fresh _ _ _ _ I).
Qed.

Lemma X1_witness :
  wf_graph g2c 2 /\
  exists t, tarjan g2c 2 initial_tarjan_state = Some t /\
    stack_top t = -1 /\
    vertex_index t = vertex_index initial_tarjan_state + 2 /\
    0 <= currentSCC t <= 2 /\ (0 < 2 -> 0 < currentSCC t) /\
    (forall v, 0 <= v < 2 ->
       onstack (vinfos t v) = false /\
       vertex_index initial_tarjan_state <= index (vinfos t v)
         < vertex_index initial_tarjan_state + 2) /\
    (forall i, 0 <= i < currentSCC t ->
       1 <= sccSize (sccinfos t i) /\
       sccSize (sccinfos t i)
       = Z.of_nat (length (setlist (sccVertices (sccinfos t i))))) /\
    sum_sizes t = 2 /\
    (forall i, currentSCC t <= i < 2 -> sccinfos t i = fresh_sccinfo).
Proof.
  split; [exact wf_g2c|].
  apply (X1_tarjan_final_state g2c 2 initial_tarjan_state wf_g2c).
  - cbn. lia.
  - cbn. unfold INT_MAX. lia.
Defined.

Lemma process_graph_tj nauty dswitch g n st st' :
  process_graph nauty dswitch (g, n) st = Some st' ->
  tarjan g n (tj st) = Some (tj st').
Proof.
  unfold process_graph. destruct (tarjan g n (tj st)) as [t|]; [|discriminate].
  cbn [obind]. destruct (colourdigraph nauty t dswitch g 0 0 NOLIMIT 2 n (vc st));
    [|discriminate].
  cbn [obind]. intros E. injection E as <-. reflexivity.
Qed.

(** X2: as long as [vertex_index] cannot overflow, what the program does
    with a digraph does not depend on what it has processed before: from
    any two states it records the same components with the same leaf
    flags and sizes, adds the same number to the counter, and, started
    with the same counter and output, ends with the same counter, the
    same output and the same colourings handed to the filter. *)
Theorem X2_result_independent_of_history nauty dswitch g n st1 st2 :
  input_ok nauty (g, n) ->
  0 <= vertex_index (tj st1) -> vertex_index (tj st1) + n <= INT_MAX ->
  0 <= vertex_index (tj st2) -> vertex_index (tj st2) + n <= INT_MAX ->
  exists st1' st2',
    process_graph nauty dswitch (g, n) st1 = Some st1' /\
    process_graph nauty dswitch (g, n) st2 = Some st2' /\
    currentSCC (tj st1') = currentSCC (tj st2') /\
    (forall i, 0 <= i < currentSCC (tj st1') ->
               sccinfos (tj st1') i = sccinfos (tj st2') i) /\
    totalCount (vc st1') - totalCount (vc st1)
    = totalCount (vc st2') - totalCount (vc st2) /\
    (obs_of (vc st1) = obs_of (vc st2) -> obs_of (vc st1') = obs_of (vc st2')).
Proof.
  intros Hin A0 A1 B0 B1.
  assert (Hwf : wf_graph g n) by apply Hin.
  destruct (process_graph_effect nauty dswitch g n st1 Hin A0 A1) as (st1' & E1 & _ & O1).
  destruct (process_graph_effect nauty dswitch g n st2 Hin B0 B1) as (st2' & E2 & _ & O2).
  exists st1', st2'. split; [assumption|]. split; [assumption|].
  destruct (tarjan_shifted g n Hwf (tj st1) (tj st2) A0 A1 B0 B1)
    as (t1 & t2 & T1 & T2 & Hs).
  rewrite (process_graph_tj _ _ _ _ _ _ E1) in T1. injection T1 as <-.
  rewrite (process_graph_tj _ _ _ _ _ _ E2) in T2. injection T2 as <-.
  destruct (tarjan_spec g n Hwf (tj st2) B0 B1) as (t2 & T2 & I2 & _).
  rewrite (process_graph_tj _ _ _ _ _ _ E2) in T2. injection T2 as <-.
  split; [apply (sh_cur _ _ _ _ Hs)|]. split; [|split].
  - intros i Hi. apply (sh_scc _ _ _ _ Hs).
    rewrite (sh_cur _ _ _ _ Hs) in Hi.
    pose proof (TInv_cur_le g n _ Hwf _ I2). pose proof (ti_top _ _ _ _ I2). lia.
  - pose proof (graph_effect_count nauty dswitch g n (obs_of (vc st1))) as C1.
    pose proof (graph_effect_count nauty dswitch g n (obs_of (vc st2))) as C2.
    rewrite <- O1 in C1. rewrite <- O2 in C2. unfold obs_count, obs_of in C1, C2.
    cbn [fst] in C1, C2. lia.
  - intros Ho. rewrite O1, O2, Ho. reflexivity.
Qed.

Lemma X2_witness :
  input_ok trivial_oracle (g01, 2) /\
  exists st1' st2',
    process_graph trivial_oracle false (g01, 2) initial_globals = Some st1' /\
    process_graph trivial_oracle false (g01, 2)
      (mkglobals (set_vertex_index 1000 initial_tarjan_state) initial_vcolg_state)
      = Some st2' /\
    currentSCC (tj st1') = currentSCC (tj st2') /\
    (forall i, 0 <= i < currentSCC (tj st1') ->
               sccinfos (tj st1') i = sccinfos (tj st2') i) /\
    totalCount (vc st1') - totalCount (vc initial_globals)
    = totalCount (vc st2')
      - totalCount (vc (mkglobals (set_vertex_index 1000 initial_tarjan_state)
                                  initial_vcolg_state)) /\
    (obs_of (vc initial_globals)
     = obs_of (vc (mkglobals (set_vertex_index 1000 initial_tarjan_state)
                             initial_vcolg_state)) ->
     obs_of (vc st1') = obs_of (vc st2')).
Proof.
  split; [exact input_ok_g01|].
  apply (X2_result_independent_of_history trivial_oracle false g01 2 initial_globals
           (mkglobals (set_vertex_index 1000 initial_tarjan_state) initial_vcolg_state)
           input_ok_g01).
  - cbn. lia.
  - cbn. unfold INT_MAX. lia.
  - cbn. lia.
  - cbn. unfold INT_MAX. lia.
Defined.

(** * Further properties of [colourdigraph] and the search *)

Section PrevSpec.

Lemma kvalues_snoc k cnt : kvalues k (S cnt) = kvalues k cnt ++ [k + Z.of_nat cnt].
Proof.
  unfold kvalues. rewrite seq_S, map_app. reflexivity.
Qed.

Lemma most_recent_spec eqv start cnt : forall j,
  start - 1 <= j -> (Z.to_nat (j - start + 1) <= cnt)%nat ->
  let r := most_recent cnt eqv start j in
  start - 1 <= r <= j /\ (forall k, r < k <= j -> eqv k = false) /\
  (start <= r -> eqv r = true).
Proof.
  induction cnt as [|cnt IH]; intros j Hj Hc; cbn [most_recent]; cbv zeta.
  - split; [lia|]. split; [intros k Hk; lia|intros Hr; lia].
  - destruct (Z.ltb_spec j start) as [Hlt|Hge].
    + split; [lia|]. split; [intros k Hk; lia|intros Hr; lia].
    + destruct (eqv j) eqn:E.
      * split; [lia|]. split; [intros k Hk; lia|auto].
      * destruct (IH (j - 1)) as (A & B & C); [lia|lia|].
        split; [lia|]. split; [|assumption].
        intros k Hk. destruct (Z.eq_dec k j) as [->|Hne]; [assumption|].
        apply B. lia.
Qed.

Section Region.

Variables (g gconv : graph) (loop : Z -> bool) (start : Z).

Let step (pw : (Z -> Z) * (Z -> Z)) (i : Z) : (Z -> Z) * (Z -> Z) :=
  let '(prev, weight) := pw in
  let j := most_recent (Z.to_nat (i - start)) (equivalent g gconv loop i)
                       start (i - 1) in
  if j >=? start then (upd prev i j, upd weight i (weight j + 1))
  else (upd prev i (-1), upd weight i 0).

Let mr (i : Z) : Z :=
  most_recent (Z.to_nat (i - start)) (equivalent g gconv loop i) start (i - 1).

Lemma region_fold_spec pw cnt :
  let pw' := fold_left step (kvalues start cnt) pw in
  (forall i, start <= i < start + Z.of_nat cnt ->
     fst pw' i = (if mr i >=? start then mr i else -1) /\
     snd pw' i = (if mr i >=? start then snd pw' (mr i) + 1 else 0)) /\
  (forall i, ~ start <= i < start + Z.of_nat cnt ->
     fst pw' i = fst pw i /\ snd pw' i = snd pw i).
Proof.
  induction cnt as [|cnt IH]; cbv zeta.
  - cbn. split; [intros i Hi; lia|auto].
  - rewrite kvalues_snoc, fold_left_app. cbn [fold_left].
    cbv zeta in IH. destruct IH as [IH1 IH2].
    set (pw1 := fold_left step (kvalues start cnt) pw) in *.
    set (a := start + Z.of_nat cnt).
    assert (Hmr : mr a <= a - 1) by apply most_recent_le.
    destruct pw1 as [prev1 weight1] eqn:E1. cbn [fst snd] in IH1, IH2.
    unfold step. fold (mr a).
    assert (Hold : forall i, i <> a ->
              fst (if mr a >=? start
                   then (upd prev1 a (mr a), upd weight1 a (weight1 (mr a) + 1))
                   else (upd prev1 a (-1), upd weight1 a 0)) i = prev1 i /\
              snd (if mr a >=? start
                   then (upd prev1 a (mr a), upd weight1 a (weight1 (mr a) + 1))
                   else (upd prev1 a (-1), upd weight1 a 0)) i = weight1 i).
    { intros i Hi. destruct (mr a >=? start); cbn [fst snd];
        rewrite !upd_other by assumption; auto. }
    split.
    + intros i Hi. destruct (Z.eq_dec i a) as [->|Hne].
      * destruct (Z.geb_spec (mr a) start) as [Hge|Hlt]; cbn [fst snd];
          rewrite !upd_same; [|auto].
        rewrite upd_other by lia. auto.
      * destruct (Hold i Hne) as [-> ->].
        destruct (IH1 i) as [A B]; [lia|]. split; [assumption|].
        rewrite B. destruct (Z.geb_spec (mr i) start) as [Hge|Hlt]; [|reflexivity].
        assert (Hmi : mr i <= i - 1) by apply most_recent_le.
        destruct (Hold (mr i)) as [_ ->]; [lia|reflexivity].
    + intros i Hi. destruct (Hold i) as [-> ->]; [lia|]. apply IH2. lia.
Qed.

Lemma region_pass_spec stop pw :
  let pw' := region_pass g gconv loop start stop pw in
  (forall i, start <= i < stop ->
     fst pw' i = (if mr i >=? start then mr i else -1) /\
     snd pw' i = (if mr i >=? start then snd pw' (mr i) + 1 else 0)) /\
  (forall i, ~ start <= i < stop -> fst pw' i = fst pw i /\ snd pw' i = snd pw i).
Proof.
  cbv zeta. unfold region_pass.
  replace (map (fun k => start + k) (range (stop - start)))
    with (kvalues start (Z.to_nat (stop - start)))
    by (unfold kvalues, range; rewrite map_map; reflexivity).
  destruct (region_fold_spec pw (Z.to_nat (stop - start))) as [H1 H2].
  split.
  - intros i Hi. apply H1. lia.
  - intros i Hi. apply H2. lia.
Qed.

End Region.

End PrevSpec.

(** X3: [prev[i]] is the most recent earlier vertex of the region of [i]
    that passes the test of lines 333-346 against [i], and -1 when no
    vertex of the region does; [weight[i]] is one more than
    [weight[prev[i]]] in the first case and the first vertex of the
    region in the second. *)
Theorem X3_prev_is_most_recent_twin g nfixed n i :
  0 <= nfixed -> 0 <= i < n ->
  let prev := fst (prev_weight g nfixed n) in
  let weight := snd (prev_weight g nfixed n) in
  let start := region_start nfixed i in
  (prev i = -1 /\ (forall j, start <= j < i -> twin_test g n i j = false) /\
   weight i = start) \/
  (start <= prev i < i /\ twin_test g n i (prev i) = true /\
   (forall j, prev i < j < i -> twin_test g n i j = false) /\
   weight i = weight (prev i) + 1).
Proof.
  intros Hnf Hi. cbv zeta. unfold prev_weight, twin_test, region_start.
  set (g0 := strip_loops g n). set (gconv := converse g0 n). set (loop := has_loop g).
  set (pw0 := (fun _ : Z => 0, fun _ : Z => 0)).
  set (pw1 := if nfixed =? 0 then pw0
              else region_pass g0 gconv loop 0 (if nfixed >? n then n else nfixed) pw0).
  set (pw2 := if nfixed >=? n then pw1 else region_pass g0 gconv loop nfixed n pw1).
  set (start := if i <? nfixed then 0 else nfixed).
  set (r := most_recent (Z.to_nat (i - start)) (equivalent g0 gconv loop i)
                        start (i - 1)).
  assert (Hst : 0 <= start <= i) by (unfold start; destruct (Z.ltb_spec i nfixed); lia).
  destruct (most_recent_spec (equivalent g0 gconv loop i) start
              (Z.to_nat (i - start)) (i - 1)) as (R1 & R2 & R3); [lia|lia|].
  fold r in R1, R2, R3.
  assert (H : fst pw2 i = (if r >=? start then r else -1) /\
              snd pw2 i = (if r >=? start then snd pw2 r + 1 else 0)).
  { unfold r, start. destruct (Z.ltb_spec i nfixed) as [Hlt|Hge].
    - assert (H1 : fst pw1 i
                   = (if most_recent (Z.to_nat (i - 0)) (equivalent g0 gconv loop i) 0
                           (i - 1) >=? 0
                      then most_recent (Z.to_nat (i - 0)) (equivalent g0 gconv loop i) 0
                             (i - 1) else -1) /\
                   snd pw1 i
                   = (if most_recent (Z.to_nat (i - 0)) (equivalent g0 gconv loop i) 0
                           (i - 1) >=? 0
                      then snd pw1 (most_recent (Z.to_nat (i - 0))
                                      (equivalent g0 gconv loop i) 0 (i - 1)) + 1
                      else 0)).
      { unfold pw1. destruct (Z.eqb_spec nfixed 0) as [?|_]; [lia|].
        apply (region_pass_spec g0 gconv loop 0). destruct (Z.gtb_spec nfixed n); lia. }
      unfold pw2. destruct (Z.geb_spec nfixed n) as [_|Hn]; [exact H1|].
      destruct (region_pass_spec g0 gconv loop nfixed n pw1) as [_ Hout].
      destruct (Hout i) as [-> ->]; [lia|].
      destruct H1 as [A B]. split; [exact A|]. rewrite B.
      destruct (Z.geb_spec (most_recent (Z.to_nat (i - 0)) (equivalent g0 gconv loop i) 0
                              (i - 1)) 0) as [Hr|_]; [|reflexivity].
      pose proof (most_recent_le (equivalent g0 gconv loop i) 0 (Z.to_nat (i - 0))
                    (i - 1)) as Hle.
      destruct (Hout (most_recent (Z.to_nat (i - 0)) (equivalent g0 gconv loop i) 0
                        (i - 1))) as [_ ->]; [lia|reflexivity].
    - unfold pw2. destruct (Z.geb_spec nfixed n) as [?|_]; [lia|].
      apply (region_pass_spec g0 gconv loop nfixed n pw1). lia. }
  destruct pw2 as [prev weight]. cbn [fst snd] in *. destruct H as [Hp Hw].
  assert (Hfin : forall x, start <= x <= i ->
            (if (nfixed <=? x) && (x <? n) then weight x + nfixed else weight x)
            = weight x + start).
  { intros x Hx. unfold start in *. destruct (Z.ltb_spec i nfixed) as [Hlt|Hge].
    - destruct (Z.leb_spec nfixed x); [lia|]. cbn [andb]. lia.
    - destruct (Z.leb_spec nfixed x); [|lia]. destruct (Z.ltb_spec x n); [|lia].
      reflexivity. }
  rewrite (Hfin i) by lia.
  destruct (Z.geb_spec r start) as [Hge|Hlt].
  - right. rewrite Hp. split; [lia|]. split; [apply R3; lia|]. split.
    + intros j Hj. apply R2. lia.
    + rewrite (Hfin r) by lia. lia.
  - left. split; [assumption|]. split; [|lia].
    intros j Hj. apply R2. lia.
Qed.

Lemma X3_witness :
  0 <= 0 /\ 0 <= 1 < 2 /\
  ((fst (prev_weight g2c 0 2) 1 = -1 /\
    (forall j, region_start 0 1 <= j < 1 -> twin_test g2c 2 1 j = false) /\
    snd (prev_weight g2c 0 2) 1 = region_start 0 1) \/
   (region_start 0 1 <= fst (prev_weight g2c 0 2) 1 < 1 /\
    twin_test g2c 2 1 (fst (prev_weight g2c 0 2) 1) = true /\
    (forall j, fst (prev_weight g2c 0 2) 1 < j < 1 -> twin_test g2c 2 1 j = false) /\
    snd (prev_weight g2c 0 2) 1 = snd (prev_weight g2c 0 2) (fst (prev_weight g2c 0 2) 1) + 1)).
Proof.
  split; [lia|]. split; [lia|].
  apply (X3_prev_is_most_recent_twin g2c 0 2 1); lia.
Defined.

Section IsmaxExtras.

Lemma ismax_from_exact cnt p s : forall i fail,
  lexfail cnt p (col s) i fail = None ->
  ismax_from cnt p i fail s
  = (true, if forallb (fun j => col s (p j) =? col s j) (kvalues i cnt)
           then set_newgroupsize (newgroupsize s + 1) s else s).
Proof.
  induction cnt as [|cnt IH]; intros i fail H; [reflexivity|].
  rewrite kvalues_S. cbn [ismax_from lexfail forallb] in *. cbv zeta in *.
  destruct (Z.gtb_spec (col s (p i)) (col s i)) as [Hgt|E1]; [discriminate|].
  destruct (Z.ltb_spec (col s (p i)) (col s i)) as [Hlt|Hge].
  - replace (col s (p i) =? col s i) with false by (symmetry; apply Z.eqb_neq; lia).
    reflexivity.
  - replace (col s (p i) =? col s i) with true
      by (symmetry; apply Z.eqb_eq; lia).
    cbn [andb]. now apply IH.
Qed.

Lemma forallb_fixes c p n :
  forallb (fun j => c (p j) =? c j) (kvalues 0 (Z.to_nat n)) = true <->
  permuted c p n = coloring c n.
Proof.
  unfold permuted, coloring. rewrite range_kvalues.
  induction (kvalues 0 (Z.to_nat n)) as [|a l IH]; cbn [forallb map].
  - split; reflexivity.
  - rewrite andb_true_iff, IH, Z.eqb_eq. split.
    + intros [-> ->]. reflexivity.
    + intros H. injection H. auto.
Qed.

End IsmaxExtras.

(** X4: [ismax(p,n)] returns TRUE exactly when the colouring permuted by
    [p] is lexicographically at most the colouring.  It never changes the
    colouring, the counter or the remembered rejection.  When it returns
    TRUE it leaves [fail_level] alone and adds one to [newgroupsize]
    exactly when [p] fixes the colouring; when it returns FALSE it leaves
    [newgroupsize] alone. *)
Theorem X4_ismax_result (p : perm) (n : Z) (s : vcolg_state) :
  let ok := fst (ismax p n s) in
  let s' := snd (ismax p n s) in
  (ok = true <-> lex_le (permuted (col s) p n) (coloring (col s) n)) /\
  col s' = col s /\ totalCount s' = totalCount s /\
  lastreject s' = lastreject s /\ lastrejok s' = lastrejok s /\
  (ok = true -> fail_level s' = fail_level s) /\
  (ok = true -> permuted (col s) p n = coloring (col s) n ->
     newgroupsize s' = newgroupsize s + 1) /\
  (ok = true -> permuted (col s) p n <> coloring (col s) n ->
     newgroupsize s' = newgroupsize s) /\
  (ok = false -> newgroupsize s' = newgroupsize s).
Proof.
  cbv zeta. rewrite <- lexok_lex_le. unfold ismax, lexok.
  pose proof (ismax_from_lexfail (Z.to_nat n) p s 0 0) as H.
  pose proof (ismax_from_exact (Z.to_nat n) p s 0 0) as Hex.
  pose proof (forallb_fixes (col s) p n) as Hfix.
  destruct (lexfail (Z.to_nat n) p (col s) 0 0) as [f|].
  - rewrite H. cbn. repeat split; auto; try discriminate; intros; discriminate.
  - rewrite (Hex eq_refl).
    destruct (forallb (fun j => col s (p j) =? col s j) (kvalues 0 (Z.to_nat n))).
    + cbn. repeat split; auto; try discriminate.
      intros _ Hne. exfalso. apply Hne, Hfix. reflexivity.
    + cbn. repeat split; auto; try discriminate.
      intros _ Heq. apply Hfix in Heq. discriminate.
Qed.

(** X5: when [ismax(p,n)] rejects for a permutation [p] of the vertices,
    the level [f] it stores in [fail_level] is a vertex; the comparison
    has failed at a position [k <= f] with [p[k] <= f]; and [ismax(p,n)]
    rejects every colouring that agrees with the present one below [f]
    and is at least as large at [f].  This is what lets [trythisone]
    send the search back to level [f - 1]. *)
Theorem X5_ismax_fail_level_certificate p n s :
  0 <= n -> is_perm p n -> fst (ismax p n s) = false ->
  let f := fail_level (snd (ismax p n s)) in
  0 <= f < n /\
  (exists k, 0 <= k <= f /\ p k <= f /\ col s (p k) > col s k /\
             forall j, 0 <= j < k -> col s (p j) = col s j) /\
  forall s2, (forall j, 0 <= j < f -> col s2 j = col s j) ->
             col s f <= col s2 f -> fst (ismax p n s2) = false.
Proof.
  intros Hn Hperm Hrej. cbv zeta.
  pose proof (ismax_spec n p s) as H.
  destruct (ismax p n s) as [ok s'] eqn:E. cbn [fst snd] in *. subst ok.
  destruct H as (Hok & _ & _ & _ & _ & Hfail). specialize (Hfail eq_refl).
  destruct (lexfail_cert n p (col s) _ Hn Hperm Hfail) as [Hf Hcert].
  split; [assumption|]. split.
  - destruct (lexfail_some _ _ _ _ _ _ Hfail) as (k & Hk & Heq & Hgt & _ & Hle & _).
    exists k. assert (Hkf : k <= fail_level s').
    { apply (injection_bound p k (fail_level s')); [lia| |].
      - intros j Hj. split; [apply Hperm; lia|apply Hle; lia].
      - intros a b Ha Hb. apply Hperm; lia. }
    split; [lia|]. split; [apply Hle; lia|]. split; [assumption|].
    intros j Hj. apply Heq. lia.
  - intros s2 Hagree Hge.
    pose proof (ismax_spec n p s2) as H2.
    destruct (ismax p n s2) as [ok2 s2']. cbn [fst]. destruct H2 as (-> & _).
    apply Hcert; auto.
Qed.

Lemma X5_witness :
  0 <= 2 /\ is_perm swap01 2 /\
  fst (ismax swap01 2 (set_col col_01 initial_vcolg_state)) = false /\
  0 <= fail_level (snd (ismax swap01 2 (set_col col_01 initial_vcolg_state))) < 2 /\
  (exists k, 0 <= k <= fail_level (snd (ismax swap01 2
                                          (set_col col_01 initial_vcolg_state))) /\
     swap01 k <= fail_level (snd (ismax swap01 2 (set_col col_01 initial_vcolg_state))) /\
     col (set_col col_01 initial_vcolg_state) (swap01 k)
       > col (set_col col_01 initial_vcolg_state) k /\
     forall j, 0 <= j < k ->
       col (set_col col_01 initial_vcolg_state) (swap01 j)
       = col (set_col col_01 initial_vcolg_state) j) /\
  forall s2,
    (forall j, 0 <= j < fail_level (snd (ismax swap01 2
                                           (set_col col_01 initial_vcolg_state))) ->
               col s2 j = col (set_col col_01 initial_vcolg_state) j) ->
    col (set_col col_01 initial_vcolg_state)
        (fail_level (snd (ismax swap01 2 (set_col col_01 initial_vcolg_state))))
    <= col s2 (fail_level (snd (ismax swap01 2 (set_col col_01 initial_vcolg_state)))) ->
    fst (ismax swap01 2 s2) = false.
Proof.
  split; [lia|]. split; [exact swap01_perm|]. split; [reflexivity|].
  apply (X5_ismax_fail_level_certificate swap01 2 (set_col col_01 initial_vcolg_state)).
  - lia.
  - exact swap01_perm.
  - reflexivity.
Defined.

(** X6: the extended digraph holds the digraph and the colouring and
    nothing else: between old vertices it has the edges of [g], an old
    vertex has an edge to the new vertex [n] exactly when its colour is
    not 0, the new vertex has no outgoing edge, and no edge involves a
    vertex beyond [n].  So two colourings with the same extension colour
    the same vertices. *)
Theorem X6_extension_holds_digraph_and_colouring g n c :
  wf_graph g n -> n < MAXN ->
  (forall u w, 0 <= u < n -> 0 <= w < n -> (edge (extend g c n) u w <-> edge g u w)) /\
  (forall u, 0 <= u < n -> (edge (extend g c n) u n <-> c u <> 0)) /\
  (forall w, ~ edge (extend g c n) n w) /\
  (forall u w, edge (extend g c n) u w -> 0 <= u < n /\ 0 <= w <= n) /\
  (forall c', (forall u, 0 <= u < n -> extend g c n u = extend g c' n u) ->
              forall u, 0 <= u < n -> (c u = 0 <-> c' u = 0)).
Proof.
  intros Hwf Hn.
  assert (Hws : 0 <= n < WORDSIZE) by (destruct Hwf as [[? ?] _]; unfold MAXN, WORDSIZE in *; lia).
  assert (Hrow : forall u, 0 <= u < n ->
            extend g c n u = if negb (c u =? 0) then ADDELEMENT (g u) n else g u).
  { intros u Hu. unfold extend.
    destruct (Z.leb_spec 0 u); [|lia]. destruct (Z.ltb_spec u n); [|lia]. reflexivity. }
  assert (Hnew : forall u, 0 <= u < n -> (edge (extend g c n) u n <-> c u <> 0)).
  { intros u Hu. split.
    - intros He Hc. unfold edge in He. rewrite (Hrow u Hu), Hc in He. cbn in He.
      destruct Hwf as [_ Hrows].
      pose proof (within_ISELEMENT n (g u) n (Hrows u Hu) He). lia.
    - intros Hc. now apply extend_edge. }
  split; [|split; [exact Hnew|split; [apply extend_sink|split]]].
  - intros u w Hu Hw. unfold edge. rewrite (Hrow u Hu).
    destruct (negb (c u =? 0)); [|reflexivity].
    rewrite ISELEMENT_ADDELEMENT by lia.
    replace (w =? n) with false by (symmetry; apply Z.eqb_neq; lia). reflexivity.
  - intros u w He.
    assert (Hu : 0 <= u < n).
    { unfold edge, extend in He.
      destruct (Z.leb_spec 0 u), (Z.ltb_spec u n); cbn [andb] in He; try lia;
        rewrite ISELEMENT_0 in He; discriminate. }
    split; [assumption|].
    pose proof (extend_wf g n c Hwf Hn) as [_ Hrows'].
    pose proof (within_ISELEMENT (n + 1) _ w (Hrows' u ltac:(lia)) He). lia.
  - intros c' Heq u Hu.
    assert (Hnew' : edge (extend g c' n) u n <-> c' u <> 0).
    { split.
      - intros He Hc. unfold edge, extend in He.
        destruct (Z.leb_spec 0 u); [|lia]. destruct (Z.ltb_spec u n); [|lia].
        cbn [andb] in He. rewrite Hc in He. cbn in He.
        destruct Hwf as [_ Hrows].
        pose proof (within_ISELEMENT n (g u) n (Hrows u Hu) He). lia.
      - intros Hc. now apply extend_edge. }
    pose proof (Hnew u Hu) as H1. unfold edge in H1, Hnew'. rewrite (Heq u Hu) in H1.
    destruct (Z.eq_dec (c u) 0), (Z.eq_dec (c' u) 0); tauto.
Qed.

Lemma X6_witness :
  wf_graph g01 2 /\ 2 < MAXN /\
  (forall u w, 0 <= u < 2 -> 0 <= w < 2 ->
               (edge (extend g01 col_01 2) u w <-> edge g01 u w)) /\
  (forall u, 0 <= u < 2 -> (edge (extend g01 col_01 2) u 2 <-> col_01 u <> 0)) /\
  (forall w, ~ edge (extend g01 col_01 2) 2 w) /\
  (forall u w, edge (extend g01 col_01 2) u w -> 0 <= u < 2 /\ 0 <= w <= 2) /\
  (forall c', (forall u, 0 <= u < 2 -> extend g01 col_01 2 u = extend g01 c' 2 u) ->
              forall u, 0 <= u < 2 -> (col_01 u = 0 <-> c' u = 0)).
Proof.
  split; [exact wf_g01|]. split; [unfold MAXN; lia|].
  apply (X6_extension_holds_digraph_and_colouring g01 2 col_01 wf_g01).
  unfold MAXN. lia.
Defined.

Section WrittenFacts.

Variables (t : tarjan_state) (g : graph) (n : Z) (cout : Z -> Z).

Lemma replay_written_off cls : forall o,
  snd (fst (replay t false g n cout cls o)) = snd (fst o).
Proof.
  unfold replay. induction cls as [|cl cls IH]; intros o; cbn [fold_left]; [reflexivity|].
  rewrite IH. destruct o as [[tc wr] ca]. unfold filter_obs.
  destruct (admissible t (fill n cout cl)); reflexivity.
Qed.

Lemma replay_written_on cls : forall o,
  snd (fst (replay t true g n cout cls o))
  = snd (fst o)
    ++ map (fun cl => (map (extend g (fill n cout cl) n) (range (n + 1)), n + 1))
           (filter (fun cl => admissible t (fill n cout cl)) cls).
Proof.
  unfold replay. induction cls as [|cl cls IH]; intros o; cbn [fold_left filter].
  - cbn [map]. now rewrite app_nil_r.
  - rewrite IH. destruct o as [[tc wr] ca]. unfold filter_obs.
    destruct (admissible t (fill n cout cl)); cbn [fst snd map]; [|reflexivity].
    rewrite <- app_assoc. reflexivity.
Qed.

End WrittenFacts.

Lemma colour_effect_replay nauty t dswitch g nfixed minedges maxedges numcols n cout o :
  exists cls,
    colour_effect nauty t dswitch g nfixed minedges maxedges numcols n cout o
    = replay t dswitch g n cout cls o.
Proof.
  unfold colour_effect. destruct (prev_weight g nfixed n) as [prev weight]. cbv zeta.
  destruct (n * numcols <? minedges); [exists []; reflexivity|].
  eexists. reflexivity.
Qed.



(** * What [scan] enumerates *)

Section Enumeration.

Variables (prev : Z -> Z) (minedges maxedges numcols n : Z).
Hypothesis Hprev : forall l, 0 <= l < n -> prev l < l.

Lemma sumlist_app a b : sumlist (a ++ b) = sumlist a + sumlist b.
Proof.
  unfold sumlist. induction a as [|x a IH]; cbn [app fold_right]; [lia|].
  rewrite IH. lia.
Qed.

Lemma sumlist_bounds hi l : (forall x, In x l -> 0 <= x <= hi) ->
  0 <= sumlist l <= hi * Z.of_nat (length l).
Proof.
  unfold sumlist. induction l as [|x l IH]; intros H; cbn [fold_right length].
  - lia.
  - assert (Hx : 0 <= x <= hi) by (apply H; now left).
    assert (Hl : 0 <= fold_right Z.add 0 l <= hi * Z.of_nat (length l))
      by (apply IH; intros y Hy; apply H; now right).
    rewrite Nat2Z.inj_succ. nia.
Qed.

Lemma lookup_app_l a b i : 0 <= i < Z.of_nat (length a) ->
  lookup (a ++ b) i = lookup a i.
Proof. intros Hi. unfold lookup. apply app_nth1. lia. Qed.

Lemma lookup_app_r a b i : Z.of_nat (length a) <= i ->
  lookup (a ++ b) i = lookup b (i - Z.of_nat (length a)).
Proof.
  intros Hi. unfold lookup. rewrite app_nth2 by lia. f_equal. lia.
Qed.

Lemma In_lookup l x : In x l -> exists i, 0 <= i < Z.of_nat (length l) /\ lookup l i = x.
Proof.
  intros H. destruct (In_nth l x 0 H) as (k & Hk & Hx).
  exists (Z.of_nat k). split; [lia|]. unfold lookup. now rewrite Nat2Z.id.
Qed.

(** The colours [scan] tries at [level] after the prefix [pre]. *)
Lemma In_level_values level sofar pre k :
  let left := n - level - 1 in
  let min := minedges - sofar - numcols * left in
  let min := if min <? 0 then 0 else min in
  let max := maxedges - sofar in
  let max := if max >=? numcols then numcols - 1 else max in
  let max := if (prev level >=? 0) && (lookup pre (prev level) <? max)
             then lookup pre (prev level) else max in
  In k (kvalues min (Z.to_nat (max - min + 1))) <->
  (0 <= k <= numcols - 1 /\ minedges - sofar - numcols * (n - level - 1) <= k /\
   k <= maxedges - sofar /\ (0 <= prev level -> k <= lookup pre (prev level))).
Proof.
  cbv zeta. rewrite In_kvalues.
  destruct (Z.ltb_spec (minedges - sofar - numcols * (n - level - 1)) 0);
    destruct (Z.geb_spec (maxedges - sofar) numcols);
    destruct (Z.geb_spec (prev level) 0); cbn [andb];
    try (destruct (Z.ltb_spec (lookup pre (prev level)) (numcols - 1)));
    try (destruct (Z.ltb_spec (lookup pre (prev level)) (maxedges - sofar)));
    lia.
Qed.

Lemma candidates_spec d : forall level sofar pre cl,
  level = n - Z.of_nat d -> 0 <= level -> Z.of_nat (length pre) = level ->
  sofar = sumlist pre ->
  (In cl (candidates prev minedges maxedges numcols n d level sofar pre) <->
   exists suf, cl = pre ++ suf /\ length suf = d /\
     (forall i, level <= i < n ->
        0 <= lookup cl i <= numcols - 1 /\
        (0 <= prev i -> lookup cl i <= lookup cl (prev i))) /\
     (d = 0%nat \/ minedges <= sumlist cl <= maxedges)).
Proof.
  induction d as [|d IH]; intros level sofar pre cl Hlev H0 Hlen Hsum.
  - cbn [candidates]. split.
    + intros [<-|[]]. exists []. rewrite app_nil_r. split; [reflexivity|].
      split; [reflexivity|]. split; [intros i Hi; lia|now left].
    + intros (suf & -> & Hs & _). destruct suf; [|discriminate].
      rewrite app_nil_r. now left.
  - cbn [candidates]. cbv zeta. rewrite in_flat_map. split.
    + intros (k & Hk & Hin).
      apply In_level_values in Hk. destruct Hk as (K1 & K2 & K3 & K4).
      apply IH in Hin; [|lia|lia|rewrite length_app; cbn [length]; lia
                        |rewrite sumlist_app, Hsum; unfold sumlist; cbn [fold_right]; lia].
      destruct Hin as (suf & -> & Hs & Hc & Hb).
      exists (k :: suf). rewrite <- app_assoc. cbn [app].
      split; [reflexivity|]. split; [cbn [length]; lia|].
      assert (Hk : lookup (pre ++ k :: suf) level = k).
      { rewrite lookup_app_r by lia. replace (level - Z.of_nat (length pre)) with 0 by lia.
        reflexivity. }
      rewrite <- app_assoc in Hc, Hb. cbn [app] in Hc, Hb.
      split.
      * intros i Hi. destruct (Z.eq_dec i level) as [->|Hne]; [|apply Hc; lia].
        rewrite Hk. split; [lia|]. intros Hp.
        rewrite lookup_app_l by (specialize (Hprev level); lia). auto.
      * right. destruct Hb as [->|Hb]; [|assumption].
        destruct suf; [|discriminate].
        rewrite sumlist_app, <- Hsum. unfold sumlist. cbn [fold_right].
        replace (n - level - 1) with 0 in K2 by lia. lia.
    + intros (suf & -> & Hs & Hc & Hb).
      destruct suf as [|k suf]; [discriminate|]. injection Hs as Hs.
      destruct Hb as [Hb|Hb]; [discriminate|].
      assert (Hk : lookup (pre ++ k :: suf) level = k).
      { rewrite lookup_app_r by lia. replace (level - Z.of_nat (length pre)) with 0 by lia.
        reflexivity. }
      assert (Hsuf : forall x, In x suf -> 0 <= x <= numcols - 1).
      { intros x Hx. destruct (In_lookup suf x Hx) as (j & Hj & <-).
        destruct (Hc (level + 1 + j)) as [Hr _]; [lia|].
        rewrite lookup_app_r in Hr by lia.
        replace (level + 1 + j - Z.of_nat (length pre)) with (j + 1) in Hr by lia.
        unfold lookup in Hr |- *.
        replace (Z.to_nat (j + 1)) with (S (Z.to_nat j)) in Hr by lia. exact Hr. }
      pose proof (sumlist_bounds (numcols - 1) suf Hsuf) as Hbs.
      pose proof Hb as Hb'.
      rewrite sumlist_app, <- Hsum in Hb.
      change (sumlist (k :: suf)) with (k + sumlist suf) in Hb.
      destruct (Hc level) as [Hr Hp]; [lia|]. rewrite Hk in Hr, Hp.
      exists k. split.
      * apply In_level_values. split; [lia|]. split; [nia|]. split; [lia|].
        intros Hpl. specialize (Hp Hpl).
        rewrite lookup_app_l in Hp by (specialize (Hprev level); lia). exact Hp.
      * apply IH; [lia|lia|rewrite length_app; cbn [length]; lia
                  |rewrite sumlist_app, Hsum; unfold sumlist; cbn [fold_right]; lia|].
        exists suf. rewrite <- app_assoc. cbn [app].
        split; [reflexivity|]. split; [assumption|]. split.
        -- intros i Hi. apply Hc. lia.
        -- right. exact Hb'.
Qed.

Lemma NoDup_kvalues k cnt : NoDup (kvalues k cnt).
Proof.
  unfold kvalues. apply Injective_map_NoDup; [|apply seq_NoDup].
  intros a b H. lia.
Qed.

Lemma candidates_NoDup d : forall level sofar pre,
  NoDup (candidates prev minedges maxedges numcols n d level sofar pre).
Proof.
  induction d as [|d IH]; intros level sofar pre; cbn [candidates].
  - constructor; [intros []|constructor].
  - cbv zeta. rewrite flat_map_concat_map.
    apply (NoDup_concat_map
             (fun k => candidates prev minedges maxedges numcols n d (level + 1)
                         (sofar + k) (pre ++ [k]))).
    + apply NoDup_kvalues.
    + intros k _. apply IH.
    + intros i j x _ _ Hi Hj.
      pose proof (candidates_prefix _ _ _ _ _ _ _ _ _ _ Hi
                    (Z.of_nat (length pre))) as Pi.
      pose proof (candidates_prefix _ _ _ _ _ _ _ _ _ _ Hj
                    (Z.of_nat (length pre))) as Pj.
      rewrite length_app in Pi, Pj. cbn [length] in Pi, Pj.
      rewrite Pi in Pj by lia.
      unfold lookup in Pj. rewrite !Nat2Z.id, !nth_middle in Pj. apply Pj. lia.
Qed.

(** The complete colourings [scan] runs through from level 0 are the
    eligible ones, each once. *)
Lemma candidates_eligible cl : 1 <= n ->
  (In cl (candidates prev minedges maxedges numcols n (Z.to_nat n) 0 0 []) <->
   eligible prev minedges maxedges numcols n cl).
Proof.
  intros Hn. rewrite (candidates_spec (Z.to_nat n) 0 0 [] cl) by (cbn; lia).
  unfold eligible. cbn [app]. split.
  - intros (suf & -> & Hs & Hc & [Hz|Hb]); [lia|]. auto.
  - intros (Hl & Hc & Hb). exists cl. auto.
Qed.

End Enumeration.

Section ScanCalls.

Variables (t : tarjan_state) (g : graph) (n : Z) (cout : Z -> Z).

Lemma replay_calls dswitch cls : forall o,
  snd (replay t dswitch g n cout cls o)
  = snd o ++ map (fun cl => coloring (fill n cout cl) n) cls.
Proof.
  unfold replay. induction cls as [|cl cls IH]; intros o; cbn [fold_left map].
  - now rewrite app_nil_r.
  - rewrite IH. destruct o as [[tc wr] ca]. unfold filter_obs.
    destruct (admissible t (fill n cout cl)); cbn [snd];
      rewrite <- app_assoc; reflexivity.
Qed.

Lemma coloring_fill cl : 0 <= n -> length cl = Z.to_nat n ->
  coloring (fill n cout cl) n = cl.
Proof.
  intros Hn Hl. apply (nth_ext _ _ 0 0).
  - rewrite length_coloring. auto.
  - intros k Hk. rewrite length_coloring in Hk.
    change (nth k (coloring (fill n cout cl) n) 0)
      with (nth k (coloring (fill n cout cl) n) 0).
    rewrite <- (Nat2Z.id k) at 1.
    change (lookup (coloring (fill n cout cl) n) (Z.of_nat k) = nth k cl 0).
    rewrite lookup_coloring, fill_in by lia.
    unfold lookup. now rewrite Nat2Z.id.
Qed.

Lemma map_coloring_fill cls : 0 <= n ->
  (forall cl, In cl cls -> length cl = Z.to_nat n) ->
  map (fun cl => coloring (fill n cout cl) n) cls = cls.
Proof.
  intros Hn H. induction cls as [|cl cls IH]; cbn [map]; [reflexivity|].
  rewrite coloring_fill, IH; auto.
  - intros x Hx. apply H. now right.
  - apply H. now left.
Qed.

End ScanCalls.

(** X8: started at level 0 on [n >= 1] vertices, [scan] hands the
    filter, one after the other and each exactly once, the colourings
    that are eligible (colours below [numcols], none above the colour
    of the vertex [prev] names, sum within [minedges .. maxedges]) and
    pass the canonicity test; no other colouring reaches the filter. *)
Theorem X8_scan_passes_each_eligible_canonical_colouring_once
    group t dswitch g n prev minedges maxedges numcols s :
  1 <= n -> (forall l, 0 <= l < n -> prev l < l) ->
  group_ok group (groupsize s) n -> witness_ok group n s ->
  exists ret s' tried,
    scan group t dswitch g 0 prev minedges maxedges 0 numcols n s = Some (ret, s') /\
    calls s' = calls s ++ tried /\ NoDup tried /\
    forall cl, In cl tried <->
               eligible prev minedges maxedges numcols n cl /\
               passes group (groupsize s) n (lookup cl) = true.
Proof.
  intros Hn Hprev Hg Hw.
  destruct (scan_effect group t dswitch g n prev minedges maxedges numcols
              ltac:(lia) Hprev 0 0 s ltac:(lia) Hg Hw)
    as (ret & s' & E & _ & _ & _ & O).
  replace (n - 0) with n in O by lia.
  change (coloring (col s) 0) with (@nil Z) in O.
  set (cands := candidates prev minedges maxedges numcols n (Z.to_nat n) 0 0 []) in *.
  exists ret, s', (survivors group (groupsize s) n (col s) cands).
  split; [exact E|].
  assert (Hlen : forall cl, In cl cands -> length cl = Z.to_nat n).
  { intros cl Hc. apply candidates_length in Hc. cbn [length] in Hc. lia. }
  split; [|split].
  - apply (f_equal snd) in O. rewrite replay_calls in O. unfold obs_of in O.
    cbn [snd] in O. rewrite O. f_equal. apply map_coloring_fill; [lia|].
    intros cl Hc. apply Hlen. unfold survivors in Hc. apply filter_In in Hc. tauto.
  - unfold survivors. apply NoDup_filter. apply candidates_NoDup.
  - intros cl. unfold survivors. rewrite filter_In.
    unfold cands. rewrite (candidates_eligible prev minedges maxedges numcols n Hprev cl Hn).
    rewrite (passes_ext_in group (groupsize s) n (fill n (col s) cl) (lookup cl));
      [reflexivity|lia|exact Hg|].
    intros j Hj. now apply fill_in.
Qed.

Lemma X8_witness :
  1 <= 2 /\ (forall l, 0 <= l < 2 -> (fun _ : Z => -1) l < l) /\
  group_ok (Some [swap01]) (groupsize (set_groupsize 2 initial_vcolg_state)) 2 /\
  witness_ok (Some [swap01]) 2 (set_groupsize 2 initial_vcolg_state) /\
  exists ret s' tried,
    scan (Some [swap01]) initial_tarjan_state false g2c 0 (fun _ => -1) 0 4 0 2 2
      (set_groupsize 2 initial_vcolg_state) = Some (ret, s') /\
    calls s' = calls (set_groupsize 2 initial_vcolg_state) ++ tried /\ NoDup tried /\
    forall cl, In cl tried <->
               eligible (fun _ => -1) 0 4 2 2 cl /\
               passes (Some [swap01]) (groupsize (set_groupsize 2 initial_vcolg_state)) 2
                 (lookup cl) = true.
Proof.
  assert (H1 : forall l, 0 <= l < 2 -> (fun _ : Z => -1) l < l) by (intros l Hl; lia).
  assert (H2 : group_ok (Some [swap01]) (groupsize (set_groupsize 2 initial_vcolg_state)) 2).
  { split; [|reflexivity]. intros p [<-|[]]. exact swap01_perm. }
  assert (H3 : witness_ok (Some [swap01]) 2 (set_groupsize 2 initial_vcolg_state)).
  { cbn. intros Hc. congruence. }
  split; [lia|]. split; [exact H1|]. split; [exact H2|]. split; [exact H3|].
  apply (X8_scan_passes_each_eligible_canonical_colouring_once
           (Some [swap01]) initial_tarjan_state false g2c 2 (fun _ => -1) 0 4 2
           (set_groupsize 2 initial_vcolg_state)); [lia|exact H1|exact H2|exact H3].
Defined.

(** * The recorded components are the strongly connected components *)

Section Reachability.

Variable g : graph.

Lemma reach_edge u w : edge g u w -> reach g u w.
Proof. intros H. eapply reach_step; [exact H|apply reach_refl]. Qed.

Lemma reach_trans u w x : reach g u w -> reach g w x -> reach g u x.
Proof.
  intros H. induction H as [|u w' y He _ IH]; intros Hx; auto.
  eapply reach_step; eauto.
Qed.

Lemma RInv_ext s s' : sccinfos s' = sccinfos s -> currentSCC s' = currentSCC s ->
  RInv g s -> RInv g s'.
Proof.
  intros E1 E2 [H1 H2]. constructor; unfold inscc in *; rewrite E1, E2; auto.
Qed.

End Reachability.

Section SccCorrect.

Variable g : graph.
Variables n b : Z.
Hypothesis Hwf : wf_graph g n.
Hypothesis Hb : b + n <= INT_MAX.

Lemma RLoop_enter v s s1 : SPre g n b v s -> RInv g s -> enter v s = Some s1 ->
  RLoop g n v s [] s1.
Proof.
  intros [Hinv Hnew] R He.
  pose proof Hnew as [Hv Hu].
  pose proof (ti_top _ _ _ _ Hinv) as Htop.
  assert (Hvir : 0 <= vertex_index s + 1 <= INT_MAX).
  { pose proof (ti_base _ _ _ _ Hinv). pose proof (ti_count2 _ _ _ _ Hinv).
    pose proof (nvisited_lt n s v Hnew). destruct Hwf. lia. }
  destruct (enter_fields v s s1 Htop Hvir He) as (Hsl & Hvv & Hother & Hscc & Hcur & _).
  pose proof (ti_fresh _ _ _ _ Hinv) as Hfr.
  constructor.
  - eapply RInv_ext; eauto.
  - intros u [Hur Hun] Hne Hon. rewrite Hother in Hon by auto.
    rewrite (Hfr u Hur Hun) in Hon. discriminate.
  - intros u [Hur Hun] Hvis. destruct (Z.eq_dec u v) as [->|Hne]; [apply reach_refl|].
    unfold visited in Hvis. rewrite Hother in Hvis by auto. contradiction.
  - exists v. split; [now left|]. rewrite Hvv. split; [reflexivity|apply reach_refl].
  - split.
    + intros u y [Hur Hun] Hne Hvis. unfold visited in Hvis.
      rewrite Hother in Hvis by auto. contradiction.
    + intros y [].
Qed.

Lemma RLoop_vchanged v s0 done s s1 :
  RLoop g n v s0 done s -> vchanged v s s1 ->
  lowlink (vinfos s1 v) = lowlink (vinfos s v) -> RLoop g n v s0 done s1.
Proof.
  intros [R Bk Tr Lw [C1 C2]] Hc Hl.
  pose proof Hc as (H1 & H2 & _).
  assert (Hidx := fun u => vchanged_index v s s1 u Hc).
  assert (Hons := fun u => vchanged_onstack v s s1 u Hc).
  assert (Hvis := fun u => vchanged_visited v s s1 u Hc).
  pose proof (vchanged_stack_list v s s1 Hc) as Hsl.
  constructor.
  - eapply RInv_ext; eauto.
  - intros u Hu Hne Ho. rewrite Hons in Ho.
    destruct (Bk u Hu Hne Ho) as (x & X1 & X2 & X3 & X4).
    exists x. rewrite Hsl, !Hidx, Hl. auto.
  - intros u Hu Hv. apply Tr; auto. now apply Hvis.
  - destruct Lw as (x & X1 & X2 & X3). exists x. rewrite Hidx, Hl. auto.
  - split.
    + intros u y Hu Hne Hv He Hy. rewrite Hl, Hidx. apply (C1 u y); auto.
      now apply Hvis.
    + intros y Hy Hy0. rewrite Hl, Hidx. auto.
Qed.

(** A neighbour that has been reached before (lines 486-492). *)
Lemma RLoop_old v s0 done s w s3 :
  SCore g n b v s0 done s -> RLoop g n v s0 done s ->
  edge g v w -> vchanged v s s3 ->
  lowlink (vinfos s3 v) <= lowlink (vinfos s v) ->
  (lowlink (vinfos s3 v) = lowlink (vinfos s v) \/
   (onstack (vinfos s w) = true /\ lowlink (vinfos s3 v) = index (vinfos s w))) ->
  (onstack (vinfos s w) = true -> lowlink (vinfos s3 v) <= index (vinfos s w)) ->
  RLoop g n v s0 (done ++ [w]) s3.
Proof.
  intros C [R Bk Tr Lw [C1 C2]] He Hc Hle Hcase Hon.
  destruct C as [I0 I F Hnew Hvi Hix Hst Hlow Hnil Hfin Hdone Hfirst].
  pose proof Hc as (H1 & H2 & _).
  assert (Hidx := fun u => vchanged_index v s s3 u Hc).
  assert (Hons := fun u => vchanged_onstack v s s3 u Hc).
  assert (Hvis := fun u => vchanged_visited v s s3 u Hc).
  pose proof (vchanged_stack_list v s s3 Hc) as Hsl.
  destruct Hst as (A & HA & HAnew & HAnil).
  destruct Hlow as [L1 L2].
  assert (Hvr : 0 <= v < n) by apply Hnew.
  assert (Hw : 0 <= w < n) by (apply (edge_in_setlist g n Hwf v w Hvr He)).
  assert (Hw0 : forall y, In y (stack_list s0) -> onstack (vinfos s y) = true).
  { intros y Hy. apply (ti_stack_in _ _ _ _ I). rewrite HA.
    apply in_or_app. right. now right. }
  constructor.
  - eapply RInv_ext; eauto.
  - intros u Hu Hne Ho. rewrite Hons in Ho.
    destruct (Bk u Hu Hne Ho) as (x & X1 & X2 & X3 & X4).
    exists x. rewrite Hsl, !Hidx. repeat split; auto. lia.
  - intros u Hu Hv. apply Tr; auto. now apply Hvis.
  - destruct Hcase as [Heq|[Ho Heq]].
    + destruct Lw as (x & X1 & X2 & X3). exists x. rewrite Hidx, Heq. auto.
    + assert (Hin : In w (stack_list s)) by (apply (ti_stack_in _ _ _ _ I); auto).
      rewrite HA in Hin. apply in_app_or in Hin as [Hin|[Hin|Hin]].
      * pose proof (ti_sorted _ _ _ _ I) as Hs. rewrite HA in Hs.
        pose proof (StronglySorted_app_lt _ A (v :: stack_list s0) w v Hs Hin
                      (or_introl eq_refl)) as Hgt.
        simpl in Hgt. lia.
      * subst w. exists v. split; [now left|]. rewrite Hidx.
        split; [auto|apply reach_refl].
      * exists w. split; [now right|]. rewrite Hidx.
        split; [auto|now apply reach_edge].
  - split.
    + intros u y Hu Hne Hv Hedge Hy. rewrite Hidx. apply Hvis in Hv.
      specialize (C1 u y Hu Hne Hv Hedge Hy). lia.
    + intros y Hy Hy0. rewrite Hidx. apply in_app_or in Hy as [Hy|[<-|[]]].
      * specialize (C2 y Hy Hy0). lia.
      * apply Hon. apply Hw0; auto.
Qed.

(** A neighbour reached for the first time (lines 477-485). *)
Lemma RLoop_child v s0 done s1 w s2 s3 :
  SCore g n b v s0 done s1 -> RLoop g n v s0 done s1 -> edge g v w ->
  isnew n s1 w -> SPost g n b w s1 s2 -> RPost g n w s1 s2 ->
  vchanged v s2 s3 ->
  lowlink (vinfos s3 v) = Z.min (lowlink (vinfos s2 v)) (lowlink (vinfos s2 w)) ->
  RLoop g n v s0 (done ++ [w]) s3.
Proof.
  intros C [R Bk Tr Lw [C1 C2]] He Hw P [RP PBk PTr PLw PC] Hc Hmin.
  pose proof (SCore_visited _ _ _ _ _ _ _ C) as Hvis1.
  destruct C as [I0 I F Hnew Hvi Hix Hst Hlow Hnil Hfin Hdone Hfirst].
  destruct P as [PI PF Pvi Pix Pst Plow Pfin Pfirst].
  pose proof Hc as (H1 & H2 & _).
  assert (Hidx := fun u => vchanged_index v s2 s3 u Hc).
  assert (Hons := fun u => vchanged_onstack v s2 s3 u Hc).
  assert (Hvis := fun u => vchanged_visited v s2 s3 u Hc).
  pose proof (vchanged_stack_list v s2 s3 Hc) as Hsl.
  destruct Hst as (A & HA & HAnew & HAnil).
  destruct Hlow as [L1 L2].
  destruct Pst as (A2 & HA2 & HA2new & HA2nil & _).
  destruct Plow as [M1 M2].
  assert (Hold : forall u, visited s1 u -> vinfos s2 u = vinfos s1 u).
  { intros u Hu. apply (fr_vinfo _ _ _ PF). intros [_ ?]. contradiction. }
  assert (Hv21 : vinfos s2 v = vinfos s1 v) by auto.
  assert (Hiv : b <= index (vinfos s1 v) < vertex_index s1).
  { apply (visited_index_lt g n b); auto. apply Hnew. }
  assert (Hst1 : forall x, In x (stack_list s1) -> visited s1 x).
  { intros x Hx. apply (stack_visited g n b s1 x I Hx). }
  assert (Hst0 : forall x, In x (stack_list s0) -> In x (stack_list s1)).
  { intros x Hx. rewrite HA. apply in_or_app. right. now right. }
  assert (Hlow3 : lowlink (vinfos s3 v) <= lowlink (vinfos s1 v) /\
                  lowlink (vinfos s3 v) <= lowlink (vinfos s2 w))
    by (rewrite Hmin, Hv21; lia).
  constructor.
  - eapply RInv_ext; [| |exact RP]; auto.
  - intros u Hu Hne Ho. rewrite Hons in Ho.
    destruct (Z.eq_dec (index (vinfos s1 u)) UNDEFINED) as [Hund|Hv1].
    + assert (Hnew1 : isnew n s1 u) by (destruct Hu; split; auto).
      destruct (Z.eq_dec u w) as [->|Hnw].
      * assert (Hneq : lowlink (vinfos s2 w) <> index (vinfos s2 w)).
        { intros Heq. specialize (HA2nil Heq). subst A2. cbn [app] in HA2.
          assert (Hin : In w (stack_list s2)).
          { apply (ti_stack_in _ _ _ _ PI). split; [apply Hw|auto]. }
          rewrite HA2 in Hin. apply Hst1 in Hin. destruct Hw. contradiction. }
        destruct PLw as (x & [->|Hx] & X2 & X3); [congruence|].
        exists x. rewrite Hsl, HA2, !Hidx. split; [apply in_or_app; now right|].
        split; [lia|]. split; [lia|auto].
      * destruct (PBk u Hnew1 Hnw Ho) as (x & X1 & X2 & X3 & X4).
        exists x. rewrite Hsl, !Hidx. repeat split; auto; lia.
    + assert (Hvu : visited s1 u) by exact Hv1.
      rewrite (Hold u Hvu) in Ho.
      destruct (Bk u Hu Hne Ho) as (x & X1 & X2 & X3 & X4).
      exists x. rewrite Hsl, HA2, !Hidx, (Hold u Hvu), (Hold x (Hst1 x X1)).
      split; [apply in_or_app; now right|]. split; [lia|]. split; [lia|auto].
  - intros u Hu Hv. apply Hvis in Hv.
    destruct (Z.eq_dec (index (vinfos s1 u)) UNDEFINED) as [Hund|Hv1].
    + eapply reach_step; [exact He|]. apply PTr; auto. destruct Hu; split; auto.
    + apply Tr; auto.
  - destruct (Z_le_gt_dec (lowlink (vinfos s1 v)) (lowlink (vinfos s2 w))) as [Hle|Hgt].
    + destruct Lw as (x & X1 & X2 & X3). exists x. split; [auto|].
      rewrite Hidx, Hmin, Hv21, Z.min_l by lia. split; [|auto].
      rewrite Hold; auto. destruct X1 as [->|X1]; auto.
    + destruct PLw as (x & X1 & X2 & X3).
      assert (Hx : In x (stack_list s0)).
      { destruct X1 as [->|X1].
        - rewrite Pix in X2. lia.
        - assert (X2' : index (vinfos s1 x) = lowlink (vinfos s2 w))
            by (rewrite <- (Hold x); auto).
          rewrite HA in X1. apply in_app_or in X1 as [X1|[<-|X1]]; auto.
          + pose proof (ti_sorted _ _ _ _ I) as Hs. rewrite HA in Hs.
            pose proof (StronglySorted_app_lt _ A (v :: stack_list s0) x v Hs X1
                          (or_introl eq_refl)) as Hgt'.
            simpl in Hgt'. lia.
          + lia. }
      exists x. split; [now right|]. rewrite Hidx, Hmin, Hv21, Z.min_r by lia.
      split; [auto|]. eapply reach_step; eauto.
  - split.
    + intros u y Hu Hne Hv Hedge Hy. apply Hvis in Hv. rewrite Hidx.
      assert (Hy1 : index (vinfos s2 y) = index (vinfos s1 y)) by (rewrite Hold; auto).
      destruct (Z.eq_dec (index (vinfos s1 u)) UNDEFINED) as [Hund|Hv1].
      * assert (Hnew1 : isnew n s1 u) by (destruct Hu; split; auto).
        specialize (PC u y Hnew1 Hv Hedge (Hst0 y Hy)). lia.
      * specialize (C1 u y Hu Hne Hv1 Hedge Hy). lia.
    + intros y Hy Hy0. rewrite Hidx. apply in_app_or in Hy as [Hy|[<-|[]]].
      * specialize (C2 y Hy Hy0). rewrite Hold by auto. lia.
      * exfalso. destruct Hw as [_ Hw']. apply (Hst1 w); auto.
Qed.

(** The state after a component has been closed (lines 496-522). *)
Lemma close_closed_shape v s0 s s' :
  SLoop g n b v s0 (setlist (g v)) s ->
  lowlink (vinfos s v) = index (vinfos s v) -> close_scc v s = Some s' ->
  exists A, stack_list s = A ++ v :: stack_list s0 /\
    (forall u, In u A -> isnew n s0 u /\ u <> v) /\
    currentSCC s' = currentSCC s + 1 /\ stack_list s' = stack_list s0 /\
    (forall u, index (vinfos s' u) = index (vinfos s u) /\
               lowlink (vinfos s' u) = lowlink (vinfos s u)) /\
    (forall u, ~ In u (A ++ [v]) -> vinfos s' u = vinfos s u) /\
    (forall i, i <> currentSCC s -> sccinfos s' i = sccinfos s i) /\
    (forall y, inscc s' (currentSCC s) y <-> In y (A ++ [v])).
Proof.
  intros L Heq Hclose.
  destruct L as [C Hdesc Hdin].
  destruct C as [I0 I F Hnew Hvi Hix Hst Hlow Hnil Hfin Hdone Hfirst].
  destruct Hst as (A & HA & HAnew & HAnil).
  pose proof Hwf as [Hn Hrows].
  exists A. split; [exact HA|].
  split; [intros u Hu; destruct (HAnew u Hu) as (? & ? & ?); auto|].
  assert (HXr : forall u, In u (A ++ [v]) -> 0 <= u < n).
  { intros u Hu. apply in_app_or in Hu as [Hu|[<-|[]]]; [apply HAnew; auto|apply Hnew]. }
  assert (HvA : ~ In v A).
  { intros Hin. destruct (HAnew v Hin) as (_ & Hne & _). now apply Hne. }
  assert (Hlen : stack_top s + 1
                 = Z.of_nat (length A) + 1 + Z.of_nat (length (stack_list s0))).
  { pose proof (length_stack_list s) as Hl. rewrite HA, length_app in Hl. simpl in Hl.
    pose proof (ti_top _ _ _ _ I). lia. }
  assert (Hc : 0 <= currentSCC s < n).
  { pose proof (TInv_cur_le g n b Hwf s I). pose proof (ti_cur _ _ _ _ I). lia. }
  assert (Hfresh : sccinfos s (currentSCC s) = fresh_sccinfo)
    by (apply (ti_scc_fresh _ _ _ _ I); lia).
  destruct (pop_scc_spec v (stack_list s0) A s 0 0 (Z.to_nat (stack_top s + 1)))
    as (s1 & desc1 & Hrun & R1 & R2 & R3 & R4 & R5 & R6 & R7 & R8 & R9 & R10
        & R11 & R12 & _); auto.
  { apply (ti_top _ _ _ _ I). }
  { lia. }
  { intros u Hu. specialize (HXr u Hu). unfold MAXN, WORDSIZE in *. lia. }
  destruct (close_fields v s s1 desc1 _ Heq Hrun)
    as (s'' & Hclose' & K1 & K2 & K3 & K4 & K5 & K6 & K7 & K8 & _).
  rewrite Hclose in Hclose'. injection Hclose' as <-.
  rewrite R3 in K5, K7, K8.
  split; [exact K5|].
  split; [unfold stack_list; rewrite K2, K3; exact R1|].
  split; [intros u; rewrite K1; split; apply R7|].
  split; [intros u Hu; rewrite K1; auto|].
  split; [intros i Hi; rewrite K7, R9; auto|].
  intros y. unfold inscc. rewrite K8, R12, Hfresh. simpl. rewrite ISELEMENT_0.
  split; [intros [H|H]; [discriminate|auto]|auto].
Qed.

(** Leaving the call without closing a component. *)
Lemma RPost_open v s0 s :
  SLoop g n b v s0 (setlist (g v)) s -> RLoop g n v s0 (setlist (g v)) s ->
  RPost g n v s0 s.
Proof.
  intros [C _ _] [R Bk Tr Lw [C1 C2]].
  constructor; auto.
  intros u y Hu Hv He Hy. destruct (Z.eq_dec u v) as [->|Hne].
  - apply C2; auto. apply (edge_in_setlist g n Hwf v y); auto. apply Hu.
  - apply (C1 u y); auto.
Qed.

(** Closing the component rooted at [v]: the vertices popped are
    mutually reachable, and no edge leads from them to a vertex that
    stays on the stack. *)
Lemma RPost_closed v s0 s s' :
  SLoop g n b v s0 (setlist (g v)) s -> RLoop g n v s0 (setlist (g v)) s ->
  lowlink (vinfos s v) = index (vinfos s v) -> close_scc v s = Some s' ->
  RPost g n v s0 s'.
Proof.
  intros L RL Heq Hclose.
  destruct (close_closed_shape v s0 s s' L Heq Hclose)
    as (A & HA & HAnew & Ecur & Esl & Eidx & Evin & Escc & EV).
  pose proof (SLoop_finished g n b Hwf v s0 s L) as Hfin.
  destruct (close_spec_closed g n b Hwf v s0 s L Heq) as (s'' & Hc' & P).
  rewrite Hclose in Hc'. injection Hc' as <-.
  destruct RL as [R Bk Tr Lw [C1 C2]].
  destruct L as [C Hdesc Hdin].
  pose proof (SCore_visited _ _ _ _ _ _ _ C) as Hvisv.
  destruct C as [I0 I F Hnew Hvi Hix Hst Hlow Hnil Hfin0 Hdone Hfirst].
  set (X := A ++ [v]) in *.
  assert (HXnew : forall u, In u X -> isnew n s0 u).
  { intros u Hu. apply in_app_or in Hu as [Hu|[<-|[]]]; auto. now apply HAnew. }
  assert (HXstack : forall u, In u X -> In u (stack_list s)).
  { intros u Hu. rewrite HA. apply in_app_or in Hu as [Hu|[<-|[]]];
      apply in_or_app; [now left|right; now left]. }
  assert (HXvis : forall u, In u X -> visited s u).
  { intros u Hu. apply (stack_visited g n b s u I). auto. }
  assert (Hsorted0 : forall x, In x (stack_list s0) ->
             index (vinfos s x) < index (vinfos s v)).
  { intros x Hx. pose proof (ti_sorted _ _ _ _ I) as Hs. rewrite HA in Hs.
    replace (A ++ v :: stack_list s0) with ((A ++ [v]) ++ stack_list s0) in Hs
      by (rewrite <- app_assoc; reflexivity).
    assert (Hv : In v (A ++ [v])) by (apply in_or_app; right; now left).
    pose proof (StronglySorted_app_lt _ _ _ v x Hs Hv Hx) as Hgt.
    simpl in Hgt. lia. }
  assert (Hcases : forall y, In y (stack_list s) -> In y X \/ In y (stack_list s0)).
  { intros y Hy. rewrite HA in Hy. unfold X.
    apply in_app_or in Hy as [Hy|[Hy|Hy]].
    - left. apply in_or_app. now left.
    - left. apply in_or_app. right. now left.
    - now right. }
  assert (Hup : forall k u, In u X ->
            (Z.to_nat (index (vinfos s u) - index (vinfos s v)) <= k)%nat ->
            reach g u v).
  { induction k as [|k IH]; intros u Hu Hk;
      (destruct (Z.eq_dec u v) as [->|Hne]; [apply reach_refl|]);
      (assert (Hon : onstack (vinfos s u) = true)
         by (apply (ti_stack_in _ _ _ _ I); auto));
      destruct (Bk u (HXnew u Hu) Hne Hon) as (x & X1 & X2 & X3 & X4);
      (destruct (Hcases x X1) as [HxX|Hx0];
         [|pose proof (Hsorted0 x Hx0); lia]).
    - lia.
    - apply reach_trans with x; auto. apply IH; auto. lia. }
  assert (Hkeep : forall j, 0 <= j < currentSCC s ->
            forall y, inscc s j y -> inscc s' j y).
  { intros j Hj y Hy. unfold inscc in *. rewrite Escc by lia. auto. }
  constructor.
  - constructor.
    + intros i u u' Hi Hu Hu'. rewrite Ecur in Hi.
      destruct (Z.eq_dec i (currentSCC s)) as [->|Hne].
      * apply EV in Hu, Hu'. apply reach_trans with v.
        -- apply (Hup _ u Hu (Nat.le_refl _)).
        -- apply Tr; auto.
      * unfold inscc in Hu, Hu'. rewrite Escc in Hu, Hu' by auto.
        apply (ri_conn _ _ R i); auto. lia.
    + intros i u w Hi Hu He. rewrite Ecur in Hi.
      destruct (Z.eq_dec i (currentSCC s)) as [->|Hne].
      * apply EV in Hu.
        assert (Hur : 0 <= u < n) by (apply HXnew; auto).
        destruct (edge_in_setlist g n Hwf u w Hur He) as [Hin Hwr].
        destruct (Hfin u (HXnew u Hu) (HXvis u Hu)) as [_ Hall].
        specialize (Hall w He).
        destruct (onstack (vinfos s w)) eqn:Ho.
        -- assert (Hws : In w (stack_list s)) by (apply (ti_stack_in _ _ _ _ I); auto).
           destruct (Hcases w Hws) as [HwX|Hw0].
           ++ exists (currentSCC s). split; [lia|]. now apply EV.
           ++ exfalso. pose proof (Hsorted0 w Hw0).
              assert (lowlink (vinfos s v) <= index (vinfos s w)).
              { destruct (Z.eq_dec u v) as [->|Hnv].
                - apply C2; auto.
                - apply (C1 u w); auto. }
              lia.
        -- destruct (proj2 (ti_scc_part _ _ _ _ I w Hwr)) as (j & Hj & Hjw);
             [split; auto|].
           exists j. split; [lia|]. apply Hkeep; auto.
      * unfold inscc in Hu. rewrite Escc in Hu by auto.
        destruct (ri_down _ _ R i u w) as (j & Hj & Hjw); auto; [lia|].
        exists j. split; [lia|]. apply Hkeep; auto. lia.
  - intros u Hu Hne Ho. exfalso.
    assert (Hin : In u (stack_list s')).
    { apply (ti_stack_in _ _ _ _ (sp_inv _ _ _ _ _ _ P)). split; [apply Hu|auto]. }
    rewrite Esl in Hin. destruct (stack_visited g n b s0 u I0 Hin) as [_ Hv0].
    destruct Hu. contradiction.
  - intros u Hu Hv. apply Tr; auto. unfold visited in *.
    now rewrite <- (proj1 (Eidx u)).
  - exists v. split; [now left|]. split; [|apply reach_refl].
    rewrite (proj1 (Eidx v)), (proj2 (Eidx v)). auto.
  - intros u y Hu Hv He Hy. rewrite (proj2 (Eidx v)), (proj1 (Eidx y)).
    assert (Hv' : visited s u) by (unfold visited in *; now rewrite <- (proj1 (Eidx u))).
    destruct (Z.eq_dec u v) as [->|Hne].
    + apply C2; auto. apply (edge_in_setlist g n Hwf v y); auto. apply Hu.
    + apply (C1 u y); auto.
Qed.

(** One turn of the neighbour loop (lines 476-492). *)
Lemma visit_edge_reach fuel v s0 done w s s' :
  (forall w s s', SPre g n b w s -> RInv g s ->
     (Z.to_nat (n - (vertex_index s - b)) < fuel)%nat ->
     strongconnect fuel g w s = Some s' -> RPost g n w s s') ->
  (Z.to_nat (n - (vertex_index s0 - b)) < S fuel)%nat ->
  SLoop g n b v s0 done s -> RLoop g n v s0 done s -> In w (setlist (g v)) ->
  visit_edge (strongconnect fuel g) v w s = Some s' ->
  RLoop g n v s0 (done ++ [w]) s'.
Proof.
  intros IH Hm [C Hdesc Hdin] RL Hin Hrun.
  assert (Hvr : 0 <= v < n) by (apply (sl_new _ _ _ _ _ _ _ C)).
  assert (He : edge g v w) by (apply In_setlist in Hin; apply Hin).
  assert (Hw : 0 <= w < n) by (apply (edge_in_setlist g n Hwf v w Hvr He)).
  unfold visit_edge in Hrun. cbv zeta in Hrun.
  set (s1 := set_descendents v (ADDELEMENT (descendents (vinfos s v)) w) s) in *.
  assert (Hl1 : lowlink (vinfos s1 v) = lowlink (vinfos s v)).
  { unfold s1, set_descendents, set_vinfo. cbn [vinfos]. now rewrite upd_same. }
  assert (C1 : SCore g n b v s0 done s1).
  { eapply SCore_vchanged; eauto. apply vchanged_set_descendents. }
  assert (RL1 : RLoop g n v s0 done s1).
  { eapply RLoop_vchanged; eauto. apply vchanged_set_descendents. }
  clearbody s1. revert Hrun.
  destruct (Z.eqb_spec (index (vinfos s1 w)) UNDEFINED) as [Hund|Hvisw].
  - intros Hrun.
    assert (Hnew : isnew n s1 w) by (split; auto).
    assert (Hpre : SPre g n b w s1) by (split; auto; apply (sl_inv _ _ _ _ _ _ _ C1)).
    assert (Hm1 : (Z.to_nat (n - (vertex_index s1 - b)) < fuel)%nat).
    { pose proof (sl_vi _ _ _ _ _ _ _ C1).
      pose proof (ti_count2 _ _ _ _ (sl_inv0 _ _ _ _ _ _ _ C1)).
      pose proof (nvisited_lt n s0 v (sl_new _ _ _ _ _ _ _ C1)). lia. }
    destruct (strongconnect_spec g n b Hwf Hb fuel w s1 Hpre Hm1) as (s2 & Hrun2 & P).
    rewrite Hrun2 in Hrun. cbn [obind] in Hrun. injection Hrun as <-.
    assert (RP : RPost g n w s1 s2).
    { apply (IH w s1 s2); auto. apply (rl_inv _ _ _ _ _ _ RL1). }
    destruct (Z.gtb_spec (lowlink (vinfos s2 v)) (lowlink (vinfos s2 w))) as [Hgt|Hle].
    + eapply RLoop_child; eauto; [apply vchanged_set_lowlink|].
      unfold set_lowlink, set_vinfo. cbn [vinfos]. rewrite upd_same. cbn [lowlink]. lia.
    + eapply RLoop_child; eauto; [apply vchanged_refl|]. lia.
  - destruct (onstack (vinfos s1 w)) eqn:Hon;
      [destruct (Z.gtb_spec (lowlink (vinfos s1 v)) (index (vinfos s1 w))) as [Hgt|Hle]|];
      intros Hrun; injection Hrun as <-.
    + eapply RLoop_old; eauto; try apply vchanged_set_lowlink;
        unfold set_lowlink, set_vinfo; cbn [vinfos]; rewrite upd_same;
        cbn [lowlink]; try lia; try (right; split; auto); try (intros _; lia).
    + eapply RLoop_old; eauto; try apply vchanged_refl; try lia;
        try (intros _; lia).
    + eapply RLoop_old; eauto; try apply vchanged_refl; try lia;
        try (intros Hc; congruence).
Qed.

Lemma neighbour_loop_reach fuel v s0 :
  (forall w s s', SPre g n b w s -> RInv g s ->
     (Z.to_nat (n - (vertex_index s - b)) < fuel)%nat ->
     strongconnect fuel g w s = Some s' -> RPost g n w s s') ->
  (Z.to_nat (n - (vertex_index s0 - b)) < S fuel)%nat ->
  forall rest done s s', SLoop g n b v s0 done s -> RLoop g n v s0 done s ->
  setlist (g v) = done ++ rest ->
  ofold (visit_edge (strongconnect fuel g) v) rest s = Some s' ->
  SLoop g n b v s0 (setlist (g v)) s' /\ RLoop g n v s0 (setlist (g v)) s'.
Proof.
  intros IH Hm. induction rest as [|w rest IHr]; intros done s s' L RL Hsplit Hrun.
  - cbn [ofold] in Hrun. injection Hrun as <-. rewrite Hsplit, app_nil_r. auto.
  - assert (Hin : In w (setlist (g v))).
    { rewrite Hsplit. apply in_or_app. right. now left. }
    destruct (visit_edge_spec g n b Hwf fuel v s0 done w s) as (s1 & Hrun1 & L1); auto.
    { intros w0 s2 Hp Hf. apply (strongconnect_spec g n b Hwf Hb); auto. }
    cbn [ofold] in Hrun. rewrite Hrun1 in Hrun. cbn [obind] in Hrun.
    apply (IHr (done ++ [w]) s1 s'); auto.
    + eapply visit_edge_reach; eauto.
    + rewrite Hsplit, <- app_assoc. reflexivity.
Qed.

Lemma strongconnect_unfold fuel v s :
  strongconnect (S fuel) g v s
  = (s1 <- enter v s ;;
     s2 <- ofold (visit_edge (strongconnect fuel g) v) (setlist (g v)) s1 ;;
     close_scc v s2).
Proof.
  cbn [strongconnect]. destruct (enter v s) as [s1|]; [|reflexivity].
  cbn [obind]. now rewrite foreach_setlist.
Qed.

(** A call of [strongconnect] keeps the recorded components strongly
    connected and closed under edges towards earlier ones. *)
Lemma strongconnect_reach : forall fuel v s s',
  SPre g n b v s -> RInv g s ->
  (Z.to_nat (n - (vertex_index s - b)) < fuel)%nat ->
  strongconnect fuel g v s = Some s' -> RPost g n v s s'.
Proof.
  induction fuel as [|fuel IH]; intros v s s' Hpre R Hm Hrun; [lia|].
  destruct (enter_spec g n b Hwf Hb v s Hpre) as (s1 & He & L).
  rewrite strongconnect_unfold, He in Hrun.
  assert (RL : RLoop g n v s [] s1) by (eapply RLoop_enter; eauto).
  destruct (neighbour_loop_spec g n b Hwf fuel v s
              (strongconnect_spec g n b Hwf Hb fuel) Hm (setlist (g v)) [] s1 L
              (eq_sym (app_nil_l (setlist (g v))))) as (s2 & Hloop & _).
  destruct (neighbour_loop_reach fuel v s IH Hm (setlist (g v)) [] s1 s2 L RL
              (eq_sym (app_nil_l (setlist (g v)))) Hloop) as [L2 RL2].
  assert (Hc : close_scc v s2 = Some s').
  { rewrite <- Hrun. unfold obind. now rewrite Hloop. }
  clear Hrun.
  destruct (Z.eq_dec (lowlink (vinfos s2 v)) (index (vinfos s2 v))) as [Heq|Hneq].
  - exact (RPost_closed v s s2 s' L2 RL2 Heq Hc).
  - destruct (close_spec_open g n b Hwf v s s2 L2 Hneq) as [Hc' _].
    rewrite Hc' in Hc. injection Hc as <-. exact (RPost_open v s s2 L2 RL2).
Qed.

Lemma tarjan_loop_reach l : forall s s',
  TInv g n b s -> RInv g s -> stack_list s = [] ->
  (forall u, In u l -> 0 <= u < n) ->
  ofold (fun v s => if index (vinfos s v) =? UNDEFINED
                    then strongconnect (S (Z.to_nat n)) g v s else Some s) l s
    = Some s' ->
  RInv g s'.
Proof.
  induction l as [|v l IH]; intros s s' I R Hsl Hl Hrun.
  - cbn [ofold] in Hrun. now injection Hrun as <-.
  - cbn [ofold] in Hrun.
    assert (Hv : 0 <= v < n) by (apply Hl; now left).
    destruct (tarjan_loop_spec g n Hwf b [v] Hb s I Hsl) as (s1 & Hrun1 & I1 & Hsl1 & _).
    { intros u [<-|[]]. auto. }
    cbn [ofold] in Hrun1.
    destruct (if index (vinfos s v) =? UNDEFINED
              then strongconnect (S (Z.to_nat n)) g v s else Some s)
      as [s1'|] eqn:E; [|discriminate].
    cbn [obind] in Hrun, Hrun1. injection Hrun1 as ->.
    apply (IH s1 s'); auto.
    + destruct (Z.eqb_spec (index (vinfos s v)) UNDEFINED) as [Hu|Hvis].
      * apply (rp_inv g n v s s1).
        apply (strongconnect_reach (S (Z.to_nat n)) v s s1); auto.
        -- split; auto. split; auto.
        -- pose proof (ti_base _ _ _ _ I). lia.
      * now injection E as <-.
    + intros u Hu. apply Hl. now right.
Qed.

(** From a recorded component, paths lead only to components recorded
    no later. *)
Lemma reach_down s u w : RInv g s -> reach g u w ->
  forall i, 0 <= i < currentSCC s -> inscc s i u ->
  exists j, 0 <= j <= i /\ inscc s j w.
Proof.
  intros R H. induction H as [u|u w' y He _ IH]; intros i Hi Hu.
  - exists i. split; [lia|auto].
  - destruct (ri_down _ _ R i u w' Hi Hu He) as (j & Hj & Hw).
    destruct (IH j ltac:(lia) Hw) as (k & Hk & Hy).
    exists k. split; [lia|auto].
Qed.

End SccCorrect.

(** After [tarjan] the recorded components satisfy the reachability
    invariant. *)
Lemma tarjan_RInv g n s t :
  wf_graph g n -> 0 <= vertex_index s -> vertex_index s + n <= INT_MAX ->
  tarjan g n s = Some t -> RInv g t.
Proof.
  intros Hwf H0 Hmax Hrun.
  destruct (tarjan_reset_fields n s) as (E1 & E2 & _).
  apply (tarjan_loop_reach g n (vertex_index s) Hwf Hmax (range n)
           (tarjan_reset n s) t).
  - now apply tarjan_reset_TInv.
  - constructor; intros i u w Hi; rewrite E2 in Hi; lia.
  - unfold stack_list. rewrite E1. reflexivity.
  - intros u Hu. now apply In_range.
  - exact Hrun.
Qed.

(** X9: [tarjan] computes the strongly connected components.  Two
    vertices lie in the same recorded component exactly when each can be
    reached from the other along edges of the digraph; and the
    components are recorded in reverse topological order: an edge never
    leads from a component to one recorded after it. *)
Theorem X9_components_are_the_strongly_connected_components g n s :
  wf_graph g n -> 0 <= vertex_index s -> vertex_index s + n <= INT_MAX ->
  exists t, tarjan g n s = Some t /\
    (forall u w, 0 <= u < n -> 0 <= w < n ->
       ((exists i, 0 <= i < currentSCC t /\ inscc t i u /\ inscc t i w) <->
        (reach g u w /\ reach g w u))) /\
    (forall i j u w, 0 <= i < currentSCC t -> 0 <= j < currentSCC t ->
       inscc t i u -> inscc t j w -> edge g u w -> j <= i).
Proof.
  intros Hwf H0 Hmax.
  destruct (tarjan_spec g n Hwf s H0 Hmax) as (t & Hrun & I & Hsl & Hall).
  exists t. split; [exact Hrun|].
  pose proof (tarjan_RInv g n s t Hwf H0 Hmax Hrun) as R.
  split.
  - intros u w Hu Hw. split.
    + intros (i & Hi & Hiu & Hiw). split; apply (ri_conn _ _ R i); auto.
    + intros [Huw Hwu].
      destruct (tarjan_member g n Hwf s t u H0 Hmax Hrun Hu) as (i & Hi & Hiu).
      destruct (reach_down g t u w R Huw i Hi Hiu) as (j & Hj & Hjw).
      destruct (reach_down g t w u R Hwu j ltac:(lia) Hjw) as (k & Hk & Hku).
      assert (k = i) by (apply (ti_scc_disj _ _ _ _ I k i u); auto; lia).
      assert (j = i) by lia. subst j. exists i. auto.
  - intros i j u w Hi Hj Hiu Hjw He.
    destruct (ri_down _ _ R i u w Hi Hiu He) as (j' & Hj' & Hj'w).
    assert (j' = j) by (apply (ti_scc_disj _ _ _ _ I j' j w); auto; lia).
    lia.
Qed.

Lemma X9_witness :
  wf_graph g2c 2 /\ 0 <= vertex_index initial_tarjan_state /\
  vertex_index initial_tarjan_state + 2 <= INT_MAX /\
  exists t, tarjan g2c 2 initial_tarjan_state = Some t /\
    (forall u w, 0 <= u < 2 -> 0 <= w < 2 ->
       ((exists i, 0 <= i < currentSCC t /\ inscc t i u /\ inscc t i w) <->
        (reach g2c u w /\ reach g2c w u))) /\
    (forall i j u w, 0 <= i < currentSCC t -> 0 <= j < currentSCC t ->
       inscc t i u -> inscc t j w -> edge g2c u w -> j <= i).
Proof.
  assert (H0 : 0 <= vertex_index initial_tarjan_state) by (cbn; lia).
  assert (H1 : vertex_index initial_tarjan_state + 2 <= INT_MAX)
    by (cbn; unfold INT_MAX; lia).
  split; [exact wf_g2c|]. split; [exact H0|]. split; [exact H1|].
  exact (X9_components_are_the_strongly_connected_components g2c 2
           initial_tarjan_state wf_g2c H0 H1).
Defined.

(** * The front end of [main] *)

Section MainFacts.

Import Ascii String.

Variable strtol : string -> Z.
Variable nauty : oracle.
Variable opengraphfile : string -> option (list (graph * Z)).

Lemma parse_args_stop args o : badargs o = true -> parse_args strtol args o = o.
Proof. intros H. destruct args; cbn [parse_args]; [reflexivity|now rewrite H]. Qed.

Lemma parse_arg_bad arg o : bad_arg strtol arg = true ->
  badargs (parse_arg strtol arg o) = true.
Proof.
  unfold bad_arg, parse_arg, is_switch.
  destruct (Ascii.eqb (char_at arg 0) "-").
  - destruct (Ascii.eqb (char_at arg 1) "q"); [discriminate|].
    destruct (Ascii.eqb (char_at arg 1) "d"); [discriminate|].
    destruct (Ascii.eqb (char_at arg 1) "l"); [discriminate|]. reflexivity.
  - cbv zeta. cbn [badargs]. now intros ->.
Qed.

Lemma parse_arg_ok arg o : bad_arg strtol arg = false -> badargs o = false ->
  parse_arg strtol arg o
  = mkoptions (qswitch o || switch_is switch_q arg) (dswitch o || switch_is switch_d arg)
              (lswitch o || switch_is switch_l arg)
              (if is_switch arg then countN o else strtol arg) false.
Proof.
  unfold bad_arg, parse_arg, switch_is, is_switch, switch_q, switch_d, switch_l.
  intros Hbad Ho.
  destruct (Ascii.eqb (char_at arg 0) "-"); cbn [andb].
  - destruct (Ascii.eqb_spec (char_at arg 1) "q") as [->|Hq].
    { cbn. now rewrite Ho, !orb_false_r, orb_true_r. }
    destruct (Ascii.eqb_spec (char_at arg 1) "d") as [->|Hd].
    { cbn. now rewrite Ho, !orb_false_r, orb_true_r. }
    destruct (Ascii.eqb_spec (char_at arg 1) "l") as [El|Hl].
    { cbn. now rewrite Ho, !orb_false_r, orb_true_r. }
    discriminate.
  - cbv zeta. rewrite Hbad, Ho, !orb_false_r. reflexivity.
Qed.

Lemma parse_args_bad args : forall o, badargs o = false ->
  existsb (bad_arg strtol) args = true ->
  badargs (parse_args strtol args o) = true.
Proof.
  induction args as [|arg args IH]; intros o Ho Hex; [discriminate|].
  cbn [parse_args existsb] in *. rewrite Ho.
  destruct (bad_arg strtol arg) eqn:Hb.
  - rewrite parse_args_stop; now apply parse_arg_bad.
  - rewrite (parse_arg_ok arg o Hb Ho). apply IH; auto.
Qed.

Lemma parse_args_ok args : forall o, badargs o = false ->
  existsb (bad_arg strtol) args = false ->
  parse_args strtol args o
  = mkoptions (qswitch o || has_switch switch_q args)
              (dswitch o || has_switch switch_d args)
              (lswitch o || has_switch switch_l args)
              (fold_left (fun z arg => if is_switch arg then z else strtol arg)
                         args (countN o))
              false.
Proof.
  unfold has_switch.
  induction args as [|arg args IH]; intros o Ho Hex.
  - cbn. rewrite !orb_false_r, <- Ho. now destruct o.
  - cbn [parse_args existsb fold_left] in *. rewrite Ho.
    apply orb_false_iff in Hex. destruct Hex as [Hb Hex].
    rewrite (parse_arg_ok arg o Hb Ho), IH by auto.
    cbn [qswitch dswitch lswitch countN]. now rewrite !orb_assoc.
Qed.

Lemma last_count_nonneg args : existsb (bad_arg strtol) args = false ->
  forall z, 0 <= z ->
  0 <= fold_left (fun z arg => if is_switch arg then z else strtol arg) args z.
Proof.
  induction args as [|arg args IH]; intros Hex z Hz; [exact Hz|].
  cbn [existsb fold_left] in *. apply orb_false_iff in Hex. destruct Hex as [Hb Hex].
  apply IH; auto. unfold bad_arg in Hb. destruct (is_switch arg); [exact Hz|].
  apply Z.leb_gt in Hb. lia.
Qed.

(** While the number has at most two digits the name built is the
    intended one. *)
Lemma infilename_small l i : 0 <= i < 100 -> infilename l i = Some (dig_name l i).
Proof.
  intros Hi.
  assert (H : forallb (fun k => match infilename l (Z.of_nat k) with
                                | Some nm => String.eqb nm (dig_name l (Z.of_nat k))
                                | None => false
                                end) (seq 0 100) = true)
    by (destruct l; vm_compute; reflexivity).
  rewrite forallb_forall in H. specialize (H (Z.to_nat i)).
  rewrite Z2Nat.id in H by lia.
  destruct (infilename l i) as [nm|].
  - f_equal. apply String.eqb_eq. apply H. apply in_seq. lia.
  - discriminate H. apply in_seq. lia.
Qed.

Lemma total_vertices_app a c :
  total_vertices (a ++ c) = total_vertices a + total_vertices c.
Proof.
  unfold total_vertices. induction a as [|x a IH]; cbn [app fold_right]; [lia|].
  rewrite IH. lia.
Qed.

Lemma graph_effect_written_off g n o :
  snd (fst (graph_effect nauty false g n o)) = snd (fst o).
Proof.
  unfold graph_effect.
  destruct (colour_effect_replay nauty (reference_scc g n) false g 0 0 NOLIMIT 2 n
              (fun _ => 0) o) as (cls & ->).
  apply replay_written_off.
Qed.

Lemma graphs_effect_written_off gs : forall o,
  snd (fst (fold_left (fun o gn => graph_effect nauty false (fst gn) (snd gn) o) gs o))
  = snd (fst o).
Proof.
  induction gs as [|[g n] gs IH]; intros o; cbn [fold_left fst snd]; [reflexivity|].
  rewrite IH. apply graph_effect_written_off.
Qed.

(** One input file, with what happens to stdout. *)
Lemma process_file_run q d gs st err :
  Forall (input_ok nauty) gs ->
  0 <= vertex_index (tj st) -> vertex_index (tj st) + total_vertices gs <= INT_MAX ->
  exists st',
    process_file nauty q d gs (st, err)
    = Some (st', if q then err
                 else err ++ [totalCount (vc st) + total_count nauty gs]) /\
    totalCount (vc st') = 0 /\
    vertex_index (tj st') = vertex_index (tj st) + total_vertices gs /\
    (d = false -> written (vc st') = written (vc st)).
Proof.
  intros Hall H0 H1.
  destruct (process_graphs_effect nauty d gs st Hall H0 H1) as (st1 & E & V & O).
  destruct (process_file_effect nauty q d gs st err Hall H0 H1) as (st' & E' & T & V').
  exists st'. split; [exact E'|]. split; [exact T|]. split; [exact V'|].
  intros ->. unfold process_file in E'. rewrite E in E'. cbn [obind] in E'.
  injection E' as <- _. cbn [vc set_totalCount written].
  pose proof (graphs_effect_written_off gs (obs_of (vc st))) as H.
  rewrite <- O in H. exact H.
Qed.

(** The loop over the files: it reads the files that exist, in order,
    and leaves with status 1 at the first one that cannot be opened. *)
Lemma file_loop_spec o : forall fs cnt i st err,
  (List.length fs <= cnt)%nat ->
  (forall j, (j < List.length fs)%nat ->
     exists name, infilename (lswitch o) (i + Z.of_nat j) = Some name /\
                  opengraphfile name = Some (nth j fs [])) ->
  ((List.length fs < cnt)%nat ->
     exists name, infilename (lswitch o) (i + Z.of_nat (List.length fs)) = Some name /\
                  opengraphfile name = None) ->
  Forall (Forall (input_ok nauty)) fs ->
  0 <= vertex_index (tj st) ->
  vertex_index (tj st) + total_vertices (List.concat fs) <= INT_MAX ->
  totalCount (vc st) = 0 ->
  exists st',
    file_loop nauty opengraphfile cnt i o (st, err)
    = Some (if (List.length fs =? cnt)%nat then 0 else 1,
            (st', if qswitch o then err else err ++ map (total_count nauty) fs)) /\
    (dswitch o = false -> written (vc st') = written (vc st)).
Proof.
  induction fs as [|gs fs IH]; intros cnt i st err Hlen Hfiles Hnext Hall H0 H1 Hz.
  - destruct cnt as [|c].
    + exists st. cbn. rewrite app_nil_r. split; [now destruct (qswitch o)|auto].
    + destruct Hnext as (name & Hn & Ho); [cbn; lia|].
      cbn [List.length] in Hn. rewrite Z.add_0_r in Hn.
      exists st. cbn [file_loop]. rewrite Hn. cbn [obind]. rewrite Ho.
      cbn. rewrite app_nil_r. split; [now destruct (qswitch o)|auto].
  - destruct cnt as [|c]; [cbn in Hlen; lia|].
    destruct (Hfiles 0%nat) as (name & Hn & Ho); [cbn; lia|].
    rewrite Z.add_0_r in Hn. cbn [nth] in Ho.
    inversion Hall as [|? ? Hgs Hrest]; subst.
    cbn [List.concat] in H1. rewrite total_vertices_app in H1.
    assert (Hpos : 0 <= total_vertices (List.concat fs)).
    { apply (total_vertices_nonneg nauty). apply Forall_concat. exact Hrest. }
    assert (Hpos1 : 0 <= total_vertices gs) by (apply (total_vertices_nonneg nauty); auto).
    destruct (process_file_run (qswitch o) (dswitch o) gs st err Hgs H0)
      as (st1 & E1 & T1 & V1 & W1); [lia|].
    destruct (IH c (i + 1) st1
                (if qswitch o then err
                 else err ++ [totalCount (vc st) + total_count nauty gs]))
      as (st' & E' & W'); auto.
    + cbn in Hlen. lia.
    + intros j Hj. destruct (Hfiles (S j)) as (nm & A & B); [cbn; lia|].
      exists nm. split; [|exact B].
      replace (i + 1 + Z.of_nat j) with (i + Z.of_nat (S j)) by lia. exact A.
    + intros Hlt. destruct Hnext as (nm & A & B); [cbn; lia|].
      exists nm. split; [|exact B].
      replace (i + 1 + Z.of_nat (List.length fs))
        with (i + Z.of_nat (List.length (gs :: fs))) by (cbn [List.length]; lia).
      exact A.
    + lia.
    + lia.
    + exists st'. cbn [file_loop]. rewrite Hn. cbn [obind]. rewrite Ho, E1.
      cbn [obind]. rewrite E'. split.
      * cbn [List.length Nat.eqb map]. destruct (qswitch o); [reflexivity|].
        rewrite Hz, <- app_assoc. reflexivity.
      * intros Hd. rewrite (W' Hd). auto.
Qed.

End MainFacts.

(** X10: in a run that gets past the help and version checks of line
    549, a switch other than [-q], [-d], [-l], or a vertex count that is
    not positive, anywhere among the arguments, ends the run with status
    1 after the usage message; no file is read, no total is printed and
    nothing is written, whatever the other arguments are. *)
Theorem X10_bad_argument_stops_the_run strtol nauty opengraphfile args :
  existsb (bad_arg strtol) args = true ->
  main strtol nauty opengraphfile args = Some (mkrun 1 true [] []).
Proof.
  intros H. unfold main. cbv zeta.
  rewrite (parse_args_bad strtol args (mkoptions false false false 0 false) eq_refl H).
  reflexivity.
Qed.

Lemma X10_witness :
  existsb (bad_arg strtol_digit) args_x = true /\
  main strtol_digit trivial_oracle one_file args_x = Some (mkrun 1 true [] []).
Proof.
  assert (H : existsb (bad_arg strtol_digit) args_x = true) by (vm_compute; reflexivity).
  split; [exact H|].
  exact (X10_bad_argument_stops_the_run strtol_digit trivial_oracle one_file args_x H).
Defined.

(** X11: in a run that gets past the help and version checks of line
    549, with acceptable arguments and a vertex count [N <= 100], the
    file of index [N - 1] is read and no other; without a vertex count
    the files of index 1 to 9 are read in turn; the file names are
    [dig<i>.d6], or [digl<i>.d6] under [-l].  It stops with status 1 at the first file
    that cannot be opened and ends with status 0 otherwise.  For each
    file read it prints one total, the sum of the counts of the file's
    digraphs, and under [-q] it prints none; without [-d] it writes
    nothing. *)
Theorem X11_main_reads_the_files_in_order strtol nauty opengraphfile args fs :
  existsb (bad_arg strtol) args = false ->
  last_count strtol args <= 100 ->
  (length fs <= turns strtol args)%nat ->
  (forall j, (j < length fs)%nat ->
     opengraphfile (dig_name (has_switch switch_l args)
                             (first_index strtol args + Z.of_nat j))
     = Some (nth j fs [])) ->
  ((length fs < turns strtol args)%nat ->
     opengraphfile (dig_name (has_switch switch_l args)
                             (first_index strtol args + Z.of_nat (length fs)))
     = None) ->
  Forall (Forall (input_ok nauty)) fs ->
  total_vertices (concat fs) <= INT_MAX ->
  exists out,
    main strtol nauty opengraphfile args
    = Some (mkrun (if (length fs =? turns strtol args)%nat then 0 else 1) false
                  (if has_switch switch_q args then []
                   else map (total_count nauty) fs)
                  out) /\
    (has_switch switch_d args = false -> out = []).
Proof.
  intros Hok HN Hlen Hfiles Hnext Hall Hv.
  unfold main. cbv zeta.
  rewrite (parse_args_ok strtol args (mkoptions false false false 0 false) eq_refl Hok).
  cbn [badargs countN qswitch dswitch lswitch orb].
  pose proof (last_count_nonneg strtol args Hok 0 ltac:(lia)) as Hpos.
  fold (last_count strtol args) in Hpos |- *.
  set (N := last_count strtol args) in *.
  set (o := mkoptions (has_switch switch_q args) (has_switch switch_d args)
                      (has_switch switch_l args) N false).
  assert (Hcnt : Z.to_nat ((if N =? 0 then 10 else wrap_int N)
                           - (if N =? 0 then 1 else wrap_int (N - 1)))
                 = turns strtol args /\
                 (if N =? 0 then 1 else wrap_int (N - 1)) = first_index strtol args).
  { unfold turns, first_index. fold N. destruct (Z.eqb_spec N 0); [split; reflexivity|].
    rewrite !wrap_int_small by (unfold INT_MAX; lia). split; [lia|reflexivity]. }
  destruct Hcnt as [-> ->].
  assert (Hrange : forall j, (j <= length fs)%nat -> (j < turns strtol args)%nat ->
            0 <= first_index strtol args + Z.of_nat j < 100).
  { unfold turns, first_index. fold N. intros j Hj.
    destruct (Z.eqb_spec N 0); intros Hj'; lia. }
  destruct (file_loop_spec nauty opengraphfile o fs (turns strtol args)
              (first_index strtol args) initial_globals [] Hlen)
    as (st' & E & W).
  - intros j Hj. eexists. split; [|apply Hfiles; exact Hj].
    apply infilename_small. apply Hrange; lia.
  - intros Hlt. eexists. split; [|apply Hnext; exact Hlt].
    apply infilename_small. apply Hrange; lia.
  - exact Hall.
  - cbn. lia.
  - cbn [initial_globals tj initial_tarjan_state vertex_index]. lia.
  - reflexivity.
  - rewrite E. cbn [obind]. exists (written (vc st')).
    split; [reflexivity|]. intros Hd. rewrite (W Hd). reflexivity.
Qed.

Lemma X11_witness :
  existsb (bad_arg strtol_digit) args_q3 = false /\
  last_count strtol_digit args_q3 <= 100 /\
  (length [[(g01, 2)]] <= turns strtol_digit args_q3)%nat /\
  (forall j, (j < length [[(g01, 2)]])%nat ->
     one_file (dig_name (has_switch switch_l args_q3)
                        (first_index strtol_digit args_q3 + Z.of_nat j))
     = Some (nth j [[(g01, 2)]] [])) /\
  ((length [[(g01, 2)]] < turns strtol_digit args_q3)%nat ->
     one_file (dig_name (has_switch switch_l args_q3)
                        (first_index strtol_digit args_q3
                         + Z.of_nat (length [[(g01, 2)]])))
     = None) /\
  Forall (Forall (input_ok trivial_oracle)) [[(g01, 2)]] /\
  total_vertices (concat [[(g01, 2)]]) <= INT_MAX /\
  exists out,
    main strtol_digit trivial_oracle one_file args_q3
    = Some (mkrun (if (length [[(g01, 2)]] =? turns strtol_digit args_q3)%nat
                   then 0 else 1) false
                  (if has_switch switch_q args_q3 then []
                   else map (total_count trivial_oracle) [[(g01, 2)]])
                  out) /\
    (has_switch switch_d args_q3 = false -> out = []).
Proof.
  assert (H1 : existsb (bad_arg strtol_digit) args_q3 = false) by (vm_compute; reflexivity).
  assert (H2 : last_count strtol_digit args_q3 <= 100) by (vm_compute; discriminate).
  assert (H3 : (length [[(g01, 2)]] <= turns strtol_digit args_q3)%nat)
    by (vm_compute; constructor).
  assert (H4 : forall j, (j < length [[(g01, 2)]])%nat ->
     one_file (dig_name (has_switch switch_l args_q3)
                        (first_index strtol_digit args_q3 + Z.of_nat j))
     = Some (nth j [[(g01, 2)]] [])).
  { intros j Hj. assert (j = 0%nat) by (cbn in Hj; lia). subst j.
    vm_compute. reflexivity. }
  assert (H5 : (length [[(g01, 2)]] < turns strtol_digit args_q3)%nat ->
     one_file (dig_name (has_switch switch_l args_q3)
                        (first_index strtol_digit args_q3
                         + Z.of_nat (length [[(g01, 2)]])))
     = None).
  { intros _. vm_compute. reflexivity. }
  assert (H6 : Forall (Forall (input_ok trivial_oracle)) [[(g01, 2)]]).
  { constructor; [|constructor]. constructor; [exact input_ok_g01|constructor]. }
  assert (H7 : total_vertices (concat [[(g01, 2)]]) <= INT_MAX)
    by (vm_compute; discriminate).
  split; [exact H1|]. split; [exact H2|]. split; [exact H3|]. split; [exact H4|].
  split; [exact H5|]. split; [exact H6|]. split; [exact H7|].
  exact (X11_main_reads_the_files_in_order strtol_digit trivial_oracle one_file
           args_q3 [[(g01, 2)]] H1 H2 H3 H4 H5 H6 H7).
Defined.

Lemma decimal_long i : 100 <= i -> (3 <= String.length (decimal i))%nat.
Proof.
  intros Hi. destruct i as [|p|p]; try lia.
  unfold decimal. cbn [Z.to_int DecimalString.NilZero.string_of_int].
  pose proof (DecimalPos.Unsigned.of_to p) as H.
  destruct (Pos.to_uint p) as [|d|d|d|d|d|d|d|d|d|d];
    try (cbn in H; discriminate H);
    (destruct d as [|d|d|d|d|d|d|d|d|d|d];
     [cbn in H; first [discriminate H|injection H as <-; lia]|..];
     (destruct d as [|d|d|d|d|d|d|d|d|d|d];
      [cbn in H; first [discriminate H|injection H as <-; lia]|..]; cbn; lia)).
Qed.

Lemma length_append a c :
  String.length (String.append a c) = (String.length a + String.length c)%nat.
Proof. induction a as [|x a IH]; cbn; [reflexivity|now rewrite IH]. Qed.

(** X14: the file name is built correctly while the index has at most
    two digits.  From index 100 on, [snprintf] keeps two digits only, so
    that without [-l] the name built is not the one of that index, and
    with [-l] three digits are kept and the name no longer fits the
    array [infilename]. *)
Theorem X14_file_name_holds_two_digits l i :
  (0 <= i < 100 -> infilename l i = Some (dig_name l i)) /\
  (100 <= i ->
   infilename true i = None /\
   exists name, infilename false i = Some name /\ name <> dig_name false i).
Proof.
  split; [apply infilename_small|].
  intros Hi. pose proof (decimal_long i Hi) as Hlen.
  unfold infilename, dig_name.
  destruct (decimal i) as [|a [|b [|c s]]]; cbn in Hlen; try lia.
  assert (Hs : String.substring 0 0 s = String.EmptyString) by (destruct s; reflexivity).
  unfold INFILE_PREFIX, INFILE_SUFFIX. cbn. rewrite Hs. cbn.
  split; [reflexivity|].
  eexists. split; [reflexivity|].
  intros H. apply (f_equal String.length) in H. cbn in H.
  rewrite length_append in H. cbn in H. lia.
Qed.

(** * What the filter decides, in terms of paths *)

Section GlobalSink.

Variables (g : graph) (n : Z).
Hypothesis Hwf : wf_graph g n.

Lemma forallb_false_ex {A : Type} (f : A -> bool) l :
  forallb f l = false -> exists x, In x l /\ f x = false.
Proof.
  induction l as [|a l IH]; cbn [forallb]; [discriminate|].
  destruct (f a) eqn:E; cbn [andb].
  - intros H. destruct (IH H) as (x & Hx & Hf). exists x. split; [now right|auto].
  - intros _. exists a. split; [now left|auto].
Qed.

(** A vertex set that some edge leaves has such an edge to show. *)
Lemma exit_edge S : within n S -> ~ closed_set g S ->
  exists u w, ISELEMENT S u = true /\ edge g u w /\ ISELEMENT S w = false.
Proof.
  intros HS Hnc.
  destruct (forallb (fun u => forallb (fun w =>
              negb (ISELEMENT S u && ISELEMENT (g u) w) || ISELEMENT S w) (range n))
              (range n)) eqn:E.
  - exfalso. apply Hnc. intros u w Hu He.
    pose proof (within_ISELEMENT n S u HS Hu) as Hur.
    destruct (edge_in_setlist g n Hwf u w Hur He) as [_ Hwr].
    rewrite forallb_forall in E. specialize (E u (proj2 (In_range _ _) Hur)).
    rewrite forallb_forall in E. specialize (E w (proj2 (In_range _ _) Hwr)).
    unfold edge in He. rewrite Hu, He in E. exact E.
  - apply forallb_false_ex in E. destruct E as (u & _ & E).
    apply forallb_false_ex in E. destruct E as (w & _ & E).
    apply orb_false_iff in E. destruct E as [E1 E2].
    apply negb_false_iff, andb_true_iff in E1. destruct E1 as [Hu He].
    exists u, w. auto.
Qed.

Lemma closed_reach S u w : closed_set g S -> reach g u w ->
  ISELEMENT S u = true -> ISELEMENT S w = true.
Proof.
  intros HS H. induction H as [|u w' y He _ IH]; intros Hu; auto.
  apply IH. apply (HS u w'); auto.
Qed.

Lemma reach_range u w : reach g u w -> 0 <= u < n -> 0 <= w < n.
Proof.
  intros H. induction H as [|u w' y He _ IH]; intros Hu; auto.
  apply IH. apply (edge_in_setlist g n Hwf u w' Hu He).
Qed.

(** From every recorded component a path leads to a leaf component. *)
Lemma reaches_leaf b t : TInv g n b t -> RInv g t ->
  forall k i, (Z.to_nat i <= k)%nat -> 0 <= i < currentSCC t ->
  forall u, inscc t i u ->
  exists l w, 0 <= l < currentSCC t /\ isLeaf (sccinfos t l) = true /\
              inscc t l w /\ reach g u w.
Proof.
  intros I R. induction k as [|k IH]; intros i Hk Hi u Hu.
  - assert (i = 0) by lia. subst i.
    exists 0, u. split; [lia|]. split; [apply (ti_leaf0 _ _ _ _ I); lia|].
    split; [exact Hu|apply reach_refl].
  - destruct (isLeaf (sccinfos t i)) eqn:El.
    + exists i, u. split; [lia|]. split; [exact El|]. split; [exact Hu|apply reach_refl].
    + assert (Hnc : ~ closed_set g (sccVertices (sccinfos t i))).
      { intros Hc. apply (ti_leaf _ _ _ _ I i Hi) in Hc. congruence. }
      destruct (exit_edge _ (ti_scc_within _ _ _ _ I i Hi) Hnc) as (u0 & w0 & Hu0 & He & Hw0).
      destruct (ri_down _ _ R i u0 w0 Hi Hu0 He) as (j & Hj & Hjw).
      assert (j <> i) by (intros ->; unfold inscc in Hjw; congruence).
      destruct (IH j ltac:(lia) ltac:(lia) w0 Hjw) as (l & w & Hl & Hleaf & Hlw & Hr).
      exists l, w. split; [exact Hl|]. split; [exact Hleaf|]. split; [exact Hlw|].
      apply reach_trans with u0; [apply (ri_conn _ _ R i); auto|].
      eapply reach_step; eauto.
Qed.

Variable c : Z -> Z.
Hypothesis Hn : n < MAXN.

Lemma extend_row u : 0 <= u < n ->
  extend g c n u = if negb (c u =? 0) then ADDELEMENT (g u) n else g u.
Proof.
  intros Hu. unfold extend.
  destruct (Z.leb_spec 0 u); [|lia]. destruct (Z.ltb_spec u n); [|lia]. reflexivity.
Qed.

Lemma extend_old_edge u w : 0 <= u < n -> edge g u w -> edge (extend g c n) u w.
Proof.
  intros Hu He. unfold edge. rewrite (extend_row u Hu).
  destruct (negb (c u =? 0)); [|exact He].
  assert (Hws : 0 <= n < WORDSIZE)
    by (destruct Hwf as [[? ?] _]; unfold MAXN, WORDSIZE in *; lia).
  rewrite ISELEMENT_ADDELEMENT by lia. unfold edge in He. rewrite He. apply orb_true_r.
Qed.

Lemma extend_edge_cases u w : 0 <= u < n -> edge (extend g c n) u w ->
  (w = n /\ c u <> 0) \/ edge g u w.
Proof.
  intros Hu He. unfold edge in He. rewrite (extend_row u Hu) in He.
  destruct (Z.eqb_spec (c u) 0) as [Hc|Hc]; cbn [negb] in He; [now right|].
  assert (Hws : 0 <= n < WORDSIZE)
    by (destruct Hwf as [[? ?] _]; unfold MAXN, WORDSIZE in *; lia).
  rewrite ISELEMENT_ADDELEMENT in He by lia.
  apply orb_true_iff in He. destruct He as [He|He]; [left|now right].
  apply Z.eqb_eq in He. auto.
Qed.

Lemma reach_extend u w : reach g u w -> 0 <= u < n -> reach (extend g c n) u w.
Proof.
  intros H. induction H as [|u w' y He _ IH]; intros Hu; [apply reach_refl|].
  eapply reach_step; [apply extend_old_edge; eauto|].
  apply IH. apply (edge_in_setlist g n Hwf u w' Hu He).
Qed.

(** A path to the new vertex leaves the old digraph at a coloured
    vertex. *)
Lemma reach_new u x : reach (extend g c n) u x -> 0 <= u < n -> x = n ->
  exists v, reach g u v /\ 0 <= v < n /\ c v <> 0.
Proof.
  intros H. induction H as [u|u w y He _ IH]; intros Hu Hx; [lia|].
  destruct (extend_edge_cases u w Hu He) as [[-> Hc]|Hg].
  - exists u. split; [apply reach_refl|auto].
  - destruct (IH (proj2 (edge_in_setlist g n Hwf u w Hu Hg)) Hx) as (v & Hr & Hv & Hc).
    exists v. split; [eapply reach_step; eauto|auto].
Qed.

End GlobalSink.

(** The filter's test on a decomposition that satisfies the
    invariants and covers every vertex. *)
Lemma admissible_sink g n b t c :
  wf_graph g n -> n < MAXN -> TInv g n b t -> RInv g t ->
  (forall u, 0 <= u < n -> exists i, 0 <= i < currentSCC t /\ inscc t i u) ->
  (admissible t c = true <->
   forall u, 0 <= u < n -> reach (extend g c n) u n).
Proof.
  intros Hwf Hn I R Hmem.
  rewrite (admissible_tarjan g n b t c Hwf I). split.
  - intros Hadm u Hu.
    destruct (Hmem u Hu) as (i & Hi & Hiu).
    destruct (reaches_leaf g n Hwf b t I R (Z.to_nat i) i (Nat.le_refl _)
                Hi u Hiu) as (l & w & Hl & Hleaf & Hlw & Hr).
    destruct (Hadm l Hl Hleaf) as (v & Hlv & Hc).
    assert (Hvr : 0 <= v < n)
      by (apply (within_ISELEMENT n _ v (ti_scc_within _ _ _ _ I l Hl) Hlv)).
    apply reach_trans with v.
    + apply (reach_extend g n Hwf c Hn); [|exact Hu].
      apply reach_trans with w; [exact Hr|]. apply (ri_conn _ _ R l); auto.
    + apply reach_edge. apply (extend_edge g n c Hwf Hn v Hvr Hc).
  - intros Hsink i Hi Hleaf.
    destruct (ti_scc_nonempty _ _ _ _ I i Hi) as (u & Hiu).
    assert (Hur : 0 <= u < n)
      by (apply (within_ISELEMENT n _ u (ti_scc_within _ _ _ _ I i Hi) Hiu)).
    destruct (reach_new g n Hwf c Hn u n (Hsink u Hur) Hur eq_refl) as (v & Hr & Hv & Hc).
    exists v. split; [|exact Hc].
    apply (closed_reach g _ u v); auto. now apply (ti_leaf _ _ _ _ I i Hi).
Qed.

Lemma tarjan_reference g n : wf_graph g n ->
  tarjan g n initial_tarjan_state = Some (reference_scc g n).
Proof.
  intros Hwf.
  destruct (tarjan_spec g n Hwf initial_tarjan_state) as (t & Ht & _).
  - cbn. lia.
  - cbn. destruct Hwf as [[? ?] _]. unfold MAXN, INT_MAX in *. lia.
  - unfold reference_scc. now rewrite Ht.
Qed.

Lemma reach_graph_ext g g' u w : (forall v, g v = g' v) -> reach g u w -> reach g' u w.
Proof.
  intros Hg H. induction H as [|u w' y He _ IH]; [apply reach_refl|].
  eapply reach_step; [|exact IH]. unfold edge in *. now rewrite <- Hg.
Qed.

Lemma extend_ext g n c c' : (forall j, 0 <= j < n -> c j = c' j) ->
  forall v, extend g c n v = extend g c' n v.
Proof.
  intros Hc v. unfold extend.
  destruct (Z.leb_spec 0 v), (Z.ltb_spec v n); cbn [andb]; auto.
  rewrite Hc by lia. reflexivity.
Qed.

(** X12: the filter accepts a colouring exactly when, in the extended
    digraph, the new vertex can be reached from every vertex, that is,
    when the new vertex is a global sink. *)
Theorem X12_accepted_iff_new_vertex_is_global_sink g n s t c :
  wf_graph g n -> n < MAXN ->
  0 <= vertex_index s -> vertex_index s + n <= INT_MAX ->
  tarjan g n s = Some t ->
  (admissible t c = true <->
   forall u, 0 <= u < n -> reach (extend g c n) u n).
Proof.
  intros Hwf Hn H0 Hmax Hrun.
  destruct (tarjan_spec g n Hwf s H0 Hmax) as (t' & Hrun' & I & _).
  rewrite Hrun in Hrun'. injection Hrun' as <-.
  apply (admissible_sink g n (vertex_index s) t c Hwf Hn I).
  - exact (tarjan_RInv g n s t Hwf H0 Hmax Hrun).
  - intros u Hu. exact (tarjan_member g n Hwf s t u H0 Hmax Hrun Hu).
Qed.

Lemma X12_witness :
  wf_graph g01 2 /\ 2 < MAXN /\
  0 <= vertex_index initial_tarjan_state /\
  vertex_index initial_tarjan_state + 2 <= INT_MAX /\
  tarjan g01 2 initial_tarjan_state = Some (reference_scc g01 2) /\
  (admissible (reference_scc g01 2) col_01 = true <->
   forall u, 0 <= u < 2 -> reach (extend g01 col_01 2) u 2).
Proof.
  assert (H1 : 2 < MAXN) by (unfold MAXN; lia).
  assert (H2 : 0 <= vertex_index initial_tarjan_state) by (cbn; lia).
  assert (H3 : vertex_index initial_tarjan_state + 2 <= INT_MAX)
    by (cbn; unfold INT_MAX; lia).
  pose proof (tarjan_reference g01 2 wf_g01) as H4.
  split; [exact wf_g01|]. split; [exact H1|]. split; [exact H2|]. split; [exact H3|].
  split; [exact H4|].
  exact (X12_accepted_iff_new_vertex_is_global_sink g01 2 initial_tarjan_state
           (reference_scc g01 2) col_01 wf_g01 H1 H2 H3 H4).
Defined.

(** X13: the number the program adds to its counter for a digraph on
    [1 <= n < MAXN] vertices is the number of colourings with colours 0
    and 1 that respect [prev], pass the canonicity test for the group
    the oracle returned, and make the new vertex of the extended digraph
    reachable from every vertex. *)
Theorem X13_count_for_one_digraph nauty dswitch g n st :
  input_ok nauty (g, n) -> 1 <= n < MAXN ->
  0 <= vertex_index (tj st) -> vertex_index (tj st) + n <= INT_MAX ->
  let res := nauty g (snd (prev_weight g 0 n)) n in
  let prev := orbit_prev res n (fst (prev_weight g 0 n)) in
  let gs := if grpsize2 res =? 0 then grpsize1 res else 0 in
  exists st' L,
    process_graph nauty dswitch (g, n) st = Some st' /\
    NoDup L /\
    totalCount (vc st') = totalCount (vc st) + Z.of_nat (length L) /\
    forall cl, In cl L <->
      eligible prev 0 (n * 2) 2 n cl /\
      passes (Some (group_elts res)) gs n (lookup cl) = true /\
      forall u, 0 <= u < n -> reach (extend g (lookup cl) n) u n.
Proof.
  intros Hin Hn H0 H1 res prev gs.
  pose proof Hin as [Hwf Hor]. cbn [fst snd] in Hwf, Hor.
  assert (Hg : group_ok (Some (group_elts res)) gs n) by (apply Hor; lia).
  destruct (process_graph_effect nauty dswitch g n st Hin H0 H1) as (st' & E & V & O).
  set (t := reference_scc g n) in *.
  set (cout := fun _ : Z => 0).
  set (cands := candidates prev 0 (n * 2) 2 n (Z.to_nat n) 0 0 []).
  assert (HO : graph_effect nauty dswitch g n (obs_of (vc st))
               = replay t dswitch g n cout
                   (survivors (Some (group_elts res)) gs n cout cands) (obs_of (vc st))).
  { unfold graph_effect, colour_effect, cands, prev, gs, res, t, cout.
    destruct (prev_weight g 0 n) as [prev0 weight]. cbn [fst snd]. cbv zeta.
    rewrite Z.eqb_refl. cbn [orb].
    destruct (Z.ltb_spec (n * 2) 0); [lia|].
    destruct (Z.eqb_spec n 0); [lia|]. reflexivity. }
  rewrite HO in O.
  assert (Hprev : forall l, 0 <= l < n -> prev l < l).
  { intros l Hl. apply orbit_prev_lt; auto. intros i Hi. now apply prev_weight_prev. }
  pose proof (tarjan_reference g n Hwf) as Ht.
  destruct (tarjan_spec g n Hwf initial_tarjan_state) as (t' & Ht' & I & _).
  { cbn. lia. }
  { cbn. unfold MAXN, INT_MAX in *. lia. }
  rewrite Ht in Ht'. injection Ht' as <-. fold t in I, Ht.
  exists st', (filter (fun cl => admissible t (fill n cout cl))
                 (survivors (Some (group_elts res)) gs n cout cands)).
  split; [exact E|]. split; [|split].
  - apply NoDup_filter. unfold survivors. apply NoDup_filter. apply candidates_NoDup.
  - apply (f_equal obs_count) in O. rewrite replay_count_length in O.
    unfold obs_of, obs_count in O. cbn [fst] in O. exact O.
  - intros cl. rewrite filter_In. unfold survivors. rewrite filter_In.
    unfold cands. rewrite (candidates_eligible prev 0 (n * 2) 2 n Hprev cl) by lia.
    assert (Hfill : forall j, 0 <= j < n -> fill n cout cl j = lookup cl j)
      by (intros j Hj; now apply fill_in).
    rewrite (passes_ext_in (Some (group_elts res)) gs n (fill n cout cl) (lookup cl))
      by (auto; lia).
    rewrite (admissible_ext_in g n (vertex_index initial_tarjan_state) t
               (fill n cout cl) (lookup cl) Hwf I Hfill).
    assert (Hi0 : 0 <= vertex_index initial_tarjan_state) by (cbn; lia).
    assert (Hi1 : vertex_index initial_tarjan_state + n <= INT_MAX)
      by (cbn; unfold MAXN, INT_MAX in *; lia).
    rewrite (admissible_sink g n (vertex_index initial_tarjan_state) t (lookup cl) Hwf
               ltac:(lia) I (tarjan_RInv g n initial_tarjan_state t Hwf Hi0 Hi1 Ht)
               (fun u Hu => tarjan_member g n Hwf initial_tarjan_state t u Hi0 Hi1 Ht Hu)).
    tauto.
Qed.

Lemma X13_witness :
  input_ok trivial_oracle (g01, 2) /\ 1 <= 2 < MAXN /\
  0 <= vertex_index (tj initial_globals) /\
  vertex_index (tj initial_globals) + 2 <= INT_MAX /\
  let res := trivial_oracle g01 (snd (prev_weight g01 0 2)) 2 in
  let prev := orbit_prev res 2 (fst (prev_weight g01 0 2)) in
  let gs := if grpsize2 res =? 0 then grpsize1 res else 0 in
  exists st' L,
    process_graph trivial_oracle false (g01, 2) initial_globals = Some st' /\
    NoDup L /\
    totalCount (vc st') = totalCount (vc initial_globals) + Z.of_nat (length L) /\
    forall cl, In cl L <->
      eligible prev 0 (2 * 2) 2 2 cl /\
      passes (Some (group_elts res)) gs 2 (lookup cl) = true /\
      forall u, 0 <= u < 2 -> reach (extend g01 (lookup cl) 2) u 2.
Proof.
  assert (H1 : 1 <= 2 < MAXN) by (unfold MAXN; lia).
  assert (H2 : 0 <= vertex_index (tj initial_globals)) by (cbn; lia).
  assert (H3 : vertex_index (tj initial_globals) + 2 <= INT_MAX)
    by (cbn; unfold INT_MAX; lia).
  split; [exact input_ok_g01|]. split; [exact H1|]. split; [exact H2|].
  split; [exact H3|].
  exact (X13_count_for_one_digraph trivial_oracle false g01 2 initial_globals
           input_ok_g01 H1 H2 H3).
Defined.

Section CountBounds.







Variable nauty : oracle.

(** The search for one digraph as a list of candidates that go through
    the canonicity test and the filter. *)
Lemma graph_effect_replay dswitch g n o : 0 <= n ->
  exists prev,
    (forall l, 0 <= l < n -> prev l < l) /\
    graph_effect nauty dswitch g n o
    = replay (reference_scc g n) dswitch g n (fun _ => 0)
        (survivors (if n =? 0 then None
                    else Some (group_elts (nauty g (snd (prev_weight g 0 n)) n)))
           (if grpsize2 (nauty g (snd (prev_weight g 0 n)) n) =? 0
            then grpsize1 (nauty g (snd (prev_weight g 0 n)) n) else 0)
           n (fun _ => 0)
           (candidates prev 0 (n * 2) 2 n (Z.to_nat n) 0 0 []))
        o.
Proof.
  intros Hn. unfold graph_effect, colour_effect.
  pose proof (prev_weight_prev g 0 n) as Hp.
  destruct (prev_weight g 0 n) as [prev0 weight]. cbn [fst snd] in *. cbv zeta.
  rewrite Z.eqb_refl. cbn [orb].
  destruct (Z.ltb_spec (n * 2) 0); [lia|].
  eexists. split; [|reflexivity].
  destruct (n =? 0); [exact Hp|]. now apply orbit_prev_lt.
Qed.


End CountBounds.


(** X16: under [-d], every digraph the program writes for a digraph on
    [n < MAXN] vertices is that digraph with one more vertex, which has
    no outgoing edge and can be reached from every other vertex: the
    digraphs generated have a global sink. *)
Theorem X16_written_digraphs_have_a_global_sink nauty g n st :
  input_ok nauty (g, n) -> n < MAXN ->
  0 <= vertex_index (tj st) -> vertex_index (tj st) + n <= INT_MAX ->
  exists st' L,
    process_graph nauty true (g, n) st = Some st' /\
    written (vc st') = written (vc st) ++ L /\
    forall x, In x L ->
      exists c, x = (map (extend g c n) (range (n + 1)), n + 1) /\
        wf_graph (extend g c n) (n + 1) /\
        (forall u w, 0 <= u < n -> 0 <= w < n ->
           (edge (extend g c n) u w <-> edge g u w)) /\
        (forall w, ~ edge (extend g c n) n w) /\
        (forall u, 0 <= u < n -> reach (extend g c n) u n).
Proof.
  intros [Hwf Hor] Hlt H0 H1. cbn [fst snd] in *.
  assert (Hn : 0 <= n <= MAXN) by apply Hwf.
  destruct (tarjan_spec g n Hwf (tj st) H0 H1) as (t & Et & I & _).
  destruct (colourdigraph_effect nauty t true g 0 0 NOLIMIT 2 n (vc st) Hn Hor)
    as (c & Ec & Oc).
  destruct (colour_effect_replay nauty t true g 0 0 NOLIMIT 2 n (col (vc st))
              (obs_of (vc st))) as (cls & Hcls).
  rewrite Hcls in Oc.
  unfold process_graph. rewrite Et. cbn [obind]. rewrite Ec. cbn [obind].
  pose proof (replay_written_on t g n (col (vc st)) cls (obs_of (vc st))) as H.
  rewrite <- Oc in H. unfold obs_of in H. cbn [fst snd] in H.
  eexists. eexists. split; [reflexivity|]. cbn [vc]. split; [exact H|].
  intros x Hx. apply in_map_iff in Hx. destruct Hx as (cl & <- & Hcl).
  apply filter_In in Hcl. destruct Hcl as [_ Hadm].
  exists (fill n (col (vc st)) cl). split; [reflexivity|].
  split; [now apply extend_wf|]. split; [|split; [apply extend_sink|]].
  - intros u w Hu Hw. split.
    + intros He. destruct (extend_edge_cases g n Hwf _ Hlt u w Hu He) as [[-> _]|Hg];
        [lia|exact Hg].
    + now apply extend_old_edge.
  - apply (admissible_sink g n (vertex_index (tj st)) t _ Hwf Hlt I); auto.
    + exact (tarjan_RInv g n (tj st) t Hwf H0 H1 Et).
    + intros u Hu. exact (tarjan_member g n Hwf (tj st) t u H0 H1 Et Hu).
Qed.

Lemma X16_witness :
  input_ok trivial_oracle (g01, 2) /\ 2 < MAXN /\
  0 <= vertex_index (tj initial_globals) /\
  vertex_index (tj initial_globals) + 2 <= INT_MAX /\
  exists st' L,
    process_graph trivial_oracle true (g01, 2) initial_globals = Some st' /\
    written (vc st') = written (vc initial_globals) ++ L /\
    forall x, In x L ->
      exists c, x = (map (extend g01 c 2) (range (2 + 1)), 2 + 1) /\
        wf_graph (extend g01 c 2) (2 + 1) /\
        (forall u w, 0 <= u < 2 -> 0 <= w < 2 ->
           (edge (extend g01 c 2) u w <-> edge g01 u w)) /\
        (forall w, ~ edge (extend g01 c 2) 2 w) /\
        (forall u, 0 <= u < 2 -> reach (extend g01 c 2) u 2).
Proof.
  assert (H1 : 2 < MAXN) by (unfold MAXN; lia).
  assert (H2 : 0 <= vertex_index (tj initial_globals)) by (cbn; lia).
  assert (H3 : vertex_index (tj initial_globals) + 2 <= INT_MAX)
    by (cbn; unfold INT_MAX; lia).
  split; [exact input_ok_g01|]. split; [exact H1|]. split; [exact H2|].
  split; [exact H3|].
  exact (X16_written_digraphs_have_a_global_sink trivial_oracle g01 2 initial_globals
           input_ok_g01 H1 H2 H3).
Defined.

(** Colourings with colours 0 and 1 that give the same extended rows
    are the same. *)
Lemma extend_injective g n cl1 cl2 cout : wf_graph g n -> n < MAXN ->
  length cl1 = Z.to_nat n -> length cl2 = Z.to_nat n ->
  (forall i, 0 <= i < n -> 0 <= lookup cl1 i <= 1) ->
  (forall i, 0 <= i < n -> 0 <= lookup cl2 i <= 1) ->
  map (extend g (fill n cout cl1) n) (range (n + 1))
  = map (extend g (fill n cout cl2) n) (range (n + 1)) ->
  cl1 = cl2.
Proof.
  intros Hwf Hn L1 L2 B1 B2 Hrows.
  assert (Hrow : forall u, 0 <= u < n ->
            extend g (fill n cout cl1) n u = extend g (fill n cout cl2) n u).
  { intros u Hu. apply (proj1 map_ext_in_iff Hrows). apply In_range. lia. }
  assert (Hnew : forall c u, 0 <= u < n -> (edge (extend g c n) u n <-> c u <> 0)).
  { intros c u Hu. split.
    - intros He. destruct (extend_edge_cases g n Hwf c Hn u n Hu He) as [[_ Hc]|Hg]; auto.
      destruct (edge_in_setlist g n Hwf u n Hu Hg) as [_ Hr]. lia.
    - intros Hc. now apply extend_edge. }
  apply (nth_ext _ _ 0 0); [congruence|].
  intros k Hk.
  assert (Hu : 0 <= Z.of_nat k < n) by lia.
  pose proof (Hnew (fill n cout cl1) _ Hu) as E1.
  pose proof (Hnew (fill n cout cl2) _ Hu) as E2.
  unfold edge in E1, E2. rewrite (Hrow _ Hu) in E1. rewrite !fill_in in E1, E2 by lia.
  specialize (B1 _ Hu). specialize (B2 _ Hu). unfold lookup in *.
  rewrite Nat2Z.id in *.
  destruct (Z.eq_dec (nth k cl1 0) 0), (Z.eq_dec (nth k cl2 0) 0); try lia; tauto.
Qed.

(** X17: under [-d] the program never writes the same digraph twice for
    one input digraph on [n < MAXN] vertices. *)
Theorem X17_no_digraph_written_twice nauty g n st :
  input_ok nauty (g, n) -> n < MAXN ->
  0 <= vertex_index (tj st) -> vertex_index (tj st) + n <= INT_MAX ->
  exists st' L,
    process_graph nauty true (g, n) st = Some st' /\
    written (vc st') = written (vc st) ++ L /\ NoDup L.
Proof.
  intros Hin Hlt H0 H1. pose proof Hin as [Hwf Hor]. cbn [fst snd] in Hwf, Hor.
  assert (Hn : 0 <= n <= MAXN) by apply Hwf.
  destruct (process_graph_effect nauty true g n st Hin H0 H1) as (st' & E & _ & O).
  destruct (graph_effect_replay nauty true g n (obs_of (vc st)) ltac:(lia))
    as (prev & Hprev & HO).
  rewrite HO in O. clear HO.
  set (t := reference_scc g n) in *.
  set (cout := fun _ : Z => 0) in *.
  set (cands := candidates prev 0 (n * 2) 2 n (Z.to_nat n) 0 0 []) in *.
  match type of O with _ = replay _ _ _ _ _ ?l _ => set (cls := l) in * end.
  pose proof (replay_written_on t g n cout cls (obs_of (vc st))) as H.
  rewrite <- O in H. unfold obs_of in H. cbn [fst snd] in H.
  exists st'. eexists. split; [exact E|]. split; [exact H|].
  assert (Hcand : forall cl, In cl cls ->
            length cl = Z.to_nat n /\ forall i, 0 <= i < n -> 0 <= lookup cl i <= 1).
  { intros cl Hcl. unfold cls, survivors in Hcl. apply filter_In in Hcl.
    destruct Hcl as [Hcl _].
    apply (candidates_spec prev 0 (n * 2) 2 n Hprev (Z.to_nat n) 0 0 [] cl) in Hcl;
      [|lia|lia|reflexivity|reflexivity].
    destruct Hcl as (suf & -> & Hlen & Hb & _). cbn [app] in *.
    split; [exact Hlen|]. intros i Hi. destruct (Hb i ltac:(lia)) as [Hr _]. lia. }
  apply Injective_map_NoDup_in.
  - intros cl1 cl2 Hc1 Hc2 Heq. apply filter_In in Hc1, Hc2.
    destruct (Hcand cl1 (proj1 Hc1)) as [L1 B1].
    destruct (Hcand cl2 (proj1 Hc2)) as [L2 B2].
    injection Heq as Hrows.
    apply (extend_injective g n cl1 cl2 cout Hwf Hlt L1 L2 B1 B2 Hrows).
  - apply NoDup_filter. unfold cls, survivors. apply NoDup_filter.
    apply candidates_NoDup.
Qed.

Lemma X17_witness :
  input_ok trivial_oracle (g01, 2) /\ 2 < MAXN /\
  0 <= vertex_index (tj initial_globals) /\
  vertex_index (tj initial_globals) + 2 <= INT_MAX /\
  exists st' L,
    process_graph trivial_oracle true (g01, 2) initial_globals = Some st' /\
    written (vc st') = written (vc initial_globals) ++ L /\ NoDup L.
Proof.
  assert (H1 : 2 < MAXN) by (unfold MAXN; lia).
  assert (H2 : 0 <= vertex_index (tj initial_globals)) by (cbn; lia).
  assert (H3 : vertex_index (tj initial_globals) + 2 <= INT_MAX)
    by (cbn; unfold INT_MAX; lia).
  split; [exact input_ok_g01|]. split; [exact H1|]. split; [exact H2|].
  split; [exact H3|].
  exact (X17_no_digraph_written_twice trivial_oracle g01 2 initial_globals
           input_ok_g01 H1 H2 H3).
Defined.
